(** * SLATE: task graphs of the tiled Cholesky factorization and of the
      right-hand-side-moving triangular solve, the [stedc] driver and the
      LAPACK-style [gesv] entry point.

    The C++ sources build OpenMP task graphs from a master thread: a loop
    over tile columns creates tasks annotated with [depend(in/inout: token)]
    clauses.  The embedding below follows the master thread: every function
    returns the sequence of events it issues (task creations with their
    dependencies, priorities and kernel calls, and the direct calls made
    outside tasks).  Index variables are [int64_t] in the source and [Z]
    here; signed overflow is undefined behaviour in C++, so the arithmetic
    is exact on every run that is defined.  Narrowing to [int] is written
    out with [to_int]. *)

From Equations Require Import Equations.
From Stdlib Require Import ZArith List Bool Lia.
From Stdlib Require Strings.String.
From Stdlib Require Import SpecFloat.
Import ListNotations.
Import String.StringSyntax.
Delimit Scope string_scope with string.
Open Scope Z_scope.

Set Implicit Arguments.

(** ** Counted loops *)

Module Loop.

Definition inspect {A : Type} (a : A) : {b : A | a = b} := exist _ a eq_refl.

(** [for (j = j0; cond(j) && j < hi; ++j)]: the values of [j] for which the
    body runs, in order.  The loop variable is not assigned in any body of
    the sources modelled here. *)
Equations? for_up (cond : Z -> bool) (hi : Z) (j : Z) : list Z
  by wf (Z.to_nat (hi - j)) lt :=
  for_up cond hi j with inspect (cond j && (j <? hi)) => {
    | exist _ true H := j :: for_up cond hi (j + 1);
    | exist _ false _ := [] }.
Proof.
  apply andb_true_iff in H. destruct H as [_ H]. apply Z.ltb_lt in H. lia.
Qed.

(** [for (j = j0; cond(j) && j >= lo; --j)]. *)
Equations? for_down (cond : Z -> bool) (lo : Z) (j : Z) : list Z
  by wf (Z.to_nat (j + 1 - lo)) lt :=
  for_down cond lo j with inspect (cond j && (j >=? lo)) => {
    | exist _ true H := j :: for_down cond lo (j - 1);
    | exist _ false _ := [] }.
Proof.
  apply andb_true_iff in H. destruct H as [_ H]. apply Z.geb_le in H. lia.
Qed.

(** [for (j = lo; j < hi; ++j)] *)
Definition range (lo hi : Z) : list Z := for_up (fun _ => true) hi lo.

(** [for (j = hi; j >= lo; --j)] *)
Definition range_down (hi lo : Z) : list Z := for_down (fun _ => true) lo hi.

End Loop.

(** Conversion of an [int64_t] value to [int] (32-bit two's complement). *)
Definition to_int (z : Z) : Z := (z + 2147483648) mod 4294967296 - 2147483648.

Definition INT_MAX : Z := 2147483647.

(** ** Enumerations of the library *)

Inductive Target := Host | HostTask | HostNest | HostBatch | Devices.
Inductive Uplo := Upper | Lower | General.
Inductive Op := NoTrans | Trans | ConjTrans.
Inductive Side := Left | Right.
Inductive Diag := NonUnit | Unit.
Inductive TileReleaseStrategy := TRS_None | TRS_Internal | TRS_Slate | TRS_All.
Inductive Norm := NormOne | NormInf | NormMax | NormFro.
Inductive MatrixType := MT_General | MT_Lower | MT_Upper.

Definition Target_eqb (a b : Target) : bool :=
  match a, b with
  | Host, Host | HostTask, HostTask | HostNest, HostNest
  | HostBatch, HostBatch | Devices, Devices => true
  | _, _ => false
  end.

Definition Uplo_eqb (a b : Uplo) : bool :=
  match a, b with
  | Upper, Upper | Lower, Lower | General, General => true
  | _, _ => false
  end.

Definition Op_eqb (a b : Op) : bool :=
  match a, b with
  | NoTrans, NoTrans | Trans, Trans | ConjTrans, ConjTrans => true
  | _, _ => false
  end.

Definition TRS_eqb (a b : TileReleaseStrategy) : bool :=
  match a, b with
  | TRS_None, TRS_None | TRS_Internal, TRS_Internal
  | TRS_Slate, TRS_Slate | TRS_All, TRS_All => true
  | _, _ => false
  end.

(** [Options] is a map from option names to values; these are the keys the
    sources read, through [get_option(opts, key, default)], or write. *)
Record Options := {
  opt_Lookahead : option Z;
  opt_Target : option Target;
  opt_TileReleaseStrategy : option TileReleaseStrategy;
  opt_MaxPanelThreads : option Z;
  opt_InnerBlocking : option Z
}.

Definition get_option {A : Type} (o : option A) (default : A) : A :=
  match o with Some v => v | None => default end.

(** [local_opts[ Option::Lookahead ] = v] *)
Definition set_Lookahead (v : Z) (o : Options) : Options :=
  {| opt_Lookahead := Some v;
     opt_Target := opt_Target o;
     opt_TileReleaseStrategy := opt_TileReleaseStrategy o;
     opt_MaxPanelThreads := opt_MaxPanelThreads o;
     opt_InnerBlocking := opt_InnerBlocking o |}.

(** [local_opts[ Option::TileReleaseStrategy ] = v] *)
Definition set_TileReleaseStrategy (v : TileReleaseStrategy) (o : Options)
  : Options :=
  {| opt_Lookahead := opt_Lookahead o;
     opt_Target := opt_Target o;
     opt_TileReleaseStrategy := Some v;
     opt_MaxPanelThreads := opt_MaxPanelThreads o;
     opt_InnerBlocking := opt_InnerBlocking o |}.

(** The matrix classes are declared in headers that are not among the
    sources; the algorithms use them through this interface only, which is
    taken as a parameter.  [uplo] and [op] are the logical (effective)
    values the accessors [A.uplo()] and [A.op()] return. *)
Class BaseMatrix (M : Type) := {
  mt : M -> Z;
  nt : M -> Z;
  op : M -> Op;
  uplo : M -> Uplo;
  transpose : M -> M;
  conj_transpose : M -> M
}.

(** ** Task graphs *)

(** Sub-matrix views as the sources write them. *)
Inductive View :=
| sub (i1 i2 j1 j2 : Z)      (* [X.sub(i1, i2, j1, j2)] *)
| subd (i1 i2 : Z)           (* [A.sub(i1, i2)] of a Hermitian or triangular [A] *)
| conjT (v : View)           (* [conjTranspose(v)] *)
| tri (d : Diag) (v : View). (* [TriangularMatrix(d, v)] *)

(** Tile rows and tile columns of a view: [((i1, i2), (j1, j2))]. *)
Fixpoint view_extent (v : View) : (Z * Z) * (Z * Z) :=
  match v with
  | sub i1 i2 j1 j2 => ((i1, i2), (j1, j2))
  | subd i1 i2 => ((i1, i2), (i1, i2))
  | conjT v => (snd (view_extent v), fst (view_extent v))
  | tri _ v => view_extent v
  end.

Definition view_rows (v : View) : list Z :=
  Loop.range (fst (fst (view_extent v))) (snd (fst (view_extent v)) + 1).

Definition view_columns (v : View) : list Z :=
  Loop.range (fst (snd (view_extent v))) (snd (snd (view_extent v)) + 1).

(** One entry [{i, j, {destinations}, tag}] of a broadcast list. *)
Record BcastEntry := {
  bc_i : Z;
  bc_j : Z;
  bc_dst : list View;
  bc_tag : option Z
}.

(** Calls made by the factorization.  An argument the call site leaves to
    the default of the callee's declaration is [None].  The [layout]
    argument, [Layout::ColMajor] at every call site, and the [opts]
    argument of the device kernels, the caller's options unchanged, are
    left out. *)
Inductive Call :=
| internal_potrf (t : Target) (A : View) (priority : option Z)
| tileBcast (i j : Z) (dst : View)
| internal_trsm (t : Target) (side : Side) (alpha : Z) (A B : View)
    (priority queue : option Z)
| listBcastMT (t : option Target) (l : list BcastEntry)
    (life_factor : option Z) (is_shared : option bool)
| internal_herk (t : Target) (alpha : Z) (A : View) (beta : Z) (C : View)
    (priority queue : option Z)
| internal_gemm (t : Target) (alpha : Z) (A B : View) (beta : Z) (C : View)
    (priority queue : option Z)
| potrfReleasePanel (k : Z)
| potrfCleanTiles (k : Z).

(** A [depend] clause on one token of the dummy vector. *)
Inductive Depend := dep_in (tok : Z) | dep_inout (tok : Z).

(** The part a task plays in a sweep, as the source comments name it. *)
Inductive Role := Panel | Lookahead | Trailing | Cleanup.

Definition Role_eqb (a b : Role) : bool :=
  match a, b with
  | Panel, Panel | Lookahead, Lookahead | Trailing, Trailing
  | Cleanup, Cleanup => true
  | _, _ => false
  end.

(** [#pragma omp task depend(...) priority(p) { body }] *)
Record Task (C : Type) := {
  role : Role;
  depends : list Depend;
  priority : option Z;
  body : list C
}.

(** What the thread that builds the graph does, in program order.
    [ParallelBegin] and [ParallelEnd] delimit a
    [#pragma omp parallel] / [#pragma omp master] region, at whose end all
    tasks have completed; [ReleaseLocalTiles] is the loop that ends
    [work::trsmA], releasing the tiles of [B] held on the local rank. *)
Inductive Event (C : Type) :=
| Spawn (t : Task C)
| Taskwait
| ParallelBegin
| ParallelEnd
| OmpSetNested (n : Z)
| AllocateBatchArrays (batch_size num_queues : Z)
| ReserveDeviceWorkspace
| TileUpdateAllOrigin
| ReleaseWorkspace
| ReleaseLocalTiles.

Arguments Taskwait {C}.
Arguments ParallelBegin {C}.
Arguments ParallelEnd {C}.
Arguments OmpSetNested {C} n.
Arguments AllocateBatchArrays {C} batch_size num_queues.
Arguments ReserveDeviceWorkspace {C}.
Arguments TileUpdateAllOrigin {C}.
Arguments ReleaseWorkspace {C}.
Arguments ReleaseLocalTiles {C}.

Definition spawned {C : Type} (e : Event C) : list (Task C) :=
  match e with Spawn t => [t] | _ => [] end.

(** The tasks an event sequence creates, in creation order. *)
Definition tasks {C : Type} (es : list (Event C)) : list (Task C) :=
  flat_map spawned es.

Definition reads_token {C : Type} (k : Z) (t : Task C) : bool :=
  existsb (fun d => match d with dep_in j => j =? k | dep_inout _ => false end)
          (depends t).

Definition owns_token {C : Type} (k : Z) (t : Task C) : bool :=
  existsb (fun d => match d with dep_inout j => j =? k | dep_in _ => false end)
          (depends t).

(** Two tasks are ordered by the OpenMP dependency rules when they name a
    common token and at least one of them names it [inout]. *)
Definition ordered_by {C : Type} (k : Z) (t u : Task C) : bool :=
  (owns_token k t && (owns_token k u || reads_token k u))
  || (reads_token k t && owns_token k u).

Definition with_role {C : Type} (r : Role) (ts : list (Task C))
  : list (Task C) :=
  filter (fun t => Role_eqb (role t) r) ts.

(** The tasks of role [r] created at step [k] of a sweep: the lookahead
    and trailing tasks of step [k] are those that read token [k]. *)
Definition step_tasks {C : Type} (r : Role) (k : Z) (ts : list (Task C))
  : list (Task C) :=
  filter (fun t => Role_eqb (role t) r && reads_token k t) ts.

Definition owned_tokens {C : Type} (t : Task C) : list Z :=
  flat_map (fun d => match d with dep_inout j => [j] | dep_in _ => [] end)
           (depends t).

(** The tokens of the panel tasks, in creation order: the columns (or
    rows) the sweep visits. *)
Definition visited {C : Type} (es : list (Event C)) : list Z :=
  flat_map owned_tokens (with_role Panel (tasks es)).




(** The result of a sweep: the view the sweep works on and the events. *)
Record Sweep (M C : Type) := {
  view : M;
  events : list (Event C)
}.

(** ** Cholesky factorization: [potrf] *)

Module Potrf.

Import Loop.

Section Specialization.

Context {HermitianMatrix : Type} {BM : BaseMatrix HermitianMatrix}.

(** [if (A.uplo() == Uplo::Upper) A = conjTranspose(A);] *)
Definition to_lower (A : HermitianMatrix) : HermitianMatrix :=
  if Uplo_eqb (uplo A) Upper then conj_transpose A else A.

(** The broadcast list of a panel: [A(i, k)] goes across row
    [A(i, k+1:i)] and down column [A(i:nt-1, i)], with tag [i]. *)
Definition bcast_list_A (A_nt k : Z) : list BcastEntry :=
  map (fun i => {| bc_i := i; bc_j := k;
                   bc_dst := [sub i i (k+1) i; sub i (A_nt-1) i i];
                   bc_tag := Some i |})
      (range (k+1) A_nt).

(** *** Generic implementation (any target). *)

(** Panel, high priority. *)
Definition panel (A_nt k : Z) : Task Call :=
  {| role := Panel;
     depends := [dep_inout k];
     priority := Some 1;
     body :=
       [internal_potrf HostTask (subd k k) (Some 1)]
       ++ (if k+1 <=? A_nt-1
           then [tileBcast k k (sub (k+1) (A_nt-1) k k)] else [])
       ++ (if k+1 <=? A_nt-1
           then [internal_trsm HostTask Right 1
                   (conjT (tri NonUnit (subd k k)))
                   (sub (k+1) (A_nt-1) k k) (Some 1) None]
           else [])
       ++ [listBcastMT None (bcast_list_A A_nt k) None None] |}.

(** Update of one lookahead column [j], high priority. *)
Definition lookahead_task (A_nt k j : Z) : Task Call :=
  {| role := Lookahead;
     depends := [dep_in k; dep_inout j];
     priority := Some 1;
     body :=
       [internal_herk HostTask (-1) (sub j j k k) 1 (subd j j) (Some 1) None]
       ++ (if j+1 <=? A_nt-1
           then [internal_gemm HostTask (-1) (sub (j+1) (A_nt-1) k k)
                   (conjT (sub j j k k)) 1 (sub (j+1) (A_nt-1) j j)
                   (Some 1) None]
           else []) |}.

(** [for (j = k+1; j < k+1+lookahead && j < A_nt; ++j)] *)
Definition lookahead_columns (A_nt lookahead k : Z) : list Z :=
  for_up (fun j => j <? k+1+lookahead) A_nt (k+1).

Definition lookahead_tasks (A_nt lookahead k : Z) : list (Task Call) :=
  map (lookahead_task A_nt k) (lookahead_columns A_nt lookahead k).

(** Update of the trailing submatrix, normal priority. *)
Definition trailing_task (target : Target) (A_nt lookahead k : Z) : Task Call :=
  {| role := Trailing;
     depends := [dep_in k; dep_inout (k+1+lookahead); dep_inout (A_nt-1)];
     priority := None;
     body :=
       [internal_herk target (-1) (sub (k+1+lookahead) (A_nt-1) k k)
          1 (subd (k+1+lookahead) (A_nt-1)) None None] |}.

Definition trailing_tasks (target : Target) (A_nt lookahead k : Z)
  : list (Task Call) :=
  if k+1+lookahead <? A_nt then [trailing_task target A_nt lookahead k] else [].

(** The body of [for (int64_t k = 0; k < A_nt; ++k)]. *)
Definition step (target : Target) (A_nt lookahead k : Z) : list (Event Call) :=
  [Spawn (panel A_nt k)]
  ++ map (@Spawn Call) (lookahead_tasks A_nt lookahead k)
  ++ map (@Spawn Call) (trailing_tasks target A_nt lookahead k).

(** The columns the sweep visits, in order. *)
Definition sweep_columns (A_nt : Z) : list Z := range 0 A_nt.

Definition potrf_generic (target : Target) (A : HermitianMatrix)
  (lookahead : Z) (opts : Options) : Sweep HermitianMatrix Call :=
  let A := to_lower A in
  let A_nt := nt A in
  {| view := A;
     events :=
       [ParallelBegin; OmpSetNested 1]
       ++ flat_map (step target A_nt lookahead) (sweep_columns A_nt)
       ++ [ParallelEnd; TileUpdateAllOrigin; ReleaseWorkspace] |}.

(** *** Device implementation. *)

Definition priority_zero : Z := 0.
Definition life_factor_one : Z := 1.
Definition queue_0 : Z := 0.
Definition queue_1 : Z := 1.
Definition batch_size_zero : Z := 0.

(** [const int num_queues = 2 + lookahead;] *)
Definition num_queues (lookahead : Z) : Z := to_int (2 + lookahead).

(** [const bool is_shared = lookahead > 0;] *)
Definition is_shared (lookahead : Z) : bool := lookahead >? 0.

(** Panel, normal priority. *)
Definition panel_dev (A_nt lookahead k : Z) : Task Call :=
  {| role := Panel;
     depends := [dep_inout k];
     priority := None;
     body :=
       [internal_potrf HostTask (subd k k) None]
       ++ (if k+1 <=? A_nt-1
           then [tileBcast k k (sub (k+1) (A_nt-1) k k)] else [])
       ++ (if k+1 <=? A_nt-1
           then [internal_trsm Devices Right 1
                   (conjT (tri NonUnit (subd k k)))
                   (sub (k+1) (A_nt-1) k k)
                   (Some priority_zero) (Some queue_1)]
           else [])
       ++ [listBcastMT (Some Devices) (bcast_list_A A_nt k)
             (Some life_factor_one) (Some (is_shared lookahead))] |}.

Definition trailing_task_dev (A_nt lookahead k : Z) : Task Call :=
  {| role := Trailing;
     depends := [dep_in k; dep_inout (k+1+lookahead); dep_inout (A_nt-1)];
     priority := None;
     body :=
       [internal_herk Devices (-1) (sub (k+1+lookahead) (A_nt-1) k k)
          1 (subd (k+1+lookahead) (A_nt-1))
          (Some priority_zero) (Some queue_0)] |}.

Definition trailing_tasks_dev (A_nt lookahead k : Z) : list (Task Call) :=
  if k+1+lookahead <? A_nt then [trailing_task_dev A_nt lookahead k] else [].

(** The queue index [j-k+1] is passed where the callee takes an [int]. *)
Definition lookahead_task_dev (A_nt k j : Z) : Task Call :=
  {| role := Lookahead;
     depends := [dep_in k; dep_inout j];
     priority := None;
     body :=
       [internal_herk Devices (-1) (sub j j k k) 1 (subd j j)
          (Some priority_zero) (Some (to_int (j-k+1)))]
       ++ (if j+1 <=? A_nt-1
           then [internal_gemm Devices (-1) (sub (j+1) (A_nt-1) k k)
                   (conjT (sub j j k k)) 1 (sub (j+1) (A_nt-1) j j)
                   (Some priority_zero) (Some (to_int (j-k+1)))]
           else []) |}.

Definition lookahead_tasks_dev (A_nt lookahead k : Z) : list (Task Call) :=
  map (lookahead_task_dev A_nt k) (lookahead_columns A_nt lookahead k).

(** [potrfReleasePanel(A, k - lookahead)] as a task, under
    [TileReleaseStrategy::All]. *)
Definition release_panel_tasks (strategy : TileReleaseStrategy)
  (lookahead k : Z) : list (Task Call) :=
  if TRS_eqb strategy TRS_All
  then if (lookahead >? 0) && (k >=? lookahead)
       then [{| role := Cleanup;
                depends := [dep_in k; dep_inout (k+1)];
                priority := None;
                body := [potrfReleasePanel (k - lookahead)] |}]
       else []
  else [].

(** [potrfCleanTiles(A, k)] as a task, under [TileReleaseStrategy::Slate]. *)
Definition clean_tiles_tasks (strategy : TileReleaseStrategy) (k : Z)
  : list (Task Call) :=
  if TRS_eqb strategy TRS_Slate
  then [{| role := Cleanup;
           depends := [dep_inout k];
           priority := None;
           body := [potrfCleanTiles k] |}]
  else [].

Definition step_dev (strategy : TileReleaseStrategy) (A_nt lookahead k : Z)
  : list (Event Call) :=
  [Spawn (panel_dev A_nt lookahead k)]
  ++ map (@Spawn Call) (trailing_tasks_dev A_nt lookahead k)
  ++ map (@Spawn Call) (lookahead_tasks_dev A_nt lookahead k)
  ++ map (@Spawn Call) (release_panel_tasks strategy lookahead k)
  ++ map (@Spawn Call) (clean_tiles_tasks strategy k).

(** What precedes the column loop, the loop, and what follows it. *)
Definition dev_prologue (lookahead : Z) : list (Event Call) :=
  [AllocateBatchArrays batch_size_zero (num_queues lookahead);
   ReserveDeviceWorkspace].

Definition dev_loop (strategy : TileReleaseStrategy) (A_nt lookahead : Z)
  : list (Event Call) :=
  flat_map (step_dev strategy A_nt lookahead) (sweep_columns A_nt).

Definition dev_epilogue : list (Event Call) :=
  [Taskwait; TileUpdateAllOrigin; ParallelEnd; ReleaseWorkspace].

Definition potrf_devices (A : HermitianMatrix) (lookahead : Z)
  (opts : Options) : Sweep HermitianMatrix Call :=
  let tile_release_strategy :=
    get_option (opt_TileReleaseStrategy opts) TRS_All in
  let A := to_lower A in
  let A_nt := nt A in
  {| view := A;
     events :=
       dev_prologue lookahead
       ++ [ParallelBegin; OmpSetNested 1]
       ++ dev_loop tile_release_strategy A_nt lookahead
       ++ dev_epilogue |}.

(** Overload resolution on [TargetType<target>]: the device overload for
    [Target::Devices], the generic template otherwise. *)
Definition specialization_potrf (target : Target) (A : HermitianMatrix)
  (lookahead : Z) (opts : Options) : Sweep HermitianMatrix Call :=
  match target with
  | Devices => potrf_devices A lookahead opts
  | _ => potrf_generic target A lookahead opts
  end.

(** Version with target as template parameter. *)
Definition potrf_target (target : Target) (A : HermitianMatrix)
  (opts : Options) : Sweep HermitianMatrix Call :=
  let lookahead := get_option (opt_Lookahead opts) 1 in
  specialization_potrf target A lookahead opts.

(** The entry point [potrf(A, opts)].  It returns [void]: the sweep is all
    it yields. *)
Definition potrf (A : HermitianMatrix) (opts : Options)
  : Sweep HermitianMatrix Call :=
  let target := get_option (opt_Target opts) HostTask in
  match target with
  | Host | HostTask => potrf_target HostTask A opts
  | HostNest => potrf_target HostNest A opts
  | HostBatch => potrf_target HostBatch A opts
  | Devices => potrf_target Devices A opts
  end.

(** The target the entry point instantiates the template with. *)
Definition selected (opts : Options) : Target :=
  match get_option (opt_Target opts) HostTask with
  | Host | HostTask => HostTask
  | HostNest => HostNest
  | HostBatch => HostBatch
  | Devices => Devices
  end.

(** The panel task of a sweep over one tile column. *)
Definition single_panel : Task Call :=
  {| role := Panel;
     depends := [dep_inout 0];
     priority := Some 1;
     body := [internal_potrf HostTask (subd 0 0) (Some 1);
              listBcastMT None [] None None] |}.

(** The tasks of one iteration of each column loop, in creation order. *)
Definition iteration (target : Target) (A_nt lookahead k : Z)
  : list (Task Call) :=
  panel A_nt k :: lookahead_tasks A_nt lookahead k
  ++ trailing_tasks target A_nt lookahead k.

Definition iteration_dev (strategy : TileReleaseStrategy)
  (A_nt lookahead k : Z) : list (Task Call) :=
  panel_dev A_nt lookahead k :: trailing_tasks_dev A_nt lookahead k
  ++ lookahead_tasks_dev A_nt lookahead k
  ++ release_panel_tasks strategy lookahead k
  ++ clean_tiles_tasks strategy k.

(** *** Observations on tasks *)

(** Tile columns a call updates: the output operand of an update kernel. *)
Definition call_updates (c : Call) : list Z :=
  match c with
  | internal_herk _ _ _ _ C _ _ => view_columns C
  | internal_gemm _ _ _ _ _ C _ _ => view_columns C
  | _ => []
  end.

Definition task_updates (t : Task Call) : list Z :=
  flat_map call_updates (body t).

(** The targets on which a task factors a diagonal tile. *)
Definition factor_targets (t : Task Call) : list (Target * View) :=
  flat_map (fun c => match c with
                     | internal_potrf tg v _ => [(tg, v)]
                     | _ => []
                     end) (body t).

(** Tiles a call sends: one for [tileBcast], one per list entry for
    [listBcastMT]. *)
Definition tiles_sent (c : Call) : list (Z * Z) :=
  match c with
  | tileBcast i j _ => [(i, j)]
  | listBcastMT _ l _ _ => map (fun e => (bc_i e, bc_j e)) l
  | _ => []
  end.

Definition is_compute (c : Call) : bool :=
  match c with
  | internal_potrf _ _ _ | internal_trsm _ _ _ _ _ _ _
  | internal_herk _ _ _ _ _ _ _ | internal_gemm _ _ _ _ _ _ _ _ => true
  | _ => false
  end.

(** The target and the queue a kernel call is issued with. *)
Definition call_target (c : Call) : option Target :=
  match c with
  | internal_potrf t _ _ | internal_trsm t _ _ _ _ _ _
  | internal_herk t _ _ _ _ _ _ | internal_gemm t _ _ _ _ _ _ _ => Some t
  | _ => None
  end.

Definition call_queue (c : Call) : option Z :=
  match c with
  | internal_trsm _ _ _ _ _ _ q | internal_herk _ _ _ _ _ _ q
  | internal_gemm _ _ _ _ _ _ _ q => q
  | _ => None
  end.

Definition is_spawn (e : Event Call) : bool :=
  match e with Spawn _ => true | _ => false end.

End Specialization.

End Potrf.

(** ** Triangular solve that moves the right-hand side: [work::trsmA] *)

(** The scalar type of the templates, through the operations the solve
    uses on [alpha]. *)
Class Scalar (S : Type) := {
  s_zero : S;
  s_one : S;
  s_neg : S -> S;
  s_conj : S -> S;
  s_eqb : S -> S -> bool
}.

(** Tile ownership queries of a distributed matrix (declared in headers
    that are not among the sources). *)
Class Distributed (M : Type) := {
  tileIsLocal : M -> Z -> Z -> bool;
  tileRank : M -> Z -> Z -> Z;
  tileDevice : M -> Z -> Z -> Z;
  numComputeQueues : M -> Z
}.

Module TrsmA.

Import Loop.

(** A view of the triangular matrix [A] or of the right-hand side [B]. *)
Inductive MView := of_A (v : View) | of_B (v : View).

(** One entry [{i, j, destination, {sources}}] of a reduce list. *)
Record ReduceEntry := {
  rd_i : Z;
  rd_j : Z;
  rd_dst : MView;
  rd_src : list MView
}.

(** Calls of the solve.  [dev] is [Some d] where the source addresses the
    tile instance on device [d], [None] for the host instance.  The calls
    [insert_zero_tile] and [tileErase_nonlocal] stand for the guarded
    statements of the source that first test [B.tileExists]. *)
Inductive Call (S : Type) :=
| tile_scale (dev : option Z) (alpha : S) (i j : Z)
| insert_zero_tile (dev : option Z) (i j : Z) (life : option Z)
| listReduce (t : Target) (l : list ReduceEntry)
| internal_trsmA (t : Target) (side : Side) (alpha : S) (A B : MView)
    (priority queue : Z) (opts : Options)
| tileSend (i j dest : Z)
| tileRecv (i j root : Z)
| tileErase_nonlocal (i j : Z)
| listBcast (t : Target) (l : list BcastEntry) (tag life : option Z)
| internal_gemmA (t : Target) (alpha : S) (A B : MView) (beta : S) (C : MView)
    (priority : Z) (queue : option Z) (opts : option Options)
| erase_panel_workspace (k : Z).

Arguments tile_scale {S}.
Arguments insert_zero_tile {S}.
Arguments listReduce {S}.
Arguments internal_trsmA {S}.
Arguments tileSend {S}.
Arguments tileRecv {S}.
Arguments tileErase_nonlocal {S}.
Arguments listBcast {S}.
Arguments internal_gemmA {S}.
Arguments erase_panel_workspace {S}.

Section Work.

Context {S : Type} {SC : Scalar S}.
Context {TriangularMatrix : Type} {BA : BaseMatrix TriangularMatrix}
        {DA : Distributed TriangularMatrix}.
Context {Matrix : Type} {BB : BaseMatrix Matrix} {DB : Distributed Matrix}.

Definition priority_0 : Z := 0.
Definition priority_1 : Z := 1.
Definition queue_0 : Z := 0.
Definition queue_1 : Z := 1.

(** If on right, change to left by (conj)-transposing [A] and [B]. *)
Definition to_left (side : Side) (alpha : S) (A : TriangularMatrix)
  (B : Matrix) : S * TriangularMatrix * Matrix :=
  match side with
  | Right =>
      if Op_eqb (op A) ConjTrans || Op_eqb (op B) ConjTrans
      then (s_conj alpha, conj_transpose A, conj_transpose B)
      else (alpha, transpose A, transpose B)
  | Left => (alpha, A, B)
  end.

(** The local tiles of [B], row by row. *)
Definition local_tiles (B : Matrix) (mt nt : Z) : list (Z * Z) :=
  flat_map (fun i =>
    flat_map (fun j => if tileIsLocal B i j then [(i, j)] else [])
             (range 0 nt))
    (range 0 mt).

(** *** Forward sweep ([A] lower) *)

Definition scale_rhs_fwd (target : Target) (alpha : S) (B : Matrix)
  (mt nt k : Z) : list (Call S) :=
  if (k =? 0) && negb (s_eqb alpha s_one)
  then map (fun ij =>
              tile_scale (if Target_eqb target Devices
                          then Some (tileDevice B (fst ij) (snd ij))
                          else None)
                         alpha (fst ij) (snd ij))
           (local_tiles B mt nt)
  else [].

Definition create_local_B_fwd (target : Target) (A : TriangularMatrix)
  (B : Matrix) (nt k : Z) : list (Call S) :=
  if tileIsLocal A k k
  then flat_map (fun j =>
         if negb (tileIsLocal B k j)
         then if Target_eqb target Devices
              then [insert_zero_tile (Some (tileDevice A k k)) k j (Some 2)]
              else [insert_zero_tile None k j None]
         else [])
       (range 0 nt)
  else [].

Definition reduce_list_fwd (nt k : Z) : list ReduceEntry :=
  map (fun j => {| rd_i := k; rd_j := j;
                   rd_dst := of_A (sub k k k k);
                   rd_src := [of_A (sub k k 0 k); of_B (sub k k j j)] |})
      (range 0 nt).

Definition send_back_fwd (A : TriangularMatrix) (B : Matrix) (nt k : Z)
  : list (Call S) :=
  if tileIsLocal A k k
  then flat_map (fun j =>
         if tileRank B k j =? tileRank A k k then []
         else [tileSend k j (tileRank B k j)])
       (range 0 nt)
  else flat_map (fun j =>
         if tileIsLocal B k j then [tileRecv k j (tileRank A k k)] else [])
       (range 0 nt).

Definition bcast_list_fwd (mt nt k : Z) : list BcastEntry :=
  map (fun j => {| bc_i := k; bc_j := j;
                   bc_dst := [sub (k+1) (mt-1) k k];
                   bc_tag := None |})
      (range 0 nt).

(** Panel ([Akk] tile), high priority. *)
Definition panel_fwd (target : Target) (alpha : S) (A : TriangularMatrix)
  (B : Matrix) (mt nt lookahead : Z) (local_opts : Options) (k : Z)
  : Task (Call S) :=
  {| role := Panel;
     depends := [dep_inout k];
     priority := Some 1;
     body :=
       scale_rhs_fwd target alpha B mt nt k
       ++ create_local_B_fwd target A B nt k
       ++ [listReduce target (reduce_list_fwd nt k)]
       ++ (if tileIsLocal A k k
           then [internal_trsmA target Left s_one (of_A (subd k k))
                   (of_B (sub k k 0 (nt-1))) priority_1 queue_1 local_opts]
           else [])
       ++ send_back_fwd A B nt k
       ++ [listBcast target (bcast_list_fwd mt nt k)
             (Some k) (Some (lookahead + 1))] |}.

(** [for (int64_t i = k+1; i < k+1+lookahead && i < mt; ++i)] *)
Definition lookahead_rows_fwd (mt lookahead k : Z) : list Z :=
  for_up (fun i => i <? k+1+lookahead) mt (k+1).

(** [int queue_i = i - k + 1;] *)
Definition lookahead_task_fwd (target : Target) (nt : Z)
  (local_opts : Options) (k i : Z) : Task (Call S) :=
  {| role := Lookahead;
     depends := [dep_in k; dep_inout i];
     priority := Some 1;
     body :=
       map (fun j =>
              internal_gemmA target (s_neg s_one) (of_A (sub i i k k))
                (of_B (sub k k j j)) s_one (of_B (sub i i j j))
                priority_1 (Some (to_int (i - k + 1))) (Some local_opts))
           (range 0 nt) |}.

Definition lookahead_tasks_fwd (target : Target) (mt nt lookahead : Z)
  (local_opts : Options) (k : Z) : list (Task (Call S)) :=
  map (lookahead_task_fwd target nt local_opts k)
      (lookahead_rows_fwd mt lookahead k).

Definition trailing_task_fwd (target : Target) (mt nt lookahead : Z)
  (local_opts : Options) (k : Z) : Task (Call S) :=
  {| role := Trailing;
     depends := [dep_in k; dep_inout (k+1+lookahead); dep_inout (mt-1)];
     priority := None;
     body :=
       map (fun j =>
              internal_gemmA target (s_neg s_one)
                (of_A (sub (k+1+lookahead) (mt-1) k k))
                (of_B (sub k k j j)) s_one
                (of_B (sub (k+1+lookahead) (mt-1) j j))
                priority_0 (Some queue_0) (Some local_opts))
           (range 0 nt) |}.

Definition trailing_tasks_fwd (target : Target) (mt nt lookahead : Z)
  (local_opts : Options) (k : Z) : list (Task (Call S)) :=
  if k+1+lookahead <? mt
  then [trailing_task_fwd target mt nt lookahead local_opts k] else [].

(** Erase remote or workspace tiles. *)
Definition cleanup_task_fwd (k : Z) : Task (Call S) :=
  {| role := Cleanup;
     depends := [dep_inout k];
     priority := None;
     body := [erase_panel_workspace k] |}.

Definition step_fwd (target : Target) (alpha : S) (A : TriangularMatrix)
  (B : Matrix) (mt nt lookahead : Z) (local_opts : Options) (k : Z)
  : list (Event (Call S)) :=
  [Spawn (panel_fwd target alpha A B mt nt lookahead local_opts k)]
  ++ map (@Spawn _) (lookahead_tasks_fwd target mt nt lookahead local_opts k)
  ++ [Taskwait]
  ++ map (@Spawn _) (trailing_tasks_fwd target mt nt lookahead local_opts k)
  ++ [Spawn (cleanup_task_fwd k)].

(** *** Backward sweep ([A] not lower) *)

Definition scale_rhs_bwd (alpha : S) (B : Matrix) (mt nt k : Z)
  : list (Call S) :=
  if (k =? mt - 1) && negb (s_eqb alpha s_one)
  then map (fun ij => tile_scale None alpha (fst ij) (snd ij))
           (local_tiles B mt nt)
  else [].

(** Insertion of the tiles of row [i] of [B] that are not local, on the
    rank where [A(i, k)] is. *)
Definition create_local_B_bwd (A : TriangularMatrix) (B : Matrix)
  (nt i k : Z) : list (Call S) :=
  if tileIsLocal A i k
  then flat_map (fun j =>
         if negb (tileIsLocal B i j)
         then [insert_zero_tile None i j None] else [])
       (range 0 nt)
  else [].

Definition reduce_list_bwd (mt nt k : Z) : list ReduceEntry :=
  map (fun j => {| rd_i := k; rd_j := j;
                   rd_dst := of_A (sub k k k k);
                   rd_src := [of_A (sub k k k (mt-1)); of_B (sub k k j j)] |})
      (range 0 nt).

Definition send_back_bwd (A : TriangularMatrix) (B : Matrix) (nt k : Z)
  : list (Call S) :=
  if tileIsLocal A k k
  then map (fun j => tileSend k j (tileRank B k j)) (range 0 nt)
  else flat_map (fun j =>
         if tileIsLocal B k j then [tileRecv k j (tileRank A k k)] else [])
       (range 0 nt).

Definition bcast_list_bwd (nt k : Z) : list BcastEntry :=
  map (fun j => {| bc_i := k; bc_j := j;
                   bc_dst := [sub 0 (k-1) k k];
                   bc_tag := None |})
      (range 0 nt).

Definition panel_bwd (target : Target) (alpha : S) (A : TriangularMatrix)
  (B : Matrix) (mt nt : Z) (opts : Options) (k : Z) : Task (Call S) :=
  {| role := Panel;
     depends := [dep_inout k];
     priority := Some 1;
     body :=
       scale_rhs_bwd alpha B mt nt k
       ++ create_local_B_bwd A B nt k k
       ++ [listReduce target (reduce_list_bwd mt nt k)]
       ++ (if tileIsLocal A k k
           then [internal_trsmA target Left s_one (of_A (subd k k))
                   (of_B (sub k k 0 (nt-1))) priority_1 queue_1 opts]
           else [])
       ++ send_back_bwd A B nt k
       ++ map (fun j => tileErase_nonlocal k j) (range 0 nt)
       ++ [listBcast target (bcast_list_bwd nt k) None None] |}.

(** [for (int64_t i = k-1; i > k-1-lookahead && i >= 0; --i)] *)
Definition lookahead_rows_bwd (lookahead k : Z) : list Z :=
  for_down (fun i => i >? k-1-lookahead) 0 (k-1).

Definition lookahead_task_bwd (A : TriangularMatrix) (B : Matrix)
  (nt k i : Z) : Task (Call S) :=
  {| role := Lookahead;
     depends := [dep_in k; dep_inout i];
     priority := Some 1;
     body :=
       create_local_B_bwd A B nt i k
       ++ [internal_gemmA HostTask (s_neg s_one) (of_A (sub i i k k))
             (of_B (sub k k 0 (nt-1))) s_one (of_B (sub i i 0 (nt-1)))
             priority_1 None None] |}.

Definition lookahead_tasks_bwd (A : TriangularMatrix) (B : Matrix)
  (nt lookahead k : Z) : list (Task (Call S)) :=
  map (lookahead_task_bwd A B nt k) (lookahead_rows_bwd lookahead k).

Definition trailing_task_bwd (A : TriangularMatrix) (B : Matrix)
  (nt lookahead k : Z) : Task (Call S) :=
  {| role := Trailing;
     depends := [dep_in k; dep_inout (k-1-lookahead); dep_inout 0];
     priority := None;
     body :=
       flat_map (fun i => create_local_B_bwd A B nt i k)
                (range 0 (k - lookahead))
       ++ [internal_gemmA HostTask (s_neg s_one)
             (of_A (sub 0 (k-1-lookahead) k k))
             (of_B (sub k k 0 (nt-1))) s_one
             (of_B (sub 0 (k-1-lookahead) 0 (nt-1)))
             priority_0 None None] |}.

Definition trailing_tasks_bwd (A : TriangularMatrix) (B : Matrix)
  (nt lookahead k : Z) : list (Task (Call S)) :=
  if k-1-lookahead >=? 0 then [trailing_task_bwd A B nt lookahead k] else [].

Definition step_bwd (target : Target) (alpha : S) (A : TriangularMatrix)
  (B : Matrix) (mt nt lookahead : Z) (opts : Options) (k : Z)
  : list (Event (Call S)) :=
  [Spawn (panel_bwd target alpha A B mt nt opts k)]
  ++ map (@Spawn _) (lookahead_tasks_bwd A B nt lookahead k)
  ++ map (@Spawn _) (trailing_tasks_bwd A B nt lookahead k).

(** The tasks of one iteration of each sweep, in creation order. *)
Definition iteration_fwd (target : Target) (alpha : S)
  (A : TriangularMatrix) (B : Matrix) (mt nt lookahead : Z)
  (local_opts : Options) (k : Z) : list (Task (Call S)) :=
  panel_fwd target alpha A B mt nt lookahead local_opts k
  :: lookahead_tasks_fwd target mt nt lookahead local_opts k
  ++ trailing_tasks_fwd target mt nt lookahead local_opts k
  ++ [cleanup_task_fwd k].

Definition iteration_bwd (target : Target) (alpha : S)
  (A : TriangularMatrix) (B : Matrix) (mt nt lookahead : Z)
  (opts : Options) (k : Z) : list (Task (Call S)) :=
  panel_bwd target alpha A B mt nt opts k
  :: lookahead_tasks_bwd A B nt lookahead k
  ++ trailing_tasks_bwd A B nt lookahead k.

(** *** The solve *)

(** The rows the sweep visits, in order:
    [for (k = 0; k < mt; ++k)] when [A] is lower,
    [for (k = mt-1; k >= 0; --k)] otherwise. *)
Definition sweep_rows (A : TriangularMatrix) (mt : Z) : list Z :=
  if Uplo_eqb (uplo A) Lower then range 0 mt else range_down (mt - 1) 0.

(** The solve once the side is [Left]: everything after the assertions. *)
Definition sweep (target : Target) (alpha : S) (A : TriangularMatrix)
  (B : Matrix) (opts : Options) : list (Event (Call S)) :=
  let lookahead := get_option (opt_Lookahead opts) 1 in
  let tileStrategy := get_option (opt_TileReleaseStrategy opts) TRS_Slate in
  let local_opts :=
    set_TileReleaseStrategy tileStrategy (set_Lookahead lookahead opts) in
  let mt := mt B in
  let nt := nt B in
  (if Uplo_eqb (uplo A) Lower
   then flat_map (step_fwd target alpha A B mt nt lookahead local_opts)
                 (range 0 mt)
   else flat_map (step_bwd target alpha A B mt nt lookahead opts)
                 (range_down (mt - 1) 0))
  ++ [Taskwait; ReleaseLocalTiles].

(** The three assertions that precede the sweep. *)
Definition preconditions (target : Target) (A : TriangularMatrix)
  (B : Matrix) : bool :=
  (mt A =? mt B) && (nt A =? mt B)
  && (if Target_eqb target Devices then numComputeQueues A >=? 2 else true).

(** [work::trsmA]; [None] when an assertion fails. *)
Definition trsmA (target : Target) (side : Side) (alpha : S)
  (A : TriangularMatrix) (B : Matrix) (opts : Options)
  : option (Sweep (TriangularMatrix * Matrix) (Call S)) :=
  let '(alpha, A, B) := to_left side alpha A B in
  if preconditions target A B
  then Some {| view := (A, B); events := sweep target alpha A B opts |}
  else None.

(** *** Observations on tasks *)

Definition mview_rows (v : MView) : list Z :=
  match v with of_A v => view_rows v | of_B v => view_rows v end.

(** Tile rows of [B] a call updates. *)
Definition call_updates (c : Call S) : list Z :=
  match c with
  | internal_gemmA _ _ _ _ _ C _ _ _ => mview_rows C
  | _ => []
  end.

Definition task_updates (t : Task (Call S)) : list Z :=
  flat_map call_updates (body t).

(** The side a tile solve is called with. *)
Definition call_side (c : Call S) : option Side :=
  match c with
  | internal_trsmA _ side _ _ _ _ _ _ => Some side
  | _ => None
  end.

Definition solves_on_left (c : Call S) : bool :=
  match call_side c with Some Right => false | _ => true end.

(** The options the forward sweep hands to its kernels. *)
Definition local_options (opts : Options) : Options :=
  set_TileReleaseStrategy
    (get_option (opt_TileReleaseStrategy opts) TRS_Slate)
    (set_Lookahead (get_option (opt_Lookahead opts) 1) opts).

(** Counting up from 0 to [n-1]. *)
Definition upto (n : Z) : list Z := map Z.of_nat (seq 0 (Z.to_nat n)).

End Work.

End TrsmA.

(** ** Tridiagonal eigensolver driver: [stedc] *)

(** The real type of the template ([float] or [double]) through what the
    driver uses: two constants, [==], [std::isinf] and [std::isnan].  The
    law is the IEEE rule that neither an infinity nor a NaN compares equal
    to zero. *)
Class RealType (R : Type) := {
  r_zero : R;
  r_one : R;
  r_eqb : R -> R -> bool;
  r_isinf : R -> bool;
  r_isnan : R -> bool;
  r_special_nonzero :
    forall x, r_isinf x || r_isnan x = true -> r_eqb x r_zero = false
}.

(** How a call ends: by returning, by throwing [std::domain_error], or by
    letting the [lapack::Error] of a LAPACK wrapper through; every way with
    the current contents of the in/out arguments. *)
Inductive Outcome (X : Type) :=
| Returns (x : X)
| Throws_domain_error (what : String.string) (x : X)
| Throws_lapack_error (x : X).

Module Stedc.

Section Driver.

Context {real_t : Type} {RT : RealType real_t} {Matrix : Type}.

(** LAPACK routines (external library), called through their C++
    wrappers.  [lascl type kl ku cfrom cto m n A lda] checks its arguments
    before it touches [A]: the wrapper throws [lapack::Error] when the
    routine reports one of them as illegal, which is [None] here; otherwise
    it yields the scaled array. *)
Variable lanst : Norm -> Z -> list real_t -> list real_t -> real_t.
Variable lascl : MatrixType -> Z -> Z -> real_t -> real_t -> Z -> Z ->
                 list real_t -> Z -> option (list real_t).

(** Routines of the library declared in headers that are not among the
    sources; each returns the new contents of the arguments it may
    write. *)
Variable emptyLike : Matrix -> Matrix.
Variable insertLocalTiles : Matrix -> Matrix.
Variable set : real_t -> real_t -> Matrix -> Options -> Matrix.
Variable stedc_solve :
  list real_t -> list real_t -> Matrix -> Matrix -> Matrix -> Options ->
  list real_t * list real_t * Matrix * Matrix * Matrix.
Variable stedc_sort :
  list real_t -> Matrix -> Matrix -> Options -> list real_t * Matrix.

(** The part of [stedc] after the two early exits, for a norm [Anorm].
    [stedc] catches nothing: an exception of a [lascl] call ends it there,
    with what it has written so far. *)
Definition scaled_solve (Anorm : real_t) (n : Z) (D E : list real_t)
  (Q : Matrix) (opts : Options)
  : Outcome (list real_t * list real_t * Matrix) :=
  (* Scale if necessary. *)
  match lascl MT_General 0 0 Anorm r_one n 1 D n with
  | None => Throws_lapack_error (D, E, Q)
  | Some D =>
  match lascl MT_General 0 0 Anorm r_one (n-1) 1 E (n-1) with
  | None => Throws_lapack_error (D, E, Q)
  | Some E =>
  (* Allocate workspace matrices W and U needed in stedc_merge. *)
  let W := insertLocalTiles (emptyLike Q) in
  let U := insertLocalTiles (emptyLike Q) in
  let sort := true in
  let '(D, E, Q) :=
    if sort : bool
    then
      let W := set r_zero r_one W opts in
      let '(D, E, W, Q, U) := stedc_solve D E W Q U opts in
      let '(D, Q) := stedc_sort D W Q opts in
      (D, E, Q)
    else
      let Q := set r_zero r_one Q opts in
      let '(D, E, Q, W, U) := stedc_solve D E Q W U opts in
      (D, E, Q) in
  (* Scale eigenvalues back. *)
  match lascl MT_General 0 0 r_one Anorm n 1 D n with
  | None => Throws_lapack_error (D, E, Q)
  | Some D => Returns (D, E, Q)
  end
  end
  end.

Definition stedc (D E : list real_t) (Q : Matrix) (opts : Options)
  : Outcome (list real_t * list real_t * Matrix) :=
  let n := Z.of_nat (List.length D) in
  let Anorm := lanst NormMax n D E in
  if r_eqb Anorm r_zero then Returns (D, E, Q)
  else if r_isinf Anorm || r_isnan Anorm
  then Throws_domain_error "Input matrix contains Inf or NaN"%string (D, E, Q)
  else scaled_solve Anorm n D E Q opts.

End Driver.

End Stedc.

(** ** LAPACK-style entry point: [slate_gesv] *)

Module LapackApi.

(** One pivot of the library's [Pivots] structure. *)
Record Pivot := { tileIndex : Z; elementOffset : Z }.

(** The settings [slate_gesv] reads once from the environment through the
    [slate_lapack_set_*] helpers. *)
Record Settings := {
  set_verbose : Z;
  set_target : Target;
  set_panelthreads : Z;
  set_nb : Z;
  set_ib : Z
}.

(** What the caller finds in the output arguments. *)
Record Output (scalar_t : Type) := {
  out_a : list scalar_t;
  out_ipiv : list Z;
  out_b : list scalar_t;
  out_info : Z
}.

Section Gesv.

Context {scalar_t : Type} {Matrix : Type}.

(** [Matrix::fromLAPACK(m, n, data, ld, nb, p, q, comm)] makes a view of the
    caller's array; [contents] reads the array back through the view. *)
Variable fromLAPACK : Z -> Z -> list scalar_t -> Z -> Z -> Z -> Z -> Matrix.
Variable contents : Matrix -> list scalar_t.

(** [slate::gesv(A, pivots, B, opts)], which returns nothing and leaves
    the factors in [A], the pivots in [pivots] and the solution in [B]. *)
Variable gesv : Matrix -> Matrix -> Options ->
                Matrix * list (list Pivot) * Matrix.

(** Extraction of the pivots into LAPACK's [ipiv]: the state of the two
    nested loops is [(values written so far, t_iter_add)]. *)
Definition extract_pivots (nb : Z) (pivots : list (list Pivot)) : list Z :=
  fst (fold_left
         (fun (st : list Z * Z) (t : list Pivot) =>
            let '(ipiv, t_iter_add) := st in
            (fold_left
               (fun ipiv p =>
                  ipiv ++ [to_int (tileIndex p * nb + elementOffset p + 1
                                   + t_iter_add)])
               t ipiv,
             t_iter_add + nb))
         pivots ([], 0)).

Definition slate_gesv (env : Settings) (n nrhs : Z) (a : list scalar_t)
  (lda : Z) (b : list scalar_t) (ldb : Z) : Output scalar_t :=
  let lookahead := 1 in
  let p := 1 in
  let q := 1 in
  let target := set_target env in
  let panel_threads := set_panelthreads env in
  (* sizes *)
  let Am := n in let An := n in
  let Bm := n in let Bn := nrhs in
  let nb := set_nb env in
  let ib := Z.min (set_ib env) nb in
  (* create SLATE matrices from the LAPACK data *)
  let A := fromLAPACK Am An a lda nb p q in
  let B := fromLAPACK Bm Bn b ldb nb p q in
  let '(A, pivots, B) :=
    gesv A B {| opt_Lookahead := Some lookahead;
                opt_Target := Some target;
                opt_TileReleaseStrategy := None;
                opt_MaxPanelThreads := Some panel_threads;
                opt_InnerBlocking := Some ib |} in
  (* todo:  get a real value for info *)
  {| out_a := contents A;
     out_ipiv := extract_pivots nb pivots;
     out_b := contents B;
     out_info := 0 |}.

End Gesv.

End LapackApi.

(** ** Running a task graph *)

(** Execution of the events in creation order, which is one of the orders
    the dependencies allow.  The kernels and the runtime calls are
    parameters: [exec_call] is the effect of a call on the state of the
    distributed matrix, [exec_direct] the effect of an event other than a
    task creation. *)
Module Run.

Section Exec.

Context {C State : Type}.
Variable exec_call : C -> State -> State.
Variable exec_direct : Event C -> State -> State.

Definition exec_task (t : Task C) (s : State) : State :=
  fold_left (fun s c => exec_call c s) (body t) s.

Definition exec_event (e : Event C) (s : State) : State :=
  match e with
  | Spawn t => exec_task t s
  | e => exec_direct e s
  end.

Definition run (es : list (Event C)) (s : State) : State :=
  fold_left (fun s e => exec_event e s) es s.

End Exec.

End Run.

(** ** Concrete instances, for running the definitions on sample data *)

Module Sample.

(** A matrix reduced to its metadata, on a [p] by [q] process grid seen
    from process [rank]; tile [(i, j)] belongs to process
    [(i mod p) + (j mod q) * p] and lives on device 0. *)
Record Meta := {
  m_mt : Z;
  m_nt : Z;
  m_op : Op;
  m_uplo : Uplo;
  m_p : Z;
  m_q : Z;
  m_rank : Z
}.

Definition flip_uplo (u : Uplo) : Uplo :=
  match u with Upper => Lower | Lower => Upper | General => General end.

Definition meta_transpose (o : Op) (A : Meta) : Meta :=
  {| m_mt := m_nt A; m_nt := m_mt A;
     m_op := if Op_eqb (m_op A) NoTrans then o else NoTrans;
     m_uplo := flip_uplo (m_uplo A);
     m_p := m_p A; m_q := m_q A; m_rank := m_rank A |}.

Definition meta_rank (A : Meta) (i j : Z) : Z :=
  (i mod m_p A) + (j mod m_q A) * m_p A.

#[export] Instance Meta_BaseMatrix : BaseMatrix Meta := {
  mt := m_mt;
  nt := m_nt;
  op := m_op;
  uplo := m_uplo;
  transpose := meta_transpose Trans;
  conj_transpose := meta_transpose ConjTrans
}.

#[export] Instance Meta_Distributed : Distributed Meta := {
  tileIsLocal A i j := meta_rank A i j =? m_rank A;
  tileRank := meta_rank;
  tileDevice A i j := 0;
  numComputeQueues A := 2
}.

(** Integer scalars: conjugation is the identity. *)
#[export] Instance Z_Scalar : Scalar Z := {
  s_zero := 0;
  s_one := 1;
  s_neg := Z.opp;
  s_conj := fun a => a;
  s_eqb := Z.eqb
}.

Definition square (uplo : Uplo) (n : Z) : Meta :=
  {| m_mt := n; m_nt := n; m_op := NoTrans; m_uplo := uplo;
     m_p := 1; m_q := 1; m_rank := 0 |}.

Definition rect (m n : Z) : Meta :=
  {| m_mt := m; m_nt := n; m_op := NoTrans; m_uplo := General;
     m_p := 1; m_q := 1; m_rank := 0 |}.

Definition no_opts : Options :=
  {| opt_Lookahead := None; opt_Target := None;
     opt_TileReleaseStrategy := None;
     opt_MaxPanelThreads := None; opt_InnerBlocking := None |}.

Definition with_lookahead (la : Z) : Options := set_Lookahead la no_opts.

Definition with_target (t : Target) : Options :=
  {| opt_Lookahead := None; opt_Target := Some t;
     opt_TileReleaseStrategy := None;
     opt_MaxPanelThreads := None; opt_InnerBlocking := None |}.

(** IEEE binary64 ([double]) as specified by the standard library. *)
Definition prec : Z := 53.
Definition emax : Z := 1024.

Definition double := spec_float.

Definition d_isinf (x : double) : bool :=
  match x with S754_infinity _ => true | _ => false end.

Definition d_isnan (x : double) : bool :=
  match x with S754_nan => true | _ => false end.

Definition d_zero : double := S754_zero false.
Definition d_one : double := SFone prec emax.
Definition d_of_Z (z : Z) : double := binary_normalize prec emax z 0 false.

#[export, refine] Instance double_RealType : RealType double := {
  r_zero := d_zero;
  r_one := d_one;
  r_eqb := SFeqb;
  r_isinf := d_isinf;
  r_isnan := d_isnan
}.
Proof.
  intros [s | [ | ] | | s m e]; simpl; try discriminate; reflexivity.
Defined.

(** Reference behaviour of LAPACK's [lanst] for the max norm: the largest
    absolute value of the entries, a NaN entry making the result NaN. *)
Definition d_max (a x : double) : double :=
  if SFltb a (SFabs x) || d_isnan x then SFabs x else a.

Definition d_lanst (norm : Norm) (n : Z) (D E : list double) : double :=
  fold_left d_max (firstn (Z.to_nat (n - 1)) E)
            (fold_left d_max (firstn (Z.to_nat n) D) d_zero).

(** [lapack::lascl] on doubles, after the reference routine DLASCL, for
    an array stored by columns with leading dimension [lda]; entry [(i, j)]
    is at position [i + j * lda].

    The routine first checks its arguments: [cfrom] zero or NaN, [cto] NaN,
    [m < 0], [n < 0] and [lda < max(1, m)] are illegal, and the wrapper
    throws.  It returns at once when [m] or [n] is 0.  Otherwise it
    multiplies the entries of the matrix type (all of them, the lower or
    the upper triangle) by [cto / cfrom], in steps of [smlnum] or [bignum]
    while the quotient itself would over- or underflow: [smlnum] is the
    safe minimum [dlamch('S')], [2^-1022], and [bignum] its inverse. *)
Definition d_smlnum : double := S754_finite false 4503599627370496 (-1074).
Definition d_bignum : double := SFdiv prec emax d_one d_smlnum.

Definition d_selected (type : MatrixType) (m n lda p : Z) : bool :=
  let i := p mod lda in
  let j := p / lda in
  (i <? m) && (j <? n)
  && match type with
     | MT_General => true
     | MT_Lower => j <=? i
     | MT_Upper => i <=? j
     end.

Definition d_mul_entries (type : MatrixType) (m n lda : Z) (mul : double)
  (A : list double) : list double :=
  map (fun px => if d_selected type m n lda (fst px)
                 then SFmul prec emax (snd px) mul else snd px)
      (combine (map Z.of_nat (seq 0 (List.length A))) A).

(** The loop of DLASCL.  A step by [smlnum] or [bignum] moves [cfrom] or
    [cto] by a factor [2^1022], so that at most two of them precede the
    last multiplication; [steps] counts them. *)
Fixpoint d_lascl_loop (steps : nat) (type : MatrixType) (m n lda : Z)
  (cfromc ctoc : double) (A : list double) : list double :=
  let last :=
    let mul := SFdiv prec emax ctoc cfromc in
    if SFeqb mul d_one then A else d_mul_entries type m n lda mul A in
  match steps with
  | O => last
  | S steps =>
      let cfrom1 := SFmul prec emax cfromc d_smlnum in
      if SFeqb cfrom1 cfromc
      then (* cfromc is an inf *)
        d_mul_entries type m n lda (SFdiv prec emax ctoc cfromc) A
      else
        let cto1 := SFdiv prec emax ctoc d_bignum in
        if SFeqb cto1 ctoc
        then (* ctoc is either 0 or an inf *)
          d_mul_entries type m n lda ctoc A
        else if SFltb (SFabs ctoc) (SFabs cfrom1) && negb (SFeqb ctoc d_zero)
        then d_lascl_loop steps type m n lda cfrom1 ctoc
               (d_mul_entries type m n lda d_smlnum A)
        else if SFltb (SFabs cfromc) (SFabs cto1)
        then d_lascl_loop steps type m n lda cfromc cto1
               (d_mul_entries type m n lda d_bignum A)
        else last
  end.

Definition d_lascl (type : MatrixType) (kl ku : Z) (cfrom cto : double)
  (m n : Z) (A : list double) (lda : Z) : option (list double) :=
  if SFeqb cfrom d_zero || d_isnan cfrom || d_isnan cto
     || (m <? 0) || (n <? 0) || (lda <? Z.max 1 m)
  then None
  else if (n =? 0) || (m =? 0) then Some A
  else Some (d_lascl_loop 2 type m n lda cfrom cto A).

(** A stand-in eigensolver on a matrix type with one value: it returns the
    diagonal as it is.  Only the driver around it is of interest. *)
Definition u_solve (D E : list double) (W Q U : unit) (opts : Options)
  : list double * list double * unit * unit * unit := (D, E, W, Q, U).

Definition u_sort (D : list double) (W Q : unit) (opts : Options)
  : list double * unit := (D, Q).

Definition u_stedc (D E : list double)
  : Outcome (list double * list double * unit) :=
  Stedc.stedc d_lanst d_lascl (fun Q => Q) (fun Q => Q)
    (fun _ _ Q _ => Q) u_solve u_sort D E tt no_opts.

(** A state that is one number, factored by taking its square root. *)
Definition sqrt_kernel (c : Call) (st : Z) : Z :=
  match c with internal_potrf _ _ _ => Z.sqrt st | _ => st end.

End Sample.

(** ** Which tile columns a task of the factorization touches *)

Module Access.

(** Tile columns of the storage a view refers to: a (conjugate)
    transposition changes how the tiles are read, not which tiles. *)
Fixpoint storage_columns (v : View) : list Z :=
  match v with
  | sub _ _ j1 j2 => Loop.range j1 (j2 + 1)
  | subd i1 i2 => Loop.range i1 (i2 + 1)
  | conjT v => storage_columns v
  | tri _ v => storage_columns v
  end.

(** The operand a kernel call overwrites. *)
Definition call_writes (c : Call) : list Z :=
  match c with
  | internal_potrf _ A _ => storage_columns A
  | internal_trsm _ _ _ _ B _ _ => storage_columns B
  | internal_herk _ _ _ _ C _ _ => storage_columns C
  | internal_gemm _ _ _ _ _ C _ _ => storage_columns C
  | _ => []
  end.

(** The operands a kernel call only reads. *)
Definition call_reads (c : Call) : list Z :=
  match c with
  | internal_trsm _ _ _ A _ _ _ => storage_columns A
  | internal_herk _ _ A _ _ _ _ => storage_columns A
  | internal_gemm _ _ A B _ _ _ _ => storage_columns A ++ storage_columns B
  | _ => []
  end.

Definition task_writes (t : Task Call) : list Z :=
  flat_map call_writes (body t).

Definition task_reads (t : Task Call) : list Z :=
  flat_map call_reads (body t).

End Access.

(** [t] is created before [u] in the creation order [ts]. *)
Definition precedes {C : Type} (ts : list (Task C)) (t u : Task C) : Prop :=
  exists i j, (i < j)%nat /\ nth_error ts i = Some t /\ nth_error ts j = Some u.

(** [u] is created after [t] and names a token of [t] with a conflicting
    dependence type: the OpenMP runtime starts [u] after [t] has ended. *)
Definition waits_for {C : Type} (ts : list (Task C)) (t u : Task C) : Prop :=
  precedes ts t u /\ exists tok, ordered_by tok t u = true.

(** [u] starts after [t] has ended, directly or through one task between
    them. *)
Definition runs_after {C : Type} (ts : list (Task C)) (t u : Task C) : Prop :=
  waits_for ts t u \/ exists m, waits_for ts t m /\ waits_for ts m u.

(** [u] starts after [t] has ended, through any number of tasks between
    them. *)
Inductive happens_before {C : Type} (ts : list (Task C))
  : Task C -> Task C -> Prop :=
| hb_direct (t u : Task C) :
    waits_for ts t u -> happens_before ts t u
| hb_through (t m u : Task C) :
    waits_for ts t m -> happens_before ts m u -> happens_before ts t u.

(** A [taskwait] is executed between the creation of [t] and that of
    [u]: [t] has ended when [u] is created. *)
Definition barrier_between {C : Type} (es : list (Event C)) (t u : Task C)
  : Prop :=
  exists i b j, (i < b)%nat /\ (b < j)%nat
    /\ nth_error es i = Some (Spawn t)
    /\ nth_error es b = Some Taskwait
    /\ nth_error es j = Some (Spawn u).

(** What is left of a run when only the order of task creations and
    barriers is kept: the role of each task created, and [None] for each
    [taskwait]. *)
Definition outline {C : Type} (es : list (Event C)) : list (option Role) :=
  flat_map (fun e => match e with
                     | Spawn t => [Some (role t)]
                     | Taskwait => [None]
                     | _ => []
                     end) es.

(** All dependence tokens a task names. *)
Definition tokens {C : Type} (t : Task C) : list Z :=
  map (fun d => match d with dep_in j => j | dep_inout j => j end)
      (depends t).

(** The columns handed to [potrfReleasePanel] and to [potrfCleanTiles] by
    the tasks [ts], in creation order. *)
Definition released_panels (ts : list (Task Call)) : list Z :=
  flat_map (fun c => match c with potrfReleasePanel k => [k] | _ => [] end)
           (flat_map (@body Call) ts).

Definition cleaned_columns (ts : list (Task Call)) : list Z :=
  flat_map (fun c => match c with potrfCleanTiles k => [k] | _ => [] end)
           (flat_map (@body Call) ts).

(** The queues (batch-array indices) the kernels of a task are issued
    on. *)
Definition task_queues (t : Task Call) : list Z :=
  flat_map (fun c => match Potrf.call_queue c with
                     | Some q => [q]
                     | None => []
                     end) (body t).

(** ** Release of the panel tiles: [potrfReleasePanel], [potrfCleanTiles] *)

Module Release.

Import Loop.

(** Calls on the tile registry; [device = None] where the source leaves
    the device argument to its default, the host. *)
Inductive TileOp :=
| tileUpdateOrigin (i j : Z)
| tileUnsetHold (i j : Z) (device : option Z)
| tileRelease (i j : Z) (device : option Z).

(** [std::set<int>::insert]: the set is kept in increasing order, without
    repetition, and is iterated in that order. *)
Fixpoint set_insert (x : Z) (s : list Z) : list Z :=
  match s with
  | [] => [x]
  | y :: s' =>
      if x <? y then x :: s
      else if x =? y then s
      else y :: set_insert x s'
  end.

(** The set is strictly increasing. *)
Fixpoint increasing (s : list Z) : Prop :=
  match s with
  | [] => True
  | x :: s' => (forall y, In y s' -> x < y) /\ increasing s'
  end.

Section Panel.

Context {HermitianMatrix : Type} {BM : BaseMatrix HermitianMatrix}
        {DM : Distributed HermitianMatrix}.

(** The devices [X.getLocalDevices] reports for a sub-matrix (a method of
    the matrix classes, which are not among the sources), in the order it
    inserts them. *)
Variable local_devices : HermitianMatrix -> View -> list Z.

(** [X.getLocalDevices(&dev_set)] *)
Definition getLocalDevices (A : HermitianMatrix) (v : View)
  (dev_set : list Z) : list Z :=
  fold_left (fun s d => set_insert d s) (local_devices A v) dev_set.

(** Unset hold on a device and release the tile, for each device. *)
Definition release_on (i k : Z) (dev_set : list Z) : list TileOp :=
  flat_map (fun device => [tileUnsetHold i k (Some device);
                           tileRelease i k (Some device)])
           dev_set.

Definition potrfCleanTiles (A : HermitianMatrix) (k : Z) : list TileOp :=
  let A_nt := nt A in
  flat_map (fun i =>
    (if tileIsLocal A i k then [tileUpdateOrigin i k] else [])
    ++ (let dev_set :=
          getLocalDevices A (sub i (A_nt-1) i i)
            (getLocalDevices A (sub i i k i) []) in
        release_on i k dev_set
        (* Unset hold on host and release the tile *)
        ++ [tileUnsetHold i k None; tileRelease i k None]))
    (range k A_nt).

Definition potrfReleasePanel (A : HermitianMatrix) (k : Z) : list TileOp :=
  let A_nt := nt A in
  flat_map (fun i =>
    if tileIsLocal A i k
    then [tileUpdateOrigin i k]
         ++ (let dev_set :=
               getLocalDevices A (sub i (A_nt-1) i i)
                 (getLocalDevices A (sub i i (k+1) i) []) in
             release_on i k dev_set)
    else [])
    (range (k+1) A_nt).

End Panel.

(** The tile instance an operation addresses. *)
Definition op_tile (o : TileOp) : Z * Z :=
  match o with
  | tileUpdateOrigin i j | tileUnsetHold i j _ | tileRelease i j _ => (i, j)
  end.

Definition op_device (o : TileOp) : option (option Z) :=
  match o with
  | tileUpdateOrigin _ _ => None
  | tileUnsetHold _ _ d | tileRelease _ _ d => Some d
  end.

(** The instances released, in order. *)
Definition releases (ops : list TileOp) : list (Z * Z * option Z) :=
  flat_map (fun o => match o with
                     | tileRelease i j d => [(i, j, d)]
                     | _ => []
                     end) ops.

Definition TileOp_eqb (a b : TileOp) : bool :=
  let dev_eqb (x y : option Z) :=
    match x, y with
    | Some u, Some v => u =? v
    | None, None => true
    | _, _ => false
    end in
  match a, b with
  | tileUpdateOrigin i j, tileUpdateOrigin i' j' => (i =? i') && (j =? j')
  | tileUnsetHold i j d, tileUnsetHold i' j' d' =>
      (i =? i') && (j =? j') && dev_eqb d d'
  | tileRelease i j d, tileRelease i' j' d' =>
      (i =? i') && (j =? j') && dev_eqb d d'
  | _, _ => false
  end.

(** Every release comes right after the hold on the same instance has
    been unset. *)
Fixpoint released_after_unset (prev : option TileOp) (ops : list TileOp)
  : bool :=
  match ops with
  | [] => true
  | o :: ops' =>
      (match o with
       | tileRelease i j d =>
           match prev with
           | Some p => TileOp_eqb p (tileUnsetHold i j d)
           | None => false
           end
       | _ => true
       end)
      && released_after_unset (Some o) ops'
  end.

End Release.

(** ** Observations on the calls of the solve *)

Module TrsmACalls.

Import TrsmA.

Section Calls.

Context {S : Type}.

(** The tile a call scales, with the factor. *)
Definition call_scales (c : Call S) : list (Z * Z * S) :=
  match c with
  | tile_scale _ a i j => [(i, j, a)]
  | _ => []
  end.

Definition scalings (ts : list (Task (Call S))) : list (Z * Z * S) :=
  flat_map (fun t => flat_map call_scales (body t)) ts.

(** The scalars handed to a kernel: [alpha] of a tile solve, [alpha] and
    [beta] of an update. *)
Definition solve_alpha (c : Call S) : option S :=
  match c with
  | internal_trsmA _ _ a _ _ _ _ _ => Some a
  | _ => None
  end.

Definition update_scalars (c : Call S) : option (S * S) :=
  match c with
  | internal_gemmA _ a _ _ b _ _ _ _ => Some (a, b)
  | _ => None
  end.

(** The target a templated call is instantiated with. *)
Definition call_target (c : Call S) : option Target :=
  match c with
  | listReduce t _ => Some t
  | internal_trsmA t _ _ _ _ _ _ _ => Some t
  | listBcast t _ _ _ => Some t
  | internal_gemmA t _ _ _ _ _ _ _ _ => Some t
  | _ => None
  end.

(** The tile instance a call on one tile addresses: [Some None] is the
    host instance. *)
Definition call_instance (c : Call S) : option (option Z) :=
  match c with
  | tile_scale dev _ _ _ => Some dev
  | insert_zero_tile dev _ _ _ => Some dev
  | _ => None
  end.

Definition is_update (c : Call S) : bool :=
  match c with
  | internal_gemmA _ _ _ _ _ _ _ _ _ => true
  | _ => false
  end.

(** The queue a kernel is issued on, where the call names one. *)
Definition call_queue (c : Call S) : option Z :=
  match c with
  | internal_trsmA _ _ _ _ _ _ q _ => Some q
  | internal_gemmA _ _ _ _ _ _ _ q _ => q
  | _ => None
  end.

(** Point-to-point transfers of a task: [(i, j, rank)] for a tile
    [B(i, j)] sent to, or received from, [rank]. *)
Definition call_sends (c : Call S) : list (Z * Z * Z) :=
  match c with tileSend i j dest => [(i, j, dest)] | _ => [] end.

Definition call_receives (c : Call S) : list (Z * Z * Z) :=
  match c with tileRecv i j root => [(i, j, root)] | _ => [] end.

Definition task_sends (t : Task (Call S)) : list (Z * Z * Z) :=
  flat_map call_sends (body t).

Definition task_receives (t : Task (Call S)) : list (Z * Z * Z) :=
  flat_map call_receives (body t).

(** Tile rows of [B] a call writes and reads ([A] is only read by the
    solve).  A reduction and a receive overwrite the tile they deliver;
    a broadcast and a send read the tile they take. *)
Definition b_rows (v : MView) : list Z :=
  match v with of_B v => view_rows v | of_A _ => [] end.

Definition call_writes (c : Call S) : list Z :=
  match c with
  | tile_scale _ _ i _ => [i]
  | insert_zero_tile _ i _ _ => [i]
  | listReduce _ l => map rd_i l
  | internal_trsmA _ _ _ _ B _ _ _ => b_rows B
  | tileRecv i _ _ => [i]
  | tileErase_nonlocal i _ => [i]
  | internal_gemmA _ _ _ _ _ C _ _ _ => b_rows C
  | erase_panel_workspace k => [k]
  | tileSend _ _ _ => []
  | listBcast _ _ _ _ => []
  end.

Definition call_reads (c : Call S) : list Z :=
  match c with
  | tileSend i _ _ => [i]
  | listBcast _ l _ _ => map bc_i l
  | internal_gemmA _ _ _ B _ _ _ _ _ => b_rows B
  | _ => []
  end.

Definition task_writes (t : Task (Call S)) : list Z :=
  flat_map call_writes (body t).

Definition task_reads (t : Task (Call S)) : list Z :=
  flat_map call_reads (body t).

Definition is_taskwait (e : Event (Call S)) : bool :=
  match e with Taskwait => true | _ => false end.

End Calls.

Section Scaling.

Context {S : Type} {SC : Scalar S}.
Context {Matrix : Type} {DB : Distributed Matrix}.

(** What the right-hand side is scaled by at step [k], in either sweep:
    by [alpha] at the first step, if [alpha] is not one. *)
Definition scaled_at (alpha : S) (B : Matrix) (mt nt first k : Z)
  : list (Z * Z * S) :=
  if (k =? first) && negb (s_eqb alpha s_one)
  then map (fun ij => (fst ij, snd ij, alpha)) (local_tiles B mt nt)
  else [].

End Scaling.

Section Steps.

Context {S : Type} {SC : Scalar S}.
Context {TriangularMatrix : Type} {BA : BaseMatrix TriangularMatrix}
        {DA : Distributed TriangularMatrix}.
Context {Matrix : Type} {BB : BaseMatrix Matrix} {DB : Distributed Matrix}.

(** The events of a forward step before and after its [taskwait]. *)
Definition before_barrier (target : Target) (alpha : S)
  (A : TriangularMatrix) (B : Matrix) (mt nt lookahead : Z)
  (local_opts : Options) (k : Z) : list (Event (Call S)) :=
  [Spawn (panel_fwd target alpha A B mt nt lookahead local_opts k)]
  ++ map (@Spawn _) (lookahead_tasks_fwd target mt nt lookahead local_opts k).

Definition after_barrier (target : Target) (mt nt lookahead : Z)
  (local_opts : Options) (k : Z) : list (Event (Call S)) :=
  map (@Spawn _) (trailing_tasks_fwd target mt nt lookahead local_opts k)
  ++ [Spawn (cleanup_task_fwd k)].

End Steps.

End TrsmACalls.

(** ** The loop that ends the solve: release of the tiles of [B] *)

Module TrsmARelease.

Import Loop.

Section FinalRelease.

Context {TriangularMatrix : Type} {BA : BaseMatrix TriangularMatrix}
        {DA : Distributed TriangularMatrix}.
Context {Matrix : Type} {BB : BaseMatrix Matrix}.

(** The tile registry of [B] with the two methods the loop calls (the
    matrix classes are not among the sources), and the device number that
    stands for the host. *)
Variable Registry : Type.
Variable HostNum : Z.
Variable tileExists : Registry -> Z -> Z -> Z -> bool.
Variable tileRelease : Registry -> Z -> Z -> Z -> Registry.

(** The state of the loop: the registry and the instances released so
    far, in order. *)
Definition ReleaseState : Type := Registry * list (Z * Z * Z).

(** [if (B.tileExists( i, k, device )) B.tileRelease( i, k, device );] *)
Definition release_if_exists (i k device : Z) (st : ReleaseState)
  : ReleaseState :=
  if tileExists (fst st) i k device
  then (tileRelease (fst st) i k device, snd st ++ [(i, k, device)])
  else st.

(** The body of [if (A.tileIsLocal( i, j ))], up to the [break]. *)
Definition release_row (target : Target) (A : TriangularMatrix) (nt i j : Z)
  (st : ReleaseState) : ReleaseState :=
  let device := if Target_eqb target Devices then tileDevice A i j
                else HostNum in
  fold_left
    (fun st k =>
       let st := release_if_exists i k device st in
       if negb (device =? HostNum)
       then release_if_exists i k HostNum st
       else st)
    (range 0 nt) st.

(** The first [j] with [A.tileIsLocal( i, j )], where the loop over [j]
    stops. *)
Definition first_local (A : TriangularMatrix) (i : Z) : option Z :=
  find (fun j => tileIsLocal A i j) (range 0 (nt A)).

Definition release_local_tiles (target : Target) (A : TriangularMatrix)
  (B : Matrix) (st : ReleaseState) : ReleaseState :=
  fold_left
    (fun st i =>
       match first_local A i with
       | Some j => release_row target A (nt B) i j st
       | None => st
       end)
    (range 0 (mt A)) st.

End FinalRelease.

End TrsmARelease.

(** ** Norm of a trapezoid matrix: [trnorm] *)

Module Trnorm.

(** The reduction operation of an [MPI_Allreduce]: the operation created
    from [mpi_max_nan], or [MPI_SUM]. *)
Inductive ReduceOp := op_max_nan | MPI_SUM.

(** What a call does besides computing, in order. *)
Inductive Step :=
| reserveDeviceWorkspace
| internal_trnorm (target : Target) (norm : Norm) (diag : Diag)
| MPI_Op_create
| MPI_Allreduce (count : Z) (op : ReduceOp)
| MPI_Op_free
| clearWorkspace.

Section Norm.

Context {real_t : Type} {TrapezoidMatrix : Type}.

(** Dimensions of [A]; the kernel [internal::trnorm], through the values it
    leaves in its output array; the reduction over the processes; LAPACK's
    [lange(Norm::Max, 1, n, data, 1)]; and the arithmetic of [real_t]. *)
Variable A_m A_n : TrapezoidMatrix -> Z.
Variable kernel : Target -> Norm -> Diag -> TrapezoidMatrix -> list real_t.
Variable allreduce : ReduceOp -> Z -> list real_t -> list real_t.
Variable lange_max : Z -> list real_t -> real_t.
Variable r_mul : real_t -> real_t -> real_t.
Variable r_sqrt : real_t -> real_t.
Variable r_unset : real_t.

(** [if (target == Target::Devices) A.reserveDeviceWorkspace();] *)
Definition reserve (target : Target) : list Step :=
  if Target_eqb target Devices then [reserveDeviceWorkspace] else [].

(** [internal::specialization::trnorm]: the value returned and the steps.
    The four norms of the enumeration are the four branches; the final
    [throw] is for a value outside the enumeration. *)
Definition specialization_trnorm (target : Target) (norm : Norm)
  (diag : Diag) (A : TrapezoidMatrix) : real_t * list Step :=
  match norm with
  | NormMax =>
      let local_max := kernel target norm diag A in
      let global_max := allreduce op_max_nan 1 local_max in
      (nth 0 global_max r_unset,
       reserve target
       ++ [internal_trnorm target norm diag;
           MPI_Op_create; MPI_Allreduce 1 op_max_nan; MPI_Op_free;
           clearWorkspace])
  | NormOne =>
      let local_sums := kernel target norm diag A in
      let global_sums := allreduce MPI_SUM (A_n A) local_sums in
      (lange_max (A_n A) global_sums,
       reserve target
       ++ [internal_trnorm target norm diag;
           MPI_Allreduce (A_n A) MPI_SUM; clearWorkspace])
  | NormInf =>
      let local_sums := kernel target norm diag A in
      let global_sums := allreduce MPI_SUM (A_m A) local_sums in
      (lange_max (A_m A) global_sums,
       reserve target
       ++ [internal_trnorm target norm diag;
           MPI_Allreduce (A_m A) MPI_SUM; clearWorkspace])
  | NormFro =>
      let local_values := kernel target norm diag A in
      let local_sumsq :=
        r_mul (r_mul (nth 0 local_values r_unset)
                     (nth 0 local_values r_unset))
              (nth 1 local_values r_unset) in
      let global_sumsq := allreduce MPI_SUM 1 [local_sumsq] in
      (r_sqrt (nth 0 global_sumsq r_unset),
       reserve target
       ++ [internal_trnorm target norm diag;
           MPI_Allreduce 1 MPI_SUM; clearWorkspace])
  end.

(** Version with target as template parameter. *)
Definition trnorm_target (target : Target) (norm : Norm) (diag : Diag)
  (A : TrapezoidMatrix) (opts : Options) : real_t * list Step :=
  specialization_trnorm target norm diag A.

(** [trnorm(norm, diag, A, opts)]: [opts.at(Option::Target)] throws
    [std::out_of_range] when the key is missing, which is caught. *)
Definition trnorm (norm : Norm) (diag : Diag) (A : TrapezoidMatrix)
  (opts : Options) : real_t * list Step :=
  let target :=
    match opt_Target opts with
    | Some t => t
    | None => HostTask
    end in
  match target with
  | Host | HostTask => trnorm_target HostTask norm diag A opts
  | HostBatch | HostNest => trnorm_target HostNest norm diag A opts
  | Devices => trnorm_target Devices norm diag A opts
  end.

End Norm.

(** The targets the kernel is instantiated with, and the reductions. *)
Definition kernel_targets (l : list Step) : list Target :=
  flat_map (fun s => match s with
                     | internal_trnorm t _ _ => [t]
                     | _ => []
                     end) l.

Definition reductions (l : list Step) : list (Z * ReduceOp) :=
  flat_map (fun s => match s with
                     | MPI_Allreduce count op => [(count, op)]
                     | _ => []
                     end) l.

End Trnorm.

(** ** The unit tests of the tile routines *)

Module UnitTest.

Import Loop.

(** *** [test_assert_equal] *)

(** Whether [uplo(A)] is general, lower, or upper. *)
Definition general (uplo : Uplo) : bool := Uplo_eqb uplo General.

Definition lower (uplo : Uplo) (op : Op) : bool :=
  (Uplo_eqb uplo Lower && Op_eqb op NoTrans)
  || (Uplo_eqb uplo Upper && negb (Op_eqb op NoTrans)).

Definition upper (uplo : Uplo) (op : Op) : bool :=
  (Uplo_eqb uplo Upper && Op_eqb op NoTrans)
  || (Uplo_eqb uplo Lower && negb (Op_eqb op NoTrans)).

(** The entries the loop nest looks at:
    [if (general || (lower && i >= j) || (upper && i <= j))]. *)
Definition compared (uplo : Uplo) (op : Op) (i j : Z) : bool :=
  general uplo || (lower uplo op && (i >=? j)) || (upper uplo op && (i <=? j)).

Section AssertEqual.

Context {scalar_t : Type}.

(** [abs_error <= abs_tol || rel_error <= rel_tol] for an entry of [A]
    and the entry of [B] it is compared with (floating-point arithmetic of
    the scalar type). *)
Variable within_tolerance : scalar_t -> scalar_t -> bool.

(** [test_assert_equal]: [None] when the first assertion fails, [Some
    tt] when the loops end; [A i j] is the tile's accessor [A(i, j)], [B]
    the array. *)
Definition test_assert_equal (uplo : Uplo) (op : Op) (mb nb : Z)
  (A : Z -> Z -> scalar_t) (B : Z -> scalar_t) (ldb : Z) : option unit :=
  if general uplo || lower uplo op || upper uplo op
  then
    if forallb (fun j =>
         forallb (fun i =>
            if compared uplo op i j
            then within_tolerance (A i j) (B (i + j * ldb))
            else true)
           (range 0 mb))
         (range 0 nb)
    then Some tt else None
  else None.

End AssertEqual.

(** *** The list of routines and [run_tests] *)

Inductive test_func_ptr :=
| test_gemm | test_syrk | test_herk | test_trsm | test_genorm | test_potrf
| test_convert_layout | test_device_convert_layout.

Inductive TestSection :=
| newline | blas_section | norm | factor | convert.

(** A row of the table; [func = None] is [nullptr]. *)
Record routines_t := {
  name : String.string;
  func : option test_func_ptr;
  section : TestSection
}.

Definition routines : list routines_t := [
  {| name := "gemm"; func := Some test_gemm; section := blas_section |};
  {| name := "syrk"; func := Some test_syrk; section := blas_section |};
  {| name := "herk"; func := Some test_herk; section := blas_section |};
  {| name := "trsm"; func := Some test_trsm; section := blas_section |};
  {| name := String.EmptyString; func := None; section := newline |};
  {| name := "genorm"; func := Some test_genorm; section := norm |};
  {| name := String.EmptyString; func := None; section := newline |};
  {| name := "potrf"; func := Some test_potrf; section := factor |};
  {| name := String.EmptyString; func := None; section := newline |};
  {| name := "convert_layout"; func := Some test_convert_layout;
     section := convert |};
  {| name := "device_convert_layout";
     func := Some test_device_convert_layout; section := convert |};
  {| name := String.EmptyString; func := None; section := newline |}
]%string.

(** What [run_tests] does, in order. *)
Inductive Action :=
| run_test (f : option test_func_ptr) (name : String.string)
| usage
| print_unknown_routine (arg : String.string).

Definition is_help (arg : String.string) : bool :=
  (String.eqb arg "-h" || String.eqb arg "--help")%string.

(** The rows an argument names: [if (arg == routines[j].name)]. *)
Definition named (arg : String.string) : list routines_t :=
  filter (fun r => String.eqb arg (name r)) routines.

(** The loop over [g_argv[1 ..]], which [-h] or [--help] ends. *)
Fixpoint run_named (args : list String.string) : list Action :=
  match args with
  | [] => []
  | arg :: rest =>
      if is_help arg then [usage]
      else
        map (fun r => run_test (func r) (name r)) (named arg)
        ++ (match named arg with
            | [] => [usage; print_unknown_routine arg]
            | _ => []
            end)
        ++ run_named rest
  end.

(** [run_tests], for the argument vector of [main]. *)
Definition run_tests (g_argv : list String.string) : list Action :=
  if (Z.of_nat (List.length g_argv) =? 1)
  then flat_map (fun r => match func r with
                          | Some f => [run_test (Some f) (name r)]
                          | None => []
                          end) routines
  else run_named (tl g_argv).

(** The arguments the loop gets to: those before the first help flag. *)
Fixpoint before_help (args : list String.string) : list String.string :=
  match args with
  | [] => []
  | arg :: rest => if is_help arg then [] else arg :: before_help rest
  end.

End UnitTest.

(** ** Tiles sent and tiles multiplied *)

(** Whether tile [(r, c)] lies within a view. *)
Definition covers (v : View) (r c : Z) : bool :=
  let '((i1, i2), (j1, j2)) := view_extent v in
  (i1 <=? r) && (r <=? i2) && (j1 <=? c) && (c <=? j2).

(** The tile a broadcast entry sends, and whether tile [(r, c)] lies within
    one of its destinations. *)
Definition bc_tile (e : BcastEntry) : Z * Z := (bc_i e, bc_j e).

Definition sent_to (e : BcastEntry) (r c : Z) : bool :=
  existsb (fun d => covers d r c) (bc_dst e).

Module PotrfBcast.

(** The entries of the broadcast lists of a task of the factorization. *)
Definition call_bcasts (c : Call) : list BcastEntry :=
  match c with
  | listBcastMT _ l _ _ => l
  | _ => []
  end.

Definition task_bcasts (t : Task Call) : list BcastEntry :=
  flat_map call_bcasts (body t).

End PotrfBcast.

Module TrsmABcast.

Import TrsmA.

Section Calls.

Context {S : Type}.

(** The entries of the broadcast lists of a task of the solve. *)
Definition call_bcasts (c : Call S) : list BcastEntry :=
  match c with
  | listBcast _ l _ _ => l
  | _ => []
  end.

Definition task_bcasts (t : Task (Call S)) : list BcastEntry :=
  flat_map call_bcasts (body t).

(** The view of [A] and the view of [B] a tile update multiplies. *)
Definition call_factors (c : Call S) : list (View * View) :=
  match c with
  | internal_gemmA _ _ (of_A a) (of_B b) _ _ _ _ _ => [(a, b)]
  | _ => []
  end.

Definition task_factors (t : Task (Call S)) : list (View * View) :=
  flat_map call_factors (body t).

End Calls.

End TrsmABcast.

(** * Properties *)

(** ** Counted loops *)

Module LoopFacts.

Import Loop.

Lemma for_up_eq (cond : Z -> bool) (hi j : Z) :
  for_up cond hi j =
  if cond j && (j <? hi) then j :: for_up cond hi (j + 1) else [].
Proof.
  funelim (for_up cond hi j);
    match goal with
    | E : _ && _ = _ |- _ => rewrite E; reflexivity
    end.
Qed.

Lemma for_down_eq (cond : Z -> bool) (lo j : Z) :
  for_down cond lo j =
  if cond j && (j >=? lo) then j :: for_down cond lo (j - 1) else [].
Proof.
  funelim (for_down cond lo j);
    match goal with
    | E : _ && _ = _ |- _ => rewrite E; reflexivity
    end.
Qed.

(** A loop whose extra condition, once false, stays false visits the
    indices of its range that satisfy the condition. *)
Lemma In_for_up (cond : Z -> bool) (hi : Z) :
  (forall x y, x <= y -> cond y = true -> cond x = true) ->
  forall j c, In c (for_up cond hi j) <-> j <= c < hi /\ cond c = true.
Proof.
  intros Hdown j.
  remember (Z.to_nat (hi - j)) as n eqn:Hn.
  revert j Hn. induction n as [| n IH]; intros j Hn c.
  - rewrite for_up_eq.
    replace (j <? hi) with false by (symmetry; apply Z.ltb_ge; lia).
    rewrite andb_false_r. simpl. lia.
  - rewrite for_up_eq.
    replace (j <? hi) with true by (symmetry; apply Z.ltb_lt; lia).
    rewrite andb_true_r.
    destruct (cond j) eqn:Ej.
    + simpl. rewrite (IH (j + 1)) by lia.
      split.
      * intros [<- | [Hr Hc]]; [split; [lia | assumption] | split; [lia | assumption]].
      * intros [Hr Hc].
        destruct (Z.eq_dec j c) as [-> | Hne]; [now left | right].
        split; [lia | assumption].
    + simpl. split; [tauto |].
      intros [Hr Hc]. rewrite (Hdown j c) in Ej by (lia || assumption).
      discriminate.
Qed.

Lemma for_up_bounds (cond : Z -> bool) (hi j c : Z) :
  In c (for_up cond hi j) -> j <= c < hi.
Proof.
  remember (Z.to_nat (hi - j)) as n eqn:Hn.
  revert j Hn. induction n as [| n IH]; intros j Hn; rewrite for_up_eq.
  - replace (j <? hi) with false by (symmetry; apply Z.ltb_ge; lia).
    rewrite andb_false_r. simpl. tauto.
  - destruct (cond j && (j <? hi)) eqn:E; simpl; [| tauto].
    apply andb_true_iff in E. destruct E as [_ E]. apply Z.ltb_lt in E.
    intros [<- | Hin]; [lia |].
    apply IH in Hin; lia.
Qed.

Lemma NoDup_for_up (cond : Z -> bool) (hi j : Z) : NoDup (for_up cond hi j).
Proof.
  remember (Z.to_nat (hi - j)) as n eqn:Hn.
  revert j Hn. induction n as [| n IH]; intros j Hn; rewrite for_up_eq.
  - replace (j <? hi) with false by (symmetry; apply Z.ltb_ge; lia).
    rewrite andb_false_r. constructor.
  - destruct (cond j && (j <? hi)) eqn:E; [| constructor].
    apply andb_true_iff in E. destruct E as [_ E]. apply Z.ltb_lt in E.
    constructor; [| apply IH; lia].
    intros Hin. apply for_up_bounds in Hin. lia.
Qed.

Lemma In_for_down (cond : Z -> bool) (lo : Z) :
  (forall x y, x <= y -> cond x = true -> cond y = true) ->
  forall j c, In c (for_down cond lo j) <-> lo <= c <= j /\ cond c = true.
Proof.
  intros Hup j.
  remember (Z.to_nat (j + 1 - lo)) as n eqn:Hn.
  revert j Hn. induction n as [| n IH]; intros j Hn c.
  - rewrite for_down_eq.
    replace (j >=? lo) with false by (symmetry; rewrite Z.geb_leb; apply Z.leb_gt; lia).
    rewrite andb_false_r. simpl. lia.
  - rewrite for_down_eq.
    replace (j >=? lo) with true by (symmetry; apply Z.geb_le; lia).
    rewrite andb_true_r.
    destruct (cond j) eqn:Ej.
    + simpl. rewrite (IH (j - 1)) by lia.
      split.
      * intros [<- | [Hr Hc]]; [split; [lia | assumption] | split; [lia | assumption]].
      * intros [Hr Hc].
        destruct (Z.eq_dec j c) as [-> | Hne]; [now left | right].
        split; [lia | assumption].
    + simpl. split; [tauto |].
      intros [Hr Hc]. rewrite (Hup c j) in Ej by (lia || assumption).
      discriminate.
Qed.

Lemma In_range (lo hi c : Z) : In c (range lo hi) <-> lo <= c < hi.
Proof.
  unfold range. rewrite In_for_up by (intros; reflexivity). tauto.
Qed.

Lemma NoDup_range (lo hi : Z) : NoDup (range lo hi).
Proof. apply NoDup_for_up. Qed.

Lemma range_empty (lo hi : Z) : hi <= lo -> range lo hi = [].
Proof.
  intros H. unfold range. rewrite for_up_eq.
  replace (lo <? hi) with false by (symmetry; apply Z.ltb_ge; lia).
  reflexivity.
Qed.

Lemma range_cons (lo hi : Z) : lo < hi -> range lo hi = lo :: range (lo + 1) hi.
Proof.
  intros H. unfold range. rewrite for_up_eq.
  replace (lo <? hi) with true by (symmetry; apply Z.ltb_lt; lia).
  reflexivity.
Qed.

Lemma range_snoc (lo hi : Z) :
  lo <= hi -> range lo (hi + 1) = range lo hi ++ [hi].
Proof.
  intros H.
  remember (Z.to_nat (hi - lo)) as n eqn:Hn.
  revert lo H Hn. induction n as [| n IH]; intros lo H Hn.
  - assert (lo = hi) as -> by lia.
    rewrite range_cons by lia.
    rewrite !range_empty by lia. reflexivity.
  - rewrite (range_cons (lo := lo) (hi := hi + 1)) by lia.
    rewrite (range_cons (lo := lo) (hi := hi)) by lia.
    rewrite IH by lia. reflexivity.
Qed.

Lemma range_down_empty (hi lo : Z) : hi < lo -> range_down hi lo = [].
Proof.
  intros H. unfold range_down. rewrite for_down_eq.
  replace (hi >=? lo) with false by (symmetry; rewrite Z.geb_leb; apply Z.leb_gt; lia).
  reflexivity.
Qed.

Lemma range_down_cons (hi lo : Z) :
  lo <= hi -> range_down hi lo = hi :: range_down (hi - 1) lo.
Proof.
  intros H. unfold range_down. rewrite for_down_eq.
  replace (hi >=? lo) with true by (symmetry; apply Z.geb_le; lia).
  reflexivity.
Qed.

(** The backward loop visits the rows of the forward loop in reverse. *)
Lemma range_down_rev (n : Z) : range_down (n - 1) 0 = rev (range 0 n).
Proof.
  destruct (Z.le_gt_cases n 0) as [Hn | Hn].
  - rewrite range_down_empty, range_empty by lia. reflexivity.
  - remember (Z.to_nat n) as m eqn:Hm.
    revert n Hn Hm. induction m as [| m IH]; intros n Hn Hm; [lia |].
    rewrite range_down_cons by lia.
    replace (range 0 n) with (range 0 ((n - 1) + 1)) by (f_equal; lia).
    rewrite range_snoc by lia.
    rewrite rev_app_distr. simpl. f_equal.
    destruct (Z.eq_dec n 1) as [-> | Hne].
    + reflexivity.
    + apply IH; lia.
Qed.

(** The forward loop from 0 counts up. *)
Lemma range_0_seq (n : Z) : range 0 n = map Z.of_nat (seq 0 (Z.to_nat n)).
Proof.
  destruct (Z.le_gt_cases n 0) as [Hn | Hn].
  - rewrite range_empty by lia.
    replace (Z.to_nat n) with 0%nat by lia. reflexivity.
  - remember (Z.to_nat n) as m eqn:Hm.
    revert n Hn Hm. induction m as [| m IH]; intros n Hn Hm; [lia |].
    replace (range 0 n) with (range 0 ((n - 1) + 1)) by (f_equal; lia).
    rewrite range_snoc by lia.
    rewrite seq_S, map_app. simpl.
    replace (Z.of_nat m) with (n - 1) by lia.
    f_equal.
    destruct (Z.eq_dec n 1) as [-> | Hne].
    + replace m with 0%nat by lia. reflexivity.
    + apply IH; lia.
Qed.

Lemma count_occ_range (lo hi c : Z) :
  count_occ Z.eq_dec (range lo hi) c
  = if (lo <=? c) && (c <? hi) then 1%nat else 0%nat.
Proof.
  destruct ((lo <=? c) && (c <? hi)) eqn:E.
  - apply andb_true_iff in E. destruct E as [E1 E2].
    apply Z.leb_le in E1. apply Z.ltb_lt in E2.
    apply NoDup_count_occ'; [apply NoDup_range | apply In_range; lia].
  - apply count_occ_not_In. rewrite In_range. intros [H1 H2].
    apply andb_false_iff in E. destruct E as [E | E].
    + apply Z.leb_gt in E. lia.
    + apply Z.ltb_ge in E. lia.
Qed.

End LoopFacts.

(** ** Task lists *)

Module GraphFacts.

Lemma tasks_app {C : Type} (es fs : list (Event C)) :
  tasks (es ++ fs) = tasks es ++ tasks fs.
Proof. unfold tasks. apply flat_map_app. Qed.

Lemma tasks_spawn {C : Type} (ts : list (Task C)) :
  tasks (map (@Spawn C) ts) = ts.
Proof.
  unfold tasks.
  induction ts as [| t ts IH]; [reflexivity |].
  simpl. rewrite IH. reflexivity.
Qed.

Lemma tasks_flat_map {A C : Type} (f : A -> list (Event C)) (l : list A) :
  tasks (flat_map f l) = flat_map (fun x => tasks (f x)) l.
Proof.
  induction l as [| x l IH]; [reflexivity |].
  simpl. rewrite tasks_app, IH. reflexivity.
Qed.

Lemma filter_flat_map {A B : Type} (P : B -> bool) (f : A -> list B)
  (l : list A) :
  filter P (flat_map f l) = flat_map (fun x => filter P (f x)) l.
Proof.
  induction l as [| x l IH]; [reflexivity |].
  simpl. rewrite filter_app, IH. reflexivity.
Qed.

Lemma flat_map_nil_ext {A B : Type} (f : A -> list B) (l : list A) :
  (forall x, In x l -> f x = []) -> flat_map f l = [].
Proof.
  induction l as [| x l IH]; intros H; [reflexivity |].
  simpl. rewrite (H x) by now left.
  apply IH. intros y Hy. apply H. now right.
Qed.

(** In a loop without repeated indices, what only iteration [k] produces
    is what iteration [k] produces. *)
Lemma flat_map_single {A B : Type} (f : A -> list B) (l : list A) (k : A) :
  NoDup l -> In k l ->
  (forall x, In x l -> x <> k -> f x = []) ->
  flat_map f l = f k.
Proof.
  induction l as [| x l IH]; intros Hnd Hin Hnil; [contradiction |].
  inversion Hnd as [| ? ? Hx Hnd']; subst.
  simpl. destruct Hin as [-> | Hin].
  - rewrite (@flat_map_nil_ext _ _ f l).
    + apply app_nil_r.
    + intros y Hy. apply Hnil; [now right |].
      intros ->. contradiction.
  - rewrite (Hnil x) by (now left || (intros ->; contradiction)).
    simpl. apply IH; [assumption | assumption |].
    intros y Hy. apply Hnil. now right.
Qed.

Lemma filter_all {A : Type} (P : A -> bool) (l : list A) :
  (forall x, In x l -> P x = true) -> filter P l = l.
Proof.
  induction l as [| x l IH]; intros H; [reflexivity |].
  simpl. rewrite (H x) by now left.
  f_equal. apply IH. intros y Hy. apply H. now right.
Qed.

Lemma filter_none {A : Type} (P : A -> bool) (l : list A) :
  (forall x, In x l -> P x = false) -> filter P l = [].
Proof.
  induction l as [| x l IH]; intros H; [reflexivity |].
  simpl. rewrite (H x) by now left.
  apply IH. intros y Hy. apply H. now right.
Qed.

Lemma step_tasks_with_role {C : Type} (r : Role) (k : Z) (ts : list (Task C)) :
  (forall t, In t ts -> role t = r -> reads_token k t = true) ->
  step_tasks r k ts = with_role r ts.
Proof.
  intros H. unfold step_tasks, with_role.
  apply filter_ext_in. intros t Ht.
  destruct (Role_eqb (role t) r) eqn:E; [| reflexivity].
  rewrite H; [reflexivity | assumption |].
  destruct (role t), r; (reflexivity || discriminate).
Qed.

(** In a loop over distinct indices, the tasks of role [r] of step [k]
    are those of iteration [k]. *)
Lemma step_tasks_single {C : Type} (g : Z -> list (Task C)) (r : Role)
  (l : list Z) (k : Z) :
  (forall x t, In t (g x) -> reads_token k t = true -> x = k) ->
  NoDup l -> In k l ->
  step_tasks r k (flat_map g l) = step_tasks r k (g k).
Proof.
  intros Hg Hnd Hk. unfold step_tasks. rewrite filter_flat_map.
  apply (flat_map_single
           (fun x => filter (fun t : Task C =>
                               Role_eqb (role t) r && reads_token k t)
                            (g x))).
  - assumption.
  - assumption.
  - intros x _ Hx. apply filter_none. intros t Ht.
    destruct (reads_token k t) eqn:E; [| apply andb_false_r].
    apply Hg in Ht; [contradiction | assumption].
Qed.

(** The tokens of the panel tasks of a loop whose iteration [k] has one
    panel task, owning token [k]. *)
Lemma visited_flat_map {C : Type} (g : Z -> list (Task C)) (l : list Z) :
  (forall k, flat_map owned_tokens (with_role Panel (g k)) = [k]) ->
  flat_map owned_tokens (with_role Panel (flat_map g l)) = l.
Proof.
  intros Hg. induction l as [| x l IH]; [reflexivity |].
  cbn [flat_map]. unfold with_role in *.
  rewrite filter_app, flat_map_app, Hg, IH. reflexivity.
Qed.

Lemma with_role_flat_map {C : Type} (r : Role) (g : Z -> list (Task C))
  (p : Z -> Task C) (l : list Z) :
  (forall k, with_role r (g k) = [p k]) ->
  with_role r (flat_map g l) = map p l.
Proof.
  intros Hg. induction l as [| x l IH]; [reflexivity |].
  cbn [flat_map map]. unfold with_role in *.
  rewrite filter_app, Hg, IH. reflexivity.
Qed.


End GraphFacts.

(** ** Cholesky factorization *)

Module PotrfFacts.

Import Loop LoopFacts GraphFacts Potrf.

Section Facts.

Context {HermitianMatrix : Type} {BM : BaseMatrix HermitianMatrix}.

Lemma tasks_step target A_nt lookahead k :
  tasks (step target A_nt lookahead k) = iteration target A_nt lookahead k.
Proof.
  unfold step, iteration.
  rewrite !tasks_app, !tasks_spawn. reflexivity.
Qed.

Lemma tasks_step_dev strategy A_nt lookahead k :
  tasks (step_dev strategy A_nt lookahead k)
  = iteration_dev strategy A_nt lookahead k.
Proof.
  unfold step_dev, iteration_dev.
  rewrite !tasks_app, !tasks_spawn. reflexivity.
Qed.

Lemma tasks_generic target (A : HermitianMatrix) lookahead opts :
  tasks (events (potrf_generic target A lookahead opts))
  = flat_map (iteration target (nt (to_lower A)) lookahead)
             (sweep_columns (nt (to_lower A))).
Proof.
  unfold potrf_generic. cbn [events].
  rewrite !tasks_app, tasks_flat_map. cbn [tasks flat_map spawned app].
  rewrite app_nil_r.
  apply flat_map_ext. intros k. apply tasks_step.
Qed.

Lemma tasks_devices (A : HermitianMatrix) lookahead opts :
  tasks (events (potrf_devices A lookahead opts))
  = flat_map (iteration_dev
                (get_option (opt_TileReleaseStrategy opts) TRS_All)
                (nt (to_lower A)) lookahead)
             (sweep_columns (nt (to_lower A))).
Proof.
  unfold potrf_devices, dev_loop. cbn [events].
  rewrite !tasks_app, tasks_flat_map. cbn [tasks flat_map spawned app dev_prologue dev_epilogue].
  rewrite app_nil_r.
  apply flat_map_ext. intros k. apply tasks_step_dev.
Qed.

Lemma view_specialization target (A : HermitianMatrix) lookahead opts :
  view (specialization_potrf target A lookahead opts) = to_lower A.
Proof. destruct target; reflexivity. Qed.

(** Roles and tokens of the tasks of an iteration. *)

Lemma role_lookahead_tasks A_nt lookahead k t :
  In t (lookahead_tasks A_nt lookahead k) ->
  role t = Lookahead /\ reads_token k t = true
  /\ (forall k', reads_token k' t = true -> k' = k).
Proof.
  unfold lookahead_tasks. rewrite in_map_iff.
  intros (j & <- & Hj). cbn.
  rewrite Z.eqb_refl. repeat split.
  intros k'. rewrite orb_false_r. intros H. apply Z.eqb_eq in H. lia.
Qed.

Lemma role_lookahead_tasks_dev A_nt lookahead k t :
  In t (lookahead_tasks_dev A_nt lookahead k) ->
  role t = Lookahead /\ reads_token k t = true
  /\ (forall k', reads_token k' t = true -> k' = k).
Proof.
  unfold lookahead_tasks_dev. rewrite in_map_iff.
  intros (j & <- & Hj). cbn.
  rewrite Z.eqb_refl. repeat split.
  intros k'. rewrite orb_false_r. intros H. apply Z.eqb_eq in H. lia.
Qed.

Lemma role_trailing_tasks target A_nt lookahead k t :
  In t (trailing_tasks target A_nt lookahead k) ->
  role t = Trailing /\ reads_token k t = true
  /\ (forall k', reads_token k' t = true -> k' = k).
Proof.
  unfold trailing_tasks.
  destruct (k + 1 + lookahead <? A_nt); [| contradiction].
  intros [<- | []]. cbn. rewrite Z.eqb_refl. repeat split.
  intros k'. rewrite orb_false_r. intros H. apply Z.eqb_eq in H. lia.
Qed.

Lemma role_trailing_tasks_dev A_nt lookahead k t :
  In t (trailing_tasks_dev A_nt lookahead k) ->
  role t = Trailing /\ reads_token k t = true
  /\ (forall k', reads_token k' t = true -> k' = k).
Proof.
  unfold trailing_tasks_dev.
  destruct (k + 1 + lookahead <? A_nt); [| contradiction].
  intros [<- | []]. cbn. rewrite Z.eqb_refl. repeat split.
  intros k'. rewrite orb_false_r. intros H. apply Z.eqb_eq in H. lia.
Qed.

Lemma role_release_panel_tasks strategy lookahead k t :
  In t (release_panel_tasks strategy lookahead k) ->
  role t = Cleanup /\ factor_targets t = []
  /\ (forall k', reads_token k' t = true -> k' = k).
Proof.
  unfold release_panel_tasks.
  destruct (TRS_eqb strategy TRS_All); [| contradiction].
  destruct ((lookahead >? 0) && (k >=? lookahead)); [| contradiction].
  intros [<- | []]. cbn. repeat split.
  intros k'. rewrite orb_false_r. intros H. apply Z.eqb_eq in H. lia.
Qed.

Lemma role_clean_tiles_tasks strategy k t :
  In t (clean_tiles_tasks strategy k) ->
  role t = Cleanup /\ factor_targets t = []
  /\ (forall k', reads_token k' t = false).
Proof.
  unfold clean_tiles_tasks.
  destruct (TRS_eqb strategy TRS_Slate); [| contradiction].
  intros [<- | []]. repeat split.
Qed.

(** Selection of the tasks of one role in an iteration. *)

Lemma with_role_iteration target A_nt lookahead k :
  with_role Panel (iteration target A_nt lookahead k) = [panel A_nt k]
  /\ with_role Lookahead (iteration target A_nt lookahead k)
     = lookahead_tasks A_nt lookahead k
  /\ with_role Trailing (iteration target A_nt lookahead k)
     = trailing_tasks target A_nt lookahead k.
Proof.
  unfold with_role, iteration. cbn [filter role panel Role_eqb].
  rewrite !filter_app.
  repeat split.
  - rewrite !filter_none; [reflexivity | |].
    + intros t Ht. apply role_trailing_tasks in Ht. destruct Ht as [-> _]. reflexivity.
    + intros t Ht. apply role_lookahead_tasks in Ht. destruct Ht as [-> _]. reflexivity.
  - rewrite filter_all, filter_none; [apply app_nil_r | |].
    + intros t Ht. apply role_trailing_tasks in Ht. destruct Ht as [-> _]. reflexivity.
    + intros t Ht. apply role_lookahead_tasks in Ht. destruct Ht as [-> _]. reflexivity.
  - rewrite filter_none, filter_all; [reflexivity | |].
    + intros t Ht. apply role_trailing_tasks in Ht. destruct Ht as [-> _]. reflexivity.
    + intros t Ht. apply role_lookahead_tasks in Ht. destruct Ht as [-> _]. reflexivity.
Qed.

Lemma with_role_iteration_dev strategy A_nt lookahead k :
  with_role Panel (iteration_dev strategy A_nt lookahead k)
  = [panel_dev A_nt lookahead k]
  /\ with_role Lookahead (iteration_dev strategy A_nt lookahead k)
     = lookahead_tasks_dev A_nt lookahead k
  /\ with_role Trailing (iteration_dev strategy A_nt lookahead k)
     = trailing_tasks_dev A_nt lookahead k.
Proof.
  unfold with_role, iteration_dev. cbn [filter role panel_dev Role_eqb].
  rewrite !filter_app.
  assert (Hp : forall r, r <> Cleanup ->
            filter (fun t : Task Call => Role_eqb (role t) r)
                   (release_panel_tasks strategy lookahead k) = []).
  { intros r Hr. apply filter_none. intros t Ht.
    apply role_release_panel_tasks in Ht. destruct Ht as [-> _].
    destruct r; try reflexivity. contradiction. }
  assert (Hc : forall r, r <> Cleanup ->
            filter (fun t : Task Call => Role_eqb (role t) r)
                   (clean_tiles_tasks strategy k) = []).
  { intros r Hr. apply filter_none. intros t Ht.
    apply role_clean_tiles_tasks in Ht. destruct Ht as [-> _].
    destruct r; try reflexivity. contradiction. }
  rewrite !Hp, !Hc by discriminate.
  repeat split.
  - rewrite !filter_none; [reflexivity | |].
    + intros t Ht. apply role_lookahead_tasks_dev in Ht. destruct Ht as [-> _]. reflexivity.
    + intros t Ht. apply role_trailing_tasks_dev in Ht. destruct Ht as [-> _]. reflexivity.
  - rewrite filter_none, filter_all; [rewrite !app_nil_r; reflexivity | |].
    + intros t Ht. apply role_lookahead_tasks_dev in Ht. destruct Ht as [-> _]. reflexivity.
    + intros t Ht. apply role_trailing_tasks_dev in Ht. destruct Ht as [-> _]. reflexivity.
  - rewrite filter_all, filter_none; [rewrite !app_nil_r; reflexivity | |].
    + intros t Ht. apply role_lookahead_tasks_dev in Ht. destruct Ht as [-> _]. reflexivity.
    + intros t Ht. apply role_trailing_tasks_dev in Ht. destruct Ht as [-> _]. reflexivity.
Qed.

(** A task that reads token [k] was created at step [k]. *)

Lemma reads_iteration target A_nt lookahead x k t :
  In t (iteration target A_nt lookahead x) ->
  reads_token k t = true -> x = k.
Proof.
  unfold iteration. intros [<- | Ht]; [discriminate |].
  apply in_app_or in Ht. destruct Ht as [Ht | Ht]; intros Hr.
  - apply role_lookahead_tasks in Ht. symmetry. now apply Ht.
  - apply role_trailing_tasks in Ht. symmetry. now apply Ht.
Qed.

Lemma reads_iteration_dev strategy A_nt lookahead x k t :
  In t (iteration_dev strategy A_nt lookahead x) ->
  reads_token k t = true -> x = k.
Proof.
  unfold iteration_dev. intros [<- | Ht]; [discriminate |].
  repeat (apply in_app_or in Ht; destruct Ht as [Ht | Ht]); intros Hr.
  - apply role_trailing_tasks_dev in Ht. symmetry. now apply Ht.
  - apply role_lookahead_tasks_dev in Ht. symmetry. now apply Ht.
  - apply role_release_panel_tasks in Ht. symmetry. now apply Ht.
  - apply role_clean_tiles_tasks in Ht.
    destruct Ht as (_ & _ & Ht). rewrite Ht in Hr. discriminate.
Qed.

Lemma step_tasks_sweep {C : Type} (g : Z -> list (Task C)) (r : Role)
  (A_nt k : Z) :
  (forall x t, In t (g x) -> reads_token k t = true -> x = k) ->
  0 <= k < A_nt ->
  step_tasks r k (flat_map g (sweep_columns A_nt)) = step_tasks r k (g k).
Proof.
  intros Hg Hk. apply step_tasks_single.
  - assumption.
  - apply NoDup_range.
  - apply In_range. lia.
Qed.

Lemma step_tasks_iteration target A_nt lookahead k :
  step_tasks Lookahead k (iteration target A_nt lookahead k)
  = lookahead_tasks A_nt lookahead k
  /\ step_tasks Trailing k (iteration target A_nt lookahead k)
     = trailing_tasks target A_nt lookahead k.
Proof.
  destruct (with_role_iteration target A_nt lookahead k) as (_ & HL & HT).
  split.
  - rewrite step_tasks_with_role; [assumption |].
    intros t [<- | Ht]; [discriminate |].
    apply in_app_or in Ht. destruct Ht as [Ht | Ht].
    + apply role_lookahead_tasks in Ht. intros _. apply Ht.
    + apply role_trailing_tasks in Ht. intros _. apply Ht.
  - rewrite step_tasks_with_role; [assumption |].
    intros t [<- | Ht]; [discriminate |].
    apply in_app_or in Ht. destruct Ht as [Ht | Ht].
    + apply role_lookahead_tasks in Ht. intros _. apply Ht.
    + apply role_trailing_tasks in Ht. intros _. apply Ht.
Qed.

Lemma step_tasks_iteration_dev strategy A_nt lookahead k :
  step_tasks Lookahead k (iteration_dev strategy A_nt lookahead k)
  = lookahead_tasks_dev A_nt lookahead k
  /\ step_tasks Trailing k (iteration_dev strategy A_nt lookahead k)
     = trailing_tasks_dev A_nt lookahead k.
Proof.
  destruct (with_role_iteration_dev strategy A_nt lookahead k)
    as (_ & HL & HT).
  assert (H : forall r t, In t (iteration_dev strategy A_nt lookahead k) ->
            role t = r -> r = Lookahead \/ r = Trailing ->
            reads_token k t = true).
  { intros r t [<- | Ht] Hr Hor.
    - subst r. destruct Hor; discriminate.
    - repeat (apply in_app_or in Ht; destruct Ht as [Ht | Ht]).
      + apply role_trailing_tasks_dev in Ht. apply Ht.
      + apply role_lookahead_tasks_dev in Ht. apply Ht.
      + apply role_release_panel_tasks in Ht. destruct Ht as [Ht _].
        rewrite Ht in Hr. subst r. destruct Hor; discriminate.
      + apply role_clean_tiles_tasks in Ht. destruct Ht as [Ht _].
        rewrite Ht in Hr. subst r. destruct Hor; discriminate. }
  split.
  - rewrite step_tasks_with_role; [assumption |].
    intros t Ht Hr. apply (H Lookahead t Ht Hr). now left.
  - rewrite step_tasks_with_role; [assumption |].
    intros t Ht Hr. apply (H Trailing t Ht Hr). now right.
Qed.

(** The columns the update tasks write. *)

Lemma In_lookahead_columns A_nt lookahead k j :
  In j (lookahead_columns A_nt lookahead k)
  <-> k + 1 <= j < A_nt /\ j < k + 1 + lookahead.
Proof.
  unfold lookahead_columns. rewrite In_for_up.
  - rewrite Z.ltb_lt. tauto.
  - intros x y Hxy. rewrite !Z.ltb_lt. lia.
Qed.

Lemma updates_lookahead_task A_nt k j c :
  In c (task_updates (lookahead_task A_nt k j)) <-> c = j.
Proof.
  unfold task_updates, lookahead_task. cbn [body].
  rewrite flat_map_app, in_app_iff.
  cbn [flat_map call_updates app]. rewrite app_nil_r.
  unfold view_columns. cbn [view_extent fst snd].
  rewrite In_range.
  destruct (j + 1 <=? A_nt - 1); cbn [flat_map call_updates app].
  - rewrite app_nil_r. unfold view_columns. cbn [view_extent fst snd].
    rewrite In_range. lia.
  - simpl. lia.
Qed.

Lemma updates_lookahead_task_dev A_nt k j c :
  In c (task_updates (lookahead_task_dev A_nt k j)) <-> c = j.
Proof.
  unfold task_updates, lookahead_task_dev. cbn [body].
  rewrite flat_map_app, in_app_iff.
  cbn [flat_map call_updates app]. rewrite app_nil_r.
  unfold view_columns. cbn [view_extent fst snd].
  rewrite In_range.
  destruct (j + 1 <=? A_nt - 1); cbn [flat_map call_updates app].
  - rewrite app_nil_r. unfold view_columns. cbn [view_extent fst snd].
    rewrite In_range. lia.
  - simpl. lia.
Qed.

Lemma updates_lookahead_tasks A_nt lookahead k c :
  In c (flat_map task_updates (lookahead_tasks A_nt lookahead k))
  <-> k + 1 <= c < A_nt /\ c < k + 1 + lookahead.
Proof.
  unfold lookahead_tasks. rewrite in_flat_map. split.
  - intros (t & Ht & Hc). apply in_map_iff in Ht.
    destruct Ht as (j & <- & Hj).
    apply updates_lookahead_task in Hc. subst c.
    now apply In_lookahead_columns.
  - intros H. exists (lookahead_task A_nt k c). split.
    + apply in_map. now apply In_lookahead_columns.
    + now apply updates_lookahead_task.
Qed.

Lemma updates_lookahead_tasks_dev A_nt lookahead k c :
  In c (flat_map task_updates (lookahead_tasks_dev A_nt lookahead k))
  <-> k + 1 <= c < A_nt /\ c < k + 1 + lookahead.
Proof.
  unfold lookahead_tasks_dev. rewrite in_flat_map. split.
  - intros (t & Ht & Hc). apply in_map_iff in Ht.
    destruct Ht as (j & <- & Hj).
    apply updates_lookahead_task_dev in Hc. subst c.
    now apply In_lookahead_columns.
  - intros H. exists (lookahead_task_dev A_nt k c). split.
    + apply in_map. now apply In_lookahead_columns.
    + now apply updates_lookahead_task_dev.
Qed.

Lemma updates_trailing_tasks target A_nt lookahead k c :
  In c (flat_map task_updates (trailing_tasks target A_nt lookahead k))
  <-> k + 1 + lookahead <= c <= A_nt - 1.
Proof.
  unfold trailing_tasks.
  destruct (k + 1 + lookahead <? A_nt) eqn:E.
  - cbn. rewrite !app_nil_r. unfold view_columns. cbn [view_extent fst snd].
    rewrite In_range. lia.
  - apply Z.ltb_ge in E. simpl. lia.
Qed.

Lemma updates_trailing_tasks_dev A_nt lookahead k c :
  In c (flat_map task_updates (trailing_tasks_dev A_nt lookahead k))
  <-> k + 1 + lookahead <= c <= A_nt - 1.
Proof.
  unfold trailing_tasks_dev.
  destruct (k + 1 + lookahead <? A_nt) eqn:E.
  - cbn. rewrite !app_nil_r. unfold view_columns. cbn [view_extent fst snd].
    rewrite In_range. lia.
  - apply Z.ltb_ge in E. simpl. lia.
Qed.

(** The update tasks of step [k] in the sweep of either implementation. *)
Lemma updates_of_step target (A : HermitianMatrix) lookahead opts k :
  let s := specialization_potrf target A lookahead opts in
  0 <= k < nt (to_lower A) ->
  (forall c,
     In c (flat_map task_updates (step_tasks Lookahead k (tasks (events s))))
     <-> k + 1 <= c < nt (to_lower A) /\ c < k + 1 + lookahead)
  /\ (forall c,
     In c (flat_map task_updates (step_tasks Trailing k (tasks (events s))))
     <-> k + 1 + lookahead <= c <= nt (to_lower A) - 1).
Proof.
  intros s Hk. subst s.
  destruct target; cbn [specialization_potrf].
  5: {
  rewrite tasks_devices.
  rewrite !step_tasks_sweep
    by (assumption || (intros x t; apply reads_iteration_dev)).
  match goal with
  | |- context [iteration_dev ?st ?n ?l ?k] =>
      destruct (step_tasks_iteration_dev st n l k) as [-> ->]
  end.
  split; intros c;
    [apply updates_lookahead_tasks_dev | apply updates_trailing_tasks_dev]. }
  all: rewrite tasks_generic.
  all: rewrite !step_tasks_sweep
           by (assumption || (intros x t; apply reads_iteration)).
  all: match goal with
         | |- context [iteration ?tg ?n ?l ?k] =>
             destruct (step_tasks_iteration tg n l k) as [-> ->]
         end;
         split; intros c;
         [apply updates_lookahead_tasks | apply updates_trailing_tasks].
Qed.

(** The columns either implementation visits. *)

Lemma visited_specialization target (A : HermitianMatrix) lookahead opts :
  visited (events (specialization_potrf target A lookahead opts))
  = sweep_columns (nt (to_lower A)).
Proof.
  unfold visited.
  destruct target; cbn [specialization_potrf].
  5: {
    rewrite tasks_devices. apply visited_flat_map. intros k.
    match goal with
    | |- context [iteration_dev ?st ?n ?l ?k] =>
        destruct (with_role_iteration_dev st n l k) as (-> & _)
    end.
    cbn. reflexivity. }
  all: rewrite tasks_generic; apply visited_flat_map; intros k.
  all: match goal with
       | |- context [iteration ?tg ?n ?l ?k] =>
           destruct (with_role_iteration tg n l k) as (-> & _)
       end; reflexivity.
Qed.

(** The entry point runs one of the two implementations. *)
Lemma potrf_selected (A : HermitianMatrix) (opts : Options) :
  potrf A opts
  = specialization_potrf (selected opts) A
      (get_option (opt_Lookahead opts) 1) opts.
Proof.
  unfold potrf, selected, potrf_target.
  destruct (get_option (opt_Target opts) HostTask); reflexivity.
Qed.

(** C2. For [mt >= 1] tile columns and a lookahead in [0, mt-1], the
    factorization sweep started by the entry point, whatever the target,
    visits each column [0..mt-1] exactly once; at each step [k] the
    lookahead tasks update the columns [k+1 .. min(k+lookahead, mt-1)], the
    trailing task the columns [k+1+lookahead .. mt-1], and these two sets
    are disjoint and together are exactly [k+1 .. mt-1]. *)
Theorem lookahead_trailing_partition (A : HermitianMatrix) (opts : Options) :
  let s := potrf A opts in
  let mt := nt (view s) in
  let lookahead := get_option (opt_Lookahead opts) 1 in
  1 <= mt -> 0 <= lookahead <= mt - 1 ->
  (forall k, count_occ Z.eq_dec (visited (events s)) k
             = if (0 <=? k) && (k <? mt) then 1%nat else 0%nat)
  /\ forall k, 0 <= k < mt ->
     let L := flat_map task_updates
                (step_tasks Lookahead k (tasks (events s))) in
     let T := flat_map task_updates
                (step_tasks Trailing k (tasks (events s))) in
     (forall c, In c L <-> k + 1 <= c <= Z.min (k + lookahead) (mt - 1))
     /\ (forall c, In c T <-> k + 1 + lookahead <= c <= mt - 1)
     /\ (forall c, ~ (In c L /\ In c T))
     /\ (forall c, In c L \/ In c T <-> k + 1 <= c <= mt - 1).
Proof.
  intros s mt lookahead Hmt Hla. subst s mt lookahead.
  rewrite potrf_selected in *. rewrite view_specialization in *.
  split.
  - intros k. rewrite visited_specialization. apply count_occ_range.
  - intros k Hk L T.
    destruct (updates_of_step (selected opts) A
                (get_option (opt_Lookahead opts) 1) opts Hk) as [HL HT].
    fold L in HL. fold T in HT.
    assert (HL' : forall c,
              In c L <-> k + 1 <= c <= Z.min (k + get_option (opt_Lookahead opts) 1)
                                             (nt (to_lower A) - 1)).
    { intros c. rewrite HL. lia. }
    split; [exact HL' |]. split; [exact HT |]. split.
    + intros c [H1 H2]. apply HL' in H1. apply HT in H2. lia.
    + intros c. rewrite HL', HT. lia.
Qed.

(** The trailing-update tasks of the factorization. *)





(** Where the diagonal tile is factored. *)

Lemma factor_targets_panel A_nt k :
  factor_targets (panel A_nt k) = [(HostTask, subd k k)].
Proof.
  unfold factor_targets, panel. cbn [body].
  destruct (k + 1 <=? A_nt - 1); reflexivity.
Qed.

Lemma factor_targets_panel_dev A_nt lookahead k :
  factor_targets (panel_dev A_nt lookahead k) = [(HostTask, subd k k)].
Proof.
  unfold factor_targets, panel_dev. cbn [body].
  destruct (k + 1 <=? A_nt - 1); reflexivity.
Qed.

Lemma factor_targets_iteration target A_nt lookahead k t :
  In t (iteration target A_nt lookahead k) ->
  forall tg v, In (tg, v) (factor_targets t) -> tg = HostTask /\ role t = Panel.
Proof.
  unfold iteration. intros [<- | Ht] tg v.
  - rewrite factor_targets_panel. intros [H | []]. inversion H. now split.
  - apply in_app_or in Ht. destruct Ht as [Ht | Ht].
    + unfold lookahead_tasks in Ht. apply in_map_iff in Ht.
      destruct Ht as (j & <- & _).
      unfold factor_targets, lookahead_task. cbn [body].
      destruct (j + 1 <=? A_nt - 1); contradiction.
    + unfold trailing_tasks in Ht.
      destruct (k + 1 + lookahead <? A_nt); [| contradiction].
      destruct Ht as [<- | []]. contradiction.
Qed.

Lemma factor_targets_iteration_dev strategy A_nt lookahead k t :
  In t (iteration_dev strategy A_nt lookahead k) ->
  forall tg v, In (tg, v) (factor_targets t) -> tg = HostTask /\ role t = Panel.
Proof.
  unfold iteration_dev. intros [<- | Ht] tg v.
  - rewrite factor_targets_panel_dev. intros [H | []]. inversion H. now split.
  - repeat (apply in_app_or in Ht; destruct Ht as [Ht | Ht]).
    + unfold trailing_tasks_dev in Ht.
      destruct (k + 1 + lookahead <? A_nt); [| contradiction].
      destruct Ht as [<- | []]. contradiction.
    + unfold lookahead_tasks_dev in Ht. apply in_map_iff in Ht.
      destruct Ht as (j & <- & _).
      unfold factor_targets, lookahead_task_dev. cbn [body].
      destruct (j + 1 <=? A_nt - 1); contradiction.
    + apply role_release_panel_tasks in Ht.
      destruct Ht as (_ & -> & _). contradiction.
    + apply role_clean_tiles_tasks in Ht.
      destruct Ht as (_ & -> & _). contradiction.
Qed.

(** C4. Whatever the options (and thus whatever the target), every
    factorization of a diagonal tile the entry point issues is a
    [HostTask] call made by a panel task, and the panel task of step [k]
    factors [A(k, k)] with [HostTask] and nothing else; with the target
    [Devices] the trailing update is nevertheless issued on [Devices]. *)
Theorem panel_factored_on_host_task (A : HermitianMatrix) (opts : Options) :
  let s := potrf A opts in
  (forall t tg v,
     In t (tasks (events s)) -> In (tg, v) (factor_targets t) ->
     tg = HostTask /\ role t = Panel)
  /\ map factor_targets (with_role Panel (tasks (events s)))
     = map (fun k => [(HostTask, subd k k)]) (sweep_columns (nt (view s)))
  /\ (get_option (opt_Target opts) HostTask = Devices ->
      forall t c,
        In t (with_role Trailing (tasks (events s))) -> In c (body t) ->
        call_target c = Some Devices).
Proof.
  intros s. subst s. rewrite potrf_selected, view_specialization.
  remember (get_option (opt_Lookahead opts) 1) as lookahead eqn:Hla.
  split; [| split].
  - intros t tg v Ht.
    destruct (selected opts); cbn [specialization_potrf] in Ht.
    5: { rewrite tasks_devices in Ht. apply in_flat_map in Ht.
         destruct Ht as (k & _ & Ht).
         intros Hf. eapply factor_targets_iteration_dev; eassumption. }
    all: rewrite tasks_generic in Ht; apply in_flat_map in Ht;
      destruct Ht as (k & _ & Ht);
      intros Hf; eapply factor_targets_iteration; eassumption.
  - destruct (selected opts); cbn [specialization_potrf].
    5: { rewrite tasks_devices.
         rewrite (with_role_flat_map Panel _
                    (panel_dev (nt (to_lower A)) lookahead)).
         - rewrite map_map. apply map_ext. intros k.
           apply factor_targets_panel_dev.
         - intros k. apply with_role_iteration_dev. }
    all: rewrite tasks_generic;
      rewrite (with_role_flat_map Panel _ (panel (nt (to_lower A))));
      [ rewrite map_map; apply map_ext; intros k; apply factor_targets_panel
      | intros k; apply with_role_iteration ].
  - intros Hdev t c Ht Hc.
    unfold selected in Ht. rewrite Hdev in Ht.
    cbn [specialization_potrf] in Ht.
    rewrite tasks_devices in Ht. unfold with_role in Ht.
    rewrite filter_flat_map in Ht. apply in_flat_map in Ht.
    destruct Ht as (k & _ & Ht).
    match type of Ht with
    | context [iteration_dev ?st ?n ?l ?k] =>
        destruct (with_role_iteration_dev st n l k) as (_ & _ & HT)
    end.
    unfold with_role in HT. rewrite HT in Ht.
    unfold trailing_tasks_dev in Ht.
    destruct (k + 1 + lookahead <? nt (to_lower A)); [| contradiction].
    destruct Ht as [<- | []]. destruct Hc as [<- | []]. reflexivity.
Qed.

(** Device resources. *)

Lemma to_int_small (z : Z) : - 2147483648 <= z <= INT_MAX -> to_int z = z.
Proof.
  unfold to_int, INT_MAX. intros H.
  rewrite Z.mod_small by lia. lia.
Qed.

Lemma queue_of_iteration_dev strategy A_nt lookahead k t c q :
  0 <= lookahead -> lookahead + 2 <= INT_MAX ->
  In t (iteration_dev strategy A_nt lookahead k) ->
  In c (body t) -> call_queue c = Some q -> 0 <= q < lookahead + 2.
Proof.
  intros Hla Hmax Ht Hc Hq. unfold iteration_dev in Ht.
  destruct Ht as [<- | Ht].
  - unfold panel_dev in Hc. cbn [body] in Hc.
    destruct (k + 1 <=? A_nt - 1); cbn in Hc;
      repeat (destruct Hc as [<- | Hc]; [cbn in Hq; try discriminate |]);
      try contradiction.
    inversion Hq. unfold queue_1. lia.
  - repeat (apply in_app_or in Ht; destruct Ht as [Ht | Ht]).
    + unfold trailing_tasks_dev in Ht.
      destruct (k + 1 + lookahead <? A_nt); [| contradiction].
      destruct Ht as [<- | []]. destruct Hc as [<- | []].
      inversion Hq. unfold queue_0. lia.
    + unfold lookahead_tasks_dev in Ht. apply in_map_iff in Ht.
      destruct Ht as (j & <- & Hj). apply In_lookahead_columns in Hj.
      unfold lookahead_task_dev in Hc. cbn [body] in Hc.
      assert (Hi : to_int (j - k + 1) = j - k + 1)
        by (apply to_int_small; unfold INT_MAX in *; lia).
      destruct (j + 1 <=? A_nt - 1); cbn in Hc;
        repeat (destruct Hc as [<- | Hc];
                [cbn in Hq; inversion Hq; lia |]);
        contradiction.
    + unfold release_panel_tasks in Ht.
      destruct (TRS_eqb strategy TRS_All); [| contradiction].
      destruct ((lookahead >? 0) && (k >=? lookahead)); [| contradiction].
      destruct Ht as [<- | []]. destruct Hc as [<- | []]. discriminate.
    + unfold clean_tiles_tasks in Ht.
      destruct (TRS_eqb strategy TRS_Slate); [| contradiction].
      destruct Ht as [<- | []]. destruct Hc as [<- | []]. discriminate.
Qed.

Lemma spawns_dev_loop strategy A_nt lookahead :
  forallb is_spawn (dev_loop strategy A_nt lookahead) = true.
Proof.
  unfold dev_loop. apply forallb_forall. intros e He.
  apply in_flat_map in He. destruct He as (k & _ & He).
  unfold step_dev in He.
  repeat (apply in_app_or in He; destruct He as [He | He]);
    try (apply in_map_iff in He; destruct He as (t & <- & _); reflexivity).
  destruct He as [<- | []]. reflexivity.
Qed.

(** C7. In the device implementation, for a lookahead that is not
    negative and with [lookahead + 2] representable as an [int]: the
    events before the column loop are the allocation of batch arrays for
    exactly [lookahead + 2] queues and the reservation of the device
    workspace; the loop itself only creates tasks, whose kernels use queue
    indices below [lookahead + 2]; and the workspace is released by the
    last event, after the loop and the [taskwait]. *)
Theorem device_resources_bracket_the_sweep (A : HermitianMatrix)
  (lookahead : Z) (opts : Options) :
  0 <= lookahead -> lookahead + 2 <= INT_MAX ->
  let s := potrf_devices A lookahead opts in
  let loop := dev_loop (get_option (opt_TileReleaseStrategy opts) TRS_All)
                       (nt (view s)) lookahead in
  events s
  = [AllocateBatchArrays 0 (lookahead + 2); ReserveDeviceWorkspace]
    ++ [ParallelBegin; OmpSetNested 1]
    ++ loop
    ++ [Taskwait; TileUpdateAllOrigin; ParallelEnd; ReleaseWorkspace]
  /\ forallb is_spawn loop = true
  /\ (forall t c q,
        In t (tasks loop) -> In c (body t) -> call_queue c = Some q ->
        0 <= q < lookahead + 2).
Proof.
  intros Hla Hmax s loop. subst s loop. cbn [view potrf_devices events].
  split; [| split].
  - unfold dev_prologue, dev_epilogue, num_queues, batch_size_zero.
    rewrite to_int_small by (unfold INT_MAX in *; lia).
    replace (2 + lookahead) with (lookahead + 2) by lia. reflexivity.
  - apply spawns_dev_loop.
  - intros t c q Ht. unfold dev_loop in Ht.
    rewrite tasks_flat_map in Ht. apply in_flat_map in Ht.
    destruct Ht as (k & _ & Ht). rewrite tasks_step_dev in Ht.
    intros Hc Hq. eapply queue_of_iteration_dev; eassumption.
Qed.

(** Single-tile matrix. *)

(** C9. On a single-tile matrix ([mt = 1]) and with a lookahead that is
    not negative, the generic sweep consists of the one panel task, which
    factors the tile [A(0, 0)] and broadcasts an empty list: no lookahead
    task, no trailing task, no tile sent, and one kernel call.  Run with
    any kernels and runtime calls such that the runtime calls and the
    empty broadcast leave the tile values [obs] alone, the sweep yields
    the tile values of that one kernel call. *)
Theorem single_tile_sweep (target : Target) (A : HermitianMatrix)
  (lookahead : Z) (opts : Options)
  (State V : Type) (obs : State -> V)
  (exec_call : Call -> State -> State)
  (exec_direct : Event Call -> State -> State) :
  nt (to_lower A) = 1 -> 0 <= lookahead ->
  (forall c st st', obs st = obs st' ->
                    obs (exec_call c st) = obs (exec_call c st')) ->
  (forall e st, is_spawn e = false -> obs (exec_direct e st) = obs st) ->
  (forall t lf sh st, obs (exec_call (listBcastMT t [] lf sh) st) = obs st) ->
  let s := potrf_generic target A lookahead opts in
  let calls := flat_map (@body Call) (tasks (events s)) in
  events s = [ParallelBegin; OmpSetNested 1; Spawn single_panel;
              ParallelEnd; TileUpdateAllOrigin; ReleaseWorkspace]
  /\ with_role Lookahead (tasks (events s)) = []
  /\ with_role Trailing (tasks (events s)) = []
  /\ flat_map tiles_sent calls = []
  /\ filter is_compute calls = [internal_potrf HostTask (subd 0 0) (Some 1)]
  /\ forall st,
       obs (Run.run exec_call exec_direct (events s) st)
       = obs (exec_call (internal_potrf HostTask (subd 0 0) (Some 1)) st).
Proof.
  intros Hnt Hla Hcall Hdirect Hbcast s calls.
  assert (Hev : events s = [ParallelBegin; OmpSetNested 1;
                            Spawn single_panel; ParallelEnd;
                            TileUpdateAllOrigin; ReleaseWorkspace]).
  { subst s. unfold potrf_generic. cbn [events]. rewrite Hnt.
    unfold sweep_columns. rewrite range_cons, range_empty by lia.
    cbn [flat_map]. unfold step, lookahead_tasks, lookahead_columns,
      trailing_tasks.
    rewrite for_up_eq.
    replace (0 + 1 <? 1) with false by reflexivity.
    rewrite andb_false_r.
    replace (0 + 1 + lookahead <? 1) with false
      by (symmetry; apply Z.ltb_ge; lia).
    reflexivity. }
  subst calls. rewrite Hev.
  repeat split.
  intros st. cbn.
  rewrite !Hdirect by reflexivity. rewrite Hbcast.
  apply Hcall. rewrite !Hdirect by reflexivity. reflexivity.
Qed.

End Facts.

End PotrfFacts.

(** ** Triangular solve *)

Module TrsmAFacts.

Import Loop LoopFacts GraphFacts TrsmA.

Section Facts.

Context {S : Type} {SC : Scalar S}.
Context {TriangularMatrix : Type} {BA : BaseMatrix TriangularMatrix}
        {DA : Distributed TriangularMatrix}.
Context {Matrix : Type} {BB : BaseMatrix Matrix} {DB : Distributed Matrix}.

Lemma tasks_step_fwd target (alpha : S) (A : TriangularMatrix) (B : Matrix)
  mt nt lookahead local_opts k :
  tasks (step_fwd target alpha A B mt nt lookahead local_opts k)
  = iteration_fwd target alpha A B mt nt lookahead local_opts k.
Proof.
  unfold step_fwd, iteration_fwd.
  rewrite !tasks_app, !tasks_spawn. reflexivity.
Qed.

Lemma tasks_step_bwd target (alpha : S) (A : TriangularMatrix) (B : Matrix)
  mt nt lookahead opts k :
  tasks (step_bwd target alpha A B mt nt lookahead opts k)
  = iteration_bwd target alpha A B mt nt lookahead opts k.
Proof.
  unfold step_bwd, iteration_bwd.
  rewrite !tasks_app, !tasks_spawn. reflexivity.
Qed.

Lemma tasks_sweep target (alpha : S) (A : TriangularMatrix) (B : Matrix)
  opts :
  tasks (sweep target alpha A B opts)
  = if Uplo_eqb (uplo A) Lower
    then flat_map (iteration_fwd target alpha A B (mt B) (nt B)
                     (get_option (opt_Lookahead opts) 1)
                     (local_options opts))
                  (range 0 (mt B))
    else flat_map (iteration_bwd target alpha A B (mt B) (nt B)
                     (get_option (opt_Lookahead opts) 1) opts)
                  (range_down (mt B - 1) 0).
Proof.
  unfold sweep. rewrite tasks_app. cbn [tasks flat_map spawned app].
  rewrite app_nil_r.
  destruct (Uplo_eqb (uplo A) Lower); rewrite tasks_flat_map;
    apply flat_map_ext; intros k;
    [apply tasks_step_fwd | apply tasks_step_bwd].
Qed.

(** Roles and tokens of the tasks of an iteration. *)

Lemma role_lookahead_tasks_fwd target mt nt lookahead local_opts k t :
  In t (lookahead_tasks_fwd (S := S) target mt nt lookahead local_opts k) ->
  role t = Lookahead /\ reads_token k t = true
  /\ (forall k', reads_token k' t = true -> k' = k).
Proof.
  unfold lookahead_tasks_fwd. rewrite in_map_iff.
  intros (j & <- & Hj). cbn.
  rewrite Z.eqb_refl. repeat split.
  intros k'. rewrite orb_false_r. intros H. apply Z.eqb_eq in H. lia.
Qed.

Lemma role_trailing_tasks_fwd target mt nt lookahead local_opts k t :
  In t (trailing_tasks_fwd (S := S) target mt nt lookahead local_opts k) ->
  role t = Trailing /\ reads_token k t = true
  /\ (forall k', reads_token k' t = true -> k' = k)
  /\ owns_token (mt - 1) t = true.
Proof.
  unfold trailing_tasks_fwd.
  destruct (k + 1 + lookahead <? mt); [| contradiction].
  intros [<- | []]. cbn. rewrite !Z.eqb_refl. repeat split.
  - intros k'. rewrite orb_false_r. intros H. apply Z.eqb_eq in H. lia.
  - rewrite !orb_true_r. reflexivity.
Qed.

Lemma role_lookahead_tasks_bwd (A : TriangularMatrix) (B : Matrix)
  nt lookahead k t :
  In t (lookahead_tasks_bwd (S := S) A B nt lookahead k) ->
  role t = Lookahead /\ reads_token k t = true
  /\ (forall k', reads_token k' t = true -> k' = k).
Proof.
  unfold lookahead_tasks_bwd. rewrite in_map_iff.
  intros (j & <- & Hj). cbn.
  rewrite Z.eqb_refl. repeat split.
  intros k'. rewrite orb_false_r. intros H. apply Z.eqb_eq in H. lia.
Qed.

Lemma role_trailing_tasks_bwd (A : TriangularMatrix) (B : Matrix)
  nt lookahead k t :
  In t (trailing_tasks_bwd (S := S) A B nt lookahead k) ->
  role t = Trailing /\ reads_token k t = true
  /\ (forall k', reads_token k' t = true -> k' = k)
  /\ owns_token 0 t = true.
Proof.
  unfold trailing_tasks_bwd.
  destruct (k - 1 - lookahead >=? 0); [| contradiction].
  intros [<- | []]. cbn. rewrite !Z.eqb_refl. repeat split.
  - intros k'. rewrite orb_false_r. intros H. apply Z.eqb_eq in H. lia.
  - rewrite !orb_true_r. reflexivity.
Qed.

Lemma with_role_iteration_fwd target (alpha : S) (A : TriangularMatrix)
  (B : Matrix) mt nt lookahead local_opts k :
  with_role Panel
    (iteration_fwd target alpha A B mt nt lookahead local_opts k)
  = [panel_fwd target alpha A B mt nt lookahead local_opts k]
  /\ with_role Trailing
       (iteration_fwd target alpha A B mt nt lookahead local_opts k)
     = trailing_tasks_fwd target mt nt lookahead local_opts k.
Proof.
  unfold with_role, iteration_fwd.
  cbn [filter role panel_fwd Role_eqb]. rewrite !filter_app.
  cbn [filter role cleanup_task_fwd Role_eqb].
  split.
  - rewrite !filter_none; [reflexivity | |].
    + intros t Ht. apply role_trailing_tasks_fwd in Ht.
      destruct Ht as [-> _]. reflexivity.
    + intros t Ht. apply role_lookahead_tasks_fwd in Ht.
      destruct Ht as [-> _]. reflexivity.
  - rewrite filter_none, filter_all; [apply app_nil_r | |].
    + intros t Ht. apply role_trailing_tasks_fwd in Ht.
      destruct Ht as [-> _]. reflexivity.
    + intros t Ht. apply role_lookahead_tasks_fwd in Ht.
      destruct Ht as [-> _]. reflexivity.
Qed.

Lemma with_role_iteration_bwd target (alpha : S) (A : TriangularMatrix)
  (B : Matrix) mt nt lookahead opts k :
  with_role Panel (iteration_bwd target alpha A B mt nt lookahead opts k)
  = [panel_bwd target alpha A B mt nt opts k]
  /\ with_role Trailing
       (iteration_bwd target alpha A B mt nt lookahead opts k)
     = trailing_tasks_bwd A B nt lookahead k.
Proof.
  unfold with_role, iteration_bwd.
  cbn [filter role panel_bwd Role_eqb]. rewrite !filter_app.
  split.
  - rewrite !filter_none; [reflexivity | |].
    + intros t Ht. apply role_trailing_tasks_bwd in Ht.
      destruct Ht as [-> _]. reflexivity.
    + intros t Ht. apply role_lookahead_tasks_bwd in Ht.
      destruct Ht as [-> _]. reflexivity.
  - rewrite filter_none, filter_all; [reflexivity | |].
    + intros t Ht. apply role_trailing_tasks_bwd in Ht.
      destruct Ht as [-> _]. reflexivity.
    + intros t Ht. apply role_lookahead_tasks_bwd in Ht.
      destruct Ht as [-> _]. reflexivity.
Qed.

Lemma reads_iteration_fwd target (alpha : S) (A : TriangularMatrix)
  (B : Matrix) mt nt lookahead local_opts x k t :
  In t (iteration_fwd target alpha A B mt nt lookahead local_opts x) ->
  reads_token k t = true -> x = k.
Proof.
  unfold iteration_fwd. intros [<- | Ht]; [discriminate |].
  repeat (apply in_app_or in Ht; destruct Ht as [Ht | Ht]); intros Hr.
  - apply role_lookahead_tasks_fwd in Ht. symmetry. now apply Ht.
  - apply role_trailing_tasks_fwd in Ht. symmetry. now apply Ht.
  - destruct Ht as [<- | []]. discriminate.
Qed.

Lemma reads_iteration_bwd target (alpha : S) (A : TriangularMatrix)
  (B : Matrix) mt nt lookahead opts x k t :
  In t (iteration_bwd target alpha A B mt nt lookahead opts x) ->
  reads_token k t = true -> x = k.
Proof.
  unfold iteration_bwd. intros [<- | Ht]; [discriminate |].
  apply in_app_or in Ht. destruct Ht as [Ht | Ht]; intros Hr.
  - apply role_lookahead_tasks_bwd in Ht. symmetry. now apply Ht.
  - apply role_trailing_tasks_bwd in Ht. symmetry. now apply Ht.
Qed.

(** The rows a sweep visits. *)

Lemma visited_sweep target (alpha : S) (A : TriangularMatrix) (B : Matrix)
  opts :
  visited (sweep target alpha A B opts) = sweep_rows A (mt B).
Proof.
  unfold visited, sweep_rows. rewrite tasks_sweep.
  destruct (Uplo_eqb (uplo A) Lower); apply visited_flat_map; intros k.
  - match goal with
    | |- context [iteration_fwd ?a ?b ?c ?d ?e ?f ?g ?h ?i] =>
        destruct (with_role_iteration_fwd a b c d e f g h i) as (-> & _)
    end. reflexivity.
  - match goal with
    | |- context [iteration_bwd ?a ?b ?c ?d ?e ?f ?g ?h ?i] =>
        destruct (with_role_iteration_bwd a b c d e f g h i) as (-> & _)
    end. reflexivity.
Qed.

Lemma trsmA_events target side (alpha : S) (A : TriangularMatrix)
  (B : Matrix) opts s :
  trsmA target side alpha A B opts = Some s ->
  view s = (snd (fst (to_left side alpha A B)), snd (to_left side alpha A B))
  /\ events s = sweep target (fst (fst (to_left side alpha A B)))
                  (snd (fst (to_left side alpha A B)))
                  (snd (to_left side alpha A B)) opts.
Proof.
  unfold trsmA.
  destruct (to_left side alpha A B) as [[alpha' A'] B']. cbn [fst snd].
  destruct (preconditions target A' B'); [| discriminate].
  intros H. inversion H. split; reflexivity.
Qed.

(** C5. Once the case [side = Right] has been reduced to [Left], the
    direction of the sweep depends on the stored half of the triangular
    matrix only: with [A] lower the rows are visited forward,
    [0, 1, .., mt-1]; otherwise backward, [mt-1, mt-2, .., 0]. *)
Theorem sweep_direction_by_uplo target side (alpha : S)
  (A : TriangularMatrix) (B : Matrix) opts s :
  trsmA target side alpha A B opts = Some s ->
  let A' := fst (view s) in
  let B' := snd (view s) in
  (A', B') = (snd (fst (to_left side alpha A B)),
              snd (to_left side alpha A B))
  /\ visited (events s)
     = if Uplo_eqb (uplo A') Lower
       then upto (mt B') else rev (upto (mt B')).
Proof.
  intros Hs A' B'. subst A' B'.
  destruct (trsmA_events _ _ _ _ _ _ Hs) as [Hv He].
  rewrite He, Hv. cbn [fst snd]. split; [reflexivity |].
  rewrite visited_sweep. unfold sweep_rows, upto.
  destruct (Uplo_eqb _ Lower).
  - apply range_0_seq.
  - rewrite range_down_rev. f_equal. apply range_0_seq.
Qed.

(** Side of the tile solves. *)

Ltac split_membership :=
  repeat match goal with
  | H : In _ (_ ++ _) |- _ => apply in_app_or in H; destruct H as [H | H]
  | H : In _ (if ?b then _ else _) |- _ => destruct b
  | H : In _ (map _ _) |- _ =>
      apply in_map_iff in H; destruct H as (? & <- & ?)
  | H : In _ (flat_map _ _) |- _ =>
      apply in_flat_map in H; destruct H as (? & ? & H)
  | H : In _ [] |- _ => contradiction
  | H : In _ (_ :: _) |- _ => destruct H as [<- | H]
  end.

Lemma solves_on_left_iteration_fwd target (alpha : S)
  (A : TriangularMatrix) (B : Matrix) mt nt lookahead local_opts k t c :
  In t (iteration_fwd target alpha A B mt nt lookahead local_opts k) ->
  In c (body t) -> solves_on_left c = true.
Proof.
  unfold iteration_fwd, lookahead_tasks_fwd, trailing_tasks_fwd.
  intros Ht Hc. split_membership; revert Hc.
  - unfold panel_fwd, scale_rhs_fwd, create_local_B_fwd, send_back_fwd.
    cbn [body]. intros Hc. split_membership; reflexivity.
  - cbn [body lookahead_task_fwd]. intros Hc.
    split_membership; reflexivity.
  - cbn [body trailing_task_fwd]. intros Hc.
    split_membership; reflexivity.
  - cbn [body cleanup_task_fwd]. intros Hc.
    split_membership; reflexivity.
Qed.

Lemma solves_on_left_iteration_bwd target (alpha : S)
  (A : TriangularMatrix) (B : Matrix) mt nt lookahead opts k t c :
  In t (iteration_bwd target alpha A B mt nt lookahead opts k) ->
  In c (body t) -> solves_on_left c = true.
Proof.
  unfold iteration_bwd, lookahead_tasks_bwd, trailing_tasks_bwd.
  intros Ht Hc. split_membership; revert Hc.
  - unfold panel_bwd, scale_rhs_bwd, create_local_B_bwd, send_back_bwd.
    cbn [body]. intros Hc. split_membership; reflexivity.
  - unfold lookahead_task_bwd, create_local_B_bwd. cbn [body]. intros Hc.
    split_membership; reflexivity.
  - unfold trailing_task_bwd, create_local_B_bwd. cbn [body]. intros Hc.
    split_membership; reflexivity.
Qed.

(** C6. A solve with [side = Right] is the solve with [side = Left] on
    swapped operands: on the conjugate transposes of [A] and [B] with
    [alpha] conjugated if [A] or [B] carries a conjugate transposition,
    on their plain transposes with [alpha] unchanged otherwise.  Whatever
    the side asked for, every tile solve of the sweep is a left solve:
    there is no sweep for the right side. *)
Theorem right_side_is_left_side_on_transposes target (alpha : S)
  (A : TriangularMatrix) (B : Matrix) opts :
  trsmA target Right alpha A B opts
  = (if Op_eqb (op A) ConjTrans || Op_eqb (op B) ConjTrans
     then trsmA target Left (s_conj alpha)
                (conj_transpose A) (conj_transpose B) opts
     else trsmA target Left alpha (transpose A) (transpose B) opts)
  /\ forall side s t c,
       trsmA target side alpha A B opts = Some s ->
       In t (tasks (events s)) -> In c (body t) ->
       solves_on_left c = true.
Proof.
  split.
  - unfold trsmA, to_left.
    destruct (Op_eqb (op A) ConjTrans || Op_eqb (op B) ConjTrans);
      reflexivity.
  - intros side s t c Hs Ht Hc.
    destruct (trsmA_events _ _ _ _ _ _ Hs) as [_ He].
    rewrite He, tasks_sweep in Ht.
    destruct (Uplo_eqb _ Lower); apply in_flat_map in Ht;
      destruct Ht as (k & _ & Ht).
    + eapply solves_on_left_iteration_fwd; eassumption.
    + eapply solves_on_left_iteration_bwd; eassumption.
Qed.

(** The trailing-update tasks of the two sweeps. *)



Lemma In_range_down_0 (n k : Z) : In k (range_down (n - 1) 0) <-> 0 <= k < n.
Proof. rewrite range_down_rev, <- in_rev. apply In_range. Qed.

Lemma NoDup_range_down_0 (n : Z) : NoDup (range_down (n - 1) 0).
Proof. rewrite range_down_rev. apply NoDup_rev, NoDup_range. Qed.



(** The forward sweep of the solve partitions the rows below [k] as the
    factorization partitions the columns, whenever [B] has a tile column
    to update. *)

Lemma with_role_lookahead_fwd target (alpha : S) (A : TriangularMatrix)
  (B : Matrix) mt nt lookahead local_opts k :
  with_role Lookahead
    (iteration_fwd target alpha A B mt nt lookahead local_opts k)
  = lookahead_tasks_fwd target mt nt lookahead local_opts k.
Proof.
  unfold with_role, iteration_fwd.
  cbn [filter role panel_fwd Role_eqb]. rewrite !filter_app.
  cbn [filter role cleanup_task_fwd Role_eqb].
  rewrite filter_all, filter_none; [apply app_nil_r | |].
  - intros t Ht. apply role_trailing_tasks_fwd in Ht.
    destruct Ht as [-> _]. reflexivity.
  - intros t Ht. apply role_lookahead_tasks_fwd in Ht.
    destruct Ht as [-> _]. reflexivity.
Qed.

Lemma updates_lookahead_fwd target mt nt lookahead local_opts k c :
  0 < nt ->
  In c (flat_map task_updates
          (lookahead_tasks_fwd (S := S) target mt nt lookahead local_opts k))
  <-> k + 1 <= c < mt /\ c < k + 1 + lookahead.
Proof.
  intros Hnt.
  assert (Hrows : forall i, In i (lookahead_rows_fwd mt lookahead k)
                            <-> k + 1 <= i < mt /\ i < k + 1 + lookahead).
  { intros i. unfold lookahead_rows_fwd. rewrite In_for_up.
    - rewrite Z.ltb_lt. tauto.
    - intros x y Hxy. rewrite !Z.ltb_lt. lia. }
  assert (Htask : forall i,
            In c (task_updates
                    (lookahead_task_fwd (S := S) target nt local_opts k i))
            <-> c = i).
  { intros i. unfold task_updates, lookahead_task_fwd. cbn [body].
    rewrite in_flat_map. split.
    - intros (x & Hx & Hc). apply in_map_iff in Hx.
      destruct Hx as (j & <- & _). cbn in Hc. unfold view_rows in Hc.
      cbn [view_extent fst snd] in Hc. apply In_range in Hc. lia.
    - intros ->. eexists. split.
      + apply in_map. apply (In_range 0 nt 0). lia.
      + cbn. unfold view_rows. cbn [view_extent fst snd].
        apply In_range. lia. }
  unfold lookahead_tasks_fwd. rewrite in_flat_map. split.
  - intros (t & Ht & Hc). apply in_map_iff in Ht.
    destruct Ht as (i & <- & Hi). apply Htask in Hc. subst c.
    now apply Hrows.
  - intros H. eexists. split.
    + apply in_map. apply Hrows. exact H.
    + now apply Htask.
Qed.

Lemma updates_trailing_fwd target mt nt lookahead local_opts k c :
  0 < nt ->
  In c (flat_map task_updates
          (trailing_tasks_fwd (S := S) target mt nt lookahead local_opts k))
  <-> k + 1 + lookahead <= c <= mt - 1.
Proof.
  intros Hnt. unfold trailing_tasks_fwd.
  destruct (k + 1 + lookahead <? mt) eqn:E.
  - apply Z.ltb_lt in E. cbn [flat_map]. rewrite app_nil_r.
    unfold task_updates, trailing_task_fwd. cbn [body].
    rewrite in_flat_map. split.
    + intros (x & Hx & Hc). apply in_map_iff in Hx.
      destruct Hx as (j & <- & _). cbn in Hc. unfold view_rows in Hc.
      cbn [view_extent fst snd] in Hc. apply In_range in Hc. lia.
    + intros H. eexists. split.
      * apply in_map. apply (In_range 0 nt 0). lia.
      * cbn. unfold view_rows. cbn [view_extent fst snd].
        apply In_range. lia.
  - apply Z.ltb_ge in E. simpl. lia.
Qed.

Lemma forward_solve_partition target (alpha : S) (A : TriangularMatrix)
  (B : Matrix) opts k :
  Uplo_eqb (uplo A) Lower = true -> 0 < nt B -> 0 <= k < mt B ->
  let lookahead := get_option (opt_Lookahead opts) 1 in
  let ts := tasks (sweep target alpha A B opts) in
  (forall c, In c (flat_map task_updates (step_tasks Lookahead k ts))
             <-> k + 1 <= c < mt B /\ c < k + 1 + lookahead)
  /\ (forall c, In c (flat_map task_updates (step_tasks Trailing k ts))
              <-> k + 1 + lookahead <= c <= mt B - 1).
Proof.
  intros Hlow Hnt Hk lookahead ts. subst lookahead ts.
  rewrite tasks_sweep, Hlow.
  rewrite !step_tasks_single;
    try (apply NoDup_range || (apply In_range; lia)
         || (intros x t; apply reads_iteration_fwd)).
  assert (Hread : forall r t,
            In t (iteration_fwd target alpha A B (mt B) (nt B)
                    (get_option (opt_Lookahead opts) 1)
                    (local_options opts) k) ->
            role t = r -> r = Lookahead \/ r = Trailing ->
            reads_token k t = true).
  { unfold iteration_fwd. intros r t [<- | Ht] Hr Hor.
    - subst r. destruct Hor; discriminate.
    - repeat (apply in_app_or in Ht; destruct Ht as [Ht | Ht]).
      + apply role_lookahead_tasks_fwd in Ht. apply Ht.
      + apply role_trailing_tasks_fwd in Ht. apply Ht.
      + destruct Ht as [<- | []]. subst r. destruct Hor; discriminate. }
  rewrite !step_tasks_with_role
    by (intros t Ht Hr; eapply Hread; eauto).
  rewrite with_role_lookahead_fwd.
  match goal with
  | |- context [with_role Trailing
                  (iteration_fwd ?a ?b ?c ?d ?e ?f ?g ?h ?i)] =>
      destruct (with_role_iteration_fwd a b c d e f g h i) as (_ & ->)
  end.
  split; intros c;
    [now apply updates_lookahead_fwd | now apply updates_trailing_fwd].
Qed.

End Facts.

End TrsmAFacts.

(** ** Trailing updates of the factorization and of the solve *)

Module TrailingFacts.

Import Loop LoopFacts GraphFacts.

Section Both.

Context {HermitianMatrix : Type} {BM : BaseMatrix HermitianMatrix}.
Context {S : Type} {SC : Scalar S}.
Context {TriangularMatrix : Type} {BA : BaseMatrix TriangularMatrix}
        {DA : Distributed TriangularMatrix}.
Context {Matrix : Type} {BB : BaseMatrix Matrix} {DB : Distributed Matrix}.


End Both.

End TrailingFacts.

(** ** Tridiagonal eigensolver driver *)

Module StedcFacts.

Import Stedc.

Section Facts.

Context {real_t : Type} {RT : RealType real_t} {Matrix : Type}.
Variable lanst : Norm -> Z -> list real_t -> list real_t -> real_t.
Variable lascl : MatrixType -> Z -> Z -> real_t -> real_t -> Z -> Z ->
                 list real_t -> Z -> option (list real_t).
Variable emptyLike : Matrix -> Matrix.
Variable insertLocalTiles : Matrix -> Matrix.
Variable set : real_t -> real_t -> Matrix -> Options -> Matrix.
Variable stedc_solve :
  list real_t -> list real_t -> Matrix -> Matrix -> Matrix -> Options ->
  list real_t * list real_t * Matrix * Matrix * Matrix.
Variable stedc_sort :
  list real_t -> Matrix -> Matrix -> Options -> list real_t * Matrix.

Abbreviation run_stedc :=
  (stedc lanst lascl emptyLike insertLocalTiles set stedc_solve stedc_sort).

(** C8. A matrix of order one whose entry is neither zero, infinite nor
    NaN is not scaled, solved and scaled back.  [stedc] scales [D]; the
    scaling of [E], which has no entry, is the call
    [lascl(General, 0, 0, Anorm, one, n-1, 1, &E[0], n-1)] with [n-1 = 0],
    and a leading dimension of 0 is one the routine rejects
    ([lda < max(1, m)]).  So [stedc] ends by [lapack::Error], with [D]
    overwritten by the scaled entry; the solver is not reached and nothing
    is scaled back. *)
Theorem stedc_order_one_throws (D E : list real_t) (Q : Matrix)
  (opts : Options) :
  (forall type kl ku cfrom cto m n A lda,
     lda < Z.max 1 m -> lascl type kl ku cfrom cto m n A lda = None) ->
  List.length D = 1%nat ->
  let Anorm := lanst NormMax 1 D E in
  r_eqb Anorm r_zero = false ->
  r_isinf Anorm = false -> r_isnan Anorm = false ->
  run_stedc D E Q opts
  = Throws_lapack_error
      (match lascl MT_General 0 0 Anorm r_one 1 1 D 1 with
       | Some D1 => D1
       | None => D
       end, E, Q).
Proof.
  intros Hlda Hlen Anorm Hz Hinf Hnan. subst Anorm.
  unfold stedc, scaled_solve. rewrite Hlen. cbn [Z.of_nat Pos.of_succ_nat].
  rewrite Hz, Hinf, Hnan. cbn [orb].
  destruct (lascl MT_General 0 0 _ r_one 1 1 D 1) as [D1 |];
    [| reflexivity].
  rewrite Hlda by (cbn; lia). reflexivity.
Qed.

(** C10. If the max norm of the input is zero, [stedc] returns with [D],
    [E] and [Q] as they were; if it is infinite or NaN, [stedc] throws a
    domain error with [D], [E] and [Q] as they were. *)
Theorem stedc_early_exits (D E : list real_t) (Q : Matrix)
  (opts : Options) :
  let Anorm := lanst NormMax (Z.of_nat (List.length D)) D E in
  (r_eqb Anorm r_zero = true -> run_stedc D E Q opts = Returns (D, E, Q))
  /\ (r_isinf Anorm || r_isnan Anorm = true ->
      exists what,
        run_stedc D E Q opts = Throws_domain_error what (D, E, Q)).
Proof.
  intros Anorm. split.
  - intros Hz. unfold stedc. fold Anorm. rewrite Hz. reflexivity.
  - intros Hs. unfold stedc. fold Anorm.
    rewrite (r_special_nonzero _ Hs), Hs. eexists. reflexivity.
Qed.

End Facts.

End StedcFacts.

(** ** LAPACK-style entry point *)

Module LapackApiFacts.

Import LapackApi.

(** C1 (what the code does).  Whatever the matrices and whatever
    [slate::gesv] does with them, [slate_gesv] stores 0 in [info]: a
    failed factorization is not told apart from a successful one. *)
Theorem slate_gesv_info_is_zero {scalar_t Matrix : Type}
  (fromLAPACK : Z -> Z -> list scalar_t -> Z -> Z -> Z -> Z -> Matrix)
  (contents : Matrix -> list scalar_t)
  (gesv : Matrix -> Matrix -> Options ->
          Matrix * list (list Pivot) * Matrix)
  (env : Settings) (n nrhs : Z) (a : list scalar_t) (lda : Z)
  (b : list scalar_t) (ldb : Z) :
  out_info (slate_gesv fromLAPACK contents gesv env n nrhs a lda b ldb) = 0.
Proof.
  unfold slate_gesv.
  destruct (gesv _ _ _) as [[A pivots] B]. reflexivity.
Qed.

End LapackApiFacts.

(** ** The theorems at sample inputs *)

Module Examples.

Import Sample.

(** A four-by-four tile matrix, lookahead 2: at step 1 the lookahead
    tasks update columns 2 and 3. *)
Lemma lookahead_trailing_partition_witness :
  1 <= 4 /\ 0 <= 2 <= 4 - 1
  /\ forall c,
       In c (flat_map Potrf.task_updates
               (step_tasks Lookahead 1
                  (tasks (events (Potrf.potrf (square Lower 4)
                                    (with_lookahead 2))))))
       <-> 1 + 1 <= c <= Z.min (1 + 2) (4 - 1).
Proof.
  split; [lia |]. split; [lia |].
  pose proof (PotrfFacts.lookahead_trailing_partition
                (square Lower 4) (with_lookahead 2)) as H.
  cbv zeta in H.
  assert (H1 : 1 <= nt (view (Potrf.potrf (square Lower 4)
                                (with_lookahead 2))))
    by (vm_compute; discriminate).
  assert (H2 : 0 <= get_option (opt_Lookahead (with_lookahead 2)) 1
               <= nt (view (Potrf.potrf (square Lower 4)
                              (with_lookahead 2))) - 1)
    by (vm_compute; split; discriminate).
  destruct (H H1 H2) as [_ Hstep].
  assert (H3 : 0 <= 1 < nt (view (Potrf.potrf (square Lower 4)
                                    (with_lookahead 2))))
    by (vm_compute; split; [discriminate | reflexivity]).
  destruct (Hstep 1 H3) as (HL & _).
  exact HL.
Defined.



(** The device target: the trailing update of step 0 goes to [Devices],
    the factorization of the diagonal tiles to [HostTask]. *)
Lemma panel_factored_on_host_task_witness :
  get_option (opt_Target (with_target Devices)) HostTask = Devices
  /\ map Potrf.factor_targets
       (with_role Panel
          (tasks (events (Potrf.potrf (square Lower 3)
                            (with_target Devices)))))
     = [[(HostTask, subd 0 0)]; [(HostTask, subd 1 1)];
        [(HostTask, subd 2 2)]]
  /\ forall t c,
       In t (with_role Trailing
               (tasks (events (Potrf.potrf (square Lower 3)
                                 (with_target Devices))))) ->
       In c (body t) -> Potrf.call_target c = Some Devices.
Proof.
  assert (Hd : get_option (opt_Target (with_target Devices)) HostTask
               = Devices) by reflexivity.
  destruct (PotrfFacts.panel_factored_on_host_task
              (square Lower 3) (with_target Devices)) as (_ & H & Ht).
  split; [exact Hd |]. split; [exact H | exact (Ht Hd)].
Defined.

(** A lower matrix is swept forward, an upper one backward. *)
Lemma sweep_direction_by_uplo_witness :
  match TrsmA.trsmA HostTask Right 1 (square Upper 3) (rect 1 3)
          (with_lookahead 1) with
  | Some s => uplo (fst (view s)) = Lower /\ visited (events s) = [0; 1; 2]
  | None => False
  end.
Proof.
  destruct (TrsmA.trsmA HostTask Right 1 (square Upper 3) (rect 1 3)
              (with_lookahead 1)) as [s |] eqn:E.
  - destruct (TrsmAFacts.sweep_direction_by_uplo _ _ _ _ _ _ E) as [_ H].
    assert (Hu : uplo (fst (view s)) = Lower)
      by (vm_compute in E; inversion E; reflexivity).
    split; [exact Hu |].
    rewrite Hu in H. cbn [Uplo_eqb] in H. rewrite H.
    vm_compute in E. inversion E. reflexivity.
  - vm_compute in E. discriminate E.
Defined.

(** A right-side solve with a transposed [B]. *)
Lemma right_side_is_left_side_witness :
  TrsmA.trsmA HostTask Right 5 (square Upper 3) (rect 1 3) no_opts
  = TrsmA.trsmA HostTask Left 5 (transpose (square Upper 3))
      (transpose (rect 1 3)) no_opts
  /\ match TrsmA.trsmA HostTask Right 5 (square Upper 3) (rect 1 3)
            no_opts with
     | Some s =>
         forall t c, In t (tasks (events s)) -> In c (body t) ->
                     TrsmA.solves_on_left c = true
     | None => False
     end.
Proof.
  destruct (TrsmAFacts.right_side_is_left_side_on_transposes
              HostTask 5 (square Upper 3) (rect 1 3) no_opts) as [H Hl].
  split; [exact H |].
  destruct (TrsmA.trsmA HostTask Right 5 (square Upper 3) (rect 1 3)
              no_opts) as [s |] eqn:E.
  - intros t c. exact (Hl Right s t c E).
  - vm_compute in E. discriminate E.
Defined.

(** Lookahead 1 on three tile columns: three queues. *)
Lemma device_resources_witness :
  0 <= 1 /\ 1 + 2 <= INT_MAX
  /\ hd_error (events (Potrf.potrf_devices (square Lower 3) 1 no_opts))
     = Some (AllocateBatchArrays 0 3)
  /\ last (events (Potrf.potrf_devices (square Lower 3) 1 no_opts))
          Taskwait
     = ReleaseWorkspace.
Proof.
  assert (H0 : 0 <= 1) by lia.
  assert (H1 : 1 + 2 <= INT_MAX) by (unfold INT_MAX; lia).
  destruct (PotrfFacts.device_resources_bracket_the_sweep
              (square Lower 3) no_opts H0 H1) as (H & _).
  split; [exact H0 |]. split; [exact H1 |].
  rewrite H. split; vm_compute; reflexivity.
Defined.

Lemma single_tile_sweep_witness :
  nt (Potrf.to_lower (square Upper 1)) = 1 /\ 0 <= 1
  /\ Run.run sqrt_kernel (fun _ st => st)
       (events (Potrf.potrf_generic HostTask (square Upper 1) 1 no_opts)) 49
     = 7.
Proof.
  assert (H0 : nt (Potrf.to_lower (square Upper 1)) = 1) by reflexivity.
  assert (H1 : 0 <= 1) by lia.
  split; [exact H0 |]. split; [exact H1 |].
  refine (proj2 (proj2 (proj2 (proj2 (proj2
    (PotrfFacts.single_tile_sweep HostTask (square Upper 1) no_opts
       (fun st : Z => st) sqrt_kernel (fun _ st => st)
       H0 H1 _ _ _))))) 49).
  - intros c st st' H. now rewrite H.
  - reflexivity.
  - reflexivity.
Defined.

(** Why the lookahead must not be negative: with lookahead -1 a
    single-tile sweep does create a trailing task. *)
Lemma negative_lookahead_single_tile :
  Potrf.trailing_tasks HostTask 1 (-1) 0
  = [Potrf.trailing_task HostTask 1 (-1) 0].
Proof. reflexivity. Qed.

(** [D = (2, 1)], [E = (-4)]: norm 4; the eigenvalues come back as they
    went in, the stand-in solver having left them alone, and [E] stays
    scaled. *)
Lemma stedc_order_two_returns :
  u_stedc [d_of_Z 2; d_of_Z 1] [d_of_Z (-4)]
  = Returns ([d_of_Z 2; d_of_Z 1], [d_of_Z (-1)], tt).
Proof. vm_compute. reflexivity. Qed.

(** The matrix of order one [(4)]: norm 4; [D] is left as [(1)], [E] is
    whatever it was, and the driver throws. *)
Lemma stedc_order_one_witness :
  (forall type kl ku cfrom cto m n A lda,
     lda < Z.max 1 m -> d_lascl type kl ku cfrom cto m n A lda = None)
  /\ SFeqb (d_lanst NormMax 1 [d_of_Z 4] []) d_zero = false
  /\ u_stedc [d_of_Z 4] [] = Throws_lapack_error ([d_one], [], tt).
Proof.
  assert (Hlda : forall type kl ku cfrom cto m n A lda,
            lda < Z.max 1 m ->
            d_lascl type kl ku cfrom cto m n A lda = None).
  { intros type kl ku cfrom cto m n A lda H. unfold d_lascl.
    replace (lda <? Z.max 1 m) with true by (symmetry; apply Z.ltb_lt; lia).
    now rewrite Bool.orb_true_r. }
  assert (Hz : r_eqb (d_lanst NormMax 1 [d_of_Z 4] []) r_zero = false)
    by reflexivity.
  split; [exact Hlda |]. split; [exact Hz |].
  unfold u_stedc.
  rewrite (StedcFacts.stedc_order_one_throws
             d_lanst d_lascl (fun Q : unit => Q) (fun Q => Q)
             (fun _ _ Q _ => Q) u_solve u_sort
             [d_of_Z 4] [] tt no_opts Hlda eq_refl Hz eq_refl eq_refl).
  reflexivity.
Defined.

(** A zero matrix, and a matrix with an infinite entry. *)
Lemma stedc_early_exits_witness :
  u_stedc [d_zero; d_zero] [d_zero] = Returns ([d_zero; d_zero], [d_zero], tt)
  /\ exists what,
       u_stedc [d_zero; S754_infinity true] [d_zero]
       = Throws_domain_error what ([d_zero; S754_infinity true], [d_zero], tt).
Proof.
  split.
  - apply (proj1 (StedcFacts.stedc_early_exits
                    d_lanst d_lascl (fun Q : unit => Q) (fun Q => Q)
                    (fun _ _ Q _ => Q) u_solve u_sort
                    [d_zero; d_zero] [d_zero] tt no_opts)).
    reflexivity.
  - apply (proj2 (StedcFacts.stedc_early_exits
                    d_lanst d_lascl (fun Q : unit => Q) (fun Q => Q)
                    (fun _ _ Q _ => Q) u_solve u_sort
                    [d_zero; S754_infinity true] [d_zero] tt no_opts)).
    reflexivity.
Defined.

End Examples.

(** * Further properties of the code *)

(** ** Order of the tasks of the factorization *)

Module OrderFacts.

Import Loop LoopFacts GraphFacts Potrf Access.

Lemma precedes_In {C : Type} (ts : list (Task C)) (t u : Task C) :
  precedes ts t u -> In t ts /\ In u ts.
Proof.
  intros (i & j & _ & Hi & Hj).
  split; eapply nth_error_In; eassumption.
Qed.

Lemma precedes_app_l {C : Type} (l r : list (Task C)) (t u : Task C) :
  precedes l t u -> precedes (l ++ r) t u.
Proof.
  intros (i & j & Hij & Hi & Hj). exists i, j.
  split; [assumption |].
  split; rewrite nth_error_app1; try assumption;
    apply nth_error_Some; congruence.
Qed.

Lemma precedes_app_r {C : Type} (l r : list (Task C)) (t u : Task C) :
  precedes r t u -> precedes (l ++ r) t u.
Proof.
  intros (i & j & Hij & Hi & Hj).
  exists (List.length l + i)%nat, (List.length l + j)%nat.
  split; [lia |].
  split; rewrite nth_error_app2 by lia.
  - replace (List.length l + i - List.length l)%nat with i by lia.
    assumption.
  - replace (List.length l + j - List.length l)%nat with j by lia.
    assumption.
Qed.

Lemma precedes_app_lr {C : Type} (l r : list (Task C)) (t u : Task C) :
  In t l -> In u r -> precedes (l ++ r) t u.
Proof.
  intros Ht Hu.
  apply In_nth_error in Ht. destruct Ht as (i & Hi).
  apply In_nth_error in Hu. destruct Hu as (j & Hj).
  assert (Hlt : (i < List.length l)%nat)
    by (apply nth_error_Some; congruence).
  exists i, (List.length l + j)%nat.
  split; [lia |]. split.
  - rewrite nth_error_app1 by assumption. assumption.
  - rewrite nth_error_app2 by lia.
    replace (List.length l + j - List.length l)%nat with j by lia.
    assumption.
Qed.

Lemma precedes_app_inv {C : Type} (l r : list (Task C)) (t u : Task C) :
  precedes (l ++ r) t u ->
  precedes l t u \/ precedes r t u \/ (In t l /\ In u r).
Proof.
  intros (i & j & Hij & Hi & Hj).
  destruct (Nat.lt_ge_cases j (List.length l)) as [Hjl | Hjl].
  - left. exists i, j. split; [assumption |].
    rewrite nth_error_app1 in Hi by lia.
    rewrite nth_error_app1 in Hj by lia. now split.
  - right. rewrite nth_error_app2 in Hj by lia.
    destruct (Nat.lt_ge_cases i (List.length l)) as [Hil | Hil].
    + right. rewrite nth_error_app1 in Hi by lia.
      split; eapply nth_error_In; eassumption.
    + left. rewrite nth_error_app2 in Hi by lia.
      exists (i - List.length l)%nat, (j - List.length l)%nat.
      split; [lia |]. now split.
Qed.

(** In a loop over increasing indices, a task of an earlier iteration is
    created before a task of a later one, and conversely the iteration
    of the earlier task is not after that of the later one. *)
Lemma precedes_iterations {C : Type} (g : Z -> list (Task C)) (lo hi a b : Z)
  (t u : Task C) :
  lo <= a -> a < b -> b < hi -> In t (g a) -> In u (g b) ->
  precedes (flat_map g (range lo hi)) t u.
Proof.
  intros Hlo Hab Hb Ht Hu.
  remember (Z.to_nat (a - lo)) as n eqn:Hn.
  revert lo Hlo Hn. induction n as [| n IH]; intros lo Hlo Hn.
  - assert (lo = a) as -> by lia.
    rewrite range_cons by lia. cbn [flat_map].
    apply precedes_app_lr; [assumption |].
    apply in_flat_map. exists b. split; [| assumption].
    apply In_range. lia.
  - rewrite range_cons by lia. cbn [flat_map].
    apply precedes_app_r. apply IH; lia.
Qed.

Lemma iterations_of_precedes {C : Type} (g : Z -> list (Task C)) (lo hi : Z)
  (t u : Task C) :
  precedes (flat_map g (range lo hi)) t u ->
  exists a b, lo <= a /\ a <= b /\ b < hi /\ In t (g a) /\ In u (g b).
Proof.
  remember (Z.to_nat (hi - lo)) as n eqn:Hn.
  revert lo Hn. induction n as [| n IH]; intros lo Hn Hp.
  - rewrite range_empty in Hp by lia.
    destruct Hp as (i & j & _ & Hi & _). destruct i; discriminate.
  - rewrite range_cons in Hp by lia. cbn [flat_map] in Hp.
    apply precedes_app_inv in Hp. destruct Hp as [Hp | [Hp | [Ht Hu]]].
    + apply precedes_In in Hp. destruct Hp as [Ht Hu].
      exists lo, lo. repeat split; try lia; assumption.
    + apply IH in Hp; [| lia].
      destruct Hp as (a & b & Ha & Hab & Hb & Ht & Hu).
      exists a, b. repeat split; try lia; assumption.
    + apply in_flat_map in Hu. destruct Hu as (b & Hb & Hu).
      apply In_range in Hb.
      exists lo, b. repeat split; try lia; assumption.
Qed.


Section Generic.

Context {HermitianMatrix : Type} {BM : BaseMatrix HermitianMatrix}.

(** The three kinds of task of an iteration. *)
Lemma iteration_inv target A_nt lookahead a t :
  In t (iteration target A_nt lookahead a) ->
  t = panel A_nt a
  \/ (exists j, (a + 1 <= j < A_nt /\ j < a + 1 + lookahead)
                /\ t = lookahead_task A_nt a j)
  \/ (a + 1 + lookahead < A_nt /\ t = trailing_task target A_nt lookahead a).
Proof.
  unfold iteration. intros [<- | Ht]; [now left | right].
  apply in_app_or in Ht. destruct Ht as [Ht | Ht].
  - left. unfold lookahead_tasks in Ht. apply in_map_iff in Ht.
    destruct Ht as (j & <- & Hj).
    apply PotrfFacts.In_lookahead_columns in Hj. now exists j.
  - right. unfold trailing_tasks in Ht.
    destruct (a + 1 + lookahead <? A_nt) eqn:E; [| contradiction].
    apply Z.ltb_lt in E. destruct Ht as [<- | []]. now split.
Qed.

Lemma In_iteration_trailing target A_nt lookahead a :
  a + 1 + lookahead < A_nt ->
  In (trailing_task target A_nt lookahead a)
     (iteration target A_nt lookahead a).
Proof.
  intros H. unfold iteration. right. apply in_or_app. right.
  unfold trailing_tasks.
  replace (a + 1 + lookahead <? A_nt) with true
    by (symmetry; now apply Z.ltb_lt).
  now left.
Qed.

(** The columns each kind of task writes and reads. *)

Lemma access_panel A_nt a c :
  In c (task_writes (panel A_nt a)) \/ In c (task_reads (panel A_nt a)) ->
  c = a.
Proof.
  unfold task_writes, task_reads, panel. cbn [body].
  destruct (a + 1 <=? A_nt - 1); cbn; rewrite ?app_nil_r;
    rewrite ?in_app_iff, ?In_range; intros H;
    repeat destruct H as [H | H]; try contradiction; lia.
Qed.

Lemma writes_lookahead A_nt a j c :
  In c (task_writes (lookahead_task A_nt a j)) -> c = j.
Proof.
  unfold task_writes, lookahead_task. cbn [body].
  destruct (j + 1 <=? A_nt - 1); cbn; rewrite ?app_nil_r;
    rewrite ?in_app_iff, ?In_range; intros H;
    repeat destruct H as [H | H]; try contradiction; lia.
Qed.

Lemma reads_lookahead A_nt a j c :
  In c (task_reads (lookahead_task A_nt a j)) -> c = a.
Proof.
  unfold task_reads, lookahead_task. cbn [body].
  destruct (j + 1 <=? A_nt - 1); cbn; rewrite ?app_nil_r;
    rewrite ?in_app_iff, ?In_range; intros H;
    repeat destruct H as [H | H]; try contradiction; lia.
Qed.

Lemma writes_trailing target A_nt lookahead a c :
  In c (task_writes (trailing_task target A_nt lookahead a)) ->
  a + 1 + lookahead <= c <= A_nt - 1.
Proof.
  unfold task_writes, trailing_task. cbn. rewrite app_nil_r, In_range. lia.
Qed.

Lemma reads_trailing target A_nt lookahead a c :
  In c (task_reads (trailing_task target A_nt lookahead a)) -> c = a.
Proof.
  unfold task_reads, trailing_task. cbn. rewrite app_nil_r, In_range. lia.
Qed.

(** Tokens. *)

Lemma ordered_by_owners {C : Type} (tok : Z) (t u : Task C) :
  owns_token tok t = true ->
  owns_token tok u = true \/ reads_token tok u = true ->
  ordered_by tok t u = true.
Proof.
  intros Ht Hu. unfold ordered_by. rewrite Ht.
  destruct Hu as [-> | ->]; rewrite ?orb_true_r; reflexivity.
Qed.

Lemma owns_lookahead A_nt a j : owns_token j (lookahead_task A_nt a j) = true.
Proof. cbn. rewrite Z.eqb_refl. reflexivity. Qed.

Lemma reads_step_lookahead A_nt a j :
  reads_token a (lookahead_task A_nt a j) = true.
Proof. cbn. rewrite Z.eqb_refl. reflexivity. Qed.

Lemma owns_trailing_first target A_nt lookahead a :
  owns_token (a + 1 + lookahead) (trailing_task target A_nt lookahead a)
  = true.
Proof. cbn. rewrite Z.eqb_refl. reflexivity. Qed.

Lemma owns_trailing_last target A_nt lookahead a :
  owns_token (A_nt - 1) (trailing_task target A_nt lookahead a) = true.
Proof. cbn. rewrite Z.eqb_refl, !orb_true_r. reflexivity. Qed.

Lemma reads_step_trailing target A_nt lookahead a :
  reads_token a (trailing_task target A_nt lookahead a) = true.
Proof. cbn. rewrite Z.eqb_refl. reflexivity. Qed.

Lemma owns_panel A_nt a : owns_token a (panel A_nt a) = true.
Proof. cbn. rewrite Z.eqb_refl. reflexivity. Qed.

Lemma waits_for_token {C : Type} (ts : list (Task C)) (tok : Z)
  (t u : Task C) :
  precedes ts t u -> owns_token tok t = true ->
  owns_token tok u = true \/ reads_token tok u = true ->
  waits_for ts t u.
Proof.
  intros Hp Ht Hu. split; [assumption |].
  exists tok. now apply ordered_by_owners.
Qed.

(** A trailing update of column [c] that does not own token [c] is
    followed by the trailing update that does, which every later task
    naming token [c] waits for. *)
Lemma through_trailing target A_nt lookahead a b c t u :
  0 <= lookahead -> 0 <= a -> b < A_nt ->
  t = trailing_task target A_nt lookahead a ->
  In t (iteration target A_nt lookahead a) ->
  In u (iteration target A_nt lookahead b) ->
  a + 1 + lookahead < c -> c - 1 - lookahead < b -> c < A_nt ->
  owns_token c u = true \/ reads_token c u = true ->
  runs_after (flat_map (iteration target A_nt lookahead) (range 0 A_nt)) t u.
Proof.
  intros Hla Ha Hb -> Ht Hu Hac Hcb Hc Htok.
  right. exists (trailing_task target A_nt lookahead (c - 1 - lookahead)).
  assert (Hm : In (trailing_task target A_nt lookahead (c - 1 - lookahead))
                  (iteration target A_nt lookahead (c - 1 - lookahead)))
    by (apply In_iteration_trailing; lia).
  split.
  - apply waits_for_token with (tok := A_nt - 1).
    + apply precedes_iterations with (a := a) (b := c - 1 - lookahead);
        (lia || assumption).
    + apply owns_trailing_last.
    + left. apply owns_trailing_last.
  - apply waits_for_token with (tok := c).
    + apply precedes_iterations with (a := c - 1 - lookahead) (b := b);
        (lia || assumption).
    + replace c with (c - 1 - lookahead + 1 + lookahead) at 1 by lia.
      apply owns_trailing_first.
    + assumption.
Qed.

(** X1. In the generic implementation, with a lookahead that is not
    negative, two tasks of which the earlier writes a tile column that
    the later writes or reads never run concurrently: the later one waits
    for the earlier one, directly or through one trailing-update task
    created between them. *)
Theorem conflicting_accesses_are_ordered (target : Target)
  (A : HermitianMatrix) (lookahead : Z) (opts : Options) :
  0 <= lookahead ->
  let ts := tasks (events (potrf_generic target A lookahead opts)) in
  forall t u c,
    precedes ts t u ->
    In c (task_writes t) ->
    In c (task_writes u) \/ In c (task_reads u) ->
    runs_after ts t u.
Proof.
  intros Hla ts t u c Hp Hw Hacc. subst ts.
  rewrite PotrfFacts.tasks_generic in *. unfold sweep_columns in *.
  set (A_nt := nt (to_lower A)) in *.
  destruct (iterations_of_precedes _ _ _ Hp)
    as (a & b & Ha & Hab & Hb & Ht & Hu).
  pose proof (iteration_inv Ht) as Kt.
  pose proof (iteration_inv Hu) as Ku.
  destruct Kt as [Et | [(j & Hj & Et) | (Hg & Et)]].
  - (* the earlier task is the panel of column c *)
    subst t. apply (or_introl (B := False)) in Hw.
    assert (c = a) as ->.
    { apply (access_panel A_nt a). destruct Hw as [Hw | []]. now left. }
    left. apply waits_for_token with (tok := a); [assumption | apply owns_panel |].
    destruct Ku as [Eu | [(j' & Hj' & Eu) | (Hg' & Eu)]]; subst u.
    + apply access_panel in Hacc. subst b. left. apply owns_panel.
    + destruct Hacc as [Hc | Hc].
      * apply writes_lookahead in Hc. lia.
      * apply reads_lookahead in Hc. subst b. right.
        apply reads_step_lookahead.
    + destruct Hacc as [Hc | Hc].
      * apply writes_trailing in Hc. lia.
      * apply reads_trailing in Hc. subst b. right.
        apply reads_step_trailing.
  - (* the earlier task is a lookahead update of column c *)
    subst t. apply writes_lookahead in Hw. subst j.
    left. apply waits_for_token with (tok := c);
      [assumption | apply owns_lookahead |].
    destruct Ku as [Eu | [(j' & Hj' & Eu) | (Hg' & Eu)]]; subst u.
    + apply access_panel in Hacc. subst b. left. apply owns_panel.
    + destruct Hacc as [Hc | Hc].
      * apply writes_lookahead in Hc. subst j'. left. apply owns_lookahead.
      * apply reads_lookahead in Hc. subst b. right.
        apply reads_step_lookahead.
    + destruct Hacc as [Hc | Hc].
      * apply writes_trailing in Hc. lia.
      * apply reads_trailing in Hc. subst b. right.
        apply reads_step_trailing.
  - (* the earlier task is a trailing update *)
    pose proof Hw as Hw'. rewrite Et in Hw'. apply writes_trailing in Hw'.
    destruct Ku as [Eu | [(j' & Hj' & Eu) | (Hg' & Eu)]].
    + (* panel of column c *)
      assert (c = b) as ->.
      { subst u. now apply (access_panel A_nt b). }
      assert (Hown : owns_token b u = true) by (subst u; apply owns_panel).
      destruct (Z.eq_dec b (a + 1 + lookahead)) as [Eb | Nb].
      * left. apply waits_for_token with (tok := b); [assumption | | now left].
        subst t. rewrite Eb. apply owns_trailing_first.
      * apply through_trailing with (a := a) (b := b) (c := b);
          try (lia || assumption). now left.
    + (* lookahead task *)
      assert (Hname : (c = j' \/ c = b)
                      /\ (owns_token c u = true \/ reads_token c u = true)).
      { subst u. destruct Hacc as [Hc | Hc].
        - apply writes_lookahead in Hc. subst j'.
          split; [now left | left; apply owns_lookahead].
        - apply reads_lookahead in Hc. subst b.
          split; [now right | right; apply reads_step_lookahead]. }
      destruct Hname as [Hcases Htok].
      destruct (Z.eq_dec c (a + 1 + lookahead)) as [Ec | Nc].
      * left. apply waits_for_token with (tok := c); [assumption | | assumption].
        subst t. rewrite Ec. apply owns_trailing_first.
      * apply through_trailing with (a := a) (b := b) (c := c);
          (lia || assumption).
    + (* another trailing update *)
      left. apply waits_for_token with (tok := A_nt - 1); [assumption | |].
      * subst t. apply owns_trailing_last.
      * left. subst u. apply owns_trailing_last.
Qed.

End Generic.

End OrderFacts.

(** ** How many tasks a factorization creates, and on which tokens *)

Module CensusFacts.

Import Loop LoopFacts GraphFacts Potrf.

Lemma range_app (lo mid hi : Z) :
  lo <= mid <= hi -> range lo hi = range lo mid ++ range mid hi.
Proof.
  intros H.
  remember (Z.to_nat (mid - lo)) as n eqn:Hn.
  revert lo H Hn. induction n as [| n IH]; intros lo H Hn.
  - assert (lo = mid) as -> by lia.
    rewrite (range_empty (lo := mid) (hi := mid)) by lia. reflexivity.
  - rewrite (range_cons (lo := lo) (hi := hi)) by lia.
    rewrite (range_cons (lo := lo) (hi := mid)) by lia.
    rewrite (IH (lo + 1)) by lia. reflexivity.
Qed.

Lemma length_range (lo hi : Z) :
  List.length (range lo hi) = Z.to_nat (hi - lo).
Proof.
  remember (Z.to_nat (hi - lo)) as n eqn:Hn.
  revert lo Hn. induction n as [| n IH]; intros lo Hn.
  - rewrite range_empty by lia. reflexivity.
  - rewrite range_cons by lia. cbn [List.length]. rewrite IH by lia.
    reflexivity.
Qed.

Lemma flat_map_singletons {A B : Type} (f : A -> list B) (g : A -> B)
  (l : list A) :
  (forall x, In x l -> f x = [g x]) -> flat_map f l = map g l.
Proof.
  induction l as [| x l IH]; intros H; [reflexivity |].
  cbn. rewrite (H x) by now left. cbn. f_equal.
  apply IH. intros y Hy. apply H. now right.
Qed.

(** The steps that create a task guarded by [k < bound]. *)
Lemma flat_map_guarded {B : Type} (f : Z -> list B) (g : Z -> B)
  (n bound : Z) :
  bound <= n ->
  (forall k, 0 <= k < n -> f k = if k <? bound then [g k] else []) ->
  flat_map f (range 0 n) = map g (range 0 bound).
Proof.
  intros Hb Hf.
  destruct (Z.le_gt_cases bound 0) as [Hneg | Hpos].
  - rewrite (range_empty (lo := 0) (hi := bound)) by lia.
    apply flat_map_nil_ext. intros k Hk. apply In_range in Hk.
    rewrite Hf by lia.
    replace (k <? bound) with false by (symmetry; apply Z.ltb_ge; lia).
    reflexivity.
  - rewrite (range_app (lo := 0) (mid := bound) (hi := n)) by lia.
    rewrite flat_map_app.
    rewrite (flat_map_singletons f g).
    + rewrite (@flat_map_nil_ext _ _ f (range bound n));
        [apply app_nil_r |].
      intros k Hk. apply In_range in Hk. rewrite Hf by lia.
      replace (k <? bound) with false by (symmetry; apply Z.ltb_ge; lia).
      reflexivity.
    + intros k Hk. apply In_range in Hk. rewrite Hf by lia.
      replace (k <? bound) with true by (symmetry; apply Z.ltb_lt; lia).
      reflexivity.
Qed.

Section Facts.

Context {HermitianMatrix : Type} {BM : BaseMatrix HermitianMatrix}.

Lemma with_role_sweep (r : Role) (g h : Z -> list (Task Call)) (l : list Z) :
  (forall k, with_role r (g k) = h k) ->
  with_role r (flat_map g l) = flat_map h l.
Proof.
  intros H. unfold with_role in *. rewrite filter_flat_map.
  apply flat_map_ext. exact H.
Qed.

Lemma trailing_of_specialization target (A : HermitianMatrix) lookahead opts :
  0 <= lookahead ->
  exists task,
    with_role Trailing
      (tasks (events (specialization_potrf target A lookahead opts)))
    = map task (range 0 (nt (to_lower A) - 1 - lookahead)).
Proof.
  intros Hla. set (A_nt := nt (to_lower A)).
  destruct target; cbn [specialization_potrf].
  5: { exists (trailing_task_dev A_nt lookahead).
       rewrite PotrfFacts.tasks_devices. fold A_nt.
       rewrite (with_role_sweep Trailing _ (trailing_tasks_dev A_nt lookahead))
         by (intros k; apply PotrfFacts.with_role_iteration_dev).
       apply flat_map_guarded; [lia |].
       intros k Hk. unfold trailing_tasks_dev.
       destruct (k + 1 + lookahead <? A_nt) eqn:E1;
         destruct (k <? A_nt - 1 - lookahead) eqn:E2;
         try reflexivity;
         rewrite ?Z.ltb_lt, ?Z.ltb_ge in *; lia. }
  all: match goal with
       | |- context [potrf_generic ?tg] =>
           exists (trailing_task tg A_nt lookahead)
       end;
    rewrite PotrfFacts.tasks_generic; fold A_nt;
    match goal with
    | |- context [iteration ?tg] =>
        rewrite (with_role_sweep Trailing _ (trailing_tasks tg A_nt lookahead))
          by (intros k; apply PotrfFacts.with_role_iteration)
    end;
    apply flat_map_guarded; [lia |];
    intros k Hk; unfold trailing_tasks;
    destruct (k + 1 + lookahead <? A_nt) eqn:E1;
      destruct (k <? A_nt - 1 - lookahead) eqn:E2;
      try reflexivity;
      rewrite ?Z.ltb_lt, ?Z.ltb_ge in *; lia.
Qed.

Lemma lookahead_columns_count A_nt lookahead k :
  0 <= lookahead -> 0 <= k < A_nt ->
  List.length (lookahead_columns A_nt lookahead k)
  = Z.to_nat (Z.min lookahead (A_nt - 1 - k)).
Proof.
  intros Hla Hk. unfold lookahead_columns.
  remember (Z.to_nat (Z.min lookahead (A_nt - 1 - k))) as n eqn:Hn.
  assert (Hgen : forall m j,
            k + 1 <= j ->
            Z.to_nat (Z.min (k + 1 + lookahead) A_nt - j) = m ->
            List.length (for_up (fun j => j <? k + 1 + lookahead) A_nt j) = m).
  { induction m as [| m IH]; intros j Hj Hm; rewrite for_up_eq.
    - destruct ((j <? k + 1 + lookahead) && (j <? A_nt)) eqn:E;
        [| reflexivity].
      apply andb_true_iff in E. rewrite !Z.ltb_lt in E. lia.
    - replace ((j <? k + 1 + lookahead) && (j <? A_nt)) with true
        by (symmetry; apply andb_true_iff; rewrite !Z.ltb_lt; lia).
      cbn [List.length]. f_equal. apply IH; lia. }
  apply Hgen; lia.
Qed.

(** X2. How many tasks the sweep of [potrf] creates, whatever the target,
    for a lookahead that is not negative: one panel task per tile column;
    [max 0 (nt - 1 - lookahead)] trailing-update tasks, so none at all
    once the lookahead reaches [nt - 1]; and at step [k]
    [min lookahead (nt - 1 - k)] lookahead tasks, so none at all with a
    lookahead of 0. *)
Theorem task_census (A : HermitianMatrix) (opts : Options) :
  let s := potrf A opts in
  let A_nt := nt (view s) in
  let lookahead := get_option (opt_Lookahead opts) 1 in
  let ts := tasks (events s) in
  0 <= lookahead ->
  List.length (with_role Panel ts) = Z.to_nat A_nt
  /\ List.length (with_role Trailing ts) = Z.to_nat (A_nt - 1 - lookahead)
  /\ forall k, 0 <= k < A_nt ->
       List.length (step_tasks Lookahead k ts)
       = Z.to_nat (Z.min lookahead (A_nt - 1 - k)).
Proof.
  intros s A_nt lookahead ts Hla. subst s A_nt ts.
  rewrite PotrfFacts.potrf_selected in *.
  rewrite PotrfFacts.view_specialization in *.
  fold lookahead. split; [| split].
  - pose proof (PotrfFacts.visited_specialization (selected opts) A
                  lookahead opts) as Hv.
    unfold visited in Hv.
    assert (Hlen : forall l : list (Task Call),
              (forall t, In t l -> List.length (owned_tokens t) = 1%nat) ->
              List.length (flat_map owned_tokens l) = List.length l).
    { induction l as [| x l IH]; intros H; [reflexivity |].
      cbn [flat_map]. rewrite length_app, (H x) by now left.
      cbn [List.length]. rewrite IH; [reflexivity |].
      intros y Hy. apply H. now right. }
    rewrite <- Hlen.
    + rewrite Hv. unfold sweep_columns. rewrite length_range.
      f_equal. lia.
    + intros t Ht. unfold with_role in Ht. apply filter_In in Ht.
      destruct Ht as [Ht Hr].
      destruct (selected opts); cbn [specialization_potrf] in Ht.
      5: { rewrite PotrfFacts.tasks_devices in Ht.
           apply in_flat_map in Ht. destruct Ht as (k & _ & Ht).
           unfold iteration_dev in Ht. destruct Ht as [<- | Ht];
             [reflexivity |].
           repeat (apply in_app_or in Ht; destruct Ht as [Ht | Ht]).
           - apply PotrfFacts.role_trailing_tasks_dev in Ht.
             destruct Ht as [Ht _]. rewrite Ht in Hr. discriminate.
           - apply PotrfFacts.role_lookahead_tasks_dev in Ht.
             destruct Ht as [Ht _]. rewrite Ht in Hr. discriminate.
           - apply PotrfFacts.role_release_panel_tasks in Ht.
             destruct Ht as [Ht _]. rewrite Ht in Hr. discriminate.
           - apply PotrfFacts.role_clean_tiles_tasks in Ht.
             destruct Ht as [Ht _]. rewrite Ht in Hr. discriminate. }
      all: rewrite PotrfFacts.tasks_generic in Ht;
        apply in_flat_map in Ht; destruct Ht as (k & _ & Ht);
        unfold iteration in Ht; destruct Ht as [<- | Ht]; [reflexivity |];
        apply in_app_or in Ht; destruct Ht as [Ht | Ht];
        [ apply PotrfFacts.role_lookahead_tasks in Ht
        | apply PotrfFacts.role_trailing_tasks in Ht ];
        destruct Ht as [Ht _]; rewrite Ht in Hr; discriminate.
  - destruct (trailing_of_specialization (selected opts) A opts Hla)
      as (task & ->).
    rewrite length_map, length_range. f_equal. lia.
  - intros k Hk.
    destruct (selected opts); cbn [specialization_potrf].
    5: { rewrite PotrfFacts.tasks_devices.
         rewrite PotrfFacts.step_tasks_sweep
           by (assumption
               || (intros x t; apply PotrfFacts.reads_iteration_dev)).
         match goal with
         | |- context [iteration_dev ?st ?n ?l ?k] =>
             destruct (PotrfFacts.step_tasks_iteration_dev st n l k)
               as [-> _]
         end.
         unfold lookahead_tasks_dev. rewrite length_map.
         now apply lookahead_columns_count. }
    all: rewrite PotrfFacts.tasks_generic;
      rewrite PotrfFacts.step_tasks_sweep
        by (assumption || (intros x t; apply PotrfFacts.reads_iteration));
      match goal with
      | |- context [iteration ?tg ?n ?l ?k] =>
          destruct (PotrfFacts.step_tasks_iteration tg n l k) as [-> _]
      end;
      unfold lookahead_tasks; rewrite length_map;
      now apply lookahead_columns_count.
Qed.

(** Tokens. *)

Lemma tokens_iteration target A_nt lookahead k t tok :
  0 <= lookahead -> 0 <= k < A_nt ->
  In t (iteration target A_nt lookahead k) -> In tok (tokens t) ->
  0 <= tok < A_nt.
Proof.
  intros Hla Hk Ht Htok.
  apply OrderFacts.iteration_inv in Ht.
  destruct Ht as [-> | [(j & Hj & ->) | (Hg & ->)]]; cbn in Htok;
    repeat destruct Htok as [<- | Htok]; try contradiction; lia.
Qed.

Lemma tokens_iteration_dev strategy A_nt lookahead k t tok :
  0 <= lookahead -> 0 <= k < A_nt ->
  In t (iteration_dev strategy A_nt lookahead k) -> In tok (tokens t) ->
  0 <= tok <= A_nt
  /\ (tok = A_nt ->
      strategy = TRS_All /\ 0 < lookahead
      /\ body t = [potrfReleasePanel (A_nt - 1 - lookahead)]).
Proof.
  intros Hla Hk Ht Htok. unfold iteration_dev in Ht.
  destruct Ht as [<- | Ht].
  { cbn in Htok. destruct Htok as [<- | []]. split; lia. }
  repeat (apply in_app_or in Ht; destruct Ht as [Ht | Ht]).
  - unfold trailing_tasks_dev in Ht.
    destruct (k + 1 + lookahead <? A_nt) eqn:E; [| contradiction].
    apply Z.ltb_lt in E. destruct Ht as [<- | []]. cbn in Htok.
    repeat destruct Htok as [<- | Htok]; try contradiction; split; lia.
  - unfold lookahead_tasks_dev in Ht. apply in_map_iff in Ht.
    destruct Ht as (j & <- & Hj). apply PotrfFacts.In_lookahead_columns in Hj.
    cbn in Htok.
    repeat destruct Htok as [<- | Htok]; try contradiction; split; lia.
  - unfold release_panel_tasks in Ht.
    destruct strategy; cbn [TRS_eqb] in Ht; try contradiction.
    destruct ((lookahead >? 0) && (k >=? lookahead)) eqn:E;
      [| contradiction].
    apply andb_true_iff in E. destruct E as [E1 E2].
    apply Z.gtb_lt in E1. apply Z.geb_le in E2.
    destruct Ht as [<- | []]. cbn in Htok.
    repeat destruct Htok as [<- | Htok]; try contradiction.
    + split; lia.
    + split; [lia |]. intros Hk1.
      replace (k - lookahead) with (A_nt - 1 - lookahead) by lia.
      cbn. repeat split. lia.
  - unfold clean_tiles_tasks in Ht.
    destruct (TRS_eqb strategy TRS_Slate); [| contradiction].
    destruct Ht as [<- | []]. cbn in Htok.
    destruct Htok as [<- | []]. split; lia.
Qed.

(** X3. The dependence tokens are the entries of a vector of [nt]
    elements.  With a lookahead that is not negative, every token a task
    of the factorization names has an index in [0, nt], and index [nt],
    one past the last element, is named only by the device
    implementation under [TileReleaseStrategy::All] with a positive
    lookahead, by the task that releases panel [nt - 1 - lookahead]; that
    task exists whenever [0 < lookahead <= nt - 1]. *)
Theorem tokens_within_vector (A : HermitianMatrix) (opts : Options) :
  let s := potrf A opts in
  let A_nt := nt (view s) in
  let lookahead := get_option (opt_Lookahead opts) 1 in
  let strategy := get_option (opt_TileReleaseStrategy opts) TRS_All in
  let ts := tasks (events s) in
  0 <= lookahead ->
  (forall t tok, In t ts -> In tok (tokens t) ->
     0 <= tok <= A_nt
     /\ (tok = A_nt ->
         selected opts = Devices /\ strategy = TRS_All /\ 0 < lookahead
         /\ body t = [potrfReleasePanel (A_nt - 1 - lookahead)]))
  /\ (selected opts = Devices -> strategy = TRS_All ->
      0 < lookahead <= A_nt - 1 ->
      exists t, In t ts /\ In A_nt (tokens t)).
Proof.
  intros s A_nt lookahead strategy ts Hla. subst s A_nt ts.
  rewrite PotrfFacts.potrf_selected in *.
  rewrite PotrfFacts.view_specialization in *.
  fold lookahead. split.
  - intros t tok Ht Htok.
    destruct (selected opts) eqn:Esel; cbn [specialization_potrf] in Ht.
    5: { rewrite PotrfFacts.tasks_devices in Ht. fold strategy in Ht.
         apply in_flat_map in Ht. destruct Ht as (k & Hk & Ht).
         apply In_range in Hk.
         destruct (@tokens_iteration_dev _ _ _ _ _ _ Hla Hk Ht Htok)
           as [Hb Hlast].
         split; [assumption |]. intros E.
         destruct (Hlast E) as (E1 & E2 & E3). repeat split; assumption. }
    all: rewrite PotrfFacts.tasks_generic in Ht;
      apply in_flat_map in Ht; destruct Ht as (k & Hk & Ht);
      apply In_range in Hk;
      pose proof (@tokens_iteration _ _ _ _ _ _ Hla Hk Ht Htok) as Hb;
      split; [lia | intros E; lia].
  - intros Esel Estr Hpos. rewrite Esel. cbn [specialization_potrf].
    rewrite PotrfFacts.tasks_devices. fold strategy. rewrite Estr.
    set (A_nt := nt (to_lower A)) in *.
    exists {| role := Cleanup;
              depends := [dep_in (A_nt - 1); dep_inout (A_nt - 1 + 1)];
              priority := None;
              body := [potrfReleasePanel (A_nt - 1 - lookahead)] |}.
    split.
    + apply in_flat_map. exists (A_nt - 1). split.
      * apply In_range. lia.
      * unfold iteration_dev. right.
        apply in_or_app. right. apply in_or_app. right.
        apply in_or_app. left.
        unfold release_panel_tasks. cbn [TRS_eqb].
        replace ((lookahead >? 0) && (A_nt - 1 >=? lookahead)) with true.
        -- now left.
        -- symmetry. apply andb_true_iff. split.
           ++ apply Z.gtb_lt. lia.
           ++ apply Z.geb_le. lia.
    + cbn. right. left. lia.
Qed.

(** Releases. *)

Lemma released_app (l r : list (Task Call)) :
  released_panels (l ++ r) = released_panels l ++ released_panels r.
Proof. unfold released_panels. now rewrite !flat_map_app. Qed.

Lemma cleaned_app (l r : list (Task Call)) :
  cleaned_columns (l ++ r) = cleaned_columns l ++ cleaned_columns r.
Proof. unfold cleaned_columns. now rewrite !flat_map_app. Qed.

Lemma released_flat_map (g : Z -> list (Task Call)) (l : list Z) :
  released_panels (flat_map g l) = flat_map (fun k => released_panels (g k)) l.
Proof.
  induction l as [| x l IH]; [reflexivity |].
  cbn [flat_map]. now rewrite released_app, IH.
Qed.

Lemma cleaned_flat_map (g : Z -> list (Task Call)) (l : list Z) :
  cleaned_columns (flat_map g l) = flat_map (fun k => cleaned_columns (g k)) l.
Proof.
  induction l as [| x l IH]; [reflexivity |].
  cbn [flat_map]. now rewrite cleaned_app, IH.
Qed.

Lemma no_release_in_updates A_nt lookahead k :
  released_panels ([panel_dev A_nt lookahead k]
                   ++ trailing_tasks_dev A_nt lookahead k
                   ++ lookahead_tasks_dev A_nt lookahead k) = []
  /\ cleaned_columns ([panel_dev A_nt lookahead k]
                      ++ trailing_tasks_dev A_nt lookahead k
                      ++ lookahead_tasks_dev A_nt lookahead k) = [].
Proof.
  assert (H : forall t,
            In t ([panel_dev A_nt lookahead k]
                  ++ trailing_tasks_dev A_nt lookahead k
                  ++ lookahead_tasks_dev A_nt lookahead k) ->
            forall c, In c (body t) ->
            match c with
            | potrfReleasePanel _ | potrfCleanTiles _ => False
            | _ => True
            end).
  { intros t Ht c Hc.
    repeat (apply in_app_or in Ht; destruct Ht as [Ht | Ht]).
    - destruct Ht as [<- | []]. unfold panel_dev in Hc. cbn [body] in Hc.
      destruct (k + 1 <=? A_nt - 1); cbn in Hc;
        repeat destruct Hc as [<- | Hc]; try contradiction; exact I.
    - unfold trailing_tasks_dev in Ht.
      destruct (k + 1 + lookahead <? A_nt); [| contradiction].
      destruct Ht as [<- | []]. destruct Hc as [<- | []]. exact I.
    - unfold lookahead_tasks_dev in Ht. apply in_map_iff in Ht.
      destruct Ht as (j & <- & _). unfold lookahead_task_dev in Hc.
      cbn [body] in Hc.
      destruct (j + 1 <=? A_nt - 1); cbn in Hc;
        repeat destruct Hc as [<- | Hc]; try contradiction; exact I. }
  split.
  - unfold released_panels. apply flat_map_nil_ext. intros c Hc.
    apply in_flat_map in Hc. destruct Hc as (t & Ht & Hc).
    specialize (H t Ht c Hc). destruct c; try reflexivity; contradiction.
  - unfold cleaned_columns. apply flat_map_nil_ext. intros c Hc.
    apply in_flat_map in Hc. destruct Hc as (t & Ht & Hc).
    specialize (H t Ht c Hc). destruct c; try reflexivity; contradiction.
Qed.

Lemma map_shift_range (d lo hi : Z) :
  map (fun k => k - d) (range lo hi) = range (lo - d) (hi - d).
Proof.
  remember (Z.to_nat (hi - lo)) as n eqn:Hn.
  revert lo Hn. induction n as [| n IH]; intros lo Hn.
  - rewrite !range_empty by lia. reflexivity.
  - rewrite (range_cons (lo := lo)) by lia.
    rewrite (range_cons (lo := lo - d)) by lia.
    cbn [map]. rewrite IH by lia.
    replace (lo + 1 - d) with (lo - d + 1) by lia. reflexivity.
Qed.

(** X4. In the device implementation the panels are released in column
    order.  Under [TileReleaseStrategy::All] with a positive lookahead,
    [potrfReleasePanel] is called once for each of the columns
    [0 .. nt - 1 - lookahead] and for no other: the last [lookahead]
    panels are left to the final [releaseWorkspace]; with lookahead 0, or
    under another strategy, it is never called.  [potrfCleanTiles] is
    called once per column under [TileReleaseStrategy::Slate] and never
    otherwise. *)
Theorem panel_release_schedule (A : HermitianMatrix) (lookahead : Z)
  (opts : Options) :
  let s := potrf_devices A lookahead opts in
  let A_nt := nt (view s) in
  let strategy := get_option (opt_TileReleaseStrategy opts) TRS_All in
  released_panels (tasks (events s))
  = (if TRS_eqb strategy TRS_All && (lookahead >? 0)
     then range 0 (A_nt - lookahead) else [])
  /\ cleaned_columns (tasks (events s))
     = (if TRS_eqb strategy TRS_Slate then range 0 A_nt else []).
Proof.
  intros s A_nt strategy. subst s A_nt.
  rewrite PotrfFacts.tasks_devices. fold strategy.
  cbn [view potrf_devices]. set (A_nt := nt (to_lower A)).
  unfold sweep_columns.
  assert (Hiter : forall k,
            iteration_dev strategy A_nt lookahead k
            = ([panel_dev A_nt lookahead k]
               ++ trailing_tasks_dev A_nt lookahead k
               ++ lookahead_tasks_dev A_nt lookahead k)
              ++ release_panel_tasks strategy lookahead k
              ++ clean_tiles_tasks strategy k).
  { intros k. unfold iteration_dev. cbn [app].
    now rewrite <- !app_assoc. }
  split.
  - rewrite released_flat_map.
    rewrite (flat_map_ext _
               (fun k => released_panels
                           (release_panel_tasks strategy lookahead k))).
    2: { intros k. rewrite Hiter, released_app.
         rewrite (proj1 (no_release_in_updates A_nt lookahead k)).
         rewrite released_app. cbn [app].
         replace (released_panels (clean_tiles_tasks strategy k))
           with (@nil Z);
           [apply app_nil_r |].
         unfold clean_tiles_tasks.
         destruct (TRS_eqb strategy TRS_Slate); reflexivity. }
    unfold release_panel_tasks.
    destruct (TRS_eqb strategy TRS_All); cbn [andb];
      [| apply flat_map_nil_ext; reflexivity].
    destruct (lookahead >? 0) eqn:E; cbn [andb];
      [| apply flat_map_nil_ext; reflexivity].
    apply Z.gtb_lt in E.
    destruct (Z.le_gt_cases A_nt lookahead) as [Hsmall | Hbig].
    + rewrite (range_empty (lo := 0) (hi := A_nt - lookahead)) by lia.
      apply flat_map_nil_ext. intros k Hk. apply In_range in Hk.
      replace (k >=? lookahead) with false; [reflexivity |].
      symmetry. rewrite Z.geb_leb. apply Z.leb_gt. lia.
    + rewrite (range_app (lo := 0) (mid := lookahead) (hi := A_nt)) by lia.
      rewrite flat_map_app.
      rewrite (@flat_map_nil_ext _ _ _ (range 0 lookahead)).
      * cbn [app].
        rewrite (flat_map_singletons _ (fun k => k - lookahead)).
        -- rewrite map_shift_range. f_equal. lia.
        -- intros k Hk. apply In_range in Hk.
           replace (k >=? lookahead) with true; [reflexivity |].
           symmetry. apply Z.geb_le. lia.
      * intros k Hk. apply In_range in Hk.
        replace (k >=? lookahead) with false; [reflexivity |].
        symmetry. rewrite Z.geb_leb. apply Z.leb_gt. lia.
  - rewrite cleaned_flat_map.
    rewrite (flat_map_ext _
               (fun k => cleaned_columns (clean_tiles_tasks strategy k))).
    2: { intros k. rewrite Hiter, cleaned_app.
         rewrite (proj2 (no_release_in_updates A_nt lookahead k)).
         rewrite cleaned_app. cbn [app].
         replace (cleaned_columns (release_panel_tasks strategy lookahead k))
           with (@nil Z); [reflexivity |].
         unfold release_panel_tasks.
         destruct (TRS_eqb strategy TRS_All); [| reflexivity].
         destruct ((lookahead >? 0) && (k >=? lookahead)); reflexivity. }
    unfold clean_tiles_tasks.
    destruct (TRS_eqb strategy TRS_Slate).
    + rewrite (flat_map_singletons _ (fun k => k)).
      * apply map_id.
      * reflexivity.
    + apply flat_map_nil_ext. reflexivity.
Qed.

End Facts.

End CensusFacts.

(** ** Release of the panel tiles *)

Module ReleaseFacts.

Import Loop LoopFacts GraphFacts Release.

Lemma In_set_insert (x z : Z) (s : list Z) :
  In z (set_insert x s) <-> z = x \/ In z s.
Proof.
  induction s as [| y s IH]; cbn.
  - intuition.
  - destruct (x <? y); [cbn; intuition |].
    destruct (x =? y) eqn:E.
    + apply Z.eqb_eq in E. subst y. cbn. intuition.
    + cbn. rewrite IH. intuition.
Qed.

Lemma increasing_set_insert (x : Z) (s : list Z) :
  increasing s -> increasing (set_insert x s).
Proof.
  induction s as [| y s IH]; cbn.
  - intuition.
  - intros [Hy Hs].
    destruct (x <? y) eqn:E1.
    + apply Z.ltb_lt in E1. cbn. repeat split; trivial.
      intros z [<- | Hz]; [assumption |]. specialize (Hy z Hz). lia.
    + destruct (x =? y) eqn:E2; [cbn; auto |].
      apply Z.ltb_ge in E1. apply Z.eqb_neq in E2.
      cbn. split; [| auto].
      intros z Hz. apply In_set_insert in Hz as [-> | Hz]; [lia | auto].
Qed.

Lemma increasing_NoDup (s : list Z) : increasing s -> NoDup s.
Proof.
  induction s as [| x s IH]; cbn.
  - constructor.
  - intros [Hx Hs]. constructor; [| auto].
    intros Hin. specialize (Hx x Hin). lia.
Qed.

Lemma released_after_unset_app (p : option TileOp) (l1 l2 : list TileOp) :
  released_after_unset p l1 = true ->
  (forall q, released_after_unset q l2 = true) ->
  released_after_unset p (l1 ++ l2) = true.
Proof.
  revert p. induction l1 as [| o l1 IH]; intros p H1 H2; cbn in *.
  - apply H2.
  - apply andb_true_iff in H1 as [Ho H1]. rewrite Ho. cbn. now apply IH.
Qed.

Lemma released_after_unset_flat_map {X} (f : X -> list TileOp)
  (l : list X) :
  (forall x q, released_after_unset q (f x) = true) ->
  forall q, released_after_unset q (flat_map f l) = true.
Proof.
  intros Hf. induction l as [| x l IH]; intros q; cbn.
  - reflexivity.
  - apply released_after_unset_app; [apply Hf | apply IH].
Qed.

Lemma TileOp_eqb_refl (o : TileOp) : TileOp_eqb o o = true.
Proof.
  destruct o as [i j | i j [d |] | i j [d |]]; cbn;
    rewrite ?Z.eqb_refl; reflexivity.
Qed.

Lemma released_after_unset_release_on (i k : Z) (s : list Z)
  (q : option TileOp) :
  released_after_unset q (release_on i k s) = true.
Proof.
  unfold release_on. apply released_after_unset_flat_map.
  intros d p. cbn. now rewrite !Z.eqb_refl.
Qed.

Lemma releases_app (l1 l2 : list TileOp) :
  releases (l1 ++ l2) = releases l1 ++ releases l2.
Proof. apply flat_map_app. Qed.

Lemma releases_release_on (i k : Z) (s : list Z) :
  releases (release_on i k s) = map (fun d => (i, k, Some d)) s.
Proof.
  unfold release_on. induction s as [| d s IH]; cbn.
  - reflexivity.
  - now f_equal.
Qed.

Lemma releases_flat_map {X} (f : X -> list TileOp) (l : list X) :
  releases (flat_map f l) = flat_map (fun x => releases (f x)) l.
Proof.
  induction l as [| x l IH]; cbn.
  - reflexivity.
  - now rewrite releases_app, IH.
Qed.

(** Blocks that release different rows never release the same
    instance. *)
Lemma NoDup_flat_map_rows {X} (row : X -> Z) (f : Z -> list X)
  (l : list Z) :
  NoDup l ->
  (forall i, NoDup (f i)) ->
  (forall i p, In p (f i) -> row p = i) ->
  NoDup (flat_map f l).
Proof.
  intros Hl Hf Hrow. induction Hl as [| i l Hi Hl IH]; cbn.
  - constructor.
  - apply NoDup_app; [apply Hf | exact IH |].
    intros p Hp Hq. apply in_flat_map in Hq as (j & Hj & Hq).
    apply Hrow in Hp. apply Hrow in Hq. congruence.
Qed.

(** Where an element of a concatenation of blocks sits. *)
Lemma flat_map_split {X Y} (f : X -> list Y) (l : list X)
  (l1 l2 : list Y) (y : Y) :
  flat_map f l = l1 ++ y :: l2 ->
  exists la a lb b1 b2,
    l = la ++ a :: lb /\ f a = b1 ++ y :: b2 /\
    l1 = flat_map f la ++ b1 /\ l2 = b2 ++ flat_map f lb.
Proof.
  revert l1. induction l as [| x l IH]; intros l1 H; cbn in H.
  - destruct l1; discriminate.
  - apply app_eq_app in H as (m & [[H1 H2] | [H1 H2]]).
    + destruct m as [| z m].
      * rewrite app_nil_r in H1. cbn in H2. symmetry in H2.
        destruct (IH [] H2) as (la & a & lb & b1 & b2 & E1 & E2 & E3 & E4).
        exists (x :: la), a, lb, b1, b2. subst l. cbn.
        repeat split; trivial. rewrite H1, <- app_assoc, <- E3.
        now rewrite app_nil_r.
      * cbn in H2. injection H2 as -> ->.
        exists [], x, l, l1, m. cbn. auto.
    + destruct (IH m H2) as (la & a & lb & b1 & b2 & E1 & E2 & E3 & E4).
      exists (x :: la), a, lb, b1, b2. subst l. cbn.
      repeat split; trivial. rewrite H1, E3. now rewrite app_assoc.
Qed.

Section Facts.

Context {HermitianMatrix : Type} {BM : BaseMatrix HermitianMatrix}
        {DM : Distributed HermitianMatrix}.

Variable local_devices : HermitianMatrix -> View -> list Z.

Lemma increasing_getLocalDevices (A : HermitianMatrix) (v : View)
  (s : list Z) :
  increasing s -> increasing (getLocalDevices local_devices A v s).
Proof.
  unfold getLocalDevices. revert s.
  induction (local_devices A v) as [| d l IH]; intros s Hs; cbn.
  - exact Hs.
  - apply IH. now apply increasing_set_insert.
Qed.

Lemma In_getLocalDevices (A : HermitianMatrix) (v : View) (s : list Z)
  (d : Z) :
  In d (getLocalDevices local_devices A v s) <->
  In d (local_devices A v) \/ In d s.
Proof.
  unfold getLocalDevices. revert s.
  induction (local_devices A v) as [| x l IH]; intros s; cbn.
  - intuition.
  - rewrite IH, In_set_insert. intuition.
Qed.

Lemma NoDup_instances (i k : Z) (s : list Z) :
  NoDup s -> NoDup (map (fun d => (i, k, Some d)) s).
Proof.
  induction 1 as [| d s Hd Hs IH]; cbn; constructor; trivial.
  intros Hin. apply in_map_iff in Hin as (d' & E & Hin).
  injection E as ->. contradiction.
Qed.

Lemma In_release_on (i k : Z) (s : list Z) (o : TileOp) :
  In o (release_on i k s) ->
  exists d, In d s /\
            (o = tileUnsetHold i k (Some d) \/ o = tileRelease i k (Some d)).
Proof.
  unfold release_on. intros Ho.
  apply in_flat_map in Ho as (d & Hd & [<- | [<- | []]]); eauto.
Qed.

(** X5. [potrfReleasePanel A k] only touches tiles of column [k] strictly
    below the diagonal that are local, and only their device instances,
    never the host one; no instance is released twice; every release comes
    right after the hold on the same instance has been unset; and a tile is
    released only after its origin has been updated in the same call. *)
Theorem release_panel_discipline (A : HermitianMatrix) (k : Z) :
  let ops := potrfReleasePanel local_devices A k in
  (forall o, In o ops ->
     exists i, op_tile o = (i, k) /\ k < i < nt A /\
               tileIsLocal A i k = true /\ op_device o <> Some None)
  /\ NoDup (releases ops)
  /\ released_after_unset None ops = true
  /\ (forall l1 l2 i j d,
        ops = l1 ++ tileRelease i j d :: l2 ->
        In (tileUpdateOrigin i j) l1).
Proof.
  cbv zeta. unfold potrfReleasePanel. repeat split.
  - intros o Ho. apply in_flat_map in Ho as (i & Hi & Ho).
    apply In_range in Hi. exists i.
    destruct (tileIsLocal A i k) eqn:Hloc; [| destruct Ho].
    destruct Ho as [<- | Ho].
    + cbn. repeat split; try lia; discriminate.
    + apply In_release_on in Ho as (d & _ & [-> | ->]); cbn;
        repeat split; try lia; discriminate.
  - rewrite releases_flat_map.
    apply NoDup_flat_map_rows with (row := fun p => fst (fst p)).
    + apply NoDup_range.
    + intros i. destruct (tileIsLocal A i k); [| constructor].
      rewrite releases_app, releases_release_on. cbn [releases flat_map app].
      apply NoDup_instances, increasing_NoDup.
      now repeat apply increasing_getLocalDevices.
    + intros i p Hp. destruct (tileIsLocal A i k); [| destruct Hp].
      rewrite releases_app, releases_release_on in Hp.
      cbn [releases flat_map app] in Hp.
      apply in_map_iff in Hp as (d & <- & _). reflexivity.
  - apply released_after_unset_flat_map. intros i q.
    destruct (tileIsLocal A i k); [| reflexivity].
    cbn. apply released_after_unset_release_on.
  - intros l1 l2 i j d H.
    apply flat_map_split in H
      as (la & a & lb & b1 & b2 & _ & Hblock & -> & _).
    destruct (tileIsLocal A a k); [| destruct b1; discriminate].
    destruct b1 as [| o b1]; [discriminate |].
    cbn in Hblock. injection Hblock as <- Hblock.
    assert (Hin : In (tileRelease i j d)
                     (release_on a k
                        (getLocalDevices local_devices A
                           (sub a (nt A - 1) a a)
                           (getLocalDevices local_devices A
                              (sub a a (k + 1) a) [])))).
    { rewrite Hblock. apply in_or_app. right. now left. }
    apply In_release_on in Hin as (d' & _ & [E | E]); [discriminate |].
    injection E as -> -> ->.
    apply in_or_app. right. now left.
Qed.

(** X6. [potrfCleanTiles A k] releases the host instance of every tile of
    column [k] from the diagonal down, once each and in row order, whether
    the tile is local or not; it updates the origin exactly of the local
    ones; no instance is released twice, and every release comes right
    after the hold on the same instance has been unset. *)
Theorem clean_tiles_discipline (A : HermitianMatrix) (k : Z) :
  let ops := potrfCleanTiles local_devices A k in
  let on_host (p : Z * Z * option Z) :=
    match snd p with None => true | Some _ => false end in
  (forall o, In o ops -> exists i, op_tile o = (i, k) /\ k <= i < nt A)
  /\ filter on_host (releases ops)
     = map (fun i => (i, k, None)) (range k (nt A))
  /\ NoDup (releases ops)
  /\ released_after_unset None ops = true
  /\ (forall i, In (tileUpdateOrigin i k) ops <->
                k <= i < nt A /\ tileIsLocal A i k = true).
Proof.
  cbv zeta. unfold potrfCleanTiles.
  assert (Hrel : forall i,
    releases
      ((if tileIsLocal A i k then [tileUpdateOrigin i k] else []) ++
       release_on i k
         (getLocalDevices local_devices A (sub i (nt A - 1) i i)
            (getLocalDevices local_devices A (sub i i k i) [])) ++
       [tileUnsetHold i k None; tileRelease i k None])
    = map (fun d => (i, k, Some d))
        (getLocalDevices local_devices A (sub i (nt A - 1) i i)
           (getLocalDevices local_devices A (sub i i k i) []))
      ++ [(i, k, None)]).
  { intros i. rewrite !releases_app, releases_release_on.
    destruct (tileIsLocal A i k); reflexivity. }
  split; [| split; [| split; [| split]]].
  - intros o Ho. apply in_flat_map in Ho as (i & Hi & Ho).
    apply In_range in Hi. exists i.
    apply in_app_or in Ho as [Ho | Ho].
    { destruct (tileIsLocal A i k); [| destruct Ho].
      destruct Ho as [<- | []]. now split. }
    apply in_app_or in Ho as [Ho | Ho].
    { apply In_release_on in Ho as (d & _ & [-> | ->]); now split. }
    destruct Ho as [<- | [<- | []]]; now split.
  - rewrite releases_flat_map.
    rewrite (flat_map_ext _ _ Hrel).
    induction (range k (nt A)) as [| i l IH]; [reflexivity |].
    cbn [flat_map map]. rewrite !filter_app, IH. cbn [filter snd app].
    rewrite filter_none; [reflexivity |].
    intros p Hp. apply in_map_iff in Hp as (d & <- & _). reflexivity.
  - rewrite releases_flat_map.
    apply NoDup_flat_map_rows with (row := fun p => fst (fst p)).
    + apply NoDup_range.
    + intros i. rewrite Hrel. apply NoDup_app.
      * apply NoDup_instances, increasing_NoDup.
        now repeat apply increasing_getLocalDevices.
      * repeat constructor. intros [].
      * intros p Hp [<- | []].
        apply in_map_iff in Hp as (d & E & _). discriminate.
    + intros i p Hp. rewrite Hrel in Hp.
      apply in_app_or in Hp as [Hp | [<- | []]]; [| reflexivity].
      apply in_map_iff in Hp as (d & <- & _). reflexivity.
  - apply released_after_unset_flat_map. intros i q.
    apply released_after_unset_app.
    { destruct (tileIsLocal A i k); reflexivity. }
    intros q'. apply released_after_unset_app.
    { apply released_after_unset_release_on. }
    intros q''. cbn. now rewrite !Z.eqb_refl.
  - intros i. rewrite in_flat_map. split.
    + intros (a & Ha & Ho). apply In_range in Ha.
      apply in_app_or in Ho as [Ho | Ho].
      { destruct (tileIsLocal A a k) eqn:Hloc; [| destruct Ho].
        destruct Ho as [E | []]. injection E as <-. now split. }
      apply in_app_or in Ho as [Ho | Ho].
      { apply In_release_on in Ho as (d & _ & [E | E]); discriminate. }
      destruct Ho as [E | [E | []]]; discriminate.
    + intros [Hi Hloc]. exists i. split; [now apply In_range |].
      rewrite Hloc. now left.
Qed.

End Facts.

End ReleaseFacts.

(** ** When the device implementation releases a panel *)

Module ReleaseOrderFacts.

Import Loop LoopFacts GraphFacts Potrf Access OrderFacts.

Lemma precedes_within {C : Type} (g : Z -> list (Task C)) (lo hi a : Z)
  (t u : Task C) :
  lo <= a < hi -> precedes (g a) t u ->
  precedes (flat_map g (range lo hi)) t u.
Proof.
  intros Ha Hp.
  rewrite (CensusFacts.range_app (lo := lo) (mid := a) (hi := hi)) by lia.
  rewrite flat_map_app. apply precedes_app_r.
  rewrite range_cons by lia. cbn [flat_map].
  now apply precedes_app_l.
Qed.

Lemma iteration_dev_inv strategy A_nt lookahead a t :
  In t (iteration_dev strategy A_nt lookahead a) ->
  t = panel_dev A_nt lookahead a
  \/ (a + 1 + lookahead < A_nt /\ t = trailing_task_dev A_nt lookahead a)
  \/ (exists j, (a + 1 <= j < A_nt /\ j < a + 1 + lookahead)
                /\ t = lookahead_task_dev A_nt a j)
  \/ In t (release_panel_tasks strategy lookahead a)
  \/ In t (clean_tiles_tasks strategy a).
Proof.
  unfold iteration_dev. intros [<- | Ht]; [now left | right].
  apply in_app_or in Ht. destruct Ht as [Ht | Ht].
  { left. unfold trailing_tasks_dev in Ht.
    destruct (a + 1 + lookahead <? A_nt) eqn:E; [| contradiction].
    apply Z.ltb_lt in E. destruct Ht as [<- | []]. now split. }
  right. apply in_app_or in Ht. destruct Ht as [Ht | Ht].
  { left. unfold lookahead_tasks_dev in Ht. apply in_map_iff in Ht.
    destruct Ht as (j & <- & Hj).
    apply PotrfFacts.In_lookahead_columns in Hj. now exists j. }
  right. apply in_app_or in Ht. exact Ht.
Qed.

Lemma In_iteration_dev_lookahead strategy A_nt lookahead a j :
  a + 1 <= j < A_nt -> j < a + 1 + lookahead ->
  In (lookahead_task_dev A_nt a j)
     (iteration_dev strategy A_nt lookahead a).
Proof.
  intros H1 H2. unfold iteration_dev. right.
  apply in_or_app. right. apply in_or_app. left.
  unfold lookahead_tasks_dev. apply in_map.
  apply PotrfFacts.In_lookahead_columns. now split.
Qed.

Lemma panel_dev_first strategy A_nt lookahead a u :
  In u (iteration_dev strategy A_nt lookahead a) ->
  u <> panel_dev A_nt lookahead a ->
  precedes (iteration_dev strategy A_nt lookahead a)
           (panel_dev A_nt lookahead a) u.
Proof.
  unfold iteration_dev. intros [<- | Hu] Hne; [now contradiction Hne |].
  match goal with
  | |- precedes (?x :: ?l) _ _ => change (x :: l) with ([x] ++ l)
  end.
  apply precedes_app_lr; [now left | assumption].
Qed.

(** The columns the tasks of the device implementation read. *)

Lemma reads_panel_dev A_nt lookahead a c :
  In c (task_reads (panel_dev A_nt lookahead a)) -> c = a.
Proof.
  unfold task_reads, panel_dev. cbn [body].
  destruct (a + 1 <=? A_nt - 1); cbn; rewrite ?app_nil_r;
    rewrite ?in_app_iff, ?In_range; intros H;
    repeat destruct H as [H | H]; try contradiction; lia.
Qed.

Lemma reads_lookahead_dev A_nt a j c :
  In c (task_reads (lookahead_task_dev A_nt a j)) -> c = a.
Proof.
  unfold task_reads, lookahead_task_dev. cbn [body].
  destruct (j + 1 <=? A_nt - 1); cbn; rewrite ?app_nil_r;
    rewrite ?in_app_iff, ?In_range; intros H;
    repeat destruct H as [H | H]; try contradiction; lia.
Qed.

Lemma reads_trailing_dev A_nt lookahead a c :
  In c (task_reads (trailing_task_dev A_nt lookahead a)) -> c = a.
Proof.
  unfold task_reads, trailing_task_dev. cbn.
  rewrite app_nil_r, In_range. lia.
Qed.

(** The columns the tasks of the device implementation write. *)

Lemma writes_panel_dev A_nt lookahead a c :
  In c (task_writes (panel_dev A_nt lookahead a)) -> c = a.
Proof.
  unfold task_writes, panel_dev. cbn [body].
  destruct (a + 1 <=? A_nt - 1); cbn; rewrite ?app_nil_r;
    rewrite ?in_app_iff, ?In_range; intros H;
    repeat destruct H as [H | H]; try contradiction; lia.
Qed.

Lemma writes_lookahead_dev A_nt a j c :
  In c (task_writes (lookahead_task_dev A_nt a j)) -> c = j.
Proof.
  unfold task_writes, lookahead_task_dev. cbn [body].
  destruct (j + 1 <=? A_nt - 1); cbn; rewrite ?app_nil_r;
    rewrite ?in_app_iff, ?In_range; intros H;
    repeat destruct H as [H | H]; try contradiction; lia.
Qed.

Lemma writes_trailing_dev A_nt lookahead a c :
  In c (task_writes (trailing_task_dev A_nt lookahead a)) ->
  a + 1 + lookahead <= c <= A_nt - 1.
Proof.
  unfold task_writes, trailing_task_dev. cbn.
  rewrite app_nil_r, In_range. lia.
Qed.

Lemma In_iteration_dev_trailing strategy A_nt lookahead a :
  a + 1 + lookahead < A_nt ->
  In (trailing_task_dev A_nt lookahead a)
     (iteration_dev strategy A_nt lookahead a).
Proof.
  intros H. unfold iteration_dev. right. apply in_or_app. left.
  unfold trailing_tasks_dev.
  replace (a + 1 + lookahead <? A_nt) with true
    by (symmetry; now apply Z.ltb_lt).
  now left.
Qed.

Lemma tokens_lookahead_dev A_nt a j :
  reads_token a (lookahead_task_dev A_nt a j) = true
  /\ owns_token j (lookahead_task_dev A_nt a j) = true.
Proof. cbn. now rewrite !Z.eqb_refl. Qed.

Lemma tokens_trailing_dev A_nt lookahead a :
  reads_token a (trailing_task_dev A_nt lookahead a) = true
  /\ owns_token (a + 1 + lookahead) (trailing_task_dev A_nt lookahead a)
     = true
  /\ owns_token (A_nt - 1) (trailing_task_dev A_nt lookahead a) = true.
Proof. cbn. now rewrite !Z.eqb_refl, !orb_true_r. Qed.

Lemma owns_panel_dev A_nt lookahead a :
  owns_token a (panel_dev A_nt lookahead a) = true.
Proof. cbn. now rewrite Z.eqb_refl. Qed.

(** The tasks that release or clean tiles call no kernel. *)
Lemma no_access_release strategy lookahead k t c :
  In t (release_panel_tasks strategy lookahead k)
  \/ In t (clean_tiles_tasks strategy k) ->
  ~ In c (task_writes t) /\ ~ In c (task_reads t).
Proof.
  unfold release_panel_tasks, clean_tiles_tasks. intros [Ht | Ht].
  - destruct (TRS_eqb strategy TRS_All); [| contradiction].
    destruct ((lookahead >? 0) && (k >=? lookahead)); [| contradiction].
    destruct Ht as [<- | []]. cbn. tauto.
  - destruct (TRS_eqb strategy TRS_Slate); [| contradiction].
    destruct Ht as [<- | []]. cbn. tauto.
Qed.

Lemma through_trailing_dev strategy A_nt lookahead a b c u :
  0 <= lookahead -> 0 <= a -> b < A_nt ->
  In u (iteration_dev strategy A_nt lookahead b) ->
  a + 1 + lookahead < c -> c - 1 - lookahead < b -> c < A_nt ->
  owns_token c u = true \/ reads_token c u = true ->
  runs_after (flat_map (iteration_dev strategy A_nt lookahead)
                (range 0 A_nt))
             (trailing_task_dev A_nt lookahead a) u.
Proof.
  intros Hla Ha Hb Hu Hac Hcb Hc Htok.
  right. exists (trailing_task_dev A_nt lookahead (c - 1 - lookahead)).
  split.
  - apply waits_for_token with (tok := A_nt - 1).
    + apply precedes_iterations with (a := a) (b := c - 1 - lookahead);
        try lia; apply In_iteration_dev_trailing; lia.
    + apply tokens_trailing_dev.
    + left. apply tokens_trailing_dev.
  - apply waits_for_token with (tok := c).
    + apply precedes_iterations with (a := c - 1 - lookahead) (b := b);
        try lia; [apply In_iteration_dev_trailing; lia | assumption].
    + replace c with (c - 1 - lookahead + 1 + lookahead) at 1 by lia.
      apply tokens_trailing_dev.
    + assumption.
Qed.

Section Devices.

Context {HermitianMatrix : Type} {BM : BaseMatrix HermitianMatrix}.

(** X14. In the device implementation, the task that releases panel [p]
    starts only after every task that reads tile column [p] has ended:
    the panel task of step [p], its trailing update and each of its
    lookahead updates.  The trailing update and the last lookahead update
    are waited for directly; an earlier lookahead update of column [j]
    through the panel task of step [j] and its update of the column the
    release task reads. *)
Theorem panel_released_after_its_readers (A : HermitianMatrix)
  (lookahead : Z) (opts : Options) :
  let ts := tasks (events (potrf_devices A lookahead opts)) in
  forall r p t,
    In r ts -> body r = [potrfReleasePanel p] ->
    In t ts -> In p (task_reads t) ->
    happens_before ts t r.
Proof.
  intros ts r p t Hr Hbody Ht Hreads. subst ts.
  rewrite PotrfFacts.tasks_devices in *. unfold sweep_columns in *.
  set (A_nt := nt (to_lower A)) in *.
  set (strategy := get_option (opt_TileReleaseStrategy opts) TRS_All) in *.
  set (g := iteration_dev strategy A_nt lookahead) in *.
  apply in_flat_map in Hr. destruct Hr as (k & Hk & Hr).
  apply In_range in Hk.
  (* the release task *)
  assert (Hrel : 0 < lookahead /\ lookahead <= k /\ p = k - lookahead
                 /\ r = {| role := Cleanup;
                           depends := [dep_in k; dep_inout (k + 1)];
                           priority := None;
                           body := [potrfReleasePanel (k - lookahead)] |}).
  { subst g. apply iteration_dev_inv in Hr.
    destruct Hr as [-> | [[_ ->] | [(j & _ & ->) | [Hr | Hr]]]].
    - unfold panel_dev in Hbody. cbn [body app] in Hbody. discriminate.
    - discriminate.
    - unfold lookahead_task_dev in Hbody. cbn [body app] in Hbody.
      discriminate.
    - unfold release_panel_tasks in Hr.
      destruct (TRS_eqb strategy TRS_All); [| contradiction].
      destruct (lookahead >? 0) eqn:E1; [| contradiction].
      destruct (k >=? lookahead) eqn:E2; [| contradiction].
      apply Z.gtb_lt in E1. apply Z.geb_le in E2.
      destruct Hr as [<- | []]. cbn [body] in Hbody.
      injection Hbody as <-. repeat split; try lia.
    - unfold clean_tiles_tasks in Hr.
      destruct (TRS_eqb strategy TRS_Slate); [| contradiction].
      destruct Hr as [<- | []]. discriminate. }
  destruct Hrel as (Hla & Hlk & -> & Er).
  assert (Hreads_k : reads_token k r = true)
    by (rewrite Er; cbn; now rewrite Z.eqb_refl).
  assert (Howns_k1 : owns_token (k + 1) r = true)
    by (rewrite Er; cbn; now rewrite Z.eqb_refl).
  (* the last lookahead update of step [a], for [k - lookahead <= a < k] *)
  assert (Hlast : forall a, k - lookahead <= a < k ->
            waits_for (flat_map g (range 0 A_nt))
                      (lookahead_task_dev A_nt a k) r).
  { intros a Ha. apply waits_for_token with (tok := k).
    - apply precedes_iterations with (a := a) (b := k);
        try lia; try assumption.
      subst g. apply In_iteration_dev_lookahead; lia.
    - cbn. now rewrite Z.eqb_refl.
    - now right. }
  (* a panel task of step [a], for [k - lookahead <= a < k] *)
  assert (Hpanel : forall a, k - lookahead <= a < k ->
            happens_before (flat_map g (range 0 A_nt))
                           (panel_dev A_nt lookahead a) r).
  { intros a Ha.
    apply hb_through with (m := lookahead_task_dev A_nt a k).
    - apply waits_for_token with (tok := a).
      + apply precedes_within with (a := a); [lia |].
        subst g. apply panel_dev_first.
        * apply In_iteration_dev_lookahead; lia.
        * discriminate.
      + cbn. now rewrite Z.eqb_refl.
      + right. cbn. now rewrite Z.eqb_refl.
    - apply hb_direct. now apply Hlast. }
  (* the readers of column [k - lookahead] *)
  apply in_flat_map in Ht. destruct Ht as (a & Ha & Ht).
  apply In_range in Ha. pose proof Ht as Hin.
  subst g. apply iteration_dev_inv in Ht.
  destruct Ht as [-> | [[Htr ->] | [(j & [Hj1 Hj2] & ->) | [Ht | Ht]]]].
  - apply reads_panel_dev in Hreads. subst a. apply Hpanel. lia.
  - apply reads_trailing_dev in Hreads. subst a.
    apply hb_direct. apply waits_for_token with (tok := k + 1).
    + apply precedes_iterations with (a := k - lookahead) (b := k);
        try lia; assumption.
    + cbn. replace (k - lookahead + 1 + lookahead) with (k + 1) by lia.
      now rewrite Z.eqb_refl.
    + now left.
  - apply reads_lookahead_dev in Hreads. subst a.
    destruct (Z.eq_dec j k) as [-> | Hjk].
    + apply hb_direct. apply Hlast. lia.
    + apply hb_through with (m := panel_dev A_nt lookahead j).
      * apply waits_for_token with (tok := j).
        -- apply precedes_iterations with (a := k - lookahead) (b := j);
             try lia; try assumption.
           unfold iteration_dev. now left.
        -- cbn. rewrite Z.eqb_refl. reflexivity.
        -- left. cbn. now rewrite Z.eqb_refl.
      * apply Hpanel. lia.
  - exfalso. unfold release_panel_tasks in Ht.
    destruct (TRS_eqb strategy TRS_All); [| contradiction].
    destruct ((lookahead >? 0) && (a >=? lookahead)); [| contradiction].
    destruct Ht as [<- | []]. destruct Hreads.
  - exfalso. unfold clean_tiles_tasks in Ht.
    destruct (TRS_eqb strategy TRS_Slate); [| contradiction].
    destruct Ht as [<- | []]. destruct Hreads.
Qed.

Lemma iteration_dev_clean_last strategy A_nt lookahead a :
  iteration_dev strategy A_nt lookahead a
  = ([panel_dev A_nt lookahead a]
     ++ trailing_tasks_dev A_nt lookahead a
     ++ lookahead_tasks_dev A_nt lookahead a
     ++ release_panel_tasks strategy lookahead a)
    ++ clean_tiles_tasks strategy a.
Proof.
  unfold iteration_dev. cbn [app]. f_equal. now rewrite !app_assoc.
Qed.

(** X15. Under [TileReleaseStrategy::Slate] the task that cleans the
    tiles of column [k] is created at the end of step [k] and waits
    directly for every task that reads tile column [k]: the panel task of
    the step, its trailing update and its lookahead updates. *)
Theorem tiles_cleaned_after_their_readers (A : HermitianMatrix)
  (lookahead : Z) (opts : Options) :
  let ts := tasks (events (potrf_devices A lookahead opts)) in
  forall r k t,
    In r ts -> body r = [potrfCleanTiles k] ->
    In t ts -> In k (task_reads t) ->
    waits_for ts t r.
Proof.
  intros ts r k t Hr Hbody Ht Hreads. subst ts.
  rewrite PotrfFacts.tasks_devices in *. unfold sweep_columns in *.
  set (A_nt := nt (to_lower A)) in *.
  set (strategy := get_option (opt_TileReleaseStrategy opts) TRS_All) in *.
  apply in_flat_map in Hr. destruct Hr as (b & Hb & Hr).
  apply In_range in Hb.
  assert (Hclean : b = k
                   /\ In r (clean_tiles_tasks strategy k)
                   /\ owns_token k r = true).
  { apply iteration_dev_inv in Hr.
    destruct Hr as [-> | [[_ ->] | [(j & _ & ->) | [Hr | Hr]]]].
    - unfold panel_dev in Hbody. cbn [body app] in Hbody. discriminate.
    - discriminate.
    - unfold lookahead_task_dev in Hbody. cbn [body app] in Hbody.
      discriminate.
    - unfold release_panel_tasks in Hr.
      destruct (TRS_eqb strategy TRS_All); [| contradiction].
      destruct ((lookahead >? 0) && (b >=? lookahead)); [| contradiction].
      destruct Hr as [<- | []]. discriminate.
    - pose proof Hr as Hin. unfold clean_tiles_tasks in Hr.
      destruct (TRS_eqb strategy TRS_Slate); [| contradiction].
      destruct Hr as [<- | []]. cbn [body] in Hbody.
      injection Hbody as ->. repeat split; trivial.
      cbn. now rewrite Z.eqb_refl. }
  destruct Hclean as (-> & Hr' & Howns).
  apply in_flat_map in Ht. destruct Ht as (a & Ha & Ht).
  apply In_range in Ha.
  assert (Hstep : a = k
                  /\ In t ([panel_dev A_nt lookahead k]
                           ++ trailing_tasks_dev A_nt lookahead k
                           ++ lookahead_tasks_dev A_nt lookahead k
                           ++ release_panel_tasks strategy lookahead k)
                  /\ (owns_token k t = true \/ reads_token k t = true)).
  { rewrite iteration_dev_clean_last in Ht. pose proof Ht as Hin.
    rewrite <- iteration_dev_clean_last in Ht.
    apply iteration_dev_inv in Ht.
    destruct Ht as [-> | [[Htr ->] | [(j & [Hj1 Hj2] & ->) | [Ht | Ht]]]].
    - apply reads_panel_dev in Hreads. subst a. repeat split.
      + now left.
      + left. cbn. now rewrite Z.eqb_refl.
    - apply reads_trailing_dev in Hreads. subst a. repeat split.
      + right. cbn [app]. apply in_or_app. left. unfold trailing_tasks_dev.
        replace (k + 1 + lookahead <? A_nt) with true
          by (symmetry; now apply Z.ltb_lt).
        now left.
      + right. cbn. now rewrite Z.eqb_refl.
    - apply reads_lookahead_dev in Hreads. subst a. repeat split.
      + right. cbn [app]. apply in_or_app. right. apply in_or_app. left.
        unfold lookahead_tasks_dev. apply in_map.
        apply PotrfFacts.In_lookahead_columns. now split.
      + right. cbn. now rewrite Z.eqb_refl.
    - exfalso. unfold release_panel_tasks in Ht.
      destruct (TRS_eqb strategy TRS_All); [| contradiction].
      destruct ((lookahead >? 0) && (a >=? lookahead)); [| contradiction].
      destruct Ht as [<- | []]. destruct Hreads.
    - exfalso. unfold clean_tiles_tasks in Ht.
      destruct (TRS_eqb strategy TRS_Slate); [| contradiction].
      destruct Ht as [<- | []]. destruct Hreads. }
  destruct Hstep as (-> & Hin & Htok).
  split.
  - apply precedes_within with (a := k); [lia |].
    rewrite iteration_dev_clean_last.
    now apply precedes_app_lr.
  - exists k. unfold ordered_by. rewrite Howns.
    destruct Htok as [-> | ->]; rewrite ?orb_true_r; reflexivity.
Qed.

(** The queues of the tasks of one step. *)
Lemma queues_iteration_dev strategy A_nt lookahead k t q :
  0 <= lookahead -> lookahead + 2 <= INT_MAX ->
  In t (iteration_dev strategy A_nt lookahead k) ->
  In q (task_queues t) ->
  (t = panel_dev A_nt lookahead k /\ q = 1)
  \/ (t = trailing_task_dev A_nt lookahead k /\ q = 0)
  \/ (exists j, t = lookahead_task_dev A_nt k j /\ q = j - k + 1
                /\ k + 1 <= j).
Proof.
  intros Hla Hmax Ht Hq. apply iteration_dev_inv in Ht.
  destruct Ht as [-> | [[_ ->] | [(j & [Hj1 Hj2] & ->) | [Ht | Ht]]]].
  - left. split; [reflexivity |].
    unfold task_queues, panel_dev in Hq. cbn [body] in Hq.
    destruct (k + 1 <=? A_nt - 1); cbn in Hq;
      repeat destruct Hq as [Hq | Hq]; try contradiction.
    now subst q.
  - right. left. split; [reflexivity |].
    cbn in Hq. destruct Hq as [<- | []]. reflexivity.
  - right. right. exists j. split; [reflexivity |].
    unfold task_queues, lookahead_task_dev in Hq. cbn [body] in Hq.
    assert (E : to_int (j - k + 1) = j - k + 1)
      by (apply PotrfFacts.to_int_small; unfold INT_MAX in *; lia).
    destruct (j + 1 <=? A_nt - 1); cbn in Hq; rewrite E in Hq;
      repeat destruct Hq as [Hq | Hq]; try contradiction;
      subst q; split; lia.
  - exfalso. unfold release_panel_tasks in Ht.
    destruct (TRS_eqb strategy TRS_All); [| contradiction].
    destruct ((lookahead >? 0) && (k >=? lookahead)); [| contradiction].
    destruct Ht as [<- | []]. destruct Hq.
  - exfalso. unfold clean_tiles_tasks in Ht.
    destruct (TRS_eqb strategy TRS_Slate); [| contradiction].
    destruct Ht as [<- | []]. destruct Hq.
Qed.

(** X18. In the device implementation, with a lookahead that is not
    negative and [lookahead + 2] representable as an [int], two different
    tasks of the same step never issue kernels on the same queue: the
    panel task uses queue 1, the trailing update queue 0 and the lookahead
    update of column [j] at step [k] queue [j - k + 1]. *)
Theorem queues_of_a_step_are_separate (A : HermitianMatrix)
  (lookahead : Z) (opts : Options) :
  0 <= lookahead -> lookahead + 2 <= INT_MAX ->
  let s := potrf_devices A lookahead opts in
  let strategy := get_option (opt_TileReleaseStrategy opts) TRS_All in
  forall k t u q,
    In t (tasks (step_dev strategy (nt (view s)) lookahead k)) ->
    In u (tasks (step_dev strategy (nt (view s)) lookahead k)) ->
    t <> u ->
    In q (task_queues t) -> ~ In q (task_queues u).
Proof.
  intros Hla Hmax s strategy k t u q Ht Hu Hne Hqt Hqu.
  rewrite PotrfFacts.tasks_step_dev in Ht, Hu.
  pose proof queues_iteration_dev as Ct.
  specialize Ct with (1 := Hla) (2 := Hmax) (3 := Ht) (4 := Hqt).
  pose proof queues_iteration_dev as Cu.
  specialize Cu with (1 := Hla) (2 := Hmax) (3 := Hu) (4 := Hqu).
  destruct Ct as [[-> Eq] | [[-> Eq] | (j & -> & Eq & Hj)]];
    destruct Cu as [[-> Eq'] | [[-> Eq'] | (j' & -> & Eq' & Hj')]];
    try (now contradiction Hne); try lia.
  assert (j = j') as -> by lia. now contradiction Hne.
Qed.

(** X21. In the device implementation, with a lookahead that is not
    negative, two tasks of which the earlier writes a tile column that the
    later writes or reads never run concurrently: the later one waits for
    the earlier one, directly or through one trailing-update task created
    between them.  The tasks that release or clean tiles do not change
    this: they call no kernel. *)
Theorem conflicting_accesses_are_ordered_on_devices (A : HermitianMatrix)
  (lookahead : Z) (opts : Options) :
  0 <= lookahead ->
  let ts := tasks (events (potrf_devices A lookahead opts)) in
  forall t u c,
    precedes ts t u ->
    In c (task_writes t) ->
    In c (task_writes u) \/ In c (task_reads u) ->
    runs_after ts t u.
Proof.
  intros Hla ts t u c Hp Hw Hacc. subst ts.
  rewrite PotrfFacts.tasks_devices in *. unfold sweep_columns in *.
  set (A_nt := nt (to_lower A)) in *.
  set (strategy := get_option (opt_TileReleaseStrategy opts) TRS_All) in *.
  destruct (iterations_of_precedes _ _ _ Hp)
    as (a & b & Ha & Hab & Hb & Ht & Hu).
  pose proof Hu as Hu'.
  apply iteration_dev_inv in Ht. apply iteration_dev_inv in Hu'.
  assert (Hkernel : forall k v,
            In v (release_panel_tasks strategy lookahead k)
            \/ In v (clean_tiles_tasks strategy k) ->
            In c (task_writes v) \/ In c (task_reads v) -> False).
  { intros k v Hv Hc.
    destruct (no_access_release strategy lookahead k v c Hv) as [H1 H2].
    tauto. }
  destruct Ht as [-> | [[Hta ->] | [(j & Hj & ->) | Ht]]].
  - (* the earlier task is the panel task of column c *)
    apply writes_panel_dev in Hw. subst c.
    left. apply waits_for_token with (tok := a);
      [assumption | apply owns_panel_dev |].
    destruct Hu' as [-> | [[Htb ->] | [(j' & Hj' & ->) | Hu']]].
    + assert (a = b) as ->.
      { destruct Hacc as [Hc | Hc];
          [apply writes_panel_dev in Hc | apply reads_panel_dev in Hc];
          lia. }
      left. apply owns_panel_dev.
    + destruct Hacc as [Hc | Hc].
      * apply writes_trailing_dev in Hc. lia.
      * apply reads_trailing_dev in Hc. subst b. right.
        apply tokens_trailing_dev.
    + destruct Hacc as [Hc | Hc].
      * apply writes_lookahead_dev in Hc. lia.
      * apply reads_lookahead_dev in Hc. subst b. right.
        apply tokens_lookahead_dev.
    + exfalso. apply (Hkernel b u); assumption.
  - (* the earlier task is a trailing update *)
    apply writes_trailing_dev in Hw.
    destruct Hu' as [-> | [[Htb ->] | [(j' & Hj' & ->) | Hu']]].
    + assert (c = b) as ->.
      { destruct Hacc as [Hc | Hc];
          [apply writes_panel_dev in Hc | apply reads_panel_dev in Hc];
          lia. }
      destruct (Z.eq_dec b (a + 1 + lookahead)) as [Eb | Nb].
      * left. apply waits_for_token with (tok := b);
          [assumption | | left; apply owns_panel_dev].
        rewrite Eb. apply tokens_trailing_dev.
      * apply through_trailing_dev with (b := b) (c := b);
          try (lia || assumption).
        left. apply owns_panel_dev.
    + left. apply waits_for_token with (tok := A_nt - 1);
        [assumption | apply tokens_trailing_dev
         | left; apply tokens_trailing_dev].
    + assert (Hname : (c = j' \/ c = b)
                      /\ (owns_token c (lookahead_task_dev A_nt b j') = true
                          \/ reads_token c (lookahead_task_dev A_nt b j')
                             = true)).
      { destruct Hacc as [Hc | Hc].
        - apply writes_lookahead_dev in Hc. subst j'.
          split; [now left | left; apply tokens_lookahead_dev].
        - apply reads_lookahead_dev in Hc. subst b.
          split; [now right | right; apply tokens_lookahead_dev]. }
      destruct Hname as [Hcases Htok].
      destruct (Z.eq_dec c (a + 1 + lookahead)) as [Ec | Nc].
      * left. apply waits_for_token with (tok := c);
          [assumption | | assumption].
        rewrite Ec. apply tokens_trailing_dev.
      * apply through_trailing_dev with (b := b) (c := c);
          (lia || assumption).
    + exfalso. apply (Hkernel b u); assumption.
  - (* the earlier task is a lookahead update of column c *)
    apply writes_lookahead_dev in Hw. subst j.
    left. apply waits_for_token with (tok := c);
      [assumption | apply tokens_lookahead_dev |].
    destruct Hu' as [-> | [[Htb ->] | [(j' & Hj' & ->) | Hu']]].
    + assert (c = b) as ->.
      { destruct Hacc as [Hc | Hc];
          [apply writes_panel_dev in Hc | apply reads_panel_dev in Hc];
          lia. }
      left. apply owns_panel_dev.
    + destruct Hacc as [Hc | Hc].
      * apply writes_trailing_dev in Hc. lia.
      * apply reads_trailing_dev in Hc. subst b. right.
        apply tokens_trailing_dev.
    + destruct Hacc as [Hc | Hc].
      * apply writes_lookahead_dev in Hc. subst j'. left.
        apply tokens_lookahead_dev.
      * apply reads_lookahead_dev in Hc. subst b. right.
        apply tokens_lookahead_dev.
    + exfalso. apply (Hkernel b u); assumption.
  - exfalso. apply (Hkernel a t); [assumption | now left].
Qed.

End Devices.

End ReleaseOrderFacts.

(** ** Further properties of the solve *)

Module TrsmASweepFacts.

Import Loop LoopFacts GraphFacts TrsmA TrsmACalls TrsmAFacts.

Ltac membership :=
  repeat match goal with
  | H : In _ (_ ++ _) |- _ => apply in_app_or in H; destruct H as [H | H]
  | H : In _ (if ?b then _ else _) |- _ => destruct b
  | H : In _ (map _ _) |- _ =>
      apply in_map_iff in H; destruct H as (? & <- & ?)
  | H : In _ (flat_map _ _) |- _ =>
      apply in_flat_map in H; destruct H as (? & ? & H)
  | H : In _ [] |- _ => contradiction
  | H : In _ (_ :: _) |- _ => destruct H as [<- | H]
  end.

Section Facts.

Context {S : Type} {SC : Scalar S}.
Context {TriangularMatrix : Type} {BA : BaseMatrix TriangularMatrix}
        {DA : Distributed TriangularMatrix}.
Context {Matrix : Type} {BB : BaseMatrix Matrix} {DB : Distributed Matrix}.

(** *** The local tiles of [B] *)

Lemma In_local_tiles (B : Matrix) (mt nt i j : Z) :
  In (i, j) (local_tiles B mt nt)
  <-> 0 <= i < mt /\ 0 <= j < nt /\ tileIsLocal B i j = true.
Proof.
  unfold local_tiles. rewrite in_flat_map. split.
  - intros (i' & Hi & H). apply in_flat_map in H as (j' & Hj & H).
    apply In_range in Hi, Hj.
    destruct (tileIsLocal B i' j') eqn:E; [| destruct H].
    destruct H as [H | []]. injection H as <- <-. auto.
  - intros (Hi & Hj & Hloc). exists i. split; [now apply In_range |].
    apply in_flat_map. exists j. split; [now apply In_range |].
    rewrite Hloc. now left.
Qed.

Lemma NoDup_local_tiles (B : Matrix) (mt nt : Z) :
  NoDup (local_tiles B mt nt).
Proof.
  unfold local_tiles.
  assert (Hrow : forall i l, NoDup l ->
            NoDup (flat_map (fun j => if tileIsLocal B i j
                                      then [(i, j)] else []) l)).
  { intros i l Hl. induction Hl as [| j l Hj Hl IH]; cbn.
    - constructor.
    - destruct (tileIsLocal B i j); [| exact IH]. cbn.
      constructor; [| exact IH].
      intros H. apply in_flat_map in H as (j' & Hj' & H).
      destruct (tileIsLocal B i j'); [| destruct H].
      destruct H as [H | []]. injection H as ->. contradiction. }
  assert (Hrows : forall l, NoDup l ->
            NoDup (flat_map (fun i =>
                     flat_map (fun j => if tileIsLocal B i j
                                        then [(i, j)] else [])
                              (range 0 nt)) l)).
  { intros l Hl. induction Hl as [| i l Hi Hl IH]; cbn.
    - constructor.
    - apply NoDup_app; [apply Hrow, NoDup_range | exact IH |].
      intros [a b] Ha Hb.
      apply in_flat_map in Ha as (j & _ & Ha).
      destruct (tileIsLocal B i j); [| destruct Ha].
      destruct Ha as [Ha | []]. injection Ha as <- <-.
      apply in_flat_map in Hb as (i' & Hi' & Hb).
      apply in_flat_map in Hb as (j' & _ & Hb).
      destruct (tileIsLocal B i' j'); [| destruct Hb].
      destruct Hb as [Hb | []]. injection Hb as -> ->. contradiction. }
  apply Hrows, NoDup_range.
Qed.

(** *** Scaling of the right-hand side *)

Lemma scalings_app (ts us : list (Task (Call S))) :
  scalings (ts ++ us) = scalings ts ++ scalings us.
Proof. apply flat_map_app. Qed.

Lemma scalings_flat_map (f : Z -> list (Task (Call S))) (l : list Z) :
  scalings (flat_map f l) = flat_map (fun k => scalings (f k)) l.
Proof.
  induction l as [| k l IH]; cbn [flat_map].
  - reflexivity.
  - now rewrite scalings_app, IH.
Qed.

Lemma scales_of_scaling (dev : Z * Z -> option Z) (alpha : S)
  (l : list (Z * Z)) :
  flat_map call_scales
    (map (fun ij => tile_scale (dev ij) alpha (fst ij) (snd ij)) l)
  = map (fun ij => (fst ij, snd ij, alpha)) l.
Proof.
  induction l as [| ij l IH]; cbn.
  - reflexivity.
  - now f_equal.
Qed.

Lemma scalings_iteration_fwd target (alpha : S) (A : TriangularMatrix)
  (B : Matrix) mt nt lookahead local_opts k :
  scalings (iteration_fwd target alpha A B mt nt lookahead local_opts k)
  = scaled_at alpha B mt nt 0 k
  /\ scalings
       (tl (iteration_fwd target alpha A B mt nt lookahead local_opts k))
     = [].
Proof.
  assert (Hrest :
    scalings (lookahead_tasks_fwd target mt nt lookahead local_opts k
              ++ trailing_tasks_fwd target mt nt lookahead local_opts k
              ++ [cleanup_task_fwd (S := S) k]) = []).
  { unfold scalings. apply flat_map_nil_ext. intros t Ht.
    apply flat_map_nil_ext. intros c Hc.
    unfold lookahead_tasks_fwd, trailing_tasks_fwd in Ht.
    membership;
      cbn [body lookahead_task_fwd trailing_task_fwd cleanup_task_fwd] in Hc;
      membership; reflexivity. }
  split; [| exact Hrest].
  unfold iteration_fwd.
  change (scalings (?t :: ?r)) with (flat_map call_scales (body t) ++ scalings r).
  rewrite Hrest, app_nil_r.
  unfold panel_fwd. cbn [body]. rewrite flat_map_app.
  rewrite (@flat_map_nil_ext _ _ call_scales
             (create_local_B_fwd target A B nt k ++ _)).
  - rewrite app_nil_r. unfold scale_rhs_fwd, scaled_at.
    destruct ((k =? 0) && negb (s_eqb alpha s_one)); [| reflexivity].
    apply (scales_of_scaling
             (fun ij => if Target_eqb target Devices
                        then Some (tileDevice B (fst ij) (snd ij))
                        else None)).
  - intros c Hc. unfold create_local_B_fwd, send_back_fwd in Hc.
    membership; reflexivity.
Qed.

Lemma scalings_iteration_bwd target (alpha : S) (A : TriangularMatrix)
  (B : Matrix) mt nt lookahead opts k :
  scalings (iteration_bwd target alpha A B mt nt lookahead opts k)
  = scaled_at alpha B mt nt (mt - 1) k
  /\ scalings (tl (iteration_bwd target alpha A B mt nt lookahead opts k))
     = [].
Proof.
  assert (Hrest :
    scalings (lookahead_tasks_bwd (S := S) A B nt lookahead k
              ++ trailing_tasks_bwd A B nt lookahead k) = []).
  { unfold scalings. apply flat_map_nil_ext. intros t Ht.
    apply flat_map_nil_ext. intros c Hc.
    unfold lookahead_tasks_bwd, trailing_tasks_bwd in Ht.
    membership;
      cbn [body lookahead_task_bwd trailing_task_bwd] in Hc;
      unfold create_local_B_bwd in Hc; membership; reflexivity. }
  split; [| exact Hrest].
  unfold iteration_bwd.
  change (scalings (?t :: ?r)) with (flat_map call_scales (body t) ++ scalings r).
  rewrite Hrest, app_nil_r.
  unfold panel_bwd. cbn [body]. rewrite flat_map_app.
  rewrite (@flat_map_nil_ext _ _ call_scales
             (create_local_B_bwd A B nt k k ++ _)).
  - rewrite app_nil_r. unfold scale_rhs_bwd, scaled_at.
    destruct ((k =? mt - 1) && negb (s_eqb alpha s_one)); [| reflexivity].
    apply (scales_of_scaling (fun _ => None)).
  - intros c Hc. unfold create_local_B_bwd, send_back_bwd in Hc.
    membership; reflexivity.
Qed.

Lemma local_tiles_no_rows (B : Matrix) (mt nt : Z) :
  mt <= 0 -> local_tiles B mt nt = [].
Proof.
  intros H. unfold local_tiles.
  rewrite (range_empty (lo := 0) (hi := mt)) by lia. reflexivity.
Qed.

Lemma kernel_scalars_iteration_fwd target (alpha : S)
  (A : TriangularMatrix) (B : Matrix) mt nt lookahead local_opts k t c :
  In t (iteration_fwd target alpha A B mt nt lookahead local_opts k) ->
  In c (body t) ->
  (forall a, solve_alpha c = Some a -> a = s_one)
  /\ (forall a b, update_scalars c = Some (a, b) ->
                  a = s_neg s_one /\ b = s_one).
Proof.
  unfold iteration_fwd, lookahead_tasks_fwd, trailing_tasks_fwd.
  intros Ht Hc. membership; cbn [body panel_fwd lookahead_task_fwd
    trailing_task_fwd cleanup_task_fwd] in Hc;
    unfold scale_rhs_fwd, create_local_B_fwd, send_back_fwd in Hc;
    membership; cbn [solve_alpha update_scalars];
    (split; [intros a Ha | intros a b Ha]);
    try discriminate Ha; injection Ha; intros; subst; auto.
Qed.

Lemma kernel_scalars_iteration_bwd target (alpha : S)
  (A : TriangularMatrix) (B : Matrix) mt nt lookahead opts k t c :
  In t (iteration_bwd target alpha A B mt nt lookahead opts k) ->
  In c (body t) ->
  (forall a, solve_alpha c = Some a -> a = s_one)
  /\ (forall a b, update_scalars c = Some (a, b) ->
                  a = s_neg s_one /\ b = s_one).
Proof.
  unfold iteration_bwd, lookahead_tasks_bwd, trailing_tasks_bwd.
  intros Ht Hc. membership; cbn [body panel_bwd lookahead_task_bwd
    trailing_task_bwd] in Hc;
    unfold scale_rhs_bwd, create_local_B_bwd, send_back_bwd in Hc;
    membership; cbn [solve_alpha update_scalars];
    (split; [intros a Ha | intros a b Ha]);
    try discriminate Ha; injection Ha; intros; subst; auto.
Qed.

(** X7. The solve applies [alpha] by scaling the right-hand side, not in
    its kernels: if [alpha] is not one, every local tile of [B] is scaled
    by [alpha] exactly once, all of them in the first task of the sweep
    (the panel task of row 0 forward, of row [mt-1] backward); if [alpha]
    is one nothing is scaled.  Every tile solve then runs with [alpha]
    one, every update with [alpha = -1] and [beta = 1]. *)
Theorem right_hand_side_scaled_once target (alpha : S)
  (A : TriangularMatrix) (B : Matrix) opts :
  let ts := tasks (sweep target alpha A B opts) in
  let tiles := local_tiles B (mt B) (nt B) in
  scalings ts
  = (if s_eqb alpha s_one then []
     else map (fun ij => (fst ij, snd ij, alpha)) tiles)
  /\ scalings (tl ts) = []
  /\ NoDup tiles
  /\ (forall i j, In (i, j) tiles
                  <-> 0 <= i < mt B /\ 0 <= j < nt B
                      /\ tileIsLocal B i j = true)
  /\ (forall t c, In t ts -> In c (body t) ->
        (forall a, solve_alpha c = Some a -> a = s_one)
        /\ (forall a b, update_scalars c = Some (a, b) ->
                        a = s_neg s_one /\ b = s_one)).
Proof.
  cbv zeta. rewrite tasks_sweep.
  split; [| split; [| split; [apply NoDup_local_tiles |
                              split; [intros; apply In_local_tiles |]]]].
  - destruct (Z.le_gt_cases (mt B) 0) as [Hno | Hrows].
    { rewrite local_tiles_no_rows by exact Hno.
      rewrite range_empty, range_down_empty by lia.
      destruct (Uplo_eqb _ _), (s_eqb _ _); reflexivity. }
    destruct (Uplo_eqb (uplo A) Lower); rewrite scalings_flat_map.
    + rewrite (flat_map_ext _ (scaled_at alpha B (mt B) (nt B) 0))
        by (intros k; apply scalings_iteration_fwd).
      rewrite (flat_map_single (scaled_at alpha B (mt B) (nt B) 0)
                 (k := 0)); [| apply NoDup_range | apply In_range; lia |].
      * unfold scaled_at. rewrite Z.eqb_refl.
        destruct (s_eqb alpha s_one); reflexivity.
      * intros k _ Hk. unfold scaled_at.
        apply Z.eqb_neq in Hk. now rewrite Hk.
    + rewrite (flat_map_ext _ (scaled_at alpha B (mt B) (nt B) (mt B - 1)))
        by (intros k; apply scalings_iteration_bwd).
      rewrite (flat_map_single
                 (scaled_at alpha B (mt B) (nt B) (mt B - 1))
                 (k := mt B - 1));
        [| apply NoDup_range_down_0
         | apply In_range_down_0; lia |].
      * unfold scaled_at. rewrite Z.eqb_refl.
        destruct (s_eqb alpha s_one); reflexivity.
      * intros k _ Hk. unfold scaled_at.
        apply Z.eqb_neq in Hk. now rewrite Hk.
  - destruct (Z.le_gt_cases (mt B) 0) as [Hno | Hrows].
    { rewrite range_empty, range_down_empty by lia.
      destruct (Uplo_eqb _ _); reflexivity. }
    destruct (Uplo_eqb (uplo A) Lower).
    + rewrite range_cons by lia. cbn [flat_map].
      pose proof (proj2 (scalings_iteration_fwd target alpha A B (mt B)
                           (nt B) (get_option (opt_Lookahead opts) 1)
                           (local_options opts) 0)) as Hfirst.
      unfold iteration_fwd in Hfirst |- * at 1. cbn [tl app] in Hfirst |- *.
      rewrite scalings_app, Hfirst, scalings_flat_map.
      cbn [app]. apply flat_map_nil_ext. intros k Hk.
      apply In_range in Hk.
      rewrite (proj1 (scalings_iteration_fwd _ _ _ _ _ _ _ _ _)).
      unfold scaled_at.
      replace (k =? 0) with false by (symmetry; apply Z.eqb_neq; lia).
      reflexivity.
    + rewrite range_down_cons by lia. cbn [flat_map].
      pose proof (proj2 (scalings_iteration_bwd target alpha A B (mt B)
                           (nt B) (get_option (opt_Lookahead opts) 1)
                           opts (mt B - 1))) as Hfirst.
      unfold iteration_bwd in Hfirst |- * at 1. cbn [tl app] in Hfirst |- *.
      rewrite scalings_app, Hfirst, scalings_flat_map.
      cbn [app]. apply flat_map_nil_ext. intros k Hk.
      apply In_range_down_0 in Hk.
      rewrite (proj1 (scalings_iteration_bwd _ _ _ _ _ _ _ _ _)).
      unfold scaled_at.
      replace (k =? mt B - 1) with false
        by (symmetry; apply Z.eqb_neq; lia).
      reflexivity.
  - intros t c Ht Hc.
    destruct (Uplo_eqb (uplo A) Lower);
      apply in_flat_map in Ht as (k & _ & Ht).
    + eapply kernel_scalars_iteration_fwd; eassumption.
    + eapply kernel_scalars_iteration_bwd; eassumption.
Qed.

(** *** Targets of the calls *)

(** X8. The backward sweep runs its updates on the host whatever the
    target: every update of a backward sweep is instantiated with
    [HostTask], and the scaling and the insertion of tiles address the host
    instance; only the reduction, the tile solve and the broadcast of the
    panel carry the target asked for.  In the forward sweep every call
    carries the target asked for, and scaling and insertion address a
    device instance exactly when that target is [Devices]. *)
Theorem backward_updates_run_on_host target (alpha : S)
  (A : TriangularMatrix) (B : Matrix) opts :
  let ts := tasks (sweep target alpha A B opts) in
  forall t c, In t ts -> In c (body t) ->
    if Uplo_eqb (uplo A) Lower
    then (forall x, call_target c = Some x -> x = target)
         /\ (forall d, call_instance c = Some d ->
                       (d = None <-> Target_eqb target Devices = false))
    else (is_update c = true -> call_target c = Some HostTask)
         /\ (is_update c = false ->
             forall x, call_target c = Some x -> x = target)
         /\ (forall d, call_instance c = Some d -> d = None).
Proof.
  cbv zeta. intros t c Ht Hc. rewrite tasks_sweep in Ht.
  destruct (Uplo_eqb (uplo A) Lower);
    apply in_flat_map in Ht as (k & _ & Ht).
  - unfold iteration_fwd, lookahead_tasks_fwd, trailing_tasks_fwd in Ht.
    membership;
      cbn [body panel_fwd lookahead_task_fwd trailing_task_fwd
           cleanup_task_fwd] in Hc;
      unfold scale_rhs_fwd, create_local_B_fwd, send_back_fwd in Hc.
    all: destruct (Target_eqb target Devices) eqn:Edev.
    all: membership; cbn [call_target call_instance]; split;
      intros ? E; try discriminate E; try (injection E as <-);
        try reflexivity; try (split; intros; congruence).
  - unfold iteration_bwd, lookahead_tasks_bwd, trailing_tasks_bwd in Ht.
    membership;
      cbn [body panel_bwd lookahead_task_bwd trailing_task_bwd] in Hc;
      unfold scale_rhs_bwd, create_local_B_bwd, send_back_bwd in Hc.
    all: membership; cbn [call_target call_instance is_update];
      (split; [| split]);
      try (intros E; discriminate E); try reflexivity;
      try (intros _ ? E); try (intros ? E);
      try discriminate E; try (injection E as <-); reflexivity.
Qed.

(** *** Barriers *)

Lemma no_taskwait_in_spawns (ts : list (Task (Call S))) :
  filter is_taskwait (map (@Spawn _) ts) = [].
Proof.
  apply filter_none. intros e He.
  apply in_map_iff in He as (t & <- & _). reflexivity.
Qed.

(** The number of barriers of a sweep, the one that ends the solve
    included. *)
Lemma count_taskwaits target (alpha : S) (A : TriangularMatrix)
  (B : Matrix) opts :
  List.length (filter is_taskwait (sweep target alpha A B opts))
  = (if Uplo_eqb (uplo A) Lower then Z.to_nat (mt B) + 1 else 1)%nat.
Proof.
  unfold sweep. rewrite filter_app, length_app. cbn [filter is_taskwait].
  cbn [List.length].
  destruct (Uplo_eqb (uplo A) Lower); rewrite filter_flat_map.
  - rewrite (CensusFacts.flat_map_singletons _ (fun _ => Taskwait)).
    + rewrite length_map, CensusFacts.length_range. f_equal. lia.
    + intros k _. unfold step_fwd.
      rewrite !filter_app, !no_taskwait_in_spawns. reflexivity.
  - rewrite flat_map_nil_ext; [reflexivity |].
    intros k _. unfold step_bwd.
    rewrite !filter_app, !no_taskwait_in_spawns. reflexivity.
Qed.

(** *** Dependency tokens *)

Lemma In_lookahead_rows_fwd (mt lookahead k i : Z) :
  In i (lookahead_rows_fwd mt lookahead k)
  <-> k + 1 <= i < mt /\ i < k + 1 + lookahead.
Proof.
  unfold lookahead_rows_fwd. rewrite In_for_up.
  - rewrite Z.ltb_lt. tauto.
  - intros x y Hxy. rewrite !Z.ltb_lt. lia.
Qed.

Lemma In_lookahead_rows_bwd (lookahead k i : Z) :
  In i (lookahead_rows_bwd lookahead k)
  <-> 0 <= i <= k - 1 /\ k - 1 - lookahead < i.
Proof.
  unfold lookahead_rows_bwd. rewrite In_for_down.
  - rewrite Z.gtb_lt. tauto.
  - intros x y Hxy. rewrite !Z.gtb_lt. lia.
Qed.

(** X10. The tokens of the solve are among the entries [row[0]] ..
    [row[mt-1]] of the vector it is given exactly when the lookahead is at
    least [-1] (or [B] has no tile row): with a smaller lookahead a
    trailing task names an entry outside that range. *)
Theorem solve_tokens_within_vector target (alpha : S)
  (A : TriangularMatrix) (B : Matrix) opts :
  let lookahead := get_option (opt_Lookahead opts) 1 in
  let ts := tasks (sweep target alpha A B opts) in
  (forall t tok, In t ts -> In tok (tokens t) -> 0 <= tok < mt B)
  <-> -1 <= lookahead \/ mt B <= 0.
Proof.
  cbv zeta. rewrite tasks_sweep. split.
  - intros Hin.
    destruct (Z.le_gt_cases (-1) (get_option (opt_Lookahead opts) 1))
      as [Hla | Hla]; [now left |].
    destruct (Z.le_gt_cases (mt B) 0) as [Hmt | Hmt]; [now right |].
    exfalso. destruct (Uplo_eqb (uplo A) Lower).
    + specialize (Hin (trailing_task_fwd target (mt B) (nt B)
                         (get_option (opt_Lookahead opts) 1)
                         (local_options opts) 0)
                      (0 + 1 + get_option (opt_Lookahead opts) 1)).
      assert (0 <= 0 + 1 + get_option (opt_Lookahead opts) 1 < mt B);
        [| lia].
      apply Hin; [| cbn; auto].
      apply in_flat_map. exists 0. split; [apply In_range; lia |].
      unfold iteration_fwd. right. apply in_or_app. right.
      apply in_or_app. left. unfold trailing_tasks_fwd.
      replace (0 + 1 + get_option (opt_Lookahead opts) 1 <? mt B)
        with true by (symmetry; apply Z.ltb_lt; lia).
      now left.
    + specialize (Hin (trailing_task_bwd A B (nt B)
                         (get_option (opt_Lookahead opts) 1) (mt B - 1))
                      (mt B - 1 - 1 - get_option (opt_Lookahead opts) 1)).
      assert (0 <= mt B - 1 - 1 - get_option (opt_Lookahead opts) 1 < mt B);
        [| lia].
      apply Hin; [| cbn; auto].
      apply in_flat_map. exists (mt B - 1).
      split; [apply In_range_down_0; lia |].
      unfold iteration_bwd. right. apply in_or_app. right.
      unfold trailing_tasks_bwd.
      replace (mt B - 1 - 1 - get_option (opt_Lookahead opts) 1 >=? 0)
        with true by (symmetry; apply Z.geb_le; lia).
      now left.
  - intros Hla t tok Ht Htok.
    destruct (Uplo_eqb (uplo A) Lower);
      apply in_flat_map in Ht as (k & Hk & Ht).
    + apply In_range in Hk.
      unfold iteration_fwd, lookahead_tasks_fwd in Ht.
      destruct Ht as [<- | Ht]; [cbn in Htok; lia |].
      apply in_app_or in Ht as [Ht | Ht].
      { apply in_map_iff in Ht as (i & <- & Hi).
        apply In_lookahead_rows_fwd in Hi. cbn in Htok. lia. }
      apply in_app_or in Ht as [Ht | [<- | []]]; [| cbn in Htok; lia].
      unfold trailing_tasks_fwd in Ht.
      destruct (k + 1 + get_option (opt_Lookahead opts) 1 <? mt B) eqn:E;
        [| destruct Ht].
      apply Z.ltb_lt in E. destruct Ht as [<- | []]. cbn in Htok. lia.
    + apply In_range_down_0 in Hk.
      unfold iteration_bwd, lookahead_tasks_bwd in Ht.
      destruct Ht as [<- | Ht]; [cbn in Htok; lia |].
      apply in_app_or in Ht as [Ht | Ht].
      { apply in_map_iff in Ht as (i & <- & Hi).
        apply In_lookahead_rows_bwd in Hi. cbn in Htok. lia. }
      unfold trailing_tasks_bwd in Ht.
      destruct (k - 1 - get_option (opt_Lookahead opts) 1 >=? 0) eqn:E;
        [| destruct Ht].
      apply Z.geb_le in E. destruct Ht as [<- | []]. cbn in Htok. lia.
Qed.

(** *** Rows updated at one step *)

Lemma with_role_lookahead_bwd target (alpha : S) (A : TriangularMatrix)
  (B : Matrix) mt nt lookahead opts k :
  with_role Lookahead
    (iteration_bwd target alpha A B mt nt lookahead opts k)
  = lookahead_tasks_bwd A B nt lookahead k.
Proof.
  unfold with_role, iteration_bwd.
  cbn [filter role panel_bwd Role_eqb]. rewrite !filter_app.
  rewrite filter_all, filter_none; [apply app_nil_r | |].
  - intros t Ht. apply role_trailing_tasks_bwd in Ht.
    destruct Ht as [-> _]. reflexivity.
  - intros t Ht. apply role_lookahead_tasks_bwd in Ht.
    destruct Ht as [-> _]. reflexivity.
Qed.

Lemma no_updates_create_local_B_bwd (A : TriangularMatrix) (B : Matrix)
  nt i k :
  flat_map call_updates (create_local_B_bwd (S := S) A B nt i k) = [].
Proof.
  apply flat_map_nil_ext. intros c Hc. unfold create_local_B_bwd in Hc.
  membership; reflexivity.
Qed.

Lemma updates_lookahead_bwd (A : TriangularMatrix) (B : Matrix)
  nt lookahead k c :
  In c (flat_map task_updates
          (lookahead_tasks_bwd (S := S) A B nt lookahead k))
  <-> 0 <= c <= k - 1 /\ k - 1 - lookahead < c.
Proof.
  assert (Htask : forall i,
            In c (task_updates (lookahead_task_bwd (S := S) A B nt k i))
            <-> c = i).
  { intros i. unfold task_updates, lookahead_task_bwd. cbn [body].
    rewrite flat_map_app, no_updates_create_local_B_bwd.
    cbn. unfold view_rows. cbn [view_extent fst snd].
    rewrite app_nil_r, In_range. lia. }
  unfold lookahead_tasks_bwd. rewrite in_flat_map. split.
  - intros (t & Ht & Hc). apply in_map_iff in Ht.
    destruct Ht as (i & <- & Hi). apply Htask in Hc. subst c.
    now apply In_lookahead_rows_bwd.
  - intros H. eexists. split.
    + apply in_map. apply In_lookahead_rows_bwd. exact H.
    + now apply Htask.
Qed.

Lemma updates_trailing_bwd (A : TriangularMatrix) (B : Matrix)
  nt lookahead k c :
  In c (flat_map task_updates
          (trailing_tasks_bwd (S := S) A B nt lookahead k))
  <-> 0 <= c <= k - 1 - lookahead.
Proof.
  unfold trailing_tasks_bwd.
  destruct (k - 1 - lookahead >=? 0) eqn:E.
  - apply Z.geb_le in E. cbn [flat_map]. rewrite app_nil_r.
    unfold task_updates, trailing_task_bwd. cbn [body].
    rewrite flat_map_app.
    rewrite (@flat_map_nil_ext _ _ call_updates (flat_map _ _)).
    + cbn. unfold view_rows. cbn [view_extent fst snd].
      rewrite app_nil_r, In_range. lia.
    + intros x Hx. apply in_flat_map in Hx as (i & _ & Hx).
      unfold create_local_B_bwd in Hx. membership; reflexivity.
  - rewrite Z.geb_leb in E. apply Z.leb_gt in E. simpl. lia.
Qed.

(** X11. The rows of [B] updated at step [k] of the solve.  Forward
    (provided [B] has a tile column: the updates are issued column by
    column) the lookahead tasks update the rows [k+1 .. k+lookahead] that
    exist and the trailing task the rows [k+1+lookahead .. mt-1];
    backward, mirrored, the lookahead tasks update the rows
    [k-lookahead .. k-1] that exist and the trailing task the rows
    [0 .. k-1-lookahead]. *)
Theorem solve_partition target (alpha : S) (A : TriangularMatrix)
  (B : Matrix) opts k :
  0 <= k < mt B ->
  let lookahead := get_option (opt_Lookahead opts) 1 in
  let ts := tasks (sweep target alpha A B opts) in
  let updated r := flat_map task_updates (step_tasks r k ts) in
  (Uplo_eqb (uplo A) Lower = true -> 0 < nt B ->
   (forall c, In c (updated Lookahead)
              <-> k + 1 <= c < mt B /\ c < k + 1 + lookahead)
   /\ (forall c, In c (updated Trailing)
                 <-> k + 1 + lookahead <= c <= mt B - 1))
  /\ (Uplo_eqb (uplo A) Lower = false ->
      (forall c, In c (updated Lookahead)
                 <-> 0 <= c <= k - 1 /\ k - 1 - lookahead < c)
      /\ (forall c, In c (updated Trailing)
                    <-> 0 <= c <= k - 1 - lookahead)).
Proof.
  intros Hk lookahead ts updated. subst lookahead ts updated. split.
  - intros Hlow Hnt.
    apply (forward_solve_partition target alpha A B opts Hlow Hnt Hk).
  - intros Hup. rewrite tasks_sweep, Hup.
    rewrite !step_tasks_single;
      try (apply NoDup_range_down_0 || (apply In_range_down_0; lia)
           || (intros x t; apply reads_iteration_bwd)).
    assert (Hread : forall r t,
              In t (iteration_bwd target alpha A B (mt B) (nt B)
                      (get_option (opt_Lookahead opts) 1) opts k) ->
              role t = r -> r = Lookahead \/ r = Trailing ->
              reads_token k t = true).
    { unfold iteration_bwd. intros r t [<- | Ht] Hr Hor.
      - subst r. destruct Hor; discriminate.
      - apply in_app_or in Ht; destruct Ht as [Ht | Ht].
        + apply role_lookahead_tasks_bwd in Ht. apply Ht.
        + apply role_trailing_tasks_bwd in Ht. apply Ht. }
    rewrite !step_tasks_with_role
      by (intros t Ht Hr; eapply Hread; eauto).
    rewrite with_role_lookahead_bwd.
    match goal with
    | |- context [with_role Trailing
                    (iteration_bwd ?a ?b ?c ?d ?e ?f ?g ?h ?i)] =>
        destruct (with_role_iteration_bwd a b c d e f g h i) as (_ & ->)
    end.
    split; intros c;
      [apply updates_lookahead_bwd | apply updates_trailing_bwd].
Qed.

End Facts.

End TrsmASweepFacts.

(** ** Queues and transfers of the solve *)

Module TrsmAQueueFacts.

Import Loop LoopFacts GraphFacts TrsmA TrsmACalls TrsmAFacts TrsmASweepFacts.

Section Facts.

Context {S : Type} {SC : Scalar S}.
Context {TriangularMatrix : Type} {BA : BaseMatrix TriangularMatrix}
        {DA : Distributed TriangularMatrix}.
Context {Matrix : Type} {BB : BaseMatrix Matrix} {DB : Distributed Matrix}.

Lemma queue_iteration_fwd target (alpha : S) (A : TriangularMatrix)
  (B : Matrix) mt nt lookahead local_opts k t c q :
  lookahead + 1 <= INT_MAX ->
  In t (iteration_fwd target alpha A B mt nt lookahead local_opts k) ->
  In c (body t) -> call_queue c = Some q ->
  (q = 0 /\ role t = Trailing) \/ (q = 1 /\ role t = Panel)
  \/ (2 <= q <= lookahead + 1 /\ q <= mt - k /\ role t = Lookahead).
Proof.
  intros Hmax Ht Hc Hq.
  unfold iteration_fwd, lookahead_tasks_fwd, trailing_tasks_fwd in Ht.
  destruct Ht as [<- | Ht].
  - right. left.
    unfold panel_fwd, scale_rhs_fwd, create_local_B_fwd, send_back_fwd in Hc.
    cbn [body] in Hc. TrsmASweepFacts.membership; cbn in Hq;
      try discriminate Hq; injection Hq as <-; now split.
  - apply in_app_or in Ht. destruct Ht as [Ht | Ht].
    + right. right. apply in_map_iff in Ht. destruct Ht as (i & <- & Hi).
      apply In_lookahead_rows_fwd in Hi.
      cbn [body lookahead_task_fwd] in Hc.
      apply in_map_iff in Hc. destruct Hc as (j & <- & _).
      cbn in Hq. injection Hq as <-.
      rewrite PotrfFacts.to_int_small by (unfold INT_MAX in *; lia).
      repeat split; try lia.
    + apply in_app_or in Ht. destruct Ht as [Ht | [<- | []]].
      * left. destruct (k + 1 + lookahead <? mt); [| contradiction].
        destruct Ht as [<- | []]. cbn [body trailing_task_fwd] in Hc.
        apply in_map_iff in Hc. destruct Hc as (j & <- & _).
        cbn in Hq. injection Hq as <-. now split.
      * cbn [body cleanup_task_fwd] in Hc. destruct Hc as [<- | []].
        discriminate Hq.
Qed.

Lemma queue_iteration_bwd target (alpha : S) (A : TriangularMatrix)
  (B : Matrix) mt nt lookahead opts k t c q :
  In t (iteration_bwd target alpha A B mt nt lookahead opts k) ->
  In c (body t) -> call_queue c = Some q ->
  q = 1 /\ role t = Panel.
Proof.
  intros Ht Hc Hq.
  unfold iteration_bwd, lookahead_tasks_bwd, trailing_tasks_bwd in Ht.
  TrsmASweepFacts.membership;
    cbn [body panel_bwd lookahead_task_bwd trailing_task_bwd] in Hc;
    unfold scale_rhs_bwd, create_local_B_bwd, send_back_bwd in Hc;
    TrsmASweepFacts.membership; cbn in Hq; try discriminate Hq.
  injection Hq as <-. now split.
Qed.

(** X16. The queues of the solve.  In a forward sweep the tile solve is
    issued on queue 1, the trailing update on queue 0 and the lookahead
    update of row [i] at step [k] on queue [i - k + 1]: every index from 2
    up to [lookahead + 1] is used as soon as [B] has that many tile rows
    (and a tile column).  In a backward sweep only the tile solve names a
    queue, queue 1.  The assertion that precedes the sweep asks for no
    more than two queues, and only for the device target. *)
Theorem queues_of_the_solve target (alpha : S) (A : TriangularMatrix)
  (B : Matrix) opts :
  let lookahead := get_option (opt_Lookahead opts) 1 in
  let ts := tasks (sweep target alpha A B opts) in
  lookahead + 1 <= INT_MAX ->
  (forall t c q, In t ts -> In c (body t) -> call_queue c = Some q ->
     if Uplo_eqb (uplo A) Lower
     then (q = 0 /\ role t = Trailing) \/ (q = 1 /\ role t = Panel)
          \/ (2 <= q <= lookahead + 1 /\ q <= mt B /\ role t = Lookahead)
     else q = 1 /\ role t = Panel)
  /\ (Uplo_eqb (uplo A) Lower = true -> 0 < nt B ->
      forall q, 2 <= q <= lookahead + 1 -> q <= mt B ->
        exists t c, In t ts /\ In c (body t) /\ call_queue c = Some q)
  /\ (preconditions target A B = true
      <-> mt A = mt B /\ nt A = mt B
          /\ (target = Devices -> 2 <= numComputeQueues A)).
Proof.
  intros lookahead ts Hmax. subst ts. rewrite tasks_sweep.
  fold lookahead. split; [| split].
  - intros t c q Ht Hc Hq.
    destruct (Uplo_eqb (uplo A) Lower);
      apply in_flat_map in Ht; destruct Ht as (k & Hk & Ht).
    + apply In_range in Hk.
      pose proof (@queue_iteration_fwd) as Q.
      specialize Q with (1 := Hmax) (2 := Ht) (3 := Hc) (4 := Hq).
      destruct Q as [H | [H | (H1 & H2 & H3)]]; auto.
      right. right. repeat split; try lia; assumption.
    + eapply queue_iteration_bwd; eassumption.
  - intros Hlow Hnt q Hq Hrows. rewrite Hlow.
    exists (lookahead_task_fwd target (nt B) (local_options opts) 0 (q - 1)).
    eexists. split; [| split].
    + apply in_flat_map. exists 0. split; [apply In_range; lia |].
      unfold iteration_fwd. right. apply in_or_app. left.
      unfold lookahead_tasks_fwd. apply in_map.
      apply In_lookahead_rows_fwd. lia.
    + cbn [body lookahead_task_fwd]. apply in_map.
      apply (In_range 0 (nt B) 0). lia.
    + cbn. f_equal.
      rewrite PotrfFacts.to_int_small by (unfold INT_MAX in *; lia). lia.
  - unfold preconditions. rewrite !andb_true_iff, !Z.eqb_eq.
    destruct target; cbn [Target_eqb]; rewrite ?Z.geb_le;
      intuition (try discriminate; try lia).
Qed.

(** *** Transfers of the solution *)

Lemma sends_of_body (l : list (Call S)) (i j dest : Z) :
  In (i, j, dest) (flat_map call_sends l) <-> In (tileSend i j dest) l.
Proof.
  rewrite in_flat_map. split.
  - intros (c & Hc & H). destruct c; try contradiction.
    destruct H as [H | []]. injection H as -> -> ->. exact Hc.
  - intros H. eexists. split; [exact H |]. now left.
Qed.

Lemma receives_of_body (l : list (Call S)) (i j root : Z) :
  In (i, j, root) (flat_map call_receives l) <-> In (tileRecv i j root) l.
Proof.
  rewrite in_flat_map. split.
  - intros (c & Hc & H). destruct c; try contradiction.
    destruct H as [H | []]. injection H as -> -> ->. exact Hc.
  - intros H. eexists. split; [exact H |]. now left.
Qed.

Lemma no_transfer_in (l : list (Call S)) :
  (forall c, In c l -> call_sends c = [] /\ call_receives c = []) ->
  flat_map call_sends l = [] /\ flat_map call_receives l = [].
Proof.
  intros H. split; apply flat_map_nil_ext; intros c Hc; now apply H.
Qed.

(** The transfers of a panel task are those of its send-back part. *)
Lemma transfers_panel_fwd target (alpha : S) (A : TriangularMatrix)
  (B : Matrix) mt nt lookahead local_opts k :
  task_sends (panel_fwd target alpha A B mt nt lookahead local_opts k)
  = flat_map call_sends (send_back_fwd (S := S) A B nt k)
  /\ task_receives (panel_fwd target alpha A B mt nt lookahead local_opts k)
     = flat_map call_receives (send_back_fwd (S := S) A B nt k).
Proof.
  unfold task_sends, task_receives, panel_fwd. cbn [body].
  rewrite !flat_map_app.
  destruct (no_transfer_in (scale_rhs_fwd target alpha B mt nt k))
    as [-> ->].
  { intros c Hc. unfold scale_rhs_fwd in Hc.
    TrsmASweepFacts.membership; now split. }
  destruct (no_transfer_in (create_local_B_fwd (S := S) target A B nt k))
    as [-> ->].
  { intros c Hc. unfold create_local_B_fwd in Hc.
    TrsmASweepFacts.membership; now split. }
  destruct (tileIsLocal A k k); simpl;
    rewrite !app_nil_r; split; reflexivity.
Qed.

Lemma transfers_panel_bwd target (alpha : S) (A : TriangularMatrix)
  (B : Matrix) mt nt opts k :
  task_sends (panel_bwd target alpha A B mt nt opts k)
  = flat_map call_sends (send_back_bwd (S := S) A B nt k)
  /\ task_receives (panel_bwd target alpha A B mt nt opts k)
     = flat_map call_receives (send_back_bwd (S := S) A B nt k).
Proof.
  unfold task_sends, task_receives, panel_bwd. cbn [body].
  rewrite !flat_map_app.
  destruct (no_transfer_in (scale_rhs_bwd alpha B mt nt k)) as [-> ->].
  { intros c Hc. unfold scale_rhs_bwd in Hc.
    TrsmASweepFacts.membership; now split. }
  destruct (no_transfer_in (create_local_B_bwd (S := S) A B nt k k))
    as [-> ->].
  { intros c Hc. unfold create_local_B_bwd in Hc.
    TrsmASweepFacts.membership; now split. }
  destruct (no_transfer_in
              (map (fun j => tileErase_nonlocal (S := S) k j) (range 0 nt)))
    as [-> ->].
  { intros c Hc. TrsmASweepFacts.membership; now split. }
  destruct (tileIsLocal A k k); simpl;
    rewrite !app_nil_r; split; reflexivity.
Qed.

Lemma no_transfer_updates_fwd target mt nt lookahead local_opts k t :
  In t (lookahead_tasks_fwd (S := S) target mt nt lookahead local_opts k
        ++ trailing_tasks_fwd target mt nt lookahead local_opts k
        ++ [cleanup_task_fwd k]) ->
  role t <> Panel /\ task_sends t = [] /\ task_receives t = [].
Proof.
  intros Ht. unfold lookahead_tasks_fwd, trailing_tasks_fwd in Ht.
  TrsmASweepFacts.membership; (split; [discriminate |]);
    apply no_transfer_in; intros c Hc;
    cbn [body lookahead_task_fwd trailing_task_fwd cleanup_task_fwd] in Hc;
    TrsmASweepFacts.membership; now split.
Qed.

Lemma no_transfer_updates_bwd (A : TriangularMatrix) (B : Matrix)
  nt lookahead k t :
  In t (lookahead_tasks_bwd (S := S) A B nt lookahead k
        ++ trailing_tasks_bwd A B nt lookahead k) ->
  role t <> Panel /\ task_sends t = [] /\ task_receives t = [].
Proof.
  intros Ht. unfold lookahead_tasks_bwd, trailing_tasks_bwd in Ht.
  TrsmASweepFacts.membership; (split; [discriminate |]);
    apply no_transfer_in; intros c Hc;
    cbn [body lookahead_task_bwd trailing_task_bwd] in Hc;
    unfold create_local_B_bwd in Hc;
    TrsmASweepFacts.membership; now split.
Qed.

(** What [send_back] of either sweep transfers. *)
Lemma transfers_send_back_fwd (A : TriangularMatrix) (B : Matrix) nt k :
  (flat_map call_sends (send_back_fwd (S := S) A B nt k) = []
   \/ flat_map call_receives (send_back_fwd (S := S) A B nt k) = [])
  /\ (forall i j dest,
        In (tileSend i j dest) (send_back_fwd (S := S) A B nt k) ->
        i = k /\ tileIsLocal A k k = true /\ 0 <= j < nt
        /\ dest = tileRank B k j /\ dest <> tileRank A k k)
  /\ (forall i j root,
        In (tileRecv i j root) (send_back_fwd (S := S) A B nt k) ->
        i = k /\ tileIsLocal A k k = false /\ 0 <= j < nt
        /\ tileIsLocal B k j = true /\ root = tileRank A k k).
Proof.
  unfold send_back_fwd. destruct (tileIsLocal A k k).
  - split; [| split].
    + right. apply flat_map_nil_ext. intros c Hc.
      apply in_flat_map in Hc. destruct Hc as (j & _ & Hc).
      destruct (tileRank B k j =? tileRank A k k); [destruct Hc |].
      destruct Hc as [<- | []]. reflexivity.
    + intros i j dest H. apply in_flat_map in H.
      destruct H as (j' & Hj & H). apply In_range in Hj.
      destruct (tileRank B k j' =? tileRank A k k) eqn:E; [destruct H |].
      apply Z.eqb_neq in E. destruct H as [H | []].
      injection H as <- <- <-. auto.
    + intros i j root H. apply in_flat_map in H.
      destruct H as (j' & _ & H).
      destruct (tileRank B k j' =? tileRank A k k); [destruct H |].
      destruct H as [H | []]. discriminate H.
  - split; [| split].
    + left. apply flat_map_nil_ext. intros c Hc.
      apply in_flat_map in Hc. destruct Hc as (j & _ & Hc).
      destruct (tileIsLocal B k j); [| destruct Hc].
      destruct Hc as [<- | []]. reflexivity.
    + intros i j dest H. apply in_flat_map in H.
      destruct H as (j' & _ & H).
      destruct (tileIsLocal B k j'); [| destruct H].
      destruct H as [H | []]. discriminate H.
    + intros i j root H. apply in_flat_map in H.
      destruct H as (j' & Hj & H). apply In_range in Hj.
      destruct (tileIsLocal B k j') eqn:E; [| destruct H].
      destruct H as [H | []]. injection H as <- <- <-. auto.
Qed.

Lemma transfers_send_back_bwd (A : TriangularMatrix) (B : Matrix) nt k :
  (flat_map call_sends (send_back_bwd (S := S) A B nt k) = []
   \/ flat_map call_receives (send_back_bwd (S := S) A B nt k) = [])
  /\ (forall i j dest,
        In (tileSend i j dest) (send_back_bwd (S := S) A B nt k) ->
        i = k /\ tileIsLocal A k k = true /\ 0 <= j < nt
        /\ dest = tileRank B k j)
  /\ (forall i j root,
        In (tileRecv i j root) (send_back_bwd (S := S) A B nt k) ->
        i = k /\ tileIsLocal A k k = false /\ 0 <= j < nt
        /\ tileIsLocal B k j = true /\ root = tileRank A k k)
  /\ (tileIsLocal A k k = true ->
      flat_map call_sends (send_back_bwd (S := S) A B nt k)
      = map (fun j => (k, j, tileRank B k j)) (range 0 nt)).
Proof.
  unfold send_back_bwd. destruct (tileIsLocal A k k).
  - split; [| split; [| split]].
    + right. apply flat_map_nil_ext. intros c Hc.
      apply in_map_iff in Hc. destruct Hc as (j & <- & _). reflexivity.
    + intros i j dest H. apply in_map_iff in H.
      destruct H as (j' & H & Hj). apply In_range in Hj.
      injection H as <- <- <-. auto.
    + intros i j root H. apply in_map_iff in H.
      destruct H as (j' & H & _). discriminate H.
    + intros _. induction (range 0 nt) as [| j l IH]; [reflexivity |].
      cbn. now f_equal.
  - split; [| split; [| split]].
    + left. apply flat_map_nil_ext. intros c Hc.
      apply in_flat_map in Hc. destruct Hc as (j & _ & Hc).
      destruct (tileIsLocal B k j); [| destruct Hc].
      destruct Hc as [<- | []]. reflexivity.
    + intros i j dest H. apply in_flat_map in H.
      destruct H as (j' & _ & H).
      destruct (tileIsLocal B k j'); [| destruct H].
      destruct H as [H | []]. discriminate H.
    + intros i j root H. apply in_flat_map in H.
      destruct H as (j' & Hj & H). apply In_range in Hj.
      destruct (tileIsLocal B k j') eqn:E; [| destruct H].
      destruct H as [H | []]. injection H as <- <- <-. auto.
    + discriminate.
Qed.

(** The transfers of [send_back], tile by tile. *)
Lemma sends_send_back_fwd (A : TriangularMatrix) (B : Matrix) nt k :
  flat_map call_sends (send_back_fwd (S := S) A B nt k)
  = if tileIsLocal A k k
    then map (fun j => (k, j, tileRank B k j))
             (filter (fun j => negb (tileRank B k j =? tileRank A k k))
                     (range 0 nt))
    else [].
Proof.
  unfold send_back_fwd. destruct (tileIsLocal A k k).
  - induction (range 0 nt) as [| j l IH]; [reflexivity |].
    cbn [flat_map filter]. rewrite flat_map_app, IH.
    destruct (tileRank B k j =? tileRank A k k); reflexivity.
  - apply flat_map_nil_ext. intros c Hc.
    TrsmASweepFacts.membership; reflexivity.
Qed.

Lemma sends_send_back_bwd (A : TriangularMatrix) (B : Matrix) nt k :
  flat_map call_sends (send_back_bwd (S := S) A B nt k)
  = if tileIsLocal A k k
    then map (fun j => (k, j, tileRank B k j)) (range 0 nt)
    else [].
Proof.
  unfold send_back_bwd. destruct (tileIsLocal A k k).
  - induction (range 0 nt) as [| j l IH]; [reflexivity |].
    cbn [map flat_map call_sends app]. now rewrite IH.
  - apply flat_map_nil_ext. intros c Hc.
    TrsmASweepFacts.membership; reflexivity.
Qed.

Lemma receives_send_back (A : TriangularMatrix) (B : Matrix) nt k :
  let received :=
    if tileIsLocal A k k
    then []
    else map (fun j => (k, j, tileRank A k k))
             (filter (fun j => tileIsLocal B k j) (range 0 nt)) in
  flat_map call_receives (send_back_fwd (S := S) A B nt k) = received
  /\ flat_map call_receives (send_back_bwd (S := S) A B nt k) = received.
Proof.
  cbv zeta. unfold send_back_fwd, send_back_bwd.
  assert (Hrecv :
    flat_map call_receives
      (flat_map (fun j => if tileIsLocal B k j
                          then [tileRecv (S := S) k j (tileRank A k k)]
                          else [])
                (range 0 nt))
    = map (fun j => (k, j, tileRank A k k))
          (filter (fun j => tileIsLocal B k j) (range 0 nt))).
  { induction (range 0 nt) as [| j l IH]; [reflexivity |].
    cbn [flat_map filter]. rewrite flat_map_app, IH.
    destruct (tileIsLocal B k j); reflexivity. }
  destruct (tileIsLocal A k k).
  - split; apply flat_map_nil_ext; intros c Hc;
      TrsmASweepFacts.membership; reflexivity.
  - split; exact Hrecv.
Qed.

(** X17. How the solved row [B(k, :)] travels.  Only panel tasks send or
    receive tiles, and a panel task does one or the other, never both;
    there is one panel task for every tile row [k].  On the process that
    owns [A(k, k)] it sends the tiles [B(k, j)], in the order of [j], to
    their owners: forward those whose owner is not the owner of
    [A(k, k)], backward all [nt] tiles of the row, whoever owns them.  On
    any other process it receives its local tiles [B(k, j)], in the order
    of [j] and each once, from the owner of [A(k, k)]. *)
Theorem solution_sent_or_received target (alpha : S)
  (A : TriangularMatrix) (B : Matrix) opts :
  let ts := tasks (sweep target alpha A B opts) in
  let forward := Uplo_eqb (uplo A) Lower in
  (forall t, In t ts ->
     (role t <> Panel -> task_sends t = [] /\ task_receives t = [])
     /\ (task_sends t = [] \/ task_receives t = [])
     /\ (role t = Panel ->
         exists k, 0 <= k < mt B /\ depends t = [dep_inout k]))
  /\ (forall k, 0 <= k < mt B ->
        exists t, In t ts /\ role t = Panel /\ depends t = [dep_inout k])
  /\ (forall t k, In t ts -> role t = Panel -> depends t = [dep_inout k] ->
        task_sends t
        = (if tileIsLocal A k k
           then map (fun j => (k, j, tileRank B k j))
                    (filter (fun j =>
                               negb (forward
                                     && (tileRank B k j =? tileRank A k k)))
                            (range 0 (nt B)))
           else [])
        /\ task_receives t
           = (if tileIsLocal A k k
              then []
              else map (fun j => (k, j, tileRank A k k))
                       (filter (fun j => tileIsLocal B k j)
                               (range 0 (nt B))))).
Proof.
  intros ts forward. subst ts forward. rewrite tasks_sweep.
  assert (Hone : forall (c : bool) (l l' : list (Z * Z * Z)),
            (if c then l else []) = [] \/ (if c then [] else l') = []).
  { intros [|] l l'; [now right | now left]. }
  destruct (Uplo_eqb (uplo A) Lower) eqn:Hlow; cbn [andb].
  - split; [| split].
    + intros t Ht. apply in_flat_map in Ht. destruct Ht as (k & Hk & Ht).
      apply In_range in Hk. unfold iteration_fwd in Ht.
      destruct Ht as [<- | Ht].
      * destruct (transfers_panel_fwd target alpha A B (mt B) (nt B)
                    (get_option (opt_Lookahead opts) 1)
                    (local_options opts) k) as [-> ->].
        rewrite sends_send_back_fwd,
          (proj1 (receives_send_back A B (nt B) k)).
        split; [intros H; now contradiction H |].
        split; [apply Hone |]. intros _. now exists k.
      * apply no_transfer_updates_fwd in Ht.
        destruct Ht as (Hr & -> & ->).
        split; [now split |]. split; [now left |].
        intros H. now contradiction Hr.
    + intros k Hk. eexists. split; [| split].
      * apply in_flat_map. exists k. split; [now apply In_range |].
        unfold iteration_fwd. now left.
      * reflexivity.
      * reflexivity.
    + intros t k' Ht Hp Hd. apply in_flat_map in Ht.
      destruct Ht as (k & _ & Ht). unfold iteration_fwd in Ht.
      destruct Ht as [<- | Ht].
      * cbn [depends panel_fwd] in Hd. injection Hd as <-.
        destruct (transfers_panel_fwd target alpha A B (mt B) (nt B)
                    (get_option (opt_Lookahead opts) 1)
                    (local_options opts) k) as [-> ->].
        rewrite sends_send_back_fwd,
          (proj1 (receives_send_back A B (nt B) k)).
        split; reflexivity.
      * apply no_transfer_updates_fwd in Ht.
        destruct Ht as (Hr & _). now contradiction Hr.
  - split; [| split].
    + intros t Ht. apply in_flat_map in Ht. destruct Ht as (k & Hk & Ht).
      apply In_range_down_0 in Hk. unfold iteration_bwd in Ht.
      destruct Ht as [<- | Ht].
      * destruct (transfers_panel_bwd target alpha A B (mt B) (nt B)
                    opts k) as [-> ->].
        rewrite sends_send_back_bwd,
          (proj2 (receives_send_back A B (nt B) k)).
        split; [intros H; now contradiction H |].
        split; [apply Hone |]. intros _. now exists k.
      * apply no_transfer_updates_bwd in Ht.
        destruct Ht as (Hr & -> & ->).
        split; [now split |]. split; [now left |].
        intros H. now contradiction Hr.
    + intros k Hk. eexists. split; [| split].
      * apply in_flat_map. exists k.
        split; [now apply In_range_down_0 |].
        unfold iteration_bwd. now left.
      * reflexivity.
      * reflexivity.
    + intros t k' Ht Hp Hd. apply in_flat_map in Ht.
      destruct Ht as (k & _ & Ht). unfold iteration_bwd in Ht.
      destruct Ht as [<- | Ht].
      * cbn [depends panel_bwd] in Hd. injection Hd as <-.
        destruct (transfers_panel_bwd target alpha A B (mt B) (nt B)
                    opts k) as [-> ->].
        rewrite sends_send_back_bwd,
          (proj2 (receives_send_back A B (nt B) k)).
        split; [| reflexivity].
        destruct (tileIsLocal A k k); [| reflexivity].
        f_equal. symmetry. apply filter_all. reflexivity.
      * apply no_transfer_updates_bwd in Ht.
        destruct Ht as (Hr & _). now contradiction Hr.
Qed.

End Facts.

End TrsmAQueueFacts.

(** ** Order of the tasks of the backward sweep *)

Module TrsmAOrderFacts.

Import Loop LoopFacts GraphFacts TrsmA TrsmACalls TrsmAFacts TrsmASweepFacts
       OrderFacts.

Lemma range_down_as_map (n : Z) :
  range_down (n - 1) 0 = map (fun x => n - 1 - x) (range 0 n).
Proof.
  remember (Z.to_nat n) as m eqn:Hm.
  revert n Hm. induction m as [| m IH]; intros n Hm.
  - rewrite range_down_empty, range_empty by lia. reflexivity.
  - rewrite range_down_cons, range_cons by lia. cbn [map].
    f_equal; [lia |].
    replace (n - 1 - 1) with ((n - 1) - 1) by lia.
    rewrite (IH (n - 1)) by lia.
    replace (range (0 + 1) n) with (map (fun k => k - (-1)) (range 0 (n - 1))).
    + rewrite map_map. apply map_ext. intros x. lia.
    + rewrite CensusFacts.map_shift_range. f_equal; lia.
Qed.

Lemma flat_map_range_down {X : Type} (F : Z -> list X) (n : Z) :
  flat_map F (range_down (n - 1) 0)
  = flat_map (fun x => F (n - 1 - x)) (range 0 n).
Proof.
  rewrite range_down_as_map.
  induction (range 0 n) as [| x l IH]; [reflexivity |].
  cbn. now rewrite IH.
Qed.

(** In a loop over decreasing indices a task of a step is created before
    the tasks of the steps with a smaller index. *)
Lemma precedes_steps_down {C : Type} (F : Z -> list (Task C)) (n a b : Z)
  (t u : Task C) :
  0 <= b -> b < a -> a < n -> In t (F a) -> In u (F b) ->
  precedes (flat_map F (range_down (n - 1) 0)) t u.
Proof.
  intros Hb Hab Ha Ht Hu. rewrite flat_map_range_down.
  apply precedes_iterations with (a := n - 1 - a) (b := n - 1 - b);
    try lia.
  - now replace (n - 1 - (n - 1 - a)) with a by lia.
  - now replace (n - 1 - (n - 1 - b)) with b by lia.
Qed.

Lemma steps_of_precedes_down {C : Type} (F : Z -> list (Task C)) (n : Z)
  (t u : Task C) :
  precedes (flat_map F (range_down (n - 1) 0)) t u ->
  exists a b, 0 <= b /\ b <= a /\ a < n /\ In t (F a) /\ In u (F b).
Proof.
  rewrite flat_map_range_down. intros Hp.
  apply iterations_of_precedes in Hp.
  destruct Hp as (x & y & Hx & Hxy & Hy & Ht & Hu).
  exists (n - 1 - x), (n - 1 - y). repeat split; try lia; assumption.
Qed.

Lemma precedes_within_down {C : Type} (F : Z -> list (Task C)) (n a : Z)
  (t u : Task C) :
  0 <= a < n -> precedes (F a) t u ->
  precedes (flat_map F (range_down (n - 1) 0)) t u.
Proof.
  intros Ha Hp. rewrite flat_map_range_down.
  apply ReleaseOrderFacts.precedes_within with (a := n - 1 - a); [lia |].
  now replace (n - 1 - (n - 1 - a)) with a by lia.
Qed.

Lemma happens_before_trans {C : Type} (ts : list (Task C)) (t m u : Task C) :
  happens_before ts t m -> happens_before ts m u -> happens_before ts t u.
Proof.
  induction 1 as [t m Htm | t x m Htx Hxm IH]; intros Hmu.
  - now apply hb_through with (m := m).
  - apply hb_through with (m := x); [assumption | now apply IH].
Qed.

Section Facts.

Context {S : Type} {SC : Scalar S}.
Context {TriangularMatrix : Type} {BA : BaseMatrix TriangularMatrix}
        {DA : Distributed TriangularMatrix}.
Context {Matrix : Type} {BB : BaseMatrix Matrix} {DB : Distributed Matrix}.

(** The three kinds of task of a backward step. *)
Lemma iteration_bwd_inv target (alpha : S) (A : TriangularMatrix)
  (B : Matrix) mt nt lookahead opts k t :
  In t (iteration_bwd target alpha A B mt nt lookahead opts k) ->
  t = panel_bwd target alpha A B mt nt opts k
  \/ (exists i, (0 <= i <= k - 1 /\ k - 1 - lookahead < i)
                /\ t = lookahead_task_bwd A B nt k i)
  \/ (0 <= k - 1 - lookahead /\ t = trailing_task_bwd A B nt lookahead k).
Proof.
  unfold iteration_bwd. intros [<- | Ht]; [now left | right].
  apply in_app_or in Ht. destruct Ht as [Ht | Ht].
  - left. unfold lookahead_tasks_bwd in Ht. apply in_map_iff in Ht.
    destruct Ht as (i & <- & Hi).
    apply In_lookahead_rows_bwd in Hi. now exists i.
  - right. unfold trailing_tasks_bwd in Ht.
    destruct (k - 1 - lookahead >=? 0) eqn:E; [| contradiction].
    apply Z.geb_le in E. destruct Ht as [<- | []]. now split.
Qed.

Lemma In_iteration_bwd_lookahead target (alpha : S) (A : TriangularMatrix)
  (B : Matrix) mt nt lookahead opts k i :
  0 <= i <= k - 1 -> k - 1 - lookahead < i ->
  In (lookahead_task_bwd A B nt k i)
     (iteration_bwd target alpha A B mt nt lookahead opts k).
Proof.
  intros H1 H2. unfold iteration_bwd. right. apply in_or_app. left.
  unfold lookahead_tasks_bwd. apply in_map.
  apply In_lookahead_rows_bwd. now split.
Qed.

Lemma In_iteration_bwd_trailing target (alpha : S) (A : TriangularMatrix)
  (B : Matrix) mt nt lookahead opts k :
  0 <= k - 1 - lookahead ->
  In (trailing_task_bwd A B nt lookahead k)
     (iteration_bwd target alpha A B mt nt lookahead opts k).
Proof.
  intros H. unfold iteration_bwd. right. apply in_or_app. right.
  unfold trailing_tasks_bwd.
  replace (k - 1 - lookahead >=? 0) with true
    by (symmetry; apply Z.geb_le; lia).
  now left.
Qed.

Lemma panel_bwd_first target (alpha : S) (A : TriangularMatrix)
  (B : Matrix) mt nt lookahead opts k u :
  In u (lookahead_tasks_bwd A B nt lookahead k
        ++ trailing_tasks_bwd A B nt lookahead k) ->
  precedes (iteration_bwd target alpha A B mt nt lookahead opts k)
           (panel_bwd target alpha A B mt nt opts k) u.
Proof.
  intros Hu. unfold iteration_bwd.
  match goal with
  | |- precedes (?x :: ?l) _ _ => change (x :: l) with ([x] ++ l)
  end.
  apply precedes_app_lr; [now left | assumption].
Qed.

(** The rows of [B] each kind of task writes and reads. *)

Lemma writes_panel_bwd target (alpha : S) (A : TriangularMatrix)
  (B : Matrix) mt nt opts k r :
  In r (task_writes (panel_bwd target alpha A B mt nt opts k)) ->
  r = k \/ (k = mt - 1 /\ 0 <= r < mt).
Proof.
  unfold task_writes. intros H. apply in_flat_map in H.
  destruct H as (c & Hc & Hr).
  unfold panel_bwd in Hc. cbn [body] in Hc.
  apply in_app_or in Hc. destruct Hc as [Hc | Hc].
  { right. unfold scale_rhs_bwd in Hc.
    destruct ((k =? mt - 1) && negb (s_eqb alpha s_one)) eqn:E;
      [| contradiction].
    apply andb_true_iff in E. destruct E as [E _]. apply Z.eqb_eq in E.
    apply in_map_iff in Hc. destruct Hc as ([i j] & <- & Hij).
    apply In_local_tiles in Hij. cbn in Hr.
    destruct Hr as [<- | []]. split; [assumption | lia]. }
  left. unfold create_local_B_bwd, send_back_bwd, reduce_list_bwd in Hc.
  TrsmASweepFacts.membership; cbn in Hr;
    rewrite ?map_map in Hr; cbn in Hr;
    try contradiction;
    try (destruct Hr as [<- | []]; reflexivity);
    try (apply in_map_iff in Hr; destruct Hr as (? & <- & _); reflexivity);
    try (unfold view_rows in Hr; cbn [view_extent fst snd] in Hr;
         apply In_range in Hr; lia).
Qed.

Lemma reads_panel_bwd target (alpha : S) (A : TriangularMatrix)
  (B : Matrix) mt nt opts k r :
  In r (task_reads (panel_bwd target alpha A B mt nt opts k)) -> r = k.
Proof.
  unfold task_reads. intros H. apply in_flat_map in H.
  destruct H as (c & Hc & Hr).
  unfold panel_bwd in Hc. cbn [body] in Hc.
  unfold scale_rhs_bwd, create_local_B_bwd, send_back_bwd, bcast_list_bwd
    in Hc.
  TrsmASweepFacts.membership; cbn in Hr;
    rewrite ?map_map in Hr; cbn in Hr;
    try contradiction;
    try (destruct Hr as [<- | []]; reflexivity);
    try (apply in_map_iff in Hr; destruct Hr as (? & <- & _); reflexivity).
Qed.

Lemma access_lookahead_bwd (A : TriangularMatrix) (B : Matrix) nt k i r :
  (In r (task_writes (lookahead_task_bwd (S := S) A B nt k i)) -> r = i)
  /\ (In r (task_reads (lookahead_task_bwd (S := S) A B nt k i)) -> r = k).
Proof.
  unfold task_writes, task_reads, lookahead_task_bwd. cbn [body].
  split; intros H; apply in_flat_map in H; destruct H as (c & Hc & Hr);
    unfold create_local_B_bwd in Hc;
    TrsmASweepFacts.membership; cbn in Hr;
    try contradiction;
    try (destruct Hr as [<- | []]; reflexivity);
    unfold view_rows in Hr; cbn [view_extent fst snd] in Hr;
    apply In_range in Hr; lia.
Qed.

Lemma access_trailing_bwd (A : TriangularMatrix) (B : Matrix)
  nt lookahead k r :
  (In r (task_writes (trailing_task_bwd (S := S) A B nt lookahead k)) ->
   0 <= r <= k - 1 - lookahead)
  /\ (In r (task_reads (trailing_task_bwd (S := S) A B nt lookahead k)) ->
      r = k).
Proof.
  unfold task_writes, task_reads, trailing_task_bwd. cbn [body].
  split; intros H; apply in_flat_map in H; destruct H as (c & Hc & Hr);
    apply in_app_or in Hc; destruct Hc as [Hc | [<- | []]].
  - apply in_flat_map in Hc. destruct Hc as (i & Hi & Hc).
    apply In_range in Hi. unfold create_local_B_bwd in Hc.
    TrsmASweepFacts.membership. cbn in Hr. destruct Hr as [<- | []]. lia.
  - cbn in Hr. unfold view_rows in Hr. cbn [view_extent fst snd] in Hr.
    apply In_range in Hr. lia.
  - apply in_flat_map in Hc. destruct Hc as (i & Hi & Hc).
    unfold create_local_B_bwd in Hc.
    TrsmASweepFacts.membership. destruct Hr.
  - cbn in Hr. unfold view_rows in Hr. cbn [view_extent fst snd] in Hr.
    apply In_range in Hr. lia.
Qed.

(** Tokens. *)

Lemma owns_panel_bwd target (alpha : S) (A : TriangularMatrix) (B : Matrix)
  mt nt opts k :
  owns_token k (panel_bwd target alpha A B mt nt opts k) = true.
Proof. cbn. now rewrite Z.eqb_refl. Qed.

Lemma tokens_lookahead_bwd (A : TriangularMatrix) (B : Matrix) nt k i :
  reads_token k (lookahead_task_bwd (S := S) A B nt k i) = true
  /\ owns_token i (lookahead_task_bwd (S := S) A B nt k i) = true.
Proof. cbn. now rewrite !Z.eqb_refl. Qed.

Lemma tokens_trailing_bwd (A : TriangularMatrix) (B : Matrix)
  nt lookahead k :
  reads_token k (trailing_task_bwd (S := S) A B nt lookahead k) = true
  /\ owns_token (k - 1 - lookahead)
       (trailing_task_bwd (S := S) A B nt lookahead k) = true
  /\ owns_token 0 (trailing_task_bwd (S := S) A B nt lookahead k) = true.
Proof. cbn. now rewrite !Z.eqb_refl, !orb_true_r. Qed.

Lemma waits_for_reader {C : Type} (ts : list (Task C)) (tok : Z)
  (t u : Task C) :
  precedes ts t u -> reads_token tok t = true -> owns_token tok u = true ->
  waits_for ts t u.
Proof.
  intros Hp Ht Hu. split; [assumption |]. exists tok.
  unfold ordered_by. rewrite Ht, Hu. apply orb_true_r.
Qed.

End Facts.

Section Backward.

Context {S : Type} {SC : Scalar S}.
Context {TriangularMatrix : Type} {BA : BaseMatrix TriangularMatrix}
        {DA : Distributed TriangularMatrix}.
Context {Matrix : Type} {BB : BaseMatrix Matrix} {DB : Distributed Matrix}.

Variables (target : Target) (alpha : S) (A : TriangularMatrix) (B : Matrix)
          (opts : Options).

#[local] Abbreviation la := (get_option (opt_Lookahead opts) 1).
#[local] Abbreviation n := (mt B).
#[local] Abbreviation F :=
  (iteration_bwd target alpha A B (mt B) (nt B)
     (get_option (opt_Lookahead opts) 1) opts).
#[local] Abbreviation ts :=
  (flat_map (iteration_bwd target alpha A B (mt B) (nt B)
               (get_option (opt_Lookahead opts) 1) opts)
            (range_down (mt B - 1) 0)).
#[local] Abbreviation P := (panel_bwd target alpha A B (mt B) (nt B) opts).
#[local] Abbreviation L := (lookahead_task_bwd (S := S) A B (nt B)).
#[local] Abbreviation T :=
  (trailing_task_bwd (S := S) A B (nt B) (get_option (opt_Lookahead opts) 1)).

Hypothesis Hla : 0 <= la.

(** A trailing update reaches every later task that names the token of a
    row it has written, through the trailing update that owns that
    token. *)
Lemma through_trailing_bwd (k k' r : Z) (u : Task (Call S)) :
  k < n -> 0 <= r <= k - 1 - la ->
  0 <= k' -> k' < r + 1 + la -> In u (F k') ->
  owns_token r u = true \/ reads_token r u = true ->
  precedes ts (T k) u ->
  happens_before ts (T k) u.
Proof.
  intros Hk Hr Hk' Hlt Hu Htok Hp.
  destruct (Z.eq_dec k (r + 1 + la)) as [E | E].
  - apply hb_direct. apply waits_for_token with (tok := r);
      [assumption | | assumption].
    replace r with (k - 1 - la) by lia. apply tokens_trailing_bwd.
  - apply hb_through with (m := T (r + 1 + la)).
    + apply waits_for_token with (tok := 0).
      * apply precedes_steps_down with (a := k) (b := r + 1 + la);
          try lia; apply In_iteration_bwd_trailing; lia.
      * apply tokens_trailing_bwd.
      * left. apply tokens_trailing_bwd.
    + apply hb_direct. apply waits_for_token with (tok := r).
      * apply precedes_steps_down with (a := r + 1 + la) (b := k');
          try lia; [apply In_iteration_bwd_trailing; lia | assumption].
      * replace r with (r + 1 + la - 1 - la) at 1 by lia.
        apply tokens_trailing_bwd.
      * assumption.
Qed.

(** The first panel task, which may scale all of [B], is waited for by
    every other task. *)
Lemma from_first_panel (k' : Z) (u : Task (Call S)) :
  0 <= k' < n -> In u (F k') ->
  precedes ts (P (n - 1)) u ->
  happens_before ts (P (n - 1)) u.
Proof.
  intros Hk' Hu Hp.
  assert (Hstep : forall k v, 0 <= k < n -> In v (F k) ->
            v = P k \/ waits_for ts (P k) v).
  { intros k v Hk Hv. pose proof Hv as Hin.
    apply iteration_bwd_inv in Hv.
    destruct Hv as [-> | [(i & Hi & ->) | [Ht ->]]]; [now left | |];
      right; apply waits_for_token with (tok := k);
      try apply owns_panel_bwd.
    - apply precedes_within_down with (a := k); [lia |].
      apply panel_bwd_first. apply in_or_app. left.
      unfold lookahead_tasks_bwd. apply in_map.
      apply In_lookahead_rows_bwd. lia.
    - right. apply tokens_lookahead_bwd.
    - apply precedes_within_down with (a := k); [lia |].
      apply panel_bwd_first. apply in_or_app. right.
      unfold trailing_tasks_bwd.
      replace (k - 1 - la >=? 0) with true
        by (symmetry; apply Z.geb_le; lia).
      now left.
    - right. apply tokens_trailing_bwd. }
  destruct (Z.eq_dec k' (n - 1)) as [-> | Hne].
  { destruct (Hstep _ _ Hk' Hu) as [-> | Hw].
    - apply hb_direct. apply waits_for_token with (tok := n - 1);
        [assumption | apply owns_panel_bwd | left; apply owns_panel_bwd].
    - now apply hb_direct. }
  assert (Hpanel : happens_before ts (P (n - 1)) (P k')).
  { destruct (Z_lt_le_dec (n - 1 - 1 - la) k') as [Hnear | Hfar].
    - apply hb_through with (m := L (n - 1) k').
      + destruct (Hstep (n - 1) (L (n - 1) k')) as [E | Hw];
          [lia | apply In_iteration_bwd_lookahead; lia | | exact Hw].
        discriminate E.
      + apply hb_direct. apply waits_for_token with (tok := k').
        * apply precedes_steps_down with (a := n - 1) (b := k'); try lia.
          -- apply In_iteration_bwd_lookahead; lia.
          -- unfold iteration_bwd. now left.
        * apply tokens_lookahead_bwd.
        * left. apply owns_panel_bwd.
    - apply hb_through with (m := T (n - 1)).
      + destruct (Hstep (n - 1) (T (n - 1))) as [E | Hw];
          [lia | apply In_iteration_bwd_trailing; lia | | exact Hw].
        discriminate E.
      + apply through_trailing_bwd with (k' := k') (r := k'); try lia.
        * unfold iteration_bwd. now left.
        * left. apply owns_panel_bwd.
        * apply precedes_steps_down with (a := n - 1) (b := k'); try lia.
          -- apply In_iteration_bwd_trailing; lia.
          -- unfold iteration_bwd. now left. }
  destruct (Hstep _ _ Hk' Hu) as [-> | Hw]; [exact Hpanel |].
  apply happens_before_trans with (m := P k'); [exact Hpanel |].
  now apply hb_direct.
Qed.

(** X19. The backward sweep has no barrier inside its loop and relies on
    the dependences alone.  With a lookahead that is not negative they
    suffice: whenever two of its tasks touch the same tile row of [B] and
    one of them writes it, the one created later starts only after the
    other has ended. *)
Theorem backward_sweep_is_ordered :
  Uplo_eqb (uplo A) Lower = false ->
  forall t u r,
    precedes (tasks (sweep target alpha A B opts)) t u ->
    (In r (task_writes t) /\ (In r (task_writes u) \/ In r (task_reads u)))
    \/ (In r (task_reads t) /\ In r (task_writes u)) ->
    happens_before (tasks (sweep target alpha A B opts)) t u.
Proof.
  intros Hup t u r Hp Hconf. rewrite tasks_sweep, Hup in *.
  destruct (steps_of_precedes_down _ _ Hp)
    as (a & b & Hb & Hba & Ha & Ht & Hu).
  pose proof Hu as Hu'.
  apply iteration_bwd_inv in Ht. apply iteration_bwd_inv in Hu'.
  destruct Ht as [-> | [(i & Hi & ->) | [Hta ->]]].
  - (* the earlier task is a panel task *)
    destruct (Z.eq_dec a (n - 1)) as [-> | Hna].
    { apply from_first_panel with (k' := b); [lia | assumption ..]. }
    assert (Hr : r = a).
    { destruct Hconf as [[Hw _] | [Hr _]].
      - apply writes_panel_bwd in Hw. lia.
      - now apply reads_panel_bwd in Hr. }
    subst r. apply hb_direct.
    apply waits_for_token with (tok := a);
      [assumption | apply owns_panel_bwd |].
    destruct Hu' as [-> | [(i' & Hi' & ->) | [Htb ->]]].
    + assert (a = b) as ->.
      { destruct Hconf as [[_ [Hw | Hr]] | [_ Hw]].
        - apply writes_panel_bwd in Hw. lia.
        - now apply reads_panel_bwd in Hr.
        - apply writes_panel_bwd in Hw. lia. }
      left. apply owns_panel_bwd.
    + assert (a = b) as ->.
      { destruct Hconf as [[_ [Hw | Hr]] | [_ Hw]].
        - apply access_lookahead_bwd in Hw. lia.
        - now apply access_lookahead_bwd in Hr.
        - apply access_lookahead_bwd in Hw. lia. }
      right. apply tokens_lookahead_bwd.
    + assert (a = b) as ->.
      { destruct Hconf as [[_ [Hw | Hr]] | [_ Hw]].
        - apply access_trailing_bwd in Hw. lia.
        - now apply access_trailing_bwd in Hr.
        - apply access_trailing_bwd in Hw. lia. }
      right. apply tokens_trailing_bwd.
  - (* the earlier task is a lookahead update *)
    apply hb_direct.
    destruct Hu' as [-> | [(i' & Hi' & ->) | [Htb ->]]].
    + destruct (Z.eq_dec b a) as [-> | Hne].
      * apply waits_for_reader with (tok := a);
          [assumption | apply tokens_lookahead_bwd | apply owns_panel_bwd].
      * assert (b = i) as ->.
        { destruct Hconf as [[Hw [Hw' | Hr']] | [Hr Hw']].
          - apply access_lookahead_bwd in Hw.
            apply writes_panel_bwd in Hw'. lia.
          - apply access_lookahead_bwd in Hw.
            apply reads_panel_bwd in Hr'. lia.
          - apply access_lookahead_bwd in Hr.
            apply writes_panel_bwd in Hw'. lia. }
        apply waits_for_token with (tok := i);
          [assumption | apply tokens_lookahead_bwd
           | left; apply owns_panel_bwd].
    + apply waits_for_token with (tok := i);
        [assumption | apply tokens_lookahead_bwd |].
      destruct Hconf as [[Hw [Hw' | Hr']] | [Hr Hw']].
      * apply access_lookahead_bwd in Hw. apply access_lookahead_bwd in Hw'.
        assert (i' = i) as -> by lia. left. apply tokens_lookahead_bwd.
      * apply access_lookahead_bwd in Hw. apply access_lookahead_bwd in Hr'.
        assert (b = i) as -> by lia. right. apply tokens_lookahead_bwd.
      * apply access_lookahead_bwd in Hr. apply access_lookahead_bwd in Hw'.
        lia.
    + apply waits_for_token with (tok := i);
        [assumption | apply tokens_lookahead_bwd |].
      destruct Hconf as [[Hw [Hw' | Hr']] | [Hr Hw']].
      * apply access_lookahead_bwd in Hw. apply access_trailing_bwd in Hw'.
        lia.
      * apply access_lookahead_bwd in Hw. apply access_trailing_bwd in Hr'.
        assert (b = i) as -> by lia. right. apply tokens_trailing_bwd.
      * apply access_lookahead_bwd in Hr. apply access_trailing_bwd in Hw'.
        lia.
  - (* the earlier task is a trailing update *)
    destruct Hu' as [-> | [(i' & Hi' & ->) | [Htb ->]]].
    + destruct (Z.eq_dec b a) as [-> | Hne].
      * apply hb_direct. apply waits_for_reader with (tok := a);
          [assumption | apply tokens_trailing_bwd | apply owns_panel_bwd].
      * assert (Hr : r = b /\ 0 <= b <= a - 1 - la).
        { destruct Hconf as [[Hw [Hw' | Hr']] | [Hr Hw']].
          - apply access_trailing_bwd in Hw.
            apply writes_panel_bwd in Hw'. lia.
          - apply access_trailing_bwd in Hw.
            apply reads_panel_bwd in Hr'. lia.
          - apply access_trailing_bwd in Hr.
            apply writes_panel_bwd in Hw'. lia. }
        destruct Hr as [-> Hrow].
        apply through_trailing_bwd with (k' := b) (r := b);
          try lia; try assumption.
        left. apply owns_panel_bwd.
    + assert (Hr : (r = i' \/ r = b) /\ 0 <= r <= a - 1 - la).
      { destruct Hconf as [[Hw [Hw' | Hr']] | [Hr Hw']].
        - apply access_trailing_bwd in Hw.
          apply access_lookahead_bwd in Hw'. lia.
        - apply access_trailing_bwd in Hw.
          apply access_lookahead_bwd in Hr'. lia.
        - apply access_trailing_bwd in Hr.
          apply access_lookahead_bwd in Hw'. lia. }
      destruct Hr as [Hr Hrow].
      apply through_trailing_bwd with (k' := b) (r := r);
        try lia; try assumption.
      destruct Hr as [-> | ->];
        [left | right]; apply tokens_lookahead_bwd.
    + apply hb_direct. apply waits_for_token with (tok := 0);
        [assumption | apply tokens_trailing_bwd
         | left; apply tokens_trailing_bwd].
Qed.

End Backward.

End TrsmAOrderFacts.

(** ** Order of the tasks of the forward sweep *)

Module TrsmAForwardFacts.

Import Loop LoopFacts GraphFacts TrsmA TrsmACalls TrsmAFacts TrsmASweepFacts
       OrderFacts TrsmAOrderFacts.

Lemma nth_error_middle {X : Type} (p l s : list X) (i : nat) (x : X) :
  nth_error l i = Some x ->
  nth_error (p ++ l ++ s) (List.length p + i) = Some x.
Proof.
  intros H. rewrite nth_error_app2 by lia.
  replace (List.length p + i - List.length p)%nat with i by lia.
  rewrite nth_error_app1; [assumption |].
  apply nth_error_Some. congruence.
Qed.

(** A barrier in the middle part separates a task created in the part
    before it from a task created in the part after it. *)
Lemma barrier_parts {C : Type} (l0 l1 l2 l3 l4 : list (Event C))
  (t u : Task C) :
  In (Spawn t) l1 -> In Taskwait l2 -> In (Spawn u) l3 ->
  barrier_between (l0 ++ l1 ++ l2 ++ l3 ++ l4) t u.
Proof.
  intros Ht Hb Hu.
  apply In_nth_error in Ht. destruct Ht as (i & Hi).
  apply In_nth_error in Hb. destruct Hb as (b & Hb).
  apply In_nth_error in Hu. destruct Hu as (j & Hj).
  assert (Hil : (i < List.length l1)%nat)
    by (apply nth_error_Some; congruence).
  assert (Hbl : (b < List.length l2)%nat)
    by (apply nth_error_Some; congruence).
  exists (List.length l0 + i)%nat,
         (List.length (l0 ++ l1) + b)%nat,
         (List.length ((l0 ++ l1) ++ l2) + j)%nat.
  rewrite !length_app. split; [lia |]. split; [lia |]. split; [| split].
  - now apply nth_error_middle.
  - rewrite <- length_app.
    replace (l0 ++ l1 ++ l2 ++ l3 ++ l4)
      with ((l0 ++ l1) ++ l2 ++ (l3 ++ l4))
      by (now rewrite <- !app_assoc).
    now apply nth_error_middle.
  - rewrite <- !length_app.
    replace (l0 ++ l1 ++ l2 ++ l3 ++ l4)
      with (((l0 ++ l1) ++ l2) ++ l3 ++ l4)
      by (now rewrite <- !app_assoc).
    now apply nth_error_middle.
Qed.

Lemma steps_split {X : Type} (E : Z -> list X) (lo hi a : Z) :
  lo <= a < hi ->
  flat_map E (range lo hi)
  = flat_map E (range lo a) ++ E a ++ flat_map E (range (a + 1) hi).
Proof.
  intros H.
  rewrite (CensusFacts.range_app (lo := lo) (mid := a) (hi := hi)) by lia.
  rewrite flat_map_app. f_equal.
  rewrite range_cons by lia. reflexivity.
Qed.

Section Barriers.

Context {C : Type}.
Variables (E pre post : Z -> list (Event C)).
Hypothesis step_parts : forall k, E k = pre k ++ [Taskwait] ++ post k.
Variables (lo hi : Z) (tail : list (Event C)).

Lemma In_later_steps (a b : Z) (e : Event C) :
  a <= b < hi -> In e (E b) -> In e (flat_map E (range a hi)).
Proof.
  intros H He. apply in_flat_map. exists b.
  split; [apply In_range; lia | assumption].
Qed.

Lemma barrier_same_step (k : Z) (t u : Task C) :
  lo <= k < hi -> In (Spawn t) (pre k) -> In (Spawn u) (post k) ->
  barrier_between (flat_map E (range lo hi) ++ tail) t u.
Proof.
  intros Hk Ht Hu.
  rewrite (steps_split E (lo := lo) (hi := hi) (a := k)) by lia.
  rewrite step_parts.
  replace ((flat_map E (range lo k)
            ++ (pre k ++ [Taskwait] ++ post k)
            ++ flat_map E (range (k + 1) hi)) ++ tail)
    with (flat_map E (range lo k) ++ pre k ++ [Taskwait] ++ post k
          ++ (flat_map E (range (k + 1) hi) ++ tail))
    by (now rewrite <- !app_assoc).
  apply barrier_parts; [assumption | now left | assumption].
Qed.

Lemma barrier_later_step (a b : Z) (t u : Task C) :
  lo <= a -> a < b < hi -> In (Spawn t) (pre a) -> In (Spawn u) (E b) ->
  barrier_between (flat_map E (range lo hi) ++ tail) t u.
Proof.
  intros Ha Hb Ht Hu.
  rewrite (steps_split E (lo := lo) (hi := hi) (a := a)) by lia.
  rewrite step_parts.
  replace ((flat_map E (range lo a)
            ++ (pre a ++ [Taskwait] ++ post a)
            ++ flat_map E (range (a + 1) hi)) ++ tail)
    with (flat_map E (range lo a) ++ pre a ++ [Taskwait]
          ++ (post a ++ flat_map E (range (a + 1) hi)) ++ tail)
    by (now rewrite <- !app_assoc).
  apply barrier_parts; [assumption | now left |].
  apply in_or_app. right. apply In_later_steps with (b := b); [lia |].
  assumption.
Qed.

Lemma barrier_into_later_step (a b : Z) (t u : Task C) :
  lo <= a -> a < b < hi -> In (Spawn t) (E a) -> In (Spawn u) (post b) ->
  barrier_between (flat_map E (range lo hi) ++ tail) t u.
Proof.
  intros Ha Hb Ht Hu.
  rewrite (steps_split E (lo := lo) (hi := hi) (a := b)) by lia.
  rewrite (step_parts b).
  replace ((flat_map E (range lo b)
            ++ (pre b ++ [Taskwait] ++ post b)
            ++ flat_map E (range (b + 1) hi)) ++ tail)
    with ([] ++ (flat_map E (range lo b) ++ pre b) ++ [Taskwait] ++ post b
          ++ (flat_map E (range (b + 1) hi) ++ tail))
    by (cbn [app]; now rewrite <- !app_assoc).
  apply barrier_parts; [| now left | assumption].
  apply in_or_app. left. apply in_flat_map. exists a.
  split; [apply In_range; lia | assumption].
Qed.

Lemma barrier_skipped_step (a b : Z) (t u : Task C) :
  lo <= a -> a + 1 < b < hi -> In (Spawn t) (E a) -> In (Spawn u) (E b) ->
  barrier_between (flat_map E (range lo hi) ++ tail) t u.
Proof.
  intros Ha Hb Ht Hu.
  rewrite (steps_split E (lo := lo) (hi := hi) (a := a)) by lia.
  rewrite (range_cons (lo := a + 1) (hi := hi)) by lia. cbn [flat_map].
  replace ((flat_map E (range lo a)
            ++ E a ++ E (a + 1) ++ flat_map E (range (a + 1 + 1) hi))
           ++ tail)
    with (flat_map E (range lo a) ++ E a ++ E (a + 1)
          ++ flat_map E (range (a + 1 + 1) hi) ++ tail)
    by (now rewrite <- !app_assoc).
  apply barrier_parts; [assumption | |].
  - rewrite step_parts. apply in_or_app. right. now left.
  - apply In_later_steps with (b := b); [lia | assumption].
Qed.

End Barriers.

Section Facts.

Context {S : Type} {SC : Scalar S}.
Context {TriangularMatrix : Type} {BA : BaseMatrix TriangularMatrix}
        {DA : Distributed TriangularMatrix}.
Context {Matrix : Type} {BB : BaseMatrix Matrix} {DB : Distributed Matrix}.

(** The rows of [B] each kind of task of a forward step writes and
    reads. *)

Lemma writes_panel_fwd target (alpha : S) (A : TriangularMatrix)
  (B : Matrix) mt nt lookahead local_opts k r :
  In r (task_writes
          (panel_fwd target alpha A B mt nt lookahead local_opts k)) ->
  r = k \/ (k = 0 /\ 0 <= r < mt).
Proof.
  unfold task_writes. intros H. apply in_flat_map in H.
  destruct H as (c & Hc & Hr).
  unfold panel_fwd in Hc. cbn [body] in Hc.
  apply in_app_or in Hc. destruct Hc as [Hc | Hc].
  { right. unfold scale_rhs_fwd in Hc.
    destruct ((k =? 0) && negb (s_eqb alpha s_one)) eqn:E;
      [| contradiction].
    apply andb_true_iff in E. destruct E as [E _]. apply Z.eqb_eq in E.
    apply in_map_iff in Hc. destruct Hc as ([i j] & <- & Hij).
    apply In_local_tiles in Hij. cbn in Hr.
    destruct Hr as [<- | []]. split; [assumption | lia]. }
  left. unfold create_local_B_fwd, send_back_fwd, reduce_list_fwd in Hc.
  TrsmASweepFacts.membership; cbn in Hr;
    rewrite ?map_map in Hr; cbn in Hr;
    try contradiction;
    try (destruct Hr as [<- | []]; reflexivity);
    try (apply in_map_iff in Hr; destruct Hr as (? & <- & _); reflexivity);
    try (unfold view_rows in Hr; cbn [view_extent fst snd] in Hr;
         apply In_range in Hr; lia).
Qed.

Lemma reads_panel_fwd target (alpha : S) (A : TriangularMatrix)
  (B : Matrix) mt nt lookahead local_opts k r :
  In r (task_reads
          (panel_fwd target alpha A B mt nt lookahead local_opts k)) ->
  r = k.
Proof.
  unfold task_reads. intros H. apply in_flat_map in H.
  destruct H as (c & Hc & Hr).
  unfold panel_fwd in Hc. cbn [body] in Hc.
  unfold scale_rhs_fwd, create_local_B_fwd, send_back_fwd, bcast_list_fwd
    in Hc.
  TrsmASweepFacts.membership; cbn in Hr;
    rewrite ?map_map in Hr; cbn in Hr;
    try contradiction;
    try (destruct Hr as [<- | []]; reflexivity);
    try (apply in_map_iff in Hr; destruct Hr as (? & <- & _); reflexivity).
Qed.

Lemma access_lookahead_fwd target nt local_opts k i r :
  (In r (task_writes (lookahead_task_fwd (S := S) target nt local_opts k i))
   -> r = i)
  /\ (In r (task_reads (lookahead_task_fwd (S := S) target nt local_opts k i))
      -> r = k).
Proof.
  unfold task_writes, task_reads, lookahead_task_fwd. cbn [body].
  split; intros H; apply in_flat_map in H; destruct H as (c & Hc & Hr);
    apply in_map_iff in Hc; destruct Hc as (j & <- & _);
    cbn in Hr; unfold view_rows in Hr; cbn [view_extent fst snd] in Hr;
    apply In_range in Hr; lia.
Qed.

Lemma access_trailing_fwd target mt nt lookahead local_opts k r :
  (In r (task_writes
           (trailing_task_fwd (S := S) target mt nt lookahead local_opts k))
   -> k + 1 + lookahead <= r <= mt - 1)
  /\ (In r (task_reads
              (trailing_task_fwd (S := S) target mt nt lookahead
                 local_opts k))
      -> r = k).
Proof.
  unfold task_writes, task_reads, trailing_task_fwd. cbn [body].
  split; intros H; apply in_flat_map in H; destruct H as (c & Hc & Hr);
    apply in_map_iff in Hc; destruct Hc as (j & <- & _);
    cbn in Hr; unfold view_rows in Hr; cbn [view_extent fst snd] in Hr;
    apply In_range in Hr; lia.
Qed.

Lemma access_cleanup_fwd k r :
  (In r (task_writes (cleanup_task_fwd (S := S) k)) -> r = k)
  /\ ~ In r (task_reads (cleanup_task_fwd (S := S) k)).
Proof.
  cbn. split; [intros [<- | []]; reflexivity | tauto].
Qed.

(** Tokens. *)

Lemma owns_panel_fwd target (alpha : S) (A : TriangularMatrix) (B : Matrix)
  mt nt lookahead local_opts k :
  owns_token k (panel_fwd target alpha A B mt nt lookahead local_opts k)
  = true.
Proof. cbn. now rewrite Z.eqb_refl. Qed.

Lemma tokens_lookahead_fwd target nt local_opts k i :
  reads_token k (lookahead_task_fwd (S := S) target nt local_opts k i) = true
  /\ owns_token i (lookahead_task_fwd (S := S) target nt local_opts k i)
     = true.
Proof. cbn. now rewrite !Z.eqb_refl. Qed.

Lemma tokens_trailing_fwd target mt nt lookahead local_opts k :
  reads_token k
    (trailing_task_fwd (S := S) target mt nt lookahead local_opts k) = true
  /\ owns_token (k + 1 + lookahead)
       (trailing_task_fwd (S := S) target mt nt lookahead local_opts k)
     = true
  /\ owns_token (mt - 1)
       (trailing_task_fwd (S := S) target mt nt lookahead local_opts k)
     = true.
Proof. cbn. now rewrite !Z.eqb_refl, !orb_true_r. Qed.

Lemma owns_cleanup_fwd k :
  owns_token k (cleanup_task_fwd (S := S) k) = true.
Proof. cbn. now rewrite Z.eqb_refl. Qed.

End Facts.

Section Forward.

Context {S : Type} {SC : Scalar S}.
Context {TriangularMatrix : Type} {BA : BaseMatrix TriangularMatrix}
        {DA : Distributed TriangularMatrix}.
Context {Matrix : Type} {BB : BaseMatrix Matrix} {DB : Distributed Matrix}.

Variables (target : Target) (alpha : S) (A : TriangularMatrix) (B : Matrix)
          (opts : Options).

#[local] Abbreviation la := (get_option (opt_Lookahead opts) 1).
#[local] Abbreviation n := (mt B).
#[local] Abbreviation E :=
  (step_fwd target alpha A B (mt B) (nt B)
     (get_option (opt_Lookahead opts) 1) (local_options opts)).
#[local] Abbreviation I :=
  (iteration_fwd target alpha A B (mt B) (nt B)
     (get_option (opt_Lookahead opts) 1) (local_options opts)).
#[local] Abbreviation pre :=
  (before_barrier target alpha A B (mt B) (nt B)
     (get_option (opt_Lookahead opts) 1) (local_options opts)).
#[local] Abbreviation post :=
  (after_barrier (S := S) target (mt B) (nt B)
     (get_option (opt_Lookahead opts) 1) (local_options opts)).
#[local] Abbreviation P :=
  (panel_fwd target alpha A B (mt B) (nt B)
     (get_option (opt_Lookahead opts) 1) (local_options opts)).
#[local] Abbreviation L :=
  (lookahead_task_fwd (S := S) target (nt B) (local_options opts)).
#[local] Abbreviation T :=
  (trailing_task_fwd (S := S) target (mt B) (nt B)
     (get_option (opt_Lookahead opts) 1) (local_options opts)).
#[local] Abbreviation Cl := (cleanup_task_fwd (S := S)).

Lemma step_fwd_parts (k : Z) : E k = pre k ++ [Taskwait] ++ post k.
Proof.
  unfold step_fwd, before_barrier, after_barrier.
  now rewrite <- !app_assoc.
Qed.

Lemma sweep_fwd_events :
  Uplo_eqb (uplo A) Lower = true ->
  sweep target alpha A B opts
  = flat_map E (range 0 n) ++ [Taskwait; ReleaseLocalTiles].
Proof. intros H. unfold sweep. rewrite H. reflexivity. Qed.

(** The tasks of a step: those created before its barrier and those
    created after it. *)
Lemma iteration_fwd_inv (k : Z) (t : Task (Call S)) :
  In t (I k) ->
  (In (Spawn t) (pre k)
   /\ (t = P k
       \/ exists i, (k + 1 <= i < n /\ i < k + 1 + la) /\ t = L k i))
  \/ (In (Spawn t) (post k)
      /\ ((k + 1 + la < n /\ t = T k) \/ t = Cl k)).
Proof.
  unfold iteration_fwd. intros [<- | Ht].
  { left. split; [now left | now left]. }
  apply in_app_or in Ht. destruct Ht as [Ht | Ht].
  { left. split.
    - unfold before_barrier. apply in_or_app. right. now apply in_map.
    - right. unfold lookahead_tasks_fwd in Ht. apply in_map_iff in Ht.
      destruct Ht as (i & <- & Hi).
      apply In_lookahead_rows_fwd in Hi. now exists i. }
  right. split.
  - unfold after_barrier. apply in_app_or in Ht.
    destruct Ht as [Ht | [<- | []]].
    + apply in_or_app. left. now apply in_map.
    + apply in_or_app. right. now left.
  - apply in_app_or in Ht. destruct Ht as [Ht | [<- | []]]; [| now right].
    left. unfold trailing_tasks_fwd in Ht.
    destruct (k + 1 + la <? n) eqn:El; [| contradiction].
    apply Z.ltb_lt in El. destruct Ht as [<- | []]. now split.
Qed.

Lemma In_step_fwd (k : Z) (t : Task (Call S)) :
  In (Spawn t) (pre k) \/ In (Spawn t) (post k) -> In (Spawn t) (E k).
Proof.
  rewrite step_fwd_parts. intros [H | H]; apply in_or_app;
    [now left | right; now right].
Qed.

Hypothesis Hla : 0 <= la.
Hypothesis Hlow : Uplo_eqb (uplo A) Lower = true.

(** X20. The forward sweep orders its tasks by its barriers and by the
    dependences together.  With a lookahead that is not negative,
    whenever two of its tasks touch the same tile row of [B] and one of
    them writes it, either a [taskwait] is executed between their
    creations or the one created later waits for the other through a
    token. *)
Theorem forward_sweep_is_ordered :
  forall t u r,
    precedes (tasks (sweep target alpha A B opts)) t u ->
    (In r (task_writes t) /\ (In r (task_writes u) \/ In r (task_reads u)))
    \/ (In r (task_reads t) /\ In r (task_writes u)) ->
    barrier_between (sweep target alpha A B opts) t u
    \/ waits_for (tasks (sweep target alpha A B opts)) t u.
Proof.
  intros t u r Hp Hconf.
  rewrite sweep_fwd_events by exact Hlow.
  rewrite <- sweep_fwd_events by exact Hlow.
  pose proof Hp as Hp'. rewrite tasks_sweep, Hlow in Hp'.
  destruct (iterations_of_precedes _ _ _ Hp')
    as (a & b & Ha & Hab & Hb & Ht & Hu). clear Hp'.
  apply iteration_fwd_inv in Ht. apply iteration_fwd_inv in Hu.
  assert (Hbar : forall a' b', 0 <= a' -> a' <= b' < n ->
            (a' < b' /\ In (Spawn t) (pre a') /\ In (Spawn u) (E b'))
            \/ (a' < b' /\ In (Spawn t) (E a') /\ In (Spawn u) (post b'))
            \/ (a' + 1 < b' /\ In (Spawn t) (E a') /\ In (Spawn u) (E b'))
            \/ (a' = b' /\ In (Spawn t) (pre a') /\ In (Spawn u) (post b'))
            ->
            barrier_between (sweep target alpha A B opts) t u).
  { intros a' b' Ha' Hb' Hcase. rewrite sweep_fwd_events by exact Hlow.
    destruct Hcase as [(H1 & H2 & H3) | [(H1 & H2 & H3)
                       | [(H1 & H2 & H3) | (H1 & H2 & H3)]]].
    - apply (barrier_later_step E pre post step_fwd_parts)
        with (a := a') (b := b'); (lia || assumption).
    - apply (barrier_into_later_step E pre post step_fwd_parts)
        with (a := a') (b := b'); (lia || assumption).
    - apply (barrier_skipped_step E pre post step_fwd_parts)
        with (a := a') (b := b'); (lia || assumption).
    - subst b'. apply (barrier_same_step E pre post step_fwd_parts)
        with (k := a'); (lia || assumption). }
  assert (Hdirect : forall tok,
            owns_token tok t = true ->
            owns_token tok u = true \/ reads_token tok u = true ->
            barrier_between (sweep target alpha A B opts) t u
            \/ waits_for (tasks (sweep target alpha A B opts)) t u).
  { intros tok H1 H2. right. now apply waits_for_token with (tok := tok). }
  assert (Hreader : forall tok,
            reads_token tok t = true -> owns_token tok u = true ->
            barrier_between (sweep target alpha A B opts) t u
            \/ waits_for (tasks (sweep target alpha A B opts)) t u).
  { intros tok H1 H2. right. now apply waits_for_reader with (tok := tok). }
  destruct Ht as [[Hts Ht] | [Hts Ht]]; destruct Hu as [[Hus Hu] | [Hus Hu]].
  - (* both created before the barrier of their step *)
    destruct (Z.eq_dec a b) as [<- | Hne].
    2: { left. apply (Hbar a b); [lia | lia |]. left.
         split; [lia |]. split; [assumption |].
         apply In_step_fwd. now left. }
    destruct Ht as [-> | (i & Hi & ->)]; destruct Hu as [-> | (i' & Hi' & ->)].
    + apply (Hdirect a); [apply owns_panel_fwd |].
      left. apply owns_panel_fwd.
    + apply (Hdirect a); [apply owns_panel_fwd |].
      right. apply tokens_lookahead_fwd.
    + apply (Hreader a); [apply tokens_lookahead_fwd | apply owns_panel_fwd].
    + apply (Hdirect i); [apply tokens_lookahead_fwd |].
      assert (i' = i) as ->.
      { destruct Hconf as [[Hw [Hw' | Hr']] | [Hr Hw']].
        - apply access_lookahead_fwd in Hw.
          apply access_lookahead_fwd in Hw'. lia.
        - apply access_lookahead_fwd in Hw.
          apply access_lookahead_fwd in Hr'. lia.
        - apply access_lookahead_fwd in Hr.
          apply access_lookahead_fwd in Hw'. lia. }
      left. apply tokens_lookahead_fwd.
  - (* the later task is created after the barrier of its step *)
    left. apply (Hbar a b); [lia | lia |].
    destruct (Z.eq_dec a b) as [<- | Hne].
    + do 3 right. auto.
    + right. left. split; [lia |]. split; [| assumption].
      apply In_step_fwd. now left.
  - (* the earlier task is created after the barrier of its step, the
       later one before the barrier of its own *)
    destruct (Z_lt_le_dec (a + 1) b) as [Hfar | Hnear].
    { left. apply (Hbar a b); [lia | lia |]. do 2 right. left.
      split; [lia |]. split; apply In_step_fwd; auto. }
    destruct Ht as [[Hta ->] | ->]; destruct Hu as [-> | (i' & Hi' & ->)].
    + (* trailing update, then panel *)
      destruct (Z.eq_dec a b) as [<- | Hne].
      * apply (Hreader a);
          [apply tokens_trailing_fwd | apply owns_panel_fwd].
      * assert (b = a + 1 + la) as ->.
        { destruct Hconf as [[Hw [Hw' | Hr']] | [Hr Hw']].
          - apply access_trailing_fwd in Hw.
            apply writes_panel_fwd in Hw'. lia.
          - apply access_trailing_fwd in Hw.
            apply reads_panel_fwd in Hr'. lia.
          - apply access_trailing_fwd in Hr.
            apply writes_panel_fwd in Hw'. lia. }
        apply (Hdirect (a + 1 + la)); [apply tokens_trailing_fwd |].
        left. apply owns_panel_fwd.
    + (* trailing update, then lookahead update *)
      assert (i' = a + 1 + la) as ->.
      { destruct Hconf as [[Hw [Hw' | Hr']] | [Hr Hw']].
        - apply access_trailing_fwd in Hw.
          apply access_lookahead_fwd in Hw'. lia.
        - apply access_trailing_fwd in Hw.
          apply access_lookahead_fwd in Hr'. lia.
        - apply access_trailing_fwd in Hr.
          apply access_lookahead_fwd in Hw'. lia. }
      apply (Hdirect (a + 1 + la)); [apply tokens_trailing_fwd |].
      left. apply tokens_lookahead_fwd.
    + (* cleanup, then panel *)
      assert (b = a) as ->.
      { destruct Hconf as [[Hw [Hw' | Hr']] | [Hr Hw']].
        - apply access_cleanup_fwd in Hw.
          apply writes_panel_fwd in Hw'. lia.
        - apply access_cleanup_fwd in Hw.
          apply reads_panel_fwd in Hr'. lia.
        - now apply access_cleanup_fwd in Hr. }
      apply (Hdirect a); [apply owns_cleanup_fwd |].
      left. apply owns_panel_fwd.
    + (* cleanup, then lookahead update *)
      assert (b = a) as ->.
      { destruct Hconf as [[Hw [Hw' | Hr']] | [Hr Hw']].
        - apply access_cleanup_fwd in Hw.
          apply access_lookahead_fwd in Hw'. lia.
        - apply access_cleanup_fwd in Hw.
          apply access_lookahead_fwd in Hr'. lia.
        - now apply access_cleanup_fwd in Hr. }
      apply (Hdirect a); [apply owns_cleanup_fwd |].
      right. apply tokens_lookahead_fwd.
  - (* both created after the barrier of their step *)
    destruct (Z.eq_dec a b) as [<- | Hne].
    2: { left. apply (Hbar a b); [lia | lia |]. right. left.
         split; [lia |]. split; [| assumption].
         apply In_step_fwd. now right. }
    destruct Ht as [[Hta ->] | ->]; destruct Hu as [[Htb ->] | ->].
    + apply (Hdirect (n - 1)); [apply tokens_trailing_fwd |].
      left. apply tokens_trailing_fwd.
    + apply (Hreader a);
        [apply tokens_trailing_fwd | apply owns_cleanup_fwd].
    + apply (Hdirect a); [apply owns_cleanup_fwd |].
      right. apply tokens_trailing_fwd.
    + apply (Hdirect a); [apply owns_cleanup_fwd |].
      left. apply owns_cleanup_fwd.
Qed.

End Forward.

End TrsmAForwardFacts.

(** ** The release of the tiles of [B] that ends the solve *)

Module TrsmAReleaseFacts.

Import Loop LoopFacts TrsmARelease.

(** A loop over distinct keys whose steps each append to a log entries
    carrying the key of the step, none twice, appends no entry twice. *)
Lemma fold_appends {St X K : Type} (log : St -> list X) (key : X -> K)
  (step : St -> K -> St) (P : K -> X -> Prop) (ks : list K) :
  NoDup ks ->
  (forall st k, exists l,
      log (step st k) = log st ++ l /\ NoDup l
      /\ forall x, In x l -> key x = k /\ P k x) ->
  forall st, exists l,
    log (fold_left step ks st) = log st ++ l /\ NoDup l
    /\ forall x, In x l -> In (key x) ks /\ P (key x) x.
Proof.
  intros Hks Hstep. induction Hks as [| k ks Hk Hks IH]; intros st.
  - exists []. cbn. rewrite app_nil_r.
    split; [reflexivity |]. split; [constructor |]. intros x [].
  - cbn [fold_left].
    destruct (Hstep st k) as (l1 & E1 & N1 & K1).
    destruct (IH (step st k)) as (l2 & E2 & N2 & K2).
    exists (l1 ++ l2). split; [| split].
    + rewrite E2, E1, app_assoc. reflexivity.
    + apply NoDup_app; [assumption | assumption |].
      intros x H1 H2. apply K1 in H1. apply K2 in H2.
      destruct H1 as [H1 _]. destruct H2 as [H2 _].
      rewrite H1 in H2. contradiction.
    + intros x Hx. apply in_app_or in Hx. destruct Hx as [Hx | Hx].
      * destruct (K1 x Hx) as [-> HP]. split; [now left | assumption].
      * destruct (K2 x Hx) as [Hin HP]. split; [now right | assumption].
Qed.

Lemma find_first {X : Type} (f : X -> bool) (l : list X) (x : X) :
  find f l = Some x ->
  exists l1 l2, l = l1 ++ x :: l2 /\ f x = true
                /\ forall y, In y l1 -> f y = false.
Proof.
  induction l as [| y l IH]; [discriminate |].
  cbn. destruct (f y) eqn:E.
  - intros H. injection H as ->. exists [], l.
    repeat split; [assumption | intros ? []].
  - intros H. destruct (IH H) as (l1 & l2 & -> & Hx & Hl1).
    exists (y :: l1), l2. repeat split; [assumption |].
    intros z [<- | Hz]; [assumption | now apply Hl1].
Qed.

Section Facts.

Context {TriangularMatrix : Type} {BA : BaseMatrix TriangularMatrix}
        {DA : Distributed TriangularMatrix}.
Context {Matrix : Type} {BB : BaseMatrix Matrix}.

Variable Registry : Type.
Variable HostNum : Z.
Variable tileExists : Registry -> Z -> Z -> Z -> bool.
Variable tileRelease : Registry -> Z -> Z -> Z -> Registry.

Lemma release_if_exists_log (i k d : Z) (st : ReleaseState Registry) :
  snd (release_if_exists tileExists tileRelease i k d st) = snd st
  \/ snd (release_if_exists tileExists tileRelease i k d st)
     = snd st ++ [(i, k, d)].
Proof.
  unfold release_if_exists.
  destruct (tileExists (fst st) i k d); [now right | now left].
Qed.

Lemma release_row_log (target : Target) (A : TriangularMatrix)
  (nt i j : Z) (st : ReleaseState Registry) :
  exists l,
    snd (release_row HostNum tileExists tileRelease target A nt i j st)
    = snd st ++ l
    /\ NoDup l
    /\ forall x, In x l ->
         fst (fst x) = i /\ 0 <= snd (fst x) < nt
         /\ (snd x = HostNum
             \/ (target = Devices /\ snd x = tileDevice A i j)).
Proof.
  unfold release_row.
  set (device := if Target_eqb target Devices then tileDevice A i j
                 else HostNum).
  assert (Hdev : device = HostNum
                 \/ (target = Devices /\ device = tileDevice A i j)).
  { subst device. destruct target; cbn; auto. }
  destruct (fold_appends (@snd Registry (list (Z * Z * Z)))
              (fun x => snd (fst x))
              (fun st k =>
                 let st := release_if_exists tileExists tileRelease
                             i k device st in
                 if negb (device =? HostNum)
                 then release_if_exists tileExists tileRelease
                        i k HostNum st
                 else st)
              (fun k x => fst (fst x) = i
                          /\ (snd x = HostNum
                              \/ (target = Devices
                                  /\ snd x = tileDevice A i j)))
              (NoDup_range 0 nt)) with (st := st) as (l & E & N & K).
  - intros st' k. cbv zeta.
    destruct (release_if_exists_log i k device st') as [E1 | E1];
      destruct (device =? HostNum) eqn:Eh; cbn [negb].
    + exists []. rewrite E1, app_nil_r.
      split; [reflexivity |]. split; [constructor |]. intros ? [].
    + destruct (release_if_exists_log i k HostNum
                  (release_if_exists tileExists tileRelease i k device st'))
        as [E2 | E2]; rewrite E2, E1.
      * exists []. rewrite app_nil_r.
        split; [reflexivity |]. split; [constructor |]. intros ? [].
      * exists [(i, k, HostNum)].
        split; [reflexivity |].
        split; [repeat constructor; intros [] |].
        intros x [<- | []]; cbn; auto.
    + exists [(i, k, device)]. rewrite E1.
      split; [reflexivity |].
      split; [repeat constructor; intros [] |].
      intros x [<- | []]; cbn; auto.
    + apply Z.eqb_neq in Eh.
      destruct (release_if_exists_log i k HostNum
                  (release_if_exists tileExists tileRelease i k device st'))
        as [E2 | E2]; rewrite E2, E1.
      * exists [(i, k, device)].
        split; [reflexivity |].
        split; [repeat constructor; intros [] |].
        intros x [<- | []]; cbn; auto.
      * exists [(i, k, device); (i, k, HostNum)].
        rewrite <- app_assoc. split; [reflexivity |]. split.
        -- repeat constructor; [| intros []].
           intros [H | []]. injection H as H. congruence.
        -- intros x [<- | [<- | []]]; cbn; auto.
  - exists l. split; [exact E |]. split; [exact N |].
    intros x Hx. destruct (K x Hx) as (Hk & Hi & Hd).
    apply In_range in Hk. auto.
Qed.

(** X22. The loop that ends the solve releases no tile instance twice.
    It releases tiles [B(i, k)], [0 <= k < nt], only of the rows [i] in
    which this process owns a tile of [A], taking the device from the
    first such tile [A(i, j)] of the row; the instance released is the
    host one, or, for the device target, the one on that device. *)
Theorem final_release_discipline (target : Target) (A : TriangularMatrix)
  (B : Matrix) (reg : Registry) :
  let released :=
    snd (release_local_tiles HostNum tileExists tileRelease target A B
           (reg, [])) in
  NoDup released
  /\ forall i k d, In (i, k, d) released ->
       0 <= i < mt A /\ 0 <= k < nt B
       /\ exists j,
            0 <= j < nt A /\ tileIsLocal A i j = true
            /\ (forall j', 0 <= j' < j -> tileIsLocal A i j' = false)
            /\ (d = HostNum \/ (target = Devices /\ d = tileDevice A i j)).
Proof.
  cbv zeta. unfold release_local_tiles.
  destruct (fold_appends (@snd Registry (list (Z * Z * Z)))
              (fun x => fst (fst x))
              (fun st i =>
                 match first_local A i with
                 | Some j => release_row HostNum tileExists tileRelease
                               target A (nt B) i j st
                 | None => st
                 end)
              (fun i x =>
                 0 <= snd (fst x) < nt B
                 /\ exists j,
                      0 <= j < nt A /\ tileIsLocal A i j = true
                      /\ (forall j', 0 <= j' < j ->
                                     tileIsLocal A i j' = false)
                      /\ (snd x = HostNum
                          \/ (target = Devices
                              /\ snd x = tileDevice A i j)))
              (NoDup_range 0 (mt A))) with (st := (reg, @nil (Z * Z * Z)))
    as (l & E & N & K).
  - intros st i. destruct (first_local A i) as [j |] eqn:Ef.
    + destruct (release_row_log target A (nt B) i j st)
        as (l & E & N & K).
      exists l. split; [exact E |]. split; [exact N |].
      intros x Hx. destruct (K x Hx) as (Hi & Hk & Hd).
      split; [exact Hi |]. split; [exact Hk |].
      exists j. unfold first_local in Ef. apply find_first in Ef.
      destruct Ef as (l1 & l2 & Er & Hloc & Hbefore).
      assert (Hj : In j (range 0 (nt A)))
        by (rewrite Er; apply in_or_app; right; now left).
      apply In_range in Hj.
      split; [exact Hj |]. split; [exact Hloc |]. split; [| exact Hd].
      intros j' Hj'. apply Hbefore.
      assert (Hin : In j' (range 0 (nt A))) by (apply In_range; lia).
      rewrite Er in Hin. apply in_app_or in Hin.
      destruct Hin as [Hin | Hin]; [exact Hin |].
      exfalso.
      assert (Hsplit : range 0 (nt A)
                       = range 0 j ++ j :: range (j + 1) (nt A)).
      { rewrite (CensusFacts.range_app (lo := 0) (mid := j) (hi := nt A))
          by lia.
        f_equal. apply range_cons. lia. }
      (* [j'] is before [j] in the range, [l1] is the part before [j] *)
      assert (Hl1 : l1 = range 0 j).
      { pose proof (NoDup_range 0 (nt A)) as Hnd.
        rewrite Hsplit in Er.
        clear - Er Hnd Hsplit. rewrite Hsplit in Hnd.
        revert Er Hnd. generalize (range 0 j) as p.
        generalize (range (j + 1) (nt A)) as q.
        intros q p. revert l1.
        induction p as [| y p IH]; intros l1 Er Hnd.
        - destruct l1 as [| z l1]; [reflexivity |].
          cbn in Er. injection Er as <- Er. exfalso.
          inversion Hnd as [| ? ? Hnot _]. apply Hnot.
          rewrite Er. apply in_or_app. right. now left.
        - destruct l1 as [| z l1].
          + cbn in Er. injection Er as <- Er. exfalso.
            inversion Hnd as [| ? ? Hnot _]. apply Hnot.
            apply in_or_app. right. now left.
          + cbn in Er. injection Er as <- Er. f_equal.
            apply IH; [assumption |]. now inversion Hnd. }
      subst l1. pose proof (NoDup_range 0 (nt A)) as Hnd.
      rewrite Er in Hnd. apply NoDup_remove_2 in Hnd.
      destruct Hin as [<- | Hin]; [lia |].
      assert (Hj'' : In j' (range (j + 1) (nt A))).
      { rewrite Hsplit in Er. apply app_inv_head in Er.
        injection Er as <-. exact Hin. }
      apply In_range in Hj''. lia.
    + exists []. rewrite app_nil_r.
      split; [reflexivity |]. split; [constructor |]. intros ? [].
  - cbn [snd app] in E.
    match goal with
    | |- NoDup ?X /\ _ => replace X with l by (symmetry; exact E)
    end.
    split; [exact N |].
    intros i k d Hin. destruct (K _ Hin) as (Hi & Hk & Hj).
    cbn [fst snd] in *. apply In_range in Hi.
    split; [exact Hi |]. split; [exact Hk |]. exact Hj.
Qed.

End Facts.

End TrsmAReleaseFacts.

(** ** What the panel broadcasts, and to where *)

Module BcastFacts.

Import Loop LoopFacts GraphFacts Potrf PotrfBcast.

Lemma flat_map_nested {X Y W : Type} (f : X -> list Y) (g : Y -> list W)
  (l : list X) :
  flat_map g (flat_map f l) = flat_map (fun x => flat_map g (f x)) l.
Proof.
  induction l as [| x l IH]; cbn [flat_map]; [reflexivity |].
  now rewrite flat_map_app, IH.
Qed.

Lemma NoDup_map_injective {X Y : Type} (f : X -> Y) (l : list X) :
  (forall x y, f x = f y -> x = y) -> NoDup l -> NoDup (map f l).
Proof.
  intros Hf Hl. induction Hl as [| x l Hx Hl IH]; cbn [map]; constructor.
  - intros Hin. apply in_map_iff in Hin. destruct Hin as (y & Hy & Hin).
    apply Hf in Hy. now subst y.
  - exact IH.
Qed.

Lemma covers_sub (i1 i2 j1 j2 r c : Z) :
  covers (sub i1 i2 j1 j2) r c = true <-> i1 <= r <= i2 /\ j1 <= c <= j2.
Proof.
  unfold covers. cbn [view_extent].
  rewrite !Bool.andb_true_iff, !Z.leb_le. lia.
Qed.

Lemma In_bcast_list_A (A_nt k : Z) (e : BcastEntry) :
  In e (bcast_list_A A_nt k) ->
  bc_j e = k /\ k + 1 <= bc_i e <= A_nt - 1 /\ bc_tag e = Some (bc_i e)
  /\ forall r c, sent_to e r c = true
                 <-> k + 1 <= c <= r /\ r <= A_nt - 1
                     /\ (r = bc_i e \/ c = bc_i e).
Proof.
  unfold bcast_list_A. intros He. apply in_map_iff in He.
  destruct He as (i & <- & Hi). apply In_range in Hi. cbn [bc_i bc_j bc_tag].
  split; [reflexivity |]. split; [lia |]. split; [reflexivity |].
  intros r c. unfold sent_to. cbn [bc_dst existsb].
  rewrite !Bool.orb_true_iff, !covers_sub. split; [| lia].
  intros [H | [H | H]]; [lia | lia | discriminate H].
Qed.

Lemma bc_tile_bcast_list_A (A_nt k : Z) :
  map bc_tile (bcast_list_A A_nt k)
  = map (fun i => (i, k)) (range (k + 1) A_nt).
Proof.
  unfold bcast_list_A. rewrite map_map. reflexivity.
Qed.

Lemma task_bcasts_panel (A_nt k : Z) :
  task_bcasts (panel A_nt k) = bcast_list_A A_nt k.
Proof.
  unfold task_bcasts, panel. cbn [body].
  destruct (k + 1 <=? A_nt - 1); cbn [flat_map app call_bcasts];
    apply app_nil_r.
Qed.

Lemma task_bcasts_panel_dev (A_nt lookahead k : Z) :
  task_bcasts (panel_dev A_nt lookahead k) = bcast_list_A A_nt k.
Proof.
  unfold task_bcasts, panel_dev. cbn [body].
  destruct (k + 1 <=? A_nt - 1); cbn [flat_map app call_bcasts];
    apply app_nil_r.
Qed.

Lemma task_bcasts_others target strategy (A_nt lookahead k : Z) (t : Task Call) :
  In t (lookahead_tasks A_nt lookahead k
        ++ trailing_tasks target A_nt lookahead k)
  \/ In t (trailing_tasks_dev A_nt lookahead k
           ++ lookahead_tasks_dev A_nt lookahead k
           ++ release_panel_tasks strategy lookahead k
           ++ clean_tiles_tasks strategy k) ->
  task_bcasts t = [].
Proof.
  unfold lookahead_tasks, trailing_tasks, trailing_tasks_dev,
    lookahead_tasks_dev, release_panel_tasks, clean_tiles_tasks.
  intros [H | H];
    repeat match goal with
    | H : In _ (_ ++ _) |- _ => apply in_app_or in H; destruct H as [H | H]
    | H : In _ (if ?b then _ else _) |- _ => destruct b
    | H : In _ (map _ _) |- _ =>
        apply in_map_iff in H; destruct H as (? & <- & ?)
    | H : In _ [] |- _ => contradiction
    | H : In _ (_ :: _) |- _ => destruct H as [<- | H]
    end;
    unfold task_bcasts, lookahead_task, lookahead_task_dev; cbn [body];
    try reflexivity;
    match goal with
    | |- context [if ?b then _ else _] => destruct b; reflexivity
    end.
Qed.

Lemma bcasts_iteration target (A_nt lookahead k : Z) :
  flat_map task_bcasts (iteration target A_nt lookahead k)
  = bcast_list_A A_nt k.
Proof.
  unfold iteration. cbn [flat_map]. rewrite task_bcasts_panel.
  rewrite flat_map_nil_ext; [apply app_nil_r |].
  intros t Ht. apply (task_bcasts_others target TRS_All A_nt lookahead k).
  now left.
Qed.

Lemma bcasts_iteration_dev strategy (A_nt lookahead k : Z) :
  flat_map task_bcasts (iteration_dev strategy A_nt lookahead k)
  = bcast_list_A A_nt k.
Proof.
  unfold iteration_dev. cbn [flat_map]. rewrite task_bcasts_panel_dev.
  rewrite flat_map_nil_ext; [apply app_nil_r |].
  intros t Ht. apply (task_bcasts_others HostTask strategy A_nt lookahead k).
  now right.
Qed.

Lemma panel_of_iteration target (A_nt lookahead k : Z) (t : Task Call)
  (e : BcastEntry) :
  In t (iteration target A_nt lookahead k) -> In e (task_bcasts t) ->
  role t = Panel /\ depends t = [dep_inout k] /\ In e (bcast_list_A A_nt k).
Proof.
  unfold iteration. intros [<- | Ht] He.
  - rewrite task_bcasts_panel in He. now repeat split.
  - rewrite (task_bcasts_others target TRS_All A_nt lookahead k) in He
      by now left.
    destruct He.
Qed.

Lemma panel_of_iteration_dev strategy (A_nt lookahead k : Z) (t : Task Call)
  (e : BcastEntry) :
  In t (iteration_dev strategy A_nt lookahead k) -> In e (task_bcasts t) ->
  role t = Panel /\ depends t = [dep_inout k] /\ In e (bcast_list_A A_nt k).
Proof.
  unfold iteration_dev. intros [<- | Ht] He.
  - rewrite task_bcasts_panel_dev in He. now repeat split.
  - rewrite (task_bcasts_others HostTask strategy A_nt lookahead k) in He
      by now right.
    destruct He.
Qed.

Section Facts.

Context {HermitianMatrix : Type} {BM : BaseMatrix HermitianMatrix}.

Lemma potrf_iterations (A : HermitianMatrix) (opts : Options) :
  exists g : Z -> list (Task Call),
    tasks (events (potrf A opts))
    = flat_map g (range 0 (nt (view (potrf A opts))))
    /\ (forall k, flat_map task_bcasts (g k)
                  = bcast_list_A (nt (view (potrf A opts))) k)
    /\ (forall k t e, In t (g k) -> In e (task_bcasts t) ->
          role t = Panel /\ depends t = [dep_inout k]
          /\ In e (bcast_list_A (nt (view (potrf A opts))) k)).
Proof.
  rewrite PotrfFacts.potrf_selected, PotrfFacts.view_specialization.
  destruct (selected opts); cbn [specialization_potrf].
  5: {
    eexists. split; [apply PotrfFacts.tasks_devices |]. split.
    - intros k. apply bcasts_iteration_dev.
    - intros k t e. apply panel_of_iteration_dev. }
  all: eexists; (split; [apply PotrfFacts.tasks_generic |]); split;
    [intros k; apply bcasts_iteration
    | intros k t e; apply panel_of_iteration].
Qed.

(** X26. What the factorization broadcasts after each panel, under every
    target.  Every tile [A(i, k)] strictly below the diagonal is an entry of
    a broadcast list exactly once in the whole factorization; the entry is
    in the panel task of column [k] and carries the tag [i]; and its
    destinations are exactly the tiles [(r, c)] of the trailing lower
    triangle ([k+1 <= c <= r <= nt-1]) in tile row [i] or tile column [i]:
    each tile of the trailing triangle receives the panel tiles of its own
    row and of its own column, and nothing is sent above the diagonal or
    outside the matrix. *)
Theorem panel_tiles_sent_along_row_and_column (A : HermitianMatrix)
  (opts : Options) :
  let s := potrf A opts in
  let A_nt := nt (view s) in
  let sent := flat_map task_bcasts (tasks (events s)) in
  NoDup (map bc_tile sent)
  /\ (forall i k, In (i, k) (map bc_tile sent)
                  <-> 0 <= k /\ k + 1 <= i <= A_nt - 1)
  /\ (forall t e, In t (tasks (events s)) -> In e (task_bcasts t) ->
        role t = Panel /\ depends t = [dep_inout (bc_j e)]
        /\ bc_tag e = Some (bc_i e))
  /\ (forall e r c, In e sent ->
        (sent_to e r c = true
         <-> bc_j e + 1 <= c <= r /\ r <= A_nt - 1
             /\ (r = bc_i e \/ c = bc_i e))).
Proof.
  intros s A_nt sent. subst s A_nt sent.
  destruct (potrf_iterations A opts) as (g & -> & Hg & Hp).
  rewrite flat_map_nested.
  rewrite (flat_map_ext _ _ Hg).
  set (n := nt (view (potrf A opts))).
  split; [| split; [| split]].
  - rewrite flat_map_concat_map, concat_map, map_map, <- flat_map_concat_map.
    apply (ReleaseFacts.NoDup_flat_map_rows snd).
    + apply NoDup_range.
    + intros k. rewrite bc_tile_bcast_list_A.
      apply NoDup_map_injective; [| apply NoDup_range].
      intros x y H. now injection H.
    + intros k p Hp'. rewrite bc_tile_bcast_list_A in Hp'.
      apply in_map_iff in Hp'. destruct Hp' as (i & <- & _). reflexivity.
  - intros i k. rewrite in_map_iff. split.
    + intros (e & He & Hin). apply in_flat_map in Hin.
      destruct Hin as (k' & Hk' & Hin). apply In_range in Hk'.
      apply In_bcast_list_A in Hin. unfold bc_tile in He.
      injection He as <- <-. lia.
    + intros (Hk & Hi).
      exists {| bc_i := i; bc_j := k;
                bc_dst := [sub i i (k+1) i; sub i (n-1) i i];
                bc_tag := Some i |}.
      split; [reflexivity |]. apply in_flat_map. exists k.
      split; [apply In_range; lia |].
      unfold bcast_list_A.
      apply (in_map (fun i => {| bc_i := i; bc_j := k;
                bc_dst := [sub i i (k+1) i; sub i (n-1) i i];
                bc_tag := Some i |})).
      apply In_range. lia.
  - intros t e Ht He. apply in_flat_map in Ht. destruct Ht as (k & Hk & Ht).
    destruct (Hp k t e Ht He) as (Hr & Hd & Hin).
    apply In_bcast_list_A in Hin. destruct Hin as (Hj & _ & Htag & _).
    rewrite Hj. auto.
  - intros e r c He. apply in_flat_map in He. destruct He as (k & Hk & He).
    apply In_bcast_list_A in He. destruct He as (Hj & _ & _ & H).
    rewrite Hj. apply H.
Qed.

End Facts.

End BcastFacts.

(** ** What the solve broadcasts, and to where *)

Module TrsmABcastFacts.

Import Loop LoopFacts GraphFacts TrsmA TrsmABcast TrsmAFacts.
Import TrsmASweepFacts BcastFacts.

(** A sweep whose every step sends row [k] of [B] to where it is
    multiplied has the same property as a whole. *)
Section Steps.

Context {S : Type}.

Variable g : Z -> list (Task (Call S)).
Variable ks : list Z.
Variables m n la : Z.

Hypothesis NoDup_ks : NoDup ks.
Hypothesis In_ks : forall k, In k ks <-> 0 <= k < m.

Hypothesis step_tiles : forall k,
  map bc_tile (flat_map task_bcasts (g k))
  = map (fun j => (k, j)) (range 0 n).

Hypothesis step_panel : forall k t e,
  In t (g k) -> In e (task_bcasts t) ->
  role t = Panel /\ depends t = [dep_inout k] /\ bc_i e = k.

Hypothesis step_used : 0 <= la -> forall k t a b r c,
  In t (g k) -> In (a, b) (task_factors t) -> covers b r c = true ->
  reads_token r t = true
  /\ exists e, In e (flat_map task_bcasts (g k)) /\ bc_tile e = (r, c)
               /\ forall i c', covers a i c' = true -> sent_to e i c' = true.

Hypothesis step_sent : forall k e i c,
  In e (flat_map task_bcasts (g k)) -> sent_to e i c = true ->
  exists t a b, In t (g k) /\ reads_token (bc_i e) t = true
                /\ In (a, b) (task_factors t)
                /\ covers b (bc_i e) (bc_j e) = true
                /\ covers a i c = true.

Lemma sweep_bcasts :
  let ts := flat_map g ks in
  let sent := flat_map task_bcasts ts in
  NoDup (map bc_tile sent)
  /\ (forall k j, In (k, j) (map bc_tile sent)
                  <-> 0 <= k < m /\ 0 <= j < n)
  /\ (forall t e, In t ts -> In e (task_bcasts t) ->
        role t = Panel /\ depends t = [dep_inout (bc_i e)])
  /\ (0 <= la -> forall t a b r c,
        In t ts -> In (a, b) (task_factors t) -> covers b r c = true ->
        reads_token r t = true
        /\ exists e, In e sent /\ bc_tile e = (r, c)
                     /\ forall i c', covers a i c' = true ->
                                     sent_to e i c' = true)
  /\ (forall e i c, In e sent -> sent_to e i c = true ->
        exists t a b, In t ts /\ reads_token (bc_i e) t = true
                      /\ In (a, b) (task_factors t)
                      /\ covers b (bc_i e) (bc_j e) = true
                      /\ covers a i c = true).
Proof.
  intros ts sent. subst ts sent. rewrite flat_map_nested.
  assert (Htiles : map bc_tile
                     (flat_map (fun k => flat_map task_bcasts (g k)) ks)
                   = flat_map (fun k => map (fun j => (k, j)) (range 0 n))
                              ks).
  { rewrite flat_map_concat_map, concat_map, map_map,
      <- flat_map_concat_map.
    apply flat_map_ext. intros k. apply step_tiles. }
  split; [| split; [| split; [| split]]].
  - rewrite Htiles. apply (ReleaseFacts.NoDup_flat_map_rows fst).
    + exact NoDup_ks.
    + intros k. apply NoDup_map_injective; [| apply NoDup_range].
      intros x y H. now injection H.
    + intros k p Hp. apply in_map_iff in Hp.
      destruct Hp as (j & <- & _). reflexivity.
  - intros k j. rewrite Htiles, in_flat_map. split.
    + intros (k' & Hk' & Hin). apply in_map_iff in Hin.
      destruct Hin as (j' & Heq & Hj'). injection Heq as <- <-.
      apply In_ks in Hk'. apply In_range in Hj'. split; assumption.
    + intros (Hk & Hj). exists k. split; [now apply In_ks |].
      apply (in_map (fun j => (k, j))). now apply In_range.
  - intros t e Ht He. apply in_flat_map in Ht. destruct Ht as (k & Hk & Ht).
    destruct (step_panel k t e Ht He) as (Hr & Hd & Hi).
    rewrite Hi. now split.
  - intros Hla t a b r c Ht Hf Hc. apply in_flat_map in Ht.
    destruct Ht as (k & Hk & Ht).
    destruct (step_used Hla k t a b r c Ht Hf Hc) as (Hread & e & He & Hrest).
    split; [exact Hread |]. exists e. split; [| exact Hrest].
    apply in_flat_map. now exists k.
  - intros e i c He Hs. apply in_flat_map in He. destruct He as (k & Hk & He).
    destruct (step_sent k e i c He Hs) as (t & a & b & Ht & Hrest).
    exists t, a, b. split; [| exact Hrest].
    apply in_flat_map. now exists k.
Qed.

End Steps.

Section Facts.

Context {S : Type} {SC : Scalar S}.
Context {TriangularMatrix : Type} {BA : BaseMatrix TriangularMatrix}
        {DA : Distributed TriangularMatrix}.
Context {Matrix : Type} {BB : BaseMatrix Matrix} {DB : Distributed Matrix}.

Ltac quiet :=
  apply flat_map_nil_ext; intros c Hc; membership; reflexivity.

(** *** Forward *)

Lemma task_bcasts_panel_fwd target (alpha : S) (A : TriangularMatrix)
  (B : Matrix) mt nt lookahead local_opts k :
  task_bcasts (panel_fwd target alpha A B mt nt lookahead local_opts k)
  = bcast_list_fwd mt nt k.
Proof.
  unfold task_bcasts, panel_fwd. cbn [body].
  rewrite !flat_map_app. cbn [flat_map call_bcasts app].
  replace (flat_map call_bcasts (scale_rhs_fwd target alpha B mt nt k))
    with (@nil BcastEntry) by (symmetry; unfold scale_rhs_fwd; quiet).
  replace (flat_map call_bcasts (create_local_B_fwd (S := S) target A B nt k))
    with (@nil BcastEntry) by (symmetry; unfold create_local_B_fwd; quiet).
  replace (flat_map call_bcasts (send_back_fwd (S := S) A B nt k))
    with (@nil BcastEntry) by (symmetry; unfold send_back_fwd; quiet).
  destruct (tileIsLocal A k k); cbn [flat_map call_bcasts app];
    apply app_nil_r.
Qed.

Lemma task_factors_panel_fwd target (alpha : S) (A : TriangularMatrix)
  (B : Matrix) mt nt lookahead local_opts k :
  task_factors (panel_fwd target alpha A B mt nt lookahead local_opts k)
  = [].
Proof.
  unfold task_factors, panel_fwd, scale_rhs_fwd, create_local_B_fwd,
    send_back_fwd. cbn [body].
  apply flat_map_nil_ext; intros c Hc; membership; reflexivity.
Qed.

Lemma others_fwd target mt nt lookahead local_opts k
  (t : Task (Call S)) :
  In t (lookahead_tasks_fwd target mt nt lookahead local_opts k
        ++ trailing_tasks_fwd target mt nt lookahead local_opts k
        ++ [cleanup_task_fwd k]) ->
  task_bcasts t = []
  /\ forall a b, In (a, b) (task_factors t) ->
       reads_token k t = true
       /\ (exists j, 0 <= j < nt /\ b = sub k k j j)
       /\ ((exists i, (k + 1 <= i < mt /\ i < k + 1 + lookahead)
                      /\ a = sub i i k k)
           \/ (k + 1 + lookahead < mt
               /\ a = sub (k + 1 + lookahead) (mt - 1) k k)).
Proof.
  unfold lookahead_tasks_fwd, trailing_tasks_fwd. intros Ht.
  apply in_app_or in Ht. destruct Ht as [Ht | Ht].
  - apply in_map_iff in Ht. destruct Ht as (i & <- & Hi).
    apply In_lookahead_rows_fwd in Hi. split.
    + unfold task_bcasts, lookahead_task_fwd. cbn [body]. quiet.
    + intros a b Hf. unfold task_factors, lookahead_task_fwd in Hf.
      cbn [body] in Hf. apply in_flat_map in Hf.
      destruct Hf as (c & Hc & Hf). apply in_map_iff in Hc.
      destruct Hc as (j & <- & Hj). apply In_range in Hj.
      cbn [call_factors] in Hf. destruct Hf as [Hf | []].
      injection Hf as <- <-. split.
      { unfold reads_token. cbn. now rewrite Z.eqb_refl. }
      split; [now exists j |]. left. now exists i.
  - apply in_app_or in Ht. destruct Ht as [Ht | Ht].
    + destruct (k + 1 + lookahead <? mt) eqn:E; [| contradiction].
      apply Z.ltb_lt in E. destruct Ht as [<- | []]. split.
      * unfold task_bcasts, trailing_task_fwd. cbn [body]. quiet.
      * intros a b Hf. unfold task_factors, trailing_task_fwd in Hf.
        cbn [body] in Hf. apply in_flat_map in Hf.
        destruct Hf as (c & Hc & Hf). apply in_map_iff in Hc.
        destruct Hc as (j & <- & Hj). apply In_range in Hj.
        cbn [call_factors] in Hf. destruct Hf as [Hf | []].
        injection Hf as <- <-. split.
        { unfold reads_token. cbn. now rewrite Z.eqb_refl. }
        split; [now exists j |]. right. now split.
    + destruct Ht as [<- | []]. split; [reflexivity |].
      intros a b [].
Qed.

Lemma bcasts_iteration_fwd target (alpha : S) (A : TriangularMatrix)
  (B : Matrix) mt nt lookahead local_opts k :
  flat_map task_bcasts
    (iteration_fwd target alpha A B mt nt lookahead local_opts k)
  = bcast_list_fwd mt nt k.
Proof.
  unfold iteration_fwd. cbn [flat_map]. rewrite task_bcasts_panel_fwd.
  rewrite flat_map_nil_ext; [apply app_nil_r |].
  intros t Ht. now apply others_fwd in Ht.
Qed.

Lemma In_bcast_list_fwd (mt nt k : Z) (e : BcastEntry) :
  In e (bcast_list_fwd mt nt k)
  <-> exists j, 0 <= j < nt
                /\ e = {| bc_i := k; bc_j := j;
                          bc_dst := [sub (k+1) (mt-1) k k];
                          bc_tag := None |}.
Proof.
  unfold bcast_list_fwd. rewrite in_map_iff. split.
  - intros (j & <- & Hj). apply In_range in Hj. now exists j.
  - intros (j & Hj & ->). exists j. split; [reflexivity |].
    now apply In_range.
Qed.

Lemma sent_to_single (i j : Z) (d : View) (tag : option Z) (r c : Z) :
  sent_to {| bc_i := i; bc_j := j; bc_dst := [d]; bc_tag := tag |} r c
  = covers d r c.
Proof. unfold sent_to. cbn [bc_dst existsb]. apply Bool.orb_false_r. Qed.

(** *** Backward *)

Lemma task_bcasts_panel_bwd target (alpha : S) (A : TriangularMatrix)
  (B : Matrix) mt nt opts k :
  task_bcasts (panel_bwd target alpha A B mt nt opts k)
  = bcast_list_bwd nt k.
Proof.
  unfold task_bcasts, panel_bwd. cbn [body].
  rewrite !flat_map_app. cbn [flat_map call_bcasts app].
  replace (flat_map call_bcasts (scale_rhs_bwd alpha B mt nt k))
    with (@nil BcastEntry) by (symmetry; unfold scale_rhs_bwd; quiet).
  replace (flat_map call_bcasts (create_local_B_bwd (S := S) A B nt k k))
    with (@nil BcastEntry) by (symmetry; unfold create_local_B_bwd; quiet).
  replace (flat_map call_bcasts (send_back_bwd (S := S) A B nt k))
    with (@nil BcastEntry) by (symmetry; unfold send_back_bwd; quiet).
  replace (flat_map call_bcasts
             (map (fun j => tileErase_nonlocal (S := S) k j) (range 0 nt)))
    with (@nil BcastEntry) by (symmetry; quiet).
  destruct (tileIsLocal A k k); cbn [flat_map call_bcasts app];
    apply app_nil_r.
Qed.

Lemma task_factors_panel_bwd target (alpha : S) (A : TriangularMatrix)
  (B : Matrix) mt nt opts k :
  task_factors (panel_bwd target alpha A B mt nt opts k) = [].
Proof.
  unfold task_factors, panel_bwd, scale_rhs_bwd, create_local_B_bwd,
    send_back_bwd. cbn [body].
  apply flat_map_nil_ext; intros c Hc; membership; reflexivity.
Qed.

Lemma others_bwd (A : TriangularMatrix) (B : Matrix) nt lookahead k t :
  In t (lookahead_tasks_bwd (S := S) A B nt lookahead k
        ++ trailing_tasks_bwd A B nt lookahead k) ->
  task_bcasts t = []
  /\ forall a b, In (a, b) (task_factors t) ->
       reads_token k t = true
       /\ b = sub k k 0 (nt - 1)
       /\ ((exists i, (0 <= i <= k - 1 /\ k - 1 - lookahead < i)
                      /\ a = sub i i k k)
           \/ (0 <= k - 1 - lookahead
               /\ a = sub 0 (k - 1 - lookahead) k k)).
Proof.
  unfold lookahead_tasks_bwd, trailing_tasks_bwd. intros Ht.
  apply in_app_or in Ht. destruct Ht as [Ht | Ht].
  - apply in_map_iff in Ht. destruct Ht as (i & <- & Hi).
    apply In_lookahead_rows_bwd in Hi. split.
    + unfold task_bcasts, lookahead_task_bwd, create_local_B_bwd.
      cbn [body]. quiet.
    + intros a b Hf.
      unfold task_factors, lookahead_task_bwd, create_local_B_bwd in Hf.
      cbn [body] in Hf. apply in_flat_map in Hf.
      destruct Hf as (c & Hc & Hf). membership;
        cbn [call_factors] in Hf; try contradiction.
      destruct Hf as [Hf | []]. injection Hf as <- <-. split.
      { unfold reads_token. cbn. now rewrite Z.eqb_refl. }
      split; [reflexivity |]. left. now exists i.
  - destruct (k - 1 - lookahead >=? 0) eqn:E; [| contradiction].
    apply Z.geb_le in E. destruct Ht as [<- | []]. split.
    + unfold task_bcasts, trailing_task_bwd, create_local_B_bwd.
      cbn [body]. quiet.
    + intros a b Hf.
      unfold task_factors, trailing_task_bwd, create_local_B_bwd in Hf.
      cbn [body] in Hf. apply in_flat_map in Hf.
      destruct Hf as (c & Hc & Hf). membership;
        cbn [call_factors] in Hf; try contradiction.
      destruct Hf as [Hf | []]. injection Hf as <- <-. split.
      { unfold reads_token. cbn. now rewrite Z.eqb_refl. }
      split; [reflexivity |]. right. split; [lia | reflexivity].
Qed.

Lemma bcasts_iteration_bwd target (alpha : S) (A : TriangularMatrix)
  (B : Matrix) mt nt lookahead opts k :
  flat_map task_bcasts
    (iteration_bwd target alpha A B mt nt lookahead opts k)
  = bcast_list_bwd nt k.
Proof.
  unfold iteration_bwd. cbn [flat_map]. rewrite task_bcasts_panel_bwd.
  rewrite flat_map_nil_ext; [apply app_nil_r |].
  intros t Ht. now apply others_bwd in Ht.
Qed.

Lemma In_bcast_list_bwd (nt k : Z) (e : BcastEntry) :
  In e (bcast_list_bwd nt k)
  <-> exists j, 0 <= j < nt
                /\ e = {| bc_i := k; bc_j := j;
                          bc_dst := [sub 0 (k-1) k k];
                          bc_tag := None |}.
Proof.
  unfold bcast_list_bwd. rewrite in_map_iff. split.
  - intros (j & <- & Hj). apply In_range in Hj. now exists j.
  - intros (j & Hj & ->). exists j. split; [reflexivity |].
    now apply In_range.
Qed.

(** *** The whole solve *)

(** X27. What the solve broadcasts, in either sweep.  Every tile of [B] is
    an entry of a broadcast list exactly once, in the panel task of its own
    tile row.  With a lookahead of at least 0, whenever a tile update
    multiplies a view of [A] with a tile [B(r, c)], the task reads token
    [r] and [B(r, c)] has been broadcast to destinations that contain that
    whole view of [A].  Conversely, for every lookahead, each tile a
    broadcast entry is sent to is multiplied with the entry's tile by an
    update of the same step. *)
Theorem solved_rows_sent_where_they_are_multiplied target (alpha : S)
  (A : TriangularMatrix) (B : Matrix) (opts : Options) :
  let lookahead := get_option (opt_Lookahead opts) 1 in
  let ts := tasks (sweep target alpha A B opts) in
  let sent := flat_map task_bcasts ts in
  NoDup (map bc_tile sent)
  /\ (forall k j, In (k, j) (map bc_tile sent)
                  <-> 0 <= k < mt B /\ 0 <= j < nt B)
  /\ (forall t e, In t ts -> In e (task_bcasts t) ->
        role t = Panel /\ depends t = [dep_inout (bc_i e)])
  /\ (0 <= lookahead -> forall t a b r c,
        In t ts -> In (a, b) (task_factors t) -> covers b r c = true ->
        reads_token r t = true
        /\ exists e, In e sent /\ bc_tile e = (r, c)
                     /\ forall i c', covers a i c' = true ->
                                     sent_to e i c' = true)
  /\ (forall e i c, In e sent -> sent_to e i c = true ->
        exists t a b, In t ts /\ reads_token (bc_i e) t = true
                      /\ In (a, b) (task_factors t)
                      /\ covers b (bc_i e) (bc_j e) = true
                      /\ covers a i c = true).
Proof.
  intros lookahead ts sent. subst ts sent. rewrite tasks_sweep.
  fold lookahead.
  destruct (Uplo_eqb (uplo A) Lower).
  - apply sweep_bcasts with (m := mt B) (n := nt B) (la := lookahead).
    + apply NoDup_range.
    + intros k. apply In_range.
    + intros k. rewrite bcasts_iteration_fwd. unfold bcast_list_fwd.
      rewrite map_map. reflexivity.
    + intros k t e Ht He. unfold iteration_fwd in Ht.
      destruct Ht as [<- | Ht].
      * rewrite task_bcasts_panel_fwd in He. apply In_bcast_list_fwd in He.
        destruct He as (j & _ & ->). now repeat split.
      * apply others_fwd in Ht. destruct Ht as (Hn & _).
        rewrite Hn in He. destruct He.
    + intros Hla k t a b r c Ht Hf Hc. unfold iteration_fwd in Ht.
      destruct Ht as [<- | Ht].
      * rewrite task_factors_panel_fwd in Hf. destruct Hf.
      * apply others_fwd in Ht. destruct Ht as (_ & Hfac).
        destruct (Hfac a b Hf) as (Hread & (j & Hj & ->) & Ha).
        apply covers_sub in Hc.
        assert (r = k) by lia. assert (c = j) by lia. subst r c.
        split; [exact Hread |].
        exists {| bc_i := k; bc_j := j;
                  bc_dst := [sub (k+1) (mt B - 1) k k];
                  bc_tag := None |}.
        split.
        { rewrite bcasts_iteration_fwd. apply In_bcast_list_fwd.
          now exists j. }
        split; [reflexivity |].
        intros i c' Hcov. rewrite sent_to_single. apply covers_sub.
        destruct Ha as [(i0 & Hi0 & ->) | (Htr & ->)];
          apply covers_sub in Hcov; lia.
    + intros k e i c He Hs. rewrite bcasts_iteration_fwd in He.
      apply In_bcast_list_fwd in He. destruct He as (j & Hj & ->).
      rewrite sent_to_single in Hs. apply covers_sub in Hs.
      cbn [bc_i bc_j].
      destruct (Z_lt_le_dec i (k + 1 + lookahead)) as [Hi | Hi].
      * exists (lookahead_task_fwd target (nt B) (local_options opts) k i),
          (sub i i k k), (sub k k j j).
        split.
        { unfold iteration_fwd. right. apply in_or_app. left.
          unfold lookahead_tasks_fwd. apply in_map.
          apply In_lookahead_rows_fwd. lia. }
        split.
        { unfold reads_token. cbn. now rewrite Z.eqb_refl. }
        split.
        { unfold task_factors, lookahead_task_fwd. cbn [body].
          apply in_flat_map. eexists. split.
          - apply (in_map _ _ j). now apply In_range.
          - now left. }
        split; apply covers_sub; lia.
      * exists (trailing_task_fwd target (mt B) (nt B) lookahead
                  (local_options opts) k),
          (sub (k + 1 + lookahead) (mt B - 1) k k), (sub k k j j).
        split.
        { unfold iteration_fwd. right. apply in_or_app. right.
          apply in_or_app. left. unfold trailing_tasks_fwd.
          replace (k + 1 + lookahead <? mt B) with true
            by (symmetry; apply Z.ltb_lt; lia).
          now left. }
        split.
        { unfold reads_token. cbn. now rewrite Z.eqb_refl. }
        split.
        { unfold task_factors, trailing_task_fwd. cbn [body].
          apply in_flat_map. eexists. split.
          - apply (in_map _ _ j). now apply In_range.
          - now left. }
        split; apply covers_sub; lia.
  - apply sweep_bcasts with (m := mt B) (n := nt B) (la := lookahead).
    + apply NoDup_range_down_0.
    + intros k. apply In_range_down_0.
    + intros k. rewrite bcasts_iteration_bwd. unfold bcast_list_bwd.
      rewrite map_map. reflexivity.
    + intros k t e Ht He. unfold iteration_bwd in Ht.
      destruct Ht as [<- | Ht].
      * rewrite task_bcasts_panel_bwd in He. apply In_bcast_list_bwd in He.
        destruct He as (j & _ & ->). now repeat split.
      * apply others_bwd in Ht. destruct Ht as (Hn & _).
        rewrite Hn in He. destruct He.
    + intros Hla k t a b r c Ht Hf Hc. unfold iteration_bwd in Ht.
      destruct Ht as [<- | Ht].
      * rewrite task_factors_panel_bwd in Hf. destruct Hf.
      * apply others_bwd in Ht. destruct Ht as (_ & Hfac).
        destruct (Hfac a b Hf) as (Hread & -> & Ha).
        apply covers_sub in Hc.
        assert (r = k) by lia. subst r.
        split; [exact Hread |].
        exists {| bc_i := k; bc_j := c;
                  bc_dst := [sub 0 (k-1) k k];
                  bc_tag := None |}.
        split.
        { rewrite bcasts_iteration_bwd. apply In_bcast_list_bwd.
          exists c. split; [lia | reflexivity]. }
        split; [reflexivity |].
        intros i c' Hcov. rewrite sent_to_single. apply covers_sub.
        destruct Ha as [(i0 & Hi0 & ->) | (Htr & ->)];
          apply covers_sub in Hcov; lia.
    + intros k e i c He Hs. rewrite bcasts_iteration_bwd in He.
      apply In_bcast_list_bwd in He. destruct He as (j & Hj & ->).
      rewrite sent_to_single in Hs. apply covers_sub in Hs.
      cbn [bc_i bc_j].
      destruct (Z_lt_le_dec (k - 1 - lookahead) i) as [Hi | Hi].
      * exists (lookahead_task_bwd A B (nt B) k i),
          (sub i i k k), (sub k k 0 (nt B - 1)).
        split.
        { unfold iteration_bwd. right. apply in_or_app. left.
          unfold lookahead_tasks_bwd. apply in_map.
          apply In_lookahead_rows_bwd. lia. }
        split.
        { unfold reads_token. cbn. now rewrite Z.eqb_refl. }
        split.
        { unfold task_factors, lookahead_task_bwd. cbn [body].
          rewrite flat_map_app. apply in_or_app. right. now left. }
        split; apply covers_sub; lia.
      * exists (trailing_task_bwd A B (nt B) lookahead k),
          (sub 0 (k - 1 - lookahead) k k), (sub k k 0 (nt B - 1)).
        split.
        { unfold iteration_bwd. right. apply in_or_app. right.
          unfold trailing_tasks_bwd.
          replace (k - 1 - lookahead >=? 0) with true
            by (symmetry; apply Z.geb_le; lia).
          now left. }
        split.
        { unfold reads_token. cbn. now rewrite Z.eqb_refl. }
        split.
        { unfold task_factors, trailing_task_bwd. cbn [body].
          rewrite flat_map_app. apply in_or_app. right. now left. }
        split; apply covers_sub; lia.
Qed.

End Facts.

End TrsmABcastFacts.

(** ** Where the solve waits for its tasks *)

Module TrsmABarrierFacts.

Import Loop LoopFacts GraphFacts TrsmA TrsmACalls TrsmAFacts.
Import TrsmASweepFacts TrsmAForwardFacts BcastFacts.

Lemma outline_app {C : Type} (l1 l2 : list (Event C)) :
  outline (l1 ++ l2) = outline l1 ++ outline l2.
Proof. apply flat_map_app. Qed.

Lemma outline_spawns {C : Type} (ts : list (Task C)) :
  outline (map (@Spawn C) ts) = map (fun t => Some (role t)) ts.
Proof.
  induction ts as [| t ts IH]; [reflexivity |].
  cbn [map]. change (outline (Spawn t :: map (@Spawn C) ts))
    with (Some (role t) :: outline (map (@Spawn C) ts)).
  now rewrite IH.
Qed.

(** No barrier lies between two task creations when the only [taskwait]
    follows all of them. *)
Lemma no_barrier_before_the_end {C : Type} (l : list (Event C))
  (t u : Task C) :
  ~ In Taskwait l ->
  ~ barrier_between (l ++ [Taskwait; ReleaseLocalTiles]) t u.
Proof.
  intros Hno (i & b & j & Hib & Hbj & _ & Hb & Hj).
  assert (Hlen : (List.length l <= b)%nat).
  { destruct (Nat.le_gt_cases (List.length l) b) as [H | H]; [exact H |].
    rewrite nth_error_app1 in Hb by exact H.
    apply nth_error_In in Hb. contradiction. }
  rewrite nth_error_app2 in Hj by lia.
  destruct (j - List.length l)%nat as [| [| r]] eqn:Er.
  - lia.
  - discriminate Hj.
  - cbn in Hj. destruct r; discriminate Hj.
Qed.

Section Facts.

Context {S : Type} {SC : Scalar S}.
Context {TriangularMatrix : Type} {BA : BaseMatrix TriangularMatrix}
        {DA : Distributed TriangularMatrix}.
Context {Matrix : Type} {BB : BaseMatrix Matrix} {DB : Distributed Matrix}.

Lemma outline_step_fwd target (alpha : S) (A : TriangularMatrix)
  (B : Matrix) mt nt lookahead local_opts k :
  outline (step_fwd target alpha A B mt nt lookahead local_opts k)
  = [Some Panel]
    ++ map (fun _ => Some Lookahead) (lookahead_rows_fwd mt lookahead k)
    ++ [None]
    ++ (if k + 1 + lookahead <? mt then [Some Trailing] else [])
    ++ [Some Cleanup].
Proof.
  unfold step_fwd. rewrite !outline_app, !outline_spawns.
  unfold lookahead_tasks_fwd, trailing_tasks_fwd. rewrite map_map.
  destruct (k + 1 + lookahead <? mt); reflexivity.
Qed.

Lemma outline_step_bwd target (alpha : S) (A : TriangularMatrix)
  (B : Matrix) mt nt lookahead opts k :
  outline (step_bwd target alpha A B mt nt lookahead opts k)
  = [Some Panel]
    ++ map (fun _ => Some Lookahead) (lookahead_rows_bwd lookahead k)
    ++ (if k - 1 - lookahead >=? 0 then [Some Trailing] else []).
Proof.
  unfold step_bwd. rewrite !outline_app, !outline_spawns.
  unfold lookahead_tasks_bwd, trailing_tasks_bwd. rewrite map_map.
  destruct (k - 1 - lookahead >=? 0); reflexivity.
Qed.

Lemma no_taskwait_step_bwd target (alpha : S) (A : TriangularMatrix)
  (B : Matrix) mt nt lookahead opts k :
  ~ In Taskwait (step_bwd target alpha A B mt nt lookahead opts k).
Proof.
  unfold step_bwd. intros H.
  repeat (apply in_app_or in H; destruct H as [H | H]);
    try (apply in_map_iff in H; destruct H as (? & H & _); discriminate H).
  destruct H as [H | []]. discriminate H.
Qed.

(** X9. Where the solve waits for its tasks.  Keeping of the run only the
    order in which tasks are created and barriers executed: each forward
    step creates its panel task and its lookahead updates, executes one
    [taskwait], and then creates the trailing update, if any, and the
    cleanup task; each backward step creates its panel task, its lookahead
    updates and the trailing update, if any, with no [taskwait]; one
    [taskwait] ends the solve.  So a forward sweep executes [mt + 1]
    barriers and a backward sweep one; in a forward step the panel task and
    the lookahead updates have ended when the trailing update and the
    cleanup task of the step are created; and in a backward sweep no
    barrier lies between two task creations. *)
Theorem barriers_of_the_sweep target (alpha : S) (A : TriangularMatrix)
  (B : Matrix) (opts : Options) :
  let lookahead := get_option (opt_Lookahead opts) 1 in
  let es := sweep target alpha A B opts in
  outline es
  = (if Uplo_eqb (uplo A) Lower
     then flat_map (fun k =>
            [Some Panel]
            ++ map (fun _ => Some Lookahead)
                   (lookahead_rows_fwd (mt B) lookahead k)
            ++ [None]
            ++ (if k + 1 + lookahead <? mt B then [Some Trailing] else [])
            ++ [Some Cleanup])
          (range 0 (mt B))
     else flat_map (fun k =>
            [Some Panel]
            ++ map (fun _ => Some Lookahead) (lookahead_rows_bwd lookahead k)
            ++ (if k - 1 - lookahead >=? 0 then [Some Trailing] else []))
          (range_down (mt B - 1) 0))
    ++ [None]
  /\ List.length (filter is_taskwait es)
     = (if Uplo_eqb (uplo A) Lower then Z.to_nat (mt B) + 1 else 1)%nat
  /\ (Uplo_eqb (uplo A) Lower = true ->
      forall k t u, 0 <= k < mt B ->
        In t (panel_fwd target alpha A B (mt B) (nt B) lookahead
                (local_options opts) k
              :: lookahead_tasks_fwd target (mt B) (nt B) lookahead
                   (local_options opts) k) ->
        In u (trailing_tasks_fwd target (mt B) (nt B) lookahead
                (local_options opts) k ++ [cleanup_task_fwd k]) ->
        barrier_between es t u)
  /\ (Uplo_eqb (uplo A) Lower = false ->
      forall t u, ~ barrier_between es t u).
Proof.
  intros lookahead es. subst es.
  split; [| split; [apply count_taskwaits | split]].
  - unfold sweep. fold lookahead. rewrite outline_app.
    change (outline [Taskwait; ReleaseLocalTiles])
      with (@cons (option Role) None nil).
    f_equal. unfold outline at 1.
    destruct (Uplo_eqb (uplo A) Lower); rewrite flat_map_nested;
      apply flat_map_ext; intros k.
    + apply outline_step_fwd.
    + apply outline_step_bwd.
  - intros Hlow k t u Hk Ht Hu.
    rewrite (sweep_fwd_events target alpha A B opts Hlow).
    apply (@barrier_same_step _ _ _ _
             (step_fwd_parts target alpha A B opts)) with (k := k).
    + exact Hk.
    + unfold before_barrier. destruct Ht as [<- | Ht]; [now left |].
      right. now apply in_map.
    + unfold after_barrier. apply in_app_or in Hu.
      apply in_or_app. destruct Hu as [Hu | Hu].
      * left. now apply in_map.
      * right. destruct Hu as [<- | []]. now left.
  - intros Hup t u. unfold sweep. rewrite Hup.
    apply no_barrier_before_the_end. intros H.
    apply in_flat_map in H. destruct H as (k & _ & H).
    now apply no_taskwait_step_bwd in H.
Qed.

End Facts.

End TrsmABarrierFacts.

(** ** Further properties of the eigensolver driver *)

Module StedcExits.

Import Stedc.

Section Facts.

Context {real_t : Type} {RT : RealType real_t} {Matrix : Type}.
Variable lanst : Norm -> Z -> list real_t -> list real_t -> real_t.
Variable lascl : MatrixType -> Z -> Z -> real_t -> real_t -> Z -> Z ->
                 list real_t -> Z -> option (list real_t).
Variable emptyLike : Matrix -> Matrix.
Variable insertLocalTiles : Matrix -> Matrix.
Variable set : real_t -> real_t -> Matrix -> Options -> Matrix.
Variable stedc_solve :
  list real_t -> list real_t -> Matrix -> Matrix -> Matrix -> Options ->
  list real_t * list real_t * Matrix * Matrix * Matrix.
Variable stedc_sort :
  list real_t -> Matrix -> Matrix -> Options -> list real_t * Matrix.

(** X12. [stedc] throws [std::domain_error] exactly when the max norm of
    the input is infinite or NaN, always with the same message and before
    it has written to [D], [E] or [Q].  The only other exception comes from
    one of its own calls of [lascl] (the scaling of [D] or of [E] from the
    norm to one, or the scaling of the eigenvalues back), so it needs a
    norm that is neither zero, infinite nor NaN.  When the norm is zero,
    infinite or NaN, [lascl], the solver and the sort are not called: the
    result does not depend on them. *)
Theorem stedc_throws_exactly_on_inf_or_nan (D E : list real_t) (Q : Matrix)
  (opts : Options) :
  let n := Z.of_nat (List.length D) in
  let Anorm := lanst NormMax n D E in
  let run lascl solve sort :=
    stedc lanst lascl emptyLike insertLocalTiles set solve sort D E Q opts in
  (forall what x,
     run lascl stedc_solve stedc_sort = Throws_domain_error what x
     <-> r_isinf Anorm || r_isnan Anorm = true
         /\ what = "Input matrix contains Inf or NaN"%string
         /\ x = (D, E, Q))
  /\ (forall x,
        run lascl stedc_solve stedc_sort = Throws_lapack_error x ->
        r_eqb Anorm r_zero = false
        /\ r_isinf Anorm || r_isnan Anorm = false
        /\ exists cfrom cto m A,
             lascl MT_General 0 0 cfrom cto m 1 A m = None
             /\ ((cfrom = Anorm /\ cto = r_one /\ (m = n \/ m = n - 1))
                 \/ (cfrom = r_one /\ cto = Anorm /\ m = n)))
  /\ (r_eqb Anorm r_zero || r_isinf Anorm || r_isnan Anorm = true ->
      forall lascl' solve' sort',
        run lascl' solve' sort' = run lascl stedc_solve stedc_sort).
Proof.
  intros n Anorm run. subst run. cbv beta. unfold stedc. fold n. fold Anorm.
  split; [| split].
  - intros what x. split.
    + intros H.
      destruct (r_eqb Anorm r_zero); [discriminate |].
      destruct (r_isinf Anorm || r_isnan Anorm).
      * injection H as <- <-. auto.
      * unfold scaled_solve in H.
        repeat match type of H with
               | context [match ?o with Some _ => _ | None => _ end] =>
                   destruct o
               | context [let '(_, _) := ?p in _] => destruct p
               end; discriminate H.
    + intros (Hs & -> & ->).
      rewrite (r_special_nonzero _ Hs), Hs. reflexivity.
  - intros x H.
    destruct (r_eqb Anorm r_zero); [discriminate |].
    destruct (r_isinf Anorm || r_isnan Anorm); [discriminate |].
    split; [reflexivity |]. split; [reflexivity |].
    unfold scaled_solve in H.
    destruct (lascl MT_General 0 0 Anorm r_one n 1 D n) as [D1 |] eqn:E1.
    2: { exists Anorm, r_one, n, D. split; [exact E1 |]. left. auto. }
    destruct (lascl MT_General 0 0 Anorm r_one (n - 1) 1 E (n - 1))
      as [E2 |] eqn:E2'.
    2: { exists Anorm, r_one, (n - 1), E. split; [exact E2' |]. left. auto. }
    destruct (stedc_solve _ _ _ _ _ _) as [[[[d e] w] q] u].
    destruct (stedc_sort d w q opts) as [d' q'].
    destruct (lascl MT_General 0 0 r_one Anorm n 1 d' n) as [D3 |] eqn:E3.
    { discriminate H. }
    exists r_one, Anorm, n, d'. split; [exact E3 |]. right. auto.
  - intros Hexit lascl' solve' sort'.
    destruct (r_eqb Anorm r_zero); [reflexivity |].
    cbn [orb] in Hexit. rewrite Hexit. reflexivity.
Qed.

End Facts.

End StedcExits.

(** ** Further properties of the LAPACK-style entry point *)

Module PivotFacts.

Import LapackApi.

Lemma inner_pivots (g : Pivot -> Z) (row : list Pivot) (ipiv : list Z) :
  fold_left (fun ipiv p => ipiv ++ [g p]) row ipiv = ipiv ++ map g row.
Proof.
  revert ipiv. induction row as [| p row IH]; intros ipiv; cbn.
  - now rewrite app_nil_r.
  - rewrite IH, <- app_assoc. reflexivity.
Qed.

Lemma outer_pivots (nb : Z) (pivots : list (list Pivot)) (ipiv : list Z)
  (s : nat) :
  fst (fold_left
         (fun (st : list Z * Z) (t : list Pivot) =>
            let '(ipiv, t_iter_add) := st in
            (fold_left
               (fun ipiv p =>
                  ipiv ++ [to_int (tileIndex p * nb + elementOffset p + 1
                                   + t_iter_add)])
               t ipiv,
             t_iter_add + nb))
         pivots (ipiv, Z.of_nat s * nb))
  = ipiv
    ++ concat
         (map (fun tr =>
                 map (fun p => to_int (tileIndex p * nb + elementOffset p + 1
                                       + Z.of_nat (fst tr) * nb))
                     (snd tr))
              (combine (seq s (List.length pivots)) pivots)).
Proof.
  revert ipiv s. induction pivots as [| row pivots IH]; intros ipiv s.
  - cbn. now rewrite app_nil_r.
  - cbn [fold_left List.length seq combine map concat fst snd].
    rewrite inner_pivots.
    replace (Z.of_nat s * nb + nb) with (Z.of_nat (Datatypes.S s) * nb)
      by (rewrite Nat2Z.inj_succ; ring).
    rewrite IH, <- app_assoc. reflexivity.
Qed.

(** X13. The pivots [slate_gesv] hands back in [ipiv]: the pivots of all
    the panels in order, none dropped or added, each as a 1-based row
    number: pivot [p] of panel [t] becomes
    [tileIndex p * nb + elementOffset p + 1 + t * nb], narrowed to [int]. *)
Theorem extract_pivots_global_rows (nb : Z) (pivots : list (list Pivot)) :
  extract_pivots nb pivots
  = concat
      (map (fun tr =>
              map (fun p => to_int (tileIndex p * nb + elementOffset p + 1
                                    + Z.of_nat (fst tr) * nb))
                  (snd tr))
           (combine (seq 0 (List.length pivots)) pivots))
  /\ List.length (extract_pivots nb pivots) = List.length (concat pivots).
Proof.
  assert (H := outer_pivots nb pivots [] 0). cbn [app Z.of_nat Z.mul] in H.
  unfold extract_pivots. rewrite H. clear H. split; [reflexivity |].
  generalize 0%nat.
  induction pivots as [| row pivots IH]; intros s; [reflexivity |].
  cbn [List.length seq combine map concat fst snd].
  rewrite !length_app, length_map. f_equal. apply IH.
Qed.

End PivotFacts.

(** ** Properties of the norm of a trapezoid matrix *)

Module TrnormFacts.

Import Trnorm.

Section Facts.

Context {real_t : Type} {TrapezoidMatrix : Type}.
Variable A_m A_n : TrapezoidMatrix -> Z.
Variable kernel : Target -> Norm -> Diag -> TrapezoidMatrix -> list real_t.
Variable allreduce : ReduceOp -> Z -> list real_t -> list real_t.
Variable lange_max : Z -> list real_t -> real_t.
Variable r_mul : real_t -> real_t -> real_t.
Variable r_sqrt : real_t -> real_t.
Variable r_unset : real_t.

#[local] Abbreviation run :=
  (trnorm A_m A_n kernel allreduce lange_max r_mul r_sqrt r_unset).

(** X23. Which implementation [trnorm] runs, and what every run does.
    Options without a target select [HostTask]; [Host] is run as
    [HostTask] and [HostBatch] as [HostNest], so the kernel is only ever
    instantiated with [HostTask], [HostNest] or [Devices].  Whatever the
    norm, a call runs the kernel once, then reduces once over the
    processes (the maximum that propagates NaN for the max norm, a sum
    otherwise; [n] values for the one norm, [m] for the infinity norm, one
    value otherwise), and ends by clearing the workspace; it reserves
    device workspace first exactly when the target is [Devices]. *)
Theorem trnorm_dispatch_and_steps (norm : Norm) (diag : Diag)
  (A : TrapezoidMatrix) (opts : Options) :
  let with_target t :=
    {| opt_Lookahead := opt_Lookahead opts; opt_Target := Some t;
       opt_TileReleaseStrategy := opt_TileReleaseStrategy opts;
       opt_MaxPanelThreads := opt_MaxPanelThreads opts;
       opt_InnerBlocking := opt_InnerBlocking opts |} in
  let steps := snd (run norm diag A opts) in
  (opt_Target opts = None ->
   run norm diag A opts = run norm diag A (with_target HostTask))
  /\ run norm diag A (with_target Host)
     = run norm diag A (with_target HostTask)
  /\ run norm diag A (with_target HostBatch)
     = run norm diag A (with_target HostNest)
  /\ (exists t, kernel_targets steps = [t]
                /\ (t = HostTask \/ t = HostNest \/ t = Devices)
                /\ (hd_error steps = Some reserveDeviceWorkspace
                    <-> t = Devices)
                /\ (In reserveDeviceWorkspace steps <-> t = Devices))
  /\ reductions steps
     = [match norm with
        | NormMax => (1, op_max_nan)
        | NormOne => (A_n A, MPI_SUM)
        | NormInf => (A_m A, MPI_SUM)
        | NormFro => (1, MPI_SUM)
        end]
  /\ last steps reserveDeviceWorkspace = clearWorkspace.
Proof.
  cbv zeta. unfold trnorm, trnorm_target. cbn [opt_Target].
  split; [intros ->; reflexivity |].
  split; [reflexivity |]. split; [reflexivity |].
  destruct (opt_Target opts) as [[ | | | | ] |], norm;
    cbn [specialization_trnorm snd reserve Target_eqb app kernel_targets
         reductions flat_map hd_error last];
    (split; [eexists; split; [reflexivity |]; split; [tauto |];
             split; split; intros H;
             try discriminate H; try reflexivity;
             repeat (destruct H as [H | H]; try discriminate H);
             try contradiction; auto
            | split; reflexivity]).
  all: now left.
Qed.

End Facts.

End TrnormFacts.

(** ** Properties of the unit tests of the tile routines *)

Module UnitTestFacts.

Import Loop LoopFacts UnitTest.

(** X24. The entries [test_assert_equal] compares.  For every value of
    [uplo] and [op] exactly one of the flags general, lower and upper is
    set, so the assertion on them never fails; the entries compared are
    those of the triangle that is stored, seen through [op]: entry
    [(i, j)] of a transposed tile is compared exactly when entry [(j, i)]
    would be without the transposition.  The check passes exactly when
    every compared entry is within tolerance; entries outside the triangle
    have no influence. *)
Theorem test_assert_equal_compares_the_stored_triangle {scalar_t : Type}
  (within_tolerance : scalar_t -> scalar_t -> bool)
  (uplo : Uplo) (op : Op) (mb nb : Z)
  (A : Z -> Z -> scalar_t) (B : Z -> scalar_t) (ldb : Z) :
  (general uplo || lower uplo op || upper uplo op = true
   /\ general uplo && lower uplo op = false
   /\ general uplo && upper uplo op = false
   /\ lower uplo op && upper uplo op = false)
  /\ (forall i j,
        compared uplo op i j
        = if Op_eqb op NoTrans then compared uplo NoTrans i j
          else compared uplo NoTrans j i)
  /\ (test_assert_equal within_tolerance uplo op mb nb A B ldb = Some tt
      <-> forall i j, 0 <= i < mb -> 0 <= j < nb ->
            compared uplo op i j = true ->
            within_tolerance (A i j) (B (i + j * ldb)) = true)
  /\ (forall A' B',
        (forall i j, 0 <= i < mb -> 0 <= j < nb ->
           compared uplo op i j = true ->
           A' i j = A i j /\ B' (i + j * ldb) = B (i + j * ldb)) ->
        test_assert_equal within_tolerance uplo op mb nb A' B' ldb
        = test_assert_equal within_tolerance uplo op mb nb A B ldb).
Proof.
  assert (Hflags : general uplo || lower uplo op || upper uplo op = true)
    by (destruct uplo, op; reflexivity).
  assert (Hpass : forall A0 B0,
            test_assert_equal within_tolerance uplo op mb nb A0 B0 ldb
            = Some tt
            <-> forall i j, 0 <= i < mb -> 0 <= j < nb ->
                  compared uplo op i j = true ->
                  within_tolerance (A0 i j) (B0 (i + j * ldb)) = true).
  { intros A0 B0. unfold test_assert_equal. rewrite Hflags.
    destruct (forallb _ (range 0 nb)) eqn:E.
    - split; [| reflexivity]. intros _ i j Hi Hj Hc.
      rewrite forallb_forall in E.
      specialize (E j (proj2 (In_range 0 nb j) Hj)).
      rewrite forallb_forall in E.
      specialize (E i (proj2 (In_range 0 mb i) Hi)).
      now rewrite Hc in E.
    - split; [discriminate |]. intros H. exfalso.
      assert (Et : forallb (fun j =>
                     forallb (fun i =>
                        if compared uplo op i j
                        then within_tolerance (A0 i j) (B0 (i + j * ldb))
                        else true) (range 0 mb)) (range 0 nb) = true).
      { apply forallb_forall. intros j Hj. apply In_range in Hj.
        apply forallb_forall. intros i Hi. apply In_range in Hi.
        destruct (compared uplo op i j) eqn:Hc; [| reflexivity].
        now apply H. }
      rewrite Et in E. discriminate E. }
  split; [| split; [| split]].
  - split; [exact Hflags |]. destruct uplo, op; repeat split; reflexivity.
  - intros i j. unfold compared, general, lower, upper.
    destruct uplo, op; cbn; rewrite ?orb_false_r; try reflexivity;
      rewrite Z.geb_leb; reflexivity.
  - apply Hpass.
  - intros A' B' Hsame.
    destruct (test_assert_equal within_tolerance uplo op mb nb A B ldb)
      as [[] |] eqn:E.
    + apply Hpass. intros i j Hi Hj Hc.
      destruct (Hsame i j Hi Hj Hc) as [-> ->].
      now apply (proj1 (Hpass A B) E).
    + destruct (test_assert_equal within_tolerance uplo op mb nb A' B' ldb)
        as [[] |] eqn:E'; [| reflexivity].
      exfalso. assert (E2 : test_assert_equal within_tolerance uplo op
                              mb nb A B ldb = Some tt).
      { apply Hpass. intros i j Hi Hj Hc.
        destruct (Hsame i j Hi Hj Hc) as [<- <-].
        now apply (proj1 (Hpass A' B') E'). }
      rewrite E2 in E. discriminate E.
Qed.

(** *** The arguments of the test program *)

Lemma In_named (arg : String.string) (r : routines_t) :
  In r (named arg) <-> In r routines /\ name r = arg.
Proof.
  unfold named. rewrite filter_In, String.eqb_eq.
  intuition congruence.
Qed.

Lemma null_rows (r : routines_t) :
  In r routines -> (func r = None <-> name r = String.EmptyString).
Proof.
  unfold routines. intros H.
  repeat (destruct H as [<- | H]; [cbn; split; intros E; congruence |]).
  destruct H.
Qed.

Lemma In_run_named (args : list String.string) (f : option test_func_ptr)
  (nm : String.string) :
  In (run_test f nm) (run_named args)
  <-> In nm (before_help args)
      /\ exists r, In r routines /\ name r = nm /\ func r = f.
Proof.
  induction args as [| a rest IH]; cbn [run_named before_help].
  - cbn. tauto.
  - destruct (is_help a).
    + cbn. split; [intros [H | []]; discriminate H | tauto].
    + rewrite !in_app_iff, in_map_iff, IH. cbn [In]. split.
      * intros [(r & E & Hr) | [H | H]].
        -- injection E as <- <-. apply In_named in Hr.
           destruct Hr as [Hr Hn]. split; [now left |]. now exists r.
        -- destruct (named a); [| destruct H].
           destruct H as [H | [H | []]]; discriminate H.
        -- destruct H as [H1 H2]. split; [now right | exact H2].
      * intros [[<- | Hin] (r & Hr & Hn & Hf)].
        -- left. exists r. rewrite <- Hn, <- Hf. split; [reflexivity |].
           apply In_named. now split.
        -- right. right. split; [exact Hin |]. now exists r.
Qed.

Lemma In_unknown (args : list String.string) (a : String.string) :
  In (print_unknown_routine a) (run_named args)
  <-> In a (before_help args) /\ named a = [].
Proof.
  induction args as [| b rest IH]; cbn [run_named before_help].
  - cbn. tauto.
  - destruct (is_help b).
    + cbn. split; [intros [H | []]; discriminate H | tauto].
    + rewrite !in_app_iff, in_map_iff, IH. cbn [In]. split.
      * intros [(r & E & _) | [H | H]]; [discriminate E | |].
        -- destruct (named b) eqn:En; [| destruct H].
           destruct H as [H | [H | []]]; [discriminate H |].
           injection H as <-. split; [now left | exact En].
        -- destruct H as [H1 H2]. split; [now right | exact H2].
      * intros [[<- | Hin] Hn].
        -- right. left. rewrite Hn. right. now left.
        -- right. right. now split.
Qed.

(** X25. What the test program runs.  Without arguments it runs the eight
    tests of the table, in order.  With arguments it goes through them up
    to the first [-h] or [--help]: an argument that is the name of a test
    runs that test; any other argument but the empty one prints the usage
    and [Unknown routine]; and the empty argument matches the rows that
    separate the sections of the table, whose function is null, so that
    [run_test] is called with a null function exactly when an empty
    argument is reached. *)
Theorem run_tests_arguments (prog : String.string)
  (args : list String.string) :
  run_tests [prog]
  = [run_test (Some test_gemm) "gemm"; run_test (Some test_syrk) "syrk";
     run_test (Some test_herk) "herk"; run_test (Some test_trsm) "trsm";
     run_test (Some test_genorm) "genorm";
     run_test (Some test_potrf) "potrf";
     run_test (Some test_convert_layout) "convert_layout";
     run_test (Some test_device_convert_layout)
              "device_convert_layout"]%string
  /\ (args <> [] ->
      let actions := run_tests (prog :: args) in
      (forall f nm, In (run_test (Some f) nm) actions
                    <-> In nm (before_help args)
                        /\ exists r, In r routines /\ name r = nm
                                     /\ func r = Some f)
      /\ ((exists nm, In (run_test None nm) actions)
          <-> In String.EmptyString (before_help args))
      /\ (forall a, In (print_unknown_routine a) actions
                    <-> In a (before_help args)
                        /\ forall r, In r routines -> name r <> a)).
Proof.
  split; [reflexivity |].
  intros Hargs. cbv zeta.
  assert (E : run_tests (prog :: args) = run_named args).
  { unfold run_tests. cbn [List.length tl].
    destruct args as [| a rest]; [now contradiction Hargs |].
    cbn [List.length].
    replace (Z.of_nat (Datatypes.S (Datatypes.S (List.length rest))) =? 1)
      with false by (symmetry; apply Z.eqb_neq; lia).
    reflexivity. }
  rewrite E. split; [| split].
  - intros f nm. apply In_run_named.
  - split.
    + intros (nm & H). apply In_run_named in H.
      destruct H as (Hin & r & Hr & Hn & Hf).
      apply null_rows in Hf; [| exact Hr]. congruence.
    + intros Hin. exists String.EmptyString. apply In_run_named.
      split; [exact Hin |].
      exists {| name := String.EmptyString; func := None;
                section := newline |}.
      split; [| split; reflexivity].
      unfold routines. do 4 right. now left.
  - intros a. rewrite In_unknown. split.
    + intros [Hin Hn]. split; [exact Hin |].
      intros r Hr Hname.
      assert (Hr' : In r (named a)) by (apply In_named; now split).
      rewrite Hn in Hr'. destruct Hr'.
    + intros [Hin Hn]. split; [exact Hin |].
      destruct (named a) as [| r l] eqn:En; [reflexivity |].
      exfalso. assert (Hr : In r (named a)) by (rewrite En; now left).
      apply In_named in Hr. destruct Hr as [Hr Hname].
      exact (Hn r Hr Hname).
Qed.

End UnitTestFacts.

(** ** The further properties at sample inputs *)

Module MoreExamples.

Import Sample.

(** Four tile columns, lookahead 1: the trailing update of step 0 writes
    columns 2 and 3; the panel task of step 3, created six tasks later,
    writes column 3 and runs after it. *)
Lemma conflicting_accesses_witness :
  runs_after
    (tasks (events (Potrf.potrf_generic HostTask (square Lower 4) 1 no_opts)))
    (Potrf.trailing_task HostTask 4 1 0) (Potrf.panel 4 3).
Proof.
  apply (@OrderFacts.conflicting_accesses_are_ordered Meta _ HostTask
           (square Lower 4) 1 no_opts) with (c := 3).
  - lia.
  - exists 2%nat, 8%nat. split; [lia |]. split; reflexivity.
  - vm_compute. right. left. reflexivity.
  - left. vm_compute. left. reflexivity.
Defined.

(** Four tile columns, lookahead 2: four panel tasks, one trailing update,
    and two lookahead updates at step 1. *)
Lemma task_census_witness :
  let ts := tasks (events (Potrf.potrf (square Lower 4) (with_lookahead 2))) in
  List.length (with_role Panel ts) = 4%nat
  /\ List.length (with_role Trailing ts) = 1%nat
  /\ List.length (step_tasks Lookahead 1 ts) = 2%nat.
Proof.
  assert (Hla : 0 <= get_option (opt_Lookahead (with_lookahead 2)) 1)
    by (vm_compute; discriminate).
  destruct (@CensusFacts.task_census Meta _ (square Lower 4)
              (with_lookahead 2) Hla) as (Hp & Ht & Hl).
  split; [exact Hp |]. split; [exact Ht |].
  apply (Hl 1). vm_compute. split; [discriminate | reflexivity].
Defined.

(** Three tile columns on devices, lookahead 1: the task that releases
    panel 1 names token 3, one past the last column. *)
Lemma tokens_within_vector_witness :
  exists t,
    In t (tasks (events (Potrf.potrf (square Lower 3) (with_target Devices))))
    /\ In 3 (tokens t).
Proof.
  assert (Hla : 0 <= get_option (opt_Lookahead (with_target Devices)) 1)
    by (vm_compute; discriminate).
  assert (Hfits : 0 < get_option (opt_Lookahead (with_target Devices)) 1
                  <= nt (view (Potrf.potrf (square Lower 3)
                                 (with_target Devices))) - 1)
    by (vm_compute; split; [reflexivity | discriminate]).
  exact (proj2 (@CensusFacts.tokens_within_vector Meta _ (square Lower 3)
                  (with_target Devices) Hla) eq_refl eq_refl Hfits).
Defined.

(** A backward solve asked for on devices: the lookahead update of row 1
    at step 2 runs on the host. *)
Lemma backward_updates_witness :
  TrsmACalls.call_target
    (TrsmA.internal_gemmA HostTask (-1) (TrsmA.of_A (sub 1 1 2 2))
       (TrsmA.of_B (sub 2 2 0 0)) 1 (TrsmA.of_B (sub 1 1 0 0)) 1 None None)
  = Some HostTask.
Proof.
  assert (H := @TrsmASweepFacts.backward_updates_run_on_host
                 Z _ Meta _ _ Meta _ _ Devices 1 (square Upper 3) (rect 3 1)
                 no_opts
                 (TrsmA.lookahead_task_bwd (square Upper 3) (rect 3 1) 1 2 1)
                 (TrsmA.internal_gemmA HostTask (-1)
                    (TrsmA.of_A (sub 1 1 2 2)) (TrsmA.of_B (sub 2 2 0 0)) 1
                    (TrsmA.of_B (sub 1 1 0 0)) 1 None None)).
  cbv zeta in H.
  assert (Ht : In (TrsmA.lookahead_task_bwd (square Upper 3) (rect 3 1) 1 2 1)
                  (tasks (TrsmA.sweep Devices 1 (square Upper 3) (rect 3 1)
                            no_opts)))
    by (vm_compute; right; left; reflexivity).
  assert (Hc : In (TrsmA.internal_gemmA HostTask (-1)
                     (TrsmA.of_A (sub 1 1 2 2)) (TrsmA.of_B (sub 2 2 0 0)) 1
                     (TrsmA.of_B (sub 1 1 0 0)) 1 None None)
                  (body (TrsmA.lookahead_task_bwd (square Upper 3)
                           (rect 3 1) 1 2 1)))
    by (vm_compute; left; reflexivity).
  specialize (H Ht Hc).
  change (Uplo_eqb (uplo (square Upper 3)) Lower) with false in H.
  exact (proj1 H eq_refl).
Defined.

(** A backward solve on four tile rows with lookahead 1: at step 2 the
    lookahead task updates row 1 and the trailing task row 0. *)
Lemma solve_partition_witness :
  let ts := tasks (TrsmA.sweep HostTask 1 (square Upper 4) (rect 4 1)
                     no_opts) in
  (forall c, In c (flat_map TrsmA.task_updates (step_tasks Lookahead 2 ts))
             <-> 0 <= c <= 2 - 1 /\ 2 - 1 - 1 < c)
  /\ (forall c, In c (flat_map TrsmA.task_updates (step_tasks Trailing 2 ts))
                <-> 0 <= c <= 2 - 1 - 1).
Proof.
  assert (Hk : 0 <= 2 < mt (rect 4 1))
    by (vm_compute; split; [discriminate | reflexivity]).
  exact (proj2 (@TrsmASweepFacts.solve_partition Z _ Meta _ _ Meta _ _
                  HostTask 1 (square Upper 4) (rect 4 1) no_opts 2 Hk)
               eq_refl).
Defined.

(** Three tile columns on devices, lookahead 1: the panel task of step 0
    has ended when panel 0 is released. *)
Lemma panel_released_witness :
  happens_before
    (tasks (events (Potrf.potrf_devices (square Lower 3) 1 no_opts)))
    (Potrf.panel_dev 3 1 0)
    {| role := Cleanup; depends := [dep_in 1; dep_inout 2];
       priority := None; body := [potrfReleasePanel 0] |}.
Proof.
  apply (@ReleaseOrderFacts.panel_released_after_its_readers Meta _
           (square Lower 3) 1 no_opts) with (p := 0).
  - vm_compute. do 5 right. left. reflexivity.
  - reflexivity.
  - vm_compute. left. reflexivity.
  - vm_compute. left. reflexivity.
Defined.

(** The same factorization under [TileReleaseStrategy::Slate]: the task
    that cleans column 0 waits for the trailing update of step 0. *)
Lemma tiles_cleaned_witness :
  waits_for
    (tasks (events (Potrf.potrf_devices (square Lower 3) 1
                      (set_TileReleaseStrategy TRS_Slate no_opts))))
    (Potrf.trailing_task_dev 3 1 0)
    {| role := Cleanup; depends := [dep_inout 0];
       priority := None; body := [potrfCleanTiles 0] |}.
Proof.
  apply (@ReleaseOrderFacts.tiles_cleaned_after_their_readers Meta _
           (square Lower 3) 1 (set_TileReleaseStrategy TRS_Slate no_opts))
    with (k := 0).
  - vm_compute. do 3 right. left. reflexivity.
  - reflexivity.
  - vm_compute. right. left. reflexivity.
  - vm_compute. left. reflexivity.
Defined.

(** A diagonal with a NaN entry: the driver throws and leaves its
    arguments alone. *)
Lemma stedc_throws_witness :
  u_stedc [d_one; S754_nan] [d_zero]
  = Throws_domain_error "Input matrix contains Inf or NaN"%string
      ([d_one; S754_nan], [d_zero], tt).
Proof.
  apply (proj1 (@StedcExits.stedc_throws_exactly_on_inf_or_nan
                  double _ unit d_lanst d_lascl (fun Q => Q)
                  (fun Q => Q) (fun _ _ Q _ => Q) u_solve u_sort
                  [d_one; S754_nan] [d_zero] tt no_opts)).
  split; [reflexivity |]. split; reflexivity.
Defined.

(** A forward solve on devices, two tile rows, default lookahead 1: the
    assertions pass with two compute queues, and the lookahead update is
    issued on queue 2. *)
Lemma queues_of_the_solve_witness :
  TrsmA.preconditions Devices (square Lower 2) (rect 2 1) = true
  /\ numComputeQueues (square Lower 2) = 2
  /\ exists t c,
       In t (tasks (TrsmA.sweep Devices 1 (square Lower 2) (rect 2 1)
                      no_opts))
       /\ In c (body t) /\ TrsmACalls.call_queue c = Some 2.
Proof.
  split; [reflexivity |]. split; [reflexivity |].
  assert (Hmax : get_option (opt_Lookahead no_opts) 1 + 1 <= INT_MAX)
    by (vm_compute; discriminate).
  assert (Hq : 2 <= 2 <= get_option (opt_Lookahead no_opts) 1 + 1)
    by (vm_compute; split; discriminate).
  assert (Hrows : 2 <= mt (rect 2 1)) by (vm_compute; discriminate).
  assert (Hnt : 0 < nt (rect 2 1)) by reflexivity.
  exact (proj1 (proj2 (@TrsmAQueueFacts.queues_of_the_solve Z _ Meta _ _
                         Meta _ _ Devices 1 (square Lower 2) (rect 2 1)
                         no_opts Hmax))
               eq_refl Hnt 2 Hq Hrows).
Defined.

(** A forward solve seen from process 0 of a 1 by 2 grid, which owns
    [A(0, 0)] and [B(0, 0)] but not [B(0, 1)]: its panel task of step 0
    sends [B(0, 1)] to process 1 and keeps [B(0, 0)]. *)
Lemma solution_sent_witness :
  let A := {| m_mt := 2; m_nt := 2; m_op := NoTrans; m_uplo := Lower;
              m_p := 1; m_q := 2; m_rank := 0 |} in
  let B := {| m_mt := 2; m_nt := 2; m_op := NoTrans; m_uplo := General;
              m_p := 1; m_q := 2; m_rank := 0 |} in
  let t := TrsmA.panel_fwd HostTask 1 A B 2 2 1
             (TrsmA.local_options no_opts) 0 in
  TrsmACalls.task_sends t = [(0, 1, 1)] /\ TrsmACalls.task_receives t = [].
Proof.
  intros A B t.
  assert (Hin : In t (tasks (TrsmA.sweep HostTask 1 A B no_opts)))
    by (vm_compute; left; reflexivity).
  destruct (proj2 (proj2
              (@TrsmAQueueFacts.solution_sent_or_received Z _ Meta _ _
                 Meta _ _ HostTask 1 A B no_opts))
              t 0 Hin eq_refl eq_refl) as [Hs Hr].
  rewrite Hs, Hr. split; reflexivity.
Defined.

(** Four tile columns on devices, lookahead 2: at step 0 the two lookahead
    updates use queues 2 and 3. *)
Lemma queues_of_a_step_witness :
  ~ In 2 (task_queues (Potrf.lookahead_task_dev 4 0 2)).
Proof.
  assert (Hla : 0 <= 2) by lia.
  assert (Hmax : 2 + 2 <= INT_MAX) by (vm_compute; discriminate).
  apply (@ReleaseOrderFacts.queues_of_a_step_are_separate Meta _
           (square Lower 4) 2 no_opts Hla Hmax 0
           (Potrf.lookahead_task_dev 4 0 1) (Potrf.lookahead_task_dev 4 0 2)).
  - vm_compute. do 2 right. left. reflexivity.
  - vm_compute. do 3 right. left. reflexivity.
  - discriminate.
  - vm_compute. left. reflexivity.
Defined.

(** A backward solve on three tile rows with [alpha = 2]: the panel task
    of step 2 scales row 0, which the panel task of step 0, created five
    tasks later, solves. *)
Lemma backward_sweep_witness :
  happens_before
    (tasks (TrsmA.sweep HostTask 2 (square Upper 3) (rect 3 1) no_opts))
    (TrsmA.panel_bwd HostTask 2 (square Upper 3) (rect 3 1) 3 1 no_opts 2)
    (TrsmA.panel_bwd HostTask 2 (square Upper 3) (rect 3 1) 3 1 no_opts 0).
Proof.
  assert (Hla : 0 <= get_option (opt_Lookahead no_opts) 1)
    by (vm_compute; discriminate).
  assert (Hup : Uplo_eqb (uplo (square Upper 3)) Lower = false)
    by reflexivity.
  apply (@TrsmAOrderFacts.backward_sweep_is_ordered Z _ Meta _ _ Meta _ _
           HostTask 2 (square Upper 3) (rect 3 1) no_opts Hla Hup)
    with (r := 0).
  - exists 0%nat, 5%nat. split; [lia |]. split; reflexivity.
  - left. split.
    + vm_compute. left. reflexivity.
    + left. vm_compute. left. reflexivity.
Defined.

(** A forward solve on three tile rows with [alpha = 2]: the panel task
    of step 0 scales row 2, which the trailing update of the same step
    writes after the barrier of the step. *)
Lemma forward_sweep_witness :
  barrier_between
    (TrsmA.sweep HostTask 2 (square Lower 3) (rect 3 1) no_opts)
    (TrsmA.panel_fwd HostTask 2 (square Lower 3) (rect 3 1) 3 1 1
       (TrsmA.local_options no_opts) 0)
    (TrsmA.trailing_task_fwd HostTask 3 1 1 (TrsmA.local_options no_opts) 0)
  \/ waits_for
       (tasks (TrsmA.sweep HostTask 2 (square Lower 3) (rect 3 1) no_opts))
       (TrsmA.panel_fwd HostTask 2 (square Lower 3) (rect 3 1) 3 1 1
          (TrsmA.local_options no_opts) 0)
       (TrsmA.trailing_task_fwd HostTask 3 1 1
          (TrsmA.local_options no_opts) 0).
Proof.
  assert (Hla : 0 <= get_option (opt_Lookahead no_opts) 1)
    by (vm_compute; discriminate).
  assert (Hlow : Uplo_eqb (uplo (square Lower 3)) Lower = true)
    by reflexivity.
  apply (@TrsmAForwardFacts.forward_sweep_is_ordered Z _ Meta _ _ Meta _ _
           HostTask 2 (square Lower 3) (rect 3 1) no_opts Hla Hlow)
    with (r := 2).
  - exists 0%nat, 2%nat. split; [lia |]. split; reflexivity.
  - left. split.
    + vm_compute. do 2 right. left. reflexivity.
    + left. vm_compute. left. reflexivity.
Defined.

(** Four tile columns on devices, lookahead 1: the trailing update of
    step 0 writes columns 2 and 3; the panel task of step 3 runs after
    it. *)
Lemma conflicting_accesses_on_devices_witness :
  runs_after
    (tasks (events (Potrf.potrf_devices (square Lower 4) 1 no_opts)))
    (Potrf.trailing_task_dev 4 1 0) (Potrf.panel_dev 4 1 3).
Proof.
  assert (Hla : 0 <= 1) by lia.
  apply (@ReleaseOrderFacts.conflicting_accesses_are_ordered_on_devices
           Meta _ (square Lower 4) 1 no_opts Hla) with (c := 3).
  - exists 1%nat, 10%nat. split; [lia |]. split; reflexivity.
  - vm_compute. right. left. reflexivity.
  - left. vm_compute. left. reflexivity.
Defined.

(** The test program called with an empty argument. *)
Lemma run_tests_empty_argument_witness :
  exists nm,
    In (UnitTest.run_test None nm)
       (UnitTest.run_tests ["unit_test"%string; String.EmptyString]).
Proof.
  assert (Hargs : [String.EmptyString] <> []) by discriminate.
  apply (proj1 (proj2 (proj2 (UnitTestFacts.run_tests_arguments
                                "unit_test"%string [String.EmptyString])
                             Hargs))).
  vm_compute. left. reflexivity.
Defined.

End MoreExamples.
